(** * astrict: lowering a glslang AST into an interned Pack

    Shallow embedding of [libs/astrict/src/FromGlsl.cpp] and the properties
    of its interning stores, operator tables and lowering passes.

    Conventions of the embedding.
    - The glslang front end is external: its node classes, [TType],
      [TQualifier], [TSampler] and [TConstUnion] are modelled as the data
      the lowering reads through their accessors, with fields named after
      the accessors.
    - A pointer that the source tests or dereferences is an [option]; a null
      dereference is the panic [NullDereference].
    - [PANIC_PRECONDITION] and a failed [ASSERT_PRECONDITION] abort the pass:
      every lowering function returns a [Result].
    - The [int] counter of a store is a [Z]. [++mLastId] on an [int] that
      holds [INT_MAX] is undefined in C++, so the model counts on and agrees
      with the machine counter as long as that stays in the range of [int];
      [no_overflow] below is this side condition, and the theorems that
      state which ids a store hands out are stated under it. *)

From stdpp Require Import base decidable option list strings countable relations gmap
  fin_maps fin_sets.
From Stdlib Require Import ZArith Lia.

#[local] Open Scope Z_scope.
#[local] Open Scope string_scope.
#[local] Open Scope list_scope.

(** ** Results of a pass that may abort *)

(** The panic sites of the source, one constructor per message. *)
Inductive Panic : Type :=
  | NullDereference
  | FirstArgumentToTextureFunctionMustNotBeNull
  | UnhandledSamplerDimension
  | CannotConvertOperatorToBranchOperator
  | VectorSizeMustBeBetween1And4
  | MatrixColsMustBeBetween2And4
  | MatrixRowsMustBeBetween2And4
  | UnsupportedTypeInt64
  | UnsupportedTypeUint64
  | UnsupportedTypeString
  | NodeMustNotBeNull
  | NodeMustBeASequence
  | UnhandledChildOfRootNode
  | UnhandledChildOfLinkerObjectsNode
  | LeftHandSideOfGlobalVariableDefinitionMustBeSymbol
  | GlobalSymbolDefinitionMustNotTouchLocalSymbols
  | CannotConvertGlslangTypeToType
  | NodeMustBeAFunction
  | SequenceMustBeOfLength1Or2
  | FunctionParametersMustBeAnAggregateNode
  | FunctionParameterMustBeSymbol
  | EncounteredNonRValueInLoopTerminal
  | SwitchNodeConditionWasNotTyped
  | EncounteredNonRValueAsStatement
  | CannotConvertToStatement
  | ConstantUnionValueArrayMustNotBeEmpty
  | ConstantUnionWithMultipleValuesMustBeAVector
  | UnsupportedConstArraySize
  | SwizzleNodeMustBeAnAggregate
  | SwizzleNodeMustBeASequence
  | SelectionNodeBranchWasNotTyped
  | FunctionCallArgumentWasNotTyped
  | OperatorArgumentWasNotTyped.

Inductive Result (A : Type) : Type :=
  | Ok (a : A)
  | Fatal (p : Panic).
Arguments Ok {A} a.
Arguments Fatal {A} p.

Definition bindR {A B} (r : Result A) (k : A → Result B) : Result B :=
  match r with
  | Ok a => k a
  | Fatal p => Fatal p
  end.

Notation "'let*' x ':=' c 'in' k" := (bindR c (λ x, k))
  (at level 10, x pattern, c at level 100, k at level 200).

(** [ASSERT_PRECONDITION(cond, ...)] *)
Definition assertPrecondition (cond : bool) (p : Panic) : Result unit :=
  if cond then Ok tt else Fatal p.

Definition isOk {A} (r : Result A) : bool :=
  match r with Ok _ => true | Fatal _ => false end.

(** ** Identifiers

    Every id type of the Pack wraps one [int]; a store builds one with
    [Id {++mLastId}]. *)
Class IdLike (Id : Type) := {
  of_int : Z → Id;
  to_int : Id → Z;
  to_of_int : ∀ z, to_int (of_int z) = z;
  of_to_int : ∀ i, of_int (to_int i) = i;
}.

Record StringId := mkStringId { stringId : Z }.
Record TypeId := mkTypeId { typeId : Z }.
Record StructId := mkStructId { structId : Z }.
Record GlobalSymbolId := mkGlobalSymbolId { globalSymbolId : Z }.
Record LocalSymbolId := mkLocalSymbolId { localSymbolId : Z }.
Record RValueId := mkRValueId { rvalueId : Z }.
Record FunctionId := mkFunctionId { functionId : Z }.
Record StatementBlockId := mkStatementBlockId { statementBlockId : Z }.

#[global, refine] Instance StringId_IdLike : IdLike StringId :=
  {| of_int := mkStringId; to_int := stringId |}.
Proof. all: by intros []. Defined.
#[global, refine] Instance TypeId_IdLike : IdLike TypeId :=
  {| of_int := mkTypeId; to_int := typeId |}.
Proof. all: by intros []. Defined.
#[global, refine] Instance StructId_IdLike : IdLike StructId :=
  {| of_int := mkStructId; to_int := structId |}.
Proof. all: by intros []. Defined.
#[global, refine] Instance GlobalSymbolId_IdLike : IdLike GlobalSymbolId :=
  {| of_int := mkGlobalSymbolId; to_int := globalSymbolId |}.
Proof. all: by intros []. Defined.
#[global, refine] Instance LocalSymbolId_IdLike : IdLike LocalSymbolId :=
  {| of_int := mkLocalSymbolId; to_int := localSymbolId |}.
Proof. all: by intros []. Defined.
#[global, refine] Instance RValueId_IdLike : IdLike RValueId :=
  {| of_int := mkRValueId; to_int := rvalueId |}.
Proof. all: by intros []. Defined.
#[global, refine] Instance FunctionId_IdLike : IdLike FunctionId :=
  {| of_int := mkFunctionId; to_int := functionId |}.
Proof. all: by intros []. Defined.
#[global, refine] Instance StatementBlockId_IdLike : IdLike StatementBlockId :=
  {| of_int := mkStatementBlockId; to_int := statementBlockId |}.
Proof. all: by intros []. Defined.

#[global] Instance IdLike_eq_dec `{IdLike Id} : EqDecision Id.
Proof.
  intros a b. destruct (decide (to_int a = to_int b)) as [E|E].
  - left. rewrite <- (of_to_int a), <- (of_to_int b). by rewrite E.
  - right. by intros ->.
Defined.

#[global] Instance IdLike_countable `{IdLike Id} : Countable Id :=
  inj_countable' to_int of_int of_to_int.

(** ** Interning stores *)

(** [template<typename Id, typename Value> class IdStoreByValue] *)
Record IdStoreByValue (Id Value : Type) `{Countable Value} := mkIdStoreByValue {
  bv_mLastId : Z;
  bv_mMap : gmap Value Id;
}.
Arguments mkIdStoreByValue {Id Value _ _} _ _.
Arguments bv_mLastId {Id Value _ _} _.
Arguments bv_mMap {Id Value _ _} _.

(** [template<typename Id, typename Value, typename Key> class IdStoreByKey];
    every instance of the source has [Key = long long]. *)
Record IdStoreByKey (Id Value : Type) := mkIdStoreByKey {
  bk_mLastId : Z;
  bk_mMap : gmap Z (Id * Value);
}.
Arguments mkIdStoreByKey {Id Value} _ _.
Arguments bk_mLastId {Id Value} _.
Arguments bk_mMap {Id Value} _.

Module ByValue.
Section ops.
Context {Id Value : Type} `{IdLike Id} `{Countable Value}.

(** A default-constructed store: [mLastId = 0] and an empty map. *)
Definition empty : IdStoreByValue Id Value := mkIdStoreByValue 0 ∅.

(** [Id insert(Value value)]. [++mLastId] is [bv_mLastId s + 1] in [Z]:
    the value of the [int] counter of the source unless that has
    overflowed. *)
Definition insert (value : Value) (s : IdStoreByValue Id Value)
    : Id * IdStoreByValue Id Value :=
  match bv_mMap s !! value with
  | None =>
      let id := of_int (bv_mLastId s + 1) in
      (id, mkIdStoreByValue (bv_mLastId s + 1) (<[value := id]> (bv_mMap s)))
  | Some id => (id, s)
  end.

(** [std::unordered_map<Id, Value> getFinal()] *)
Definition getFinal (s : IdStoreByValue Id Value) : gmap Id Value :=
  foldr (λ p r, <[p.2 := p.1]> r) ∅ (map_to_list (bv_mMap s)).

(** A run of inserts, collecting the returned ids. *)
Fixpoint insertAll (values : list Value) (s : IdStoreByValue Id Value)
    : list Id * IdStoreByValue Id Value :=
  match values with
  | [] => ([], s)
  | v :: vs =>
      let '(id, s1) := insert v s in
      let '(ids, s2) := insertAll vs s1 in
      (id :: ids, s2)
  end.
End ops.
End ByValue.

Module ByKey.
Section ops.
Context {Id Value : Type} `{IdLike Id}.

Definition empty : IdStoreByKey Id Value := mkIdStoreByKey 0 ∅.

(** [Id insert(Key key, Value value)]. [++mLastId] is [bk_mLastId s + 1]
    in [Z]: the value of the [int] counter of the source unless that has
    overflowed. *)
Definition insert (key : Z) (value : Value) (s : IdStoreByKey Id Value)
    : Id * IdStoreByKey Id Value :=
  match bk_mMap s !! key with
  | None =>
      let id := of_int (bk_mLastId s + 1) in
      (id, mkIdStoreByKey (bk_mLastId s + 1) (<[key := (id, value)]> (bk_mMap s)))
  | Some p => (p.1, s)
  end.

(** [std::optional<Id> get(Key key)] *)
Definition get (key : Z) (s : IdStoreByKey Id Value) : option Id :=
  match bk_mMap s !! key with
  | None => None
  | Some p => Some p.1
  end.

(** [std::unordered_map<Id, Value> getFinal()] *)
Definition getFinal (s : IdStoreByKey Id Value) : gmap Id Value :=
  foldr (λ kp r, <[kp.2.1 := kp.2.2]> r) ∅ (map_to_list (bk_mMap s)).

(** [bool empty() const] *)
Definition isEmpty (s : IdStoreByKey Id Value) : bool :=
  bool_decide (bk_mMap s = ∅).

Fixpoint insertAll (kvs : list (Z * Value)) (s : IdStoreByKey Id Value)
    : list Id * IdStoreByKey Id Value :=
  match kvs with
  | [] => ([], s)
  | (k, v) :: rest =>
      let '(id, s1) := insert k v s in
      let '(ids, s2) := insertAll rest s1 in
      (id :: ids, s2)
  end.
End ops.
End ByKey.

(** ** Canonical operator tags

    [enum class RValueOperator] and [enum class BranchOperator] are declared
    in [Types.h]; the constructors below are the enumerators this file
    produces. *)
Module RValueOperator.
Inductive t : Type :=
  | Negative | LogicalNot | BitwiseNot | PostIncrement | PostDecrement | PreIncrement
  | PreDecrement | Add | Sub | Mul | Div | Mod | RightShift | LeftShift | And
  | InclusiveOr | ExclusiveOr | Equal | NotEqual | LessThan | GreaterThan
  | LessThanEqual | GreaterThanEqual | Comma | LogicalOr | LogicalXor | LogicalAnd
  | Index | IndexStruct | VectorSwizzle | ConstructStruct | Assign | AddAssign
  | SubAssign | MulAssign | DivAssign | ModAssign | AndAssign | InclusiveOrAssign
  | ExclusiveOrAssign | LeftShiftAssign | RightShiftAssign | ArrayLength | Ternary.

Definition code (o : t) : nat :=
  match o with
  | Negative => 0 | LogicalNot => 1 | BitwiseNot => 2 | PostIncrement => 3
  | PostDecrement => 4 | PreIncrement => 5 | PreDecrement => 6 | Add => 7 | Sub => 8
  | Mul => 9 | Div => 10 | Mod => 11 | RightShift => 12 | LeftShift => 13 | And => 14
  | InclusiveOr => 15 | ExclusiveOr => 16 | Equal => 17 | NotEqual => 18
  | LessThan => 19 | GreaterThan => 20 | LessThanEqual => 21 | GreaterThanEqual => 22
  | Comma => 23 | LogicalOr => 24 | LogicalXor => 25 | LogicalAnd => 26 | Index => 27
  | IndexStruct => 28 | VectorSwizzle => 29 | ConstructStruct => 30 | Assign => 31
  | AddAssign => 32 | SubAssign => 33 | MulAssign => 34 | DivAssign => 35
  | ModAssign => 36 | AndAssign => 37 | InclusiveOrAssign => 38
  | ExclusiveOrAssign => 39 | LeftShiftAssign => 40 | RightShiftAssign => 41
  | ArrayLength => 42 | Ternary => 43
  end.

Definition of_code (n : nat) : t :=
  match n with
  | 0 => Negative | 1 => LogicalNot | 2 => BitwiseNot | 3 => PostIncrement
  | 4 => PostDecrement | 5 => PreIncrement | 6 => PreDecrement | 7 => Add | 8 => Sub
  | 9 => Mul | 10 => Div | 11 => Mod | 12 => RightShift | 13 => LeftShift | 14 => And
  | 15 => InclusiveOr | 16 => ExclusiveOr | 17 => Equal | 18 => NotEqual
  | 19 => LessThan | 20 => GreaterThan | 21 => LessThanEqual | 22 => GreaterThanEqual
  | 23 => Comma | 24 => LogicalOr | 25 => LogicalXor | 26 => LogicalAnd | 27 => Index
  | 28 => IndexStruct | 29 => VectorSwizzle | 30 => ConstructStruct | 31 => Assign
  | 32 => AddAssign | 33 => SubAssign | 34 => MulAssign | 35 => DivAssign
  | 36 => ModAssign | 37 => AndAssign | 38 => InclusiveOrAssign
  | 39 => ExclusiveOrAssign | 40 => LeftShiftAssign | 41 => RightShiftAssign
  | 42 => ArrayLength
  | _ => Ternary
  end%nat.

#[global] Instance eq_dec : EqDecision t.
Proof.
  intros a b. destruct (decide (code a = code b)) as [E|E].
  - left. transitivity (of_code (code a)); [by destruct a|].
    rewrite E. by destruct b.
  - right. by intros ->.
Defined.

#[global] Instance countable : Countable t.
Proof. refine (inj_countable' code of_code _). by intros []. Defined.
End RValueOperator.

Module BranchOperator.
Inductive t : Type :=
  | Discard | TerminateInvocation | Demote | TerminateRayEXT | IgnoreIntersectionEXT
  | Return | Break | Continue | Case | Default.

Definition code (o : t) : nat :=
  match o with
  | Discard => 0 | TerminateInvocation => 1 | Demote => 2 | TerminateRayEXT => 3
  | IgnoreIntersectionEXT => 4 | Return => 5 | Break => 6 | Continue => 7
  | Case => 8 | Default => 9
  end.

Definition of_code (n : nat) : t :=
  match n with
  | 0 => Discard | 1 => TerminateInvocation | 2 => Demote | 3 => TerminateRayEXT
  | 4 => IgnoreIntersectionEXT | 5 => Return | 6 => Break | 7 => Continue
  | 8 => Case | _ => Default
  end%nat.

#[global] Instance eq_dec : EqDecision t.
Proof.
  intros a b. destruct (decide (code a = code b)) as [E|E].
  - left. transitivity (of_code (code a)); [by destruct a|].
    rewrite E. by destruct b.
  - right. by intros ->.
Defined.

#[global] Instance countable : Countable t.
Proof. refine (inj_countable' code of_code _). by intros []. Defined.
End BranchOperator.

(** ** The glslang front end, as the lowering observes it *)

(** [glslang::TOperator]: the enumerators this file names, in the order of
    their first use; [EOpOther] stands for every other enumerator of the
    upstream enum. *)
Inductive TOperator : Type :=
  | EOpNegative | EOpLogicalNot | EOpVectorLogicalNot | EOpBitwiseNot | EOpPostIncrement
  | EOpPostDecrement | EOpPreIncrement | EOpPreDecrement | EOpConvIntToBool
  | EOpConvUintToBool | EOpConvFloatToBool | EOpConvDoubleToBool | EOpConvBoolToInt
  | EOpConvUintToInt | EOpConvFloatToInt | EOpConvDoubleToInt | EOpConvBoolToFloat
  | EOpConvIntToFloat | EOpConvUintToFloat | EOpConvDoubleToFloat | EOpConvBoolToDouble
  | EOpConvIntToDouble | EOpConvUintToDouble | EOpConvFloatToDouble | EOpConvBoolToUint
  | EOpConvIntToUint | EOpConvFloatToUint | EOpConvDoubleToUint | EOpAdd | EOpSub | EOpMul
  | EOpVectorTimesScalar | EOpVectorTimesMatrix | EOpMatrixTimesVector
  | EOpMatrixTimesScalar | EOpDiv | EOpMod | EOpRightShift | EOpLeftShift | EOpAnd
  | EOpInclusiveOr | EOpExclusiveOr | EOpEqual | EOpNotEqual | EOpVectorEqual
  | EOpVectorNotEqual | EOpLessThan | EOpGreaterThan | EOpLessThanEqual
  | EOpGreaterThanEqual | EOpComma | EOpLogicalOr | EOpLogicalXor | EOpLogicalAnd
  | EOpIndexDirect | EOpIndexIndirect | EOpIndexDirectStruct | EOpVectorSwizzle
  | EOpRadians | EOpDegrees | EOpSin | EOpCos | EOpTan | EOpAsin | EOpAcos | EOpAtan
  | EOpSinh | EOpCosh | EOpTanh | EOpAsinh | EOpAcosh | EOpAtanh | EOpPow | EOpExp | EOpLog
  | EOpExp2 | EOpLog2 | EOpSqrt | EOpInverseSqrt | EOpAbs | EOpSign | EOpFloor | EOpTrunc
  | EOpRound | EOpRoundEven | EOpCeil | EOpFract | EOpModf | EOpMin | EOpMax | EOpClamp
  | EOpMix | EOpStep | EOpSmoothStep | EOpIsNan | EOpIsInf | EOpFma | EOpFrexp | EOpLdexp
  | EOpFloatBitsToInt | EOpFloatBitsToUint | EOpIntBitsToFloat | EOpUintBitsToFloat
  | EOpPackSnorm2x16 | EOpUnpackSnorm2x16 | EOpPackUnorm2x16 | EOpUnpackUnorm2x16
  | EOpPackSnorm4x8 | EOpUnpackSnorm4x8 | EOpPackUnorm4x8 | EOpUnpackUnorm4x8
  | EOpPackHalf2x16 | EOpUnpackHalf2x16 | EOpPackDouble2x32 | EOpUnpackDouble2x32
  | EOpPackInt2x32 | EOpUnpackInt2x32 | EOpPackUint2x32 | EOpUnpackUint2x32
  | EOpPackFloat2x16 | EOpUnpackFloat2x16 | EOpPackInt2x16 | EOpUnpackInt2x16
  | EOpPackUint2x16 | EOpUnpackUint2x16 | EOpPackInt4x16 | EOpUnpackInt4x16
  | EOpPackUint4x16 | EOpUnpackUint4x16 | EOpPack16 | EOpPack32 | EOpPack64 | EOpUnpack32
  | EOpUnpack16 | EOpUnpack8 | EOpLength | EOpDistance | EOpDot | EOpCross | EOpNormalize
  | EOpFaceForward | EOpReflect | EOpRefract | EOpMin3 | EOpMax3 | EOpMid3 | EOpDPdx
  | EOpDPdy | EOpFwidth | EOpDPdxFine | EOpDPdyFine | EOpFwidthFine | EOpDPdxCoarse
  | EOpDPdyCoarse | EOpFwidthCoarse | EOpInterpolateAtCentroid | EOpInterpolateAtSample
  | EOpInterpolateAtOffset | EOpInterpolateAtVertex | EOpOuterProduct | EOpDeterminant
  | EOpMatrixInverse | EOpTranspose | EOpFtransform | EOpEmitVertex | EOpEndPrimitive
  | EOpEmitStreamVertex | EOpEndStreamPrimitive | EOpBarrier | EOpMemoryBarrier
  | EOpMemoryBarrierAtomicCounter | EOpMemoryBarrierBuffer | EOpMemoryBarrierImage
  | EOpMemoryBarrierShared | EOpGroupMemoryBarrier | EOpBallot | EOpReadInvocation
  | EOpReadFirstInvocation | EOpAnyInvocation | EOpAllInvocations | EOpAllInvocationsEqual
  | EOpSubgroupBarrier | EOpSubgroupMemoryBarrier | EOpSubgroupMemoryBarrierBuffer
  | EOpSubgroupMemoryBarrierImage | EOpSubgroupMemoryBarrierShared | EOpSubgroupElect
  | EOpSubgroupAll | EOpSubgroupAny | EOpSubgroupAllEqual | EOpSubgroupBroadcast
  | EOpSubgroupBroadcastFirst | EOpSubgroupBallot | EOpSubgroupInverseBallot
  | EOpSubgroupBallotBitExtract | EOpSubgroupBallotBitCount
  | EOpSubgroupBallotInclusiveBitCount | EOpSubgroupBallotExclusiveBitCount
  | EOpSubgroupBallotFindLSB | EOpSubgroupBallotFindMSB | EOpSubgroupShuffle
  | EOpSubgroupShuffleXor | EOpSubgroupShuffleUp | EOpSubgroupShuffleDown | EOpSubgroupAdd
  | EOpSubgroupMul | EOpSubgroupMin | EOpSubgroupMax | EOpSubgroupAnd | EOpSubgroupOr
  | EOpSubgroupXor | EOpSubgroupInclusiveAdd | EOpSubgroupInclusiveMul
  | EOpSubgroupInclusiveMin | EOpSubgroupInclusiveMax | EOpSubgroupInclusiveAnd
  | EOpSubgroupInclusiveOr | EOpSubgroupInclusiveXor | EOpSubgroupExclusiveAdd
  | EOpSubgroupExclusiveMul | EOpSubgroupExclusiveMin | EOpSubgroupExclusiveMax
  | EOpSubgroupExclusiveAnd | EOpSubgroupExclusiveOr | EOpSubgroupExclusiveXor
  | EOpSubgroupClusteredAdd | EOpSubgroupClusteredMul | EOpSubgroupClusteredMin
  | EOpSubgroupClusteredMax | EOpSubgroupClusteredAnd | EOpSubgroupClusteredOr
  | EOpSubgroupClusteredXor | EOpSubgroupQuadBroadcast | EOpSubgroupQuadSwapHorizontal
  | EOpSubgroupQuadSwapVertical | EOpSubgroupQuadSwapDiagonal | EOpSubgroupPartition
  | EOpSubgroupPartitionedAdd | EOpSubgroupPartitionedMul | EOpSubgroupPartitionedMin
  | EOpSubgroupPartitionedMax | EOpSubgroupPartitionedAnd | EOpSubgroupPartitionedOr
  | EOpSubgroupPartitionedXor | EOpSubgroupPartitionedInclusiveAdd
  | EOpSubgroupPartitionedInclusiveMul | EOpSubgroupPartitionedInclusiveMin
  | EOpSubgroupPartitionedInclusiveMax | EOpSubgroupPartitionedInclusiveAnd
  | EOpSubgroupPartitionedInclusiveOr | EOpSubgroupPartitionedInclusiveXor
  | EOpSubgroupPartitionedExclusiveAdd | EOpSubgroupPartitionedExclusiveMul
  | EOpSubgroupPartitionedExclusiveMin | EOpSubgroupPartitionedExclusiveMax
  | EOpSubgroupPartitionedExclusiveAnd | EOpSubgroupPartitionedExclusiveOr
  | EOpSubgroupPartitionedExclusiveXor | EOpMinInvocations | EOpMaxInvocations
  | EOpAddInvocations | EOpMinInvocationsNonUniform | EOpMaxInvocationsNonUniform
  | EOpAddInvocationsNonUniform | EOpMinInvocationsInclusiveScan
  | EOpMaxInvocationsInclusiveScan | EOpAddInvocationsInclusiveScan
  | EOpMinInvocationsInclusiveScanNonUniform | EOpMaxInvocationsInclusiveScanNonUniform
  | EOpAddInvocationsInclusiveScanNonUniform | EOpMinInvocationsExclusiveScan
  | EOpMaxInvocationsExclusiveScan | EOpAddInvocationsExclusiveScan
  | EOpMinInvocationsExclusiveScanNonUniform | EOpMaxInvocationsExclusiveScanNonUniform
  | EOpAddInvocationsExclusiveScanNonUniform | EOpSwizzleInvocations
  | EOpSwizzleInvocationsMasked | EOpWriteInvocation | EOpMbcnt | EOpCubeFaceIndex
  | EOpCubeFaceCoord | EOpTime | EOpAtomicAdd | EOpAtomicMin | EOpAtomicMax | EOpAtomicAnd
  | EOpAtomicOr | EOpAtomicXor | EOpAtomicExchange | EOpAtomicCompSwap | EOpAtomicLoad
  | EOpAtomicStore | EOpAtomicCounterIncrement | EOpAtomicCounterDecrement
  | EOpAtomicCounter | EOpAtomicCounterAdd | EOpAtomicCounterSubtract | EOpAtomicCounterMin
  | EOpAtomicCounterMax | EOpAtomicCounterAnd | EOpAtomicCounterOr | EOpAtomicCounterXor
  | EOpAtomicCounterExchange | EOpAtomicCounterCompSwap | EOpAny | EOpAll
  | EOpCooperativeMatrixLoad | EOpCooperativeMatrixStore | EOpCooperativeMatrixMulAdd
  | EOpCooperativeMatrixLoadNV | EOpCooperativeMatrixStoreNV | EOpCooperativeMatrixMulAddNV
  | EOpBeginInvocationInterlock | EOpEndInvocationInterlock | EOpIsHelperInvocation
  | EOpDebugPrintf | EOpConstructInt | EOpConstructUint | EOpConstructInt8
  | EOpConstructUint8 | EOpConstructInt16 | EOpConstructUint16 | EOpConstructInt64
  | EOpConstructUint64 | EOpConstructBool | EOpConstructFloat | EOpConstructDouble
  | EOpConstructVec2 | EOpConstructVec3 | EOpConstructVec4 | EOpConstructMat2x2
  | EOpConstructMat2x3 | EOpConstructMat2x4 | EOpConstructMat3x2 | EOpConstructMat3x3
  | EOpConstructMat3x4 | EOpConstructMat4x2 | EOpConstructMat4x3 | EOpConstructMat4x4
  | EOpConstructDVec2 | EOpConstructDVec3 | EOpConstructDVec4 | EOpConstructBVec2
  | EOpConstructBVec3 | EOpConstructBVec4 | EOpConstructI8Vec2 | EOpConstructI8Vec3
  | EOpConstructI8Vec4 | EOpConstructU8Vec2 | EOpConstructU8Vec3 | EOpConstructU8Vec4
  | EOpConstructI16Vec2 | EOpConstructI16Vec3 | EOpConstructI16Vec4 | EOpConstructU16Vec2
  | EOpConstructU16Vec3 | EOpConstructU16Vec4 | EOpConstructIVec2 | EOpConstructIVec3
  | EOpConstructIVec4 | EOpConstructUVec2 | EOpConstructUVec3 | EOpConstructUVec4
  | EOpConstructI64Vec2 | EOpConstructI64Vec3 | EOpConstructI64Vec4 | EOpConstructU64Vec2
  | EOpConstructU64Vec3 | EOpConstructU64Vec4 | EOpConstructDMat2x2 | EOpConstructDMat2x3
  | EOpConstructDMat2x4 | EOpConstructDMat3x2 | EOpConstructDMat3x3 | EOpConstructDMat3x4
  | EOpConstructDMat4x2 | EOpConstructDMat4x3 | EOpConstructDMat4x4 | EOpConstructIMat2x2
  | EOpConstructIMat2x3 | EOpConstructIMat2x4 | EOpConstructIMat3x2 | EOpConstructIMat3x3
  | EOpConstructIMat3x4 | EOpConstructIMat4x2 | EOpConstructIMat4x3 | EOpConstructIMat4x4
  | EOpConstructUMat2x2 | EOpConstructUMat2x3 | EOpConstructUMat2x4 | EOpConstructUMat3x2
  | EOpConstructUMat3x3 | EOpConstructUMat3x4 | EOpConstructUMat4x2 | EOpConstructUMat4x3
  | EOpConstructUMat4x4 | EOpConstructBMat2x2 | EOpConstructBMat2x3 | EOpConstructBMat2x4
  | EOpConstructBMat3x2 | EOpConstructBMat3x3 | EOpConstructBMat3x4 | EOpConstructBMat4x2
  | EOpConstructBMat4x3 | EOpConstructBMat4x4 | EOpConstructFloat16 | EOpConstructF16Vec2
  | EOpConstructF16Vec3 | EOpConstructF16Vec4 | EOpConstructF16Mat2x2
  | EOpConstructF16Mat2x3 | EOpConstructF16Mat2x4 | EOpConstructF16Mat3x2
  | EOpConstructF16Mat3x3 | EOpConstructF16Mat3x4 | EOpConstructF16Mat4x2
  | EOpConstructF16Mat4x3 | EOpConstructF16Mat4x4 | EOpConstructStruct
  | EOpConstructTextureSampler | EOpConstructNonuniform | EOpConstructReference
  | EOpConstructCooperativeMatrixNV | EOpConstructCooperativeMatrixKHR | EOpAssign
  | EOpAddAssign | EOpSubAssign | EOpMulAssign | EOpVectorTimesMatrixAssign
  | EOpVectorTimesScalarAssign | EOpMatrixTimesScalarAssign | EOpMatrixTimesMatrixAssign
  | EOpDivAssign | EOpModAssign | EOpAndAssign | EOpInclusiveOrAssign
  | EOpExclusiveOrAssign | EOpLeftShiftAssign | EOpRightShiftAssign | EOpArrayLength
  | EOpImageQuerySize | EOpImageQuerySamples | EOpImageLoad | EOpImageStore
  | EOpImageLoadLod | EOpImageStoreLod | EOpImageAtomicAdd | EOpImageAtomicMin
  | EOpImageAtomicMax | EOpImageAtomicAnd | EOpImageAtomicOr | EOpImageAtomicXor
  | EOpImageAtomicExchange | EOpImageAtomicCompSwap | EOpImageAtomicLoad
  | EOpImageAtomicStore | EOpSubpassLoad | EOpSubpassLoadMS | EOpSparseImageLoad
  | EOpSparseImageLoadLod | EOpColorAttachmentReadEXT | EOpTextureQuerySize
  | EOpTextureQueryLod | EOpTextureQueryLevels | EOpTextureQuerySamples | EOpTexture
  | EOpTextureProj | EOpTextureLod | EOpTextureOffset | EOpTextureFetch
  | EOpTextureFetchOffset | EOpTextureProjOffset | EOpTextureLodOffset | EOpTextureProjLod
  | EOpTextureProjLodOffset | EOpTextureGrad | EOpTextureGradOffset | EOpTextureProjGrad
  | EOpTextureProjGradOffset | EOpTextureGather | EOpTextureGatherOffset
  | EOpTextureGatherOffsets | EOpTextureClamp | EOpTextureOffsetClamp | EOpTextureGradClamp
  | EOpTextureGradOffsetClamp | EOpTextureGatherLod | EOpTextureGatherLodOffset
  | EOpTextureGatherLodOffsets | EOpFragmentMaskFetch | EOpFragmentFetch | EOpSparseTexture
  | EOpSparseTextureLod | EOpSparseTextureOffset | EOpSparseTextureFetch
  | EOpSparseTextureFetchOffset | EOpSparseTextureLodOffset | EOpSparseTextureGrad
  | EOpSparseTextureGradOffset | EOpSparseTextureGather | EOpSparseTextureGatherOffset
  | EOpSparseTextureGatherOffsets | EOpSparseTexelsResident | EOpSparseTextureClamp
  | EOpSparseTextureOffsetClamp | EOpSparseTextureGradClamp
  | EOpSparseTextureGradOffsetClamp | EOpSparseTextureGatherLod
  | EOpSparseTextureGatherLodOffset | EOpSparseTextureGatherLodOffsets
  | EOpImageSampleFootprintNV | EOpImageSampleFootprintClampNV
  | EOpImageSampleFootprintLodNV | EOpImageSampleFootprintGradNV
  | EOpImageSampleFootprintGradClampNV | EOpAddCarry | EOpSubBorrow | EOpUMulExtended
  | EOpIMulExtended | EOpBitfieldExtract | EOpBitfieldInsert | EOpBitFieldReverse
  | EOpBitCount | EOpFindLSB | EOpFindMSB | EOpCountLeadingZeros | EOpCountTrailingZeros
  | EOpAbsDifference | EOpAddSaturate | EOpSubSaturate | EOpAverage | EOpAverageRounded
  | EOpMul32x16 | EOpTraceNV | EOpTraceRayMotionNV | EOpTraceKHR | EOpReportIntersection
  | EOpIgnoreIntersectionNV | EOpTerminateRayNV | EOpExecuteCallableNV
  | EOpExecuteCallableKHR | EOpWritePackedPrimitiveIndices4x8NV | EOpEmitMeshTasksEXT
  | EOpSetMeshOutputsEXT | EOpRayQueryInitialize | EOpRayQueryTerminate
  | EOpRayQueryGenerateIntersection | EOpRayQueryConfirmIntersection | EOpRayQueryProceed
  | EOpRayQueryGetIntersectionType | EOpRayQueryGetRayTMin | EOpRayQueryGetRayFlags
  | EOpRayQueryGetIntersectionT | EOpRayQueryGetIntersectionInstanceCustomIndex
  | EOpRayQueryGetIntersectionInstanceId
  | EOpRayQueryGetIntersectionInstanceShaderBindingTableRecordOffset
  | EOpRayQueryGetIntersectionGeometryIndex | EOpRayQueryGetIntersectionPrimitiveIndex
  | EOpRayQueryGetIntersectionBarycentrics | EOpRayQueryGetIntersectionFrontFace
  | EOpRayQueryGetIntersectionCandidateAABBOpaque
  | EOpRayQueryGetIntersectionObjectRayDirection
  | EOpRayQueryGetIntersectionObjectRayOrigin | EOpRayQueryGetWorldRayDirection
  | EOpRayQueryGetWorldRayOrigin | EOpRayQueryGetIntersectionObjectToWorld
  | EOpRayQueryGetIntersectionWorldToObject | EOpHitObjectTraceRayNV
  | EOpHitObjectTraceRayMotionNV | EOpHitObjectRecordHitNV | EOpHitObjectRecordHitMotionNV
  | EOpHitObjectRecordHitWithIndexNV | EOpHitObjectRecordHitWithIndexMotionNV
  | EOpHitObjectRecordMissNV | EOpHitObjectRecordMissMotionNV | EOpHitObjectRecordEmptyNV
  | EOpHitObjectExecuteShaderNV | EOpHitObjectIsEmptyNV | EOpHitObjectIsMissNV
  | EOpHitObjectIsHitNV | EOpHitObjectGetRayTMinNV | EOpHitObjectGetRayTMaxNV
  | EOpHitObjectGetObjectRayOriginNV | EOpHitObjectGetObjectRayDirectionNV
  | EOpHitObjectGetWorldRayOriginNV | EOpHitObjectGetWorldRayDirectionNV
  | EOpHitObjectGetWorldToObjectNV | EOpHitObjectGetObjectToWorldNV
  | EOpHitObjectGetInstanceCustomIndexNV | EOpHitObjectGetInstanceIdNV
  | EOpHitObjectGetGeometryIndexNV | EOpHitObjectGetPrimitiveIndexNV
  | EOpHitObjectGetHitKindNV | EOpHitObjectGetShaderBindingTableRecordIndexNV
  | EOpHitObjectGetShaderRecordBufferHandleNV | EOpHitObjectGetAttributesNV
  | EOpHitObjectGetCurrentTimeNV | EOpReorderThreadNV
  | EOpFetchMicroTriangleVertexPositionNV | EOpFetchMicroTriangleVertexBarycentricNV
  | EOpReadClockSubgroupKHR | EOpReadClockDeviceKHR
  | EOpRayQueryGetIntersectionTriangleVertexPositionsEXT | EOpStencilAttachmentReadEXT
  | EOpDepthAttachmentReadEXT | EOpImageSampleWeightedQCOM | EOpImageBoxFilterQCOM
  | EOpImageBlockMatchSADQCOM | EOpImageBlockMatchSSDQCOM | EOpKill
  | EOpTerminateInvocation | EOpDemote | EOpTerminateRayKHR | EOpIgnoreIntersectionKHR
  | EOpReturn | EOpBreak | EOpContinue | EOpCase | EOpDefault | EOpSequence
  | EOpLinkerObjects | EOpFunction | EOpParameters | EOpFunctionCall
  | EOpOther (tag : N).

(** The named operators in the order of the listing of [TOperator], and the
    position of an operator in that listing: an injective numbering, used to
    decide equality of operators. *)
Definition TOperator_named : list TOperator :=
  [
    EOpNegative; EOpLogicalNot; EOpVectorLogicalNot; EOpBitwiseNot; EOpPostIncrement;
    EOpPostDecrement; EOpPreIncrement; EOpPreDecrement; EOpConvIntToBool;
    EOpConvUintToBool; EOpConvFloatToBool; EOpConvDoubleToBool; EOpConvBoolToInt;
    EOpConvUintToInt; EOpConvFloatToInt; EOpConvDoubleToInt; EOpConvBoolToFloat;
    EOpConvIntToFloat; EOpConvUintToFloat; EOpConvDoubleToFloat; EOpConvBoolToDouble;
    EOpConvIntToDouble; EOpConvUintToDouble; EOpConvFloatToDouble; EOpConvBoolToUint;
    EOpConvIntToUint; EOpConvFloatToUint; EOpConvDoubleToUint; EOpAdd; EOpSub; EOpMul;
    EOpVectorTimesScalar; EOpVectorTimesMatrix; EOpMatrixTimesVector; EOpMatrixTimesScalar;
    EOpDiv; EOpMod; EOpRightShift; EOpLeftShift; EOpAnd; EOpInclusiveOr; EOpExclusiveOr;
    EOpEqual; EOpNotEqual; EOpVectorEqual; EOpVectorNotEqual; EOpLessThan; EOpGreaterThan;
    EOpLessThanEqual; EOpGreaterThanEqual; EOpComma; EOpLogicalOr; EOpLogicalXor;
    EOpLogicalAnd; EOpIndexDirect; EOpIndexIndirect; EOpIndexDirectStruct;
    EOpVectorSwizzle; EOpRadians; EOpDegrees; EOpSin; EOpCos; EOpTan; EOpAsin; EOpAcos;
    EOpAtan; EOpSinh; EOpCosh; EOpTanh; EOpAsinh; EOpAcosh; EOpAtanh; EOpPow; EOpExp;
    EOpLog; EOpExp2; EOpLog2; EOpSqrt; EOpInverseSqrt; EOpAbs; EOpSign; EOpFloor; EOpTrunc;
    EOpRound; EOpRoundEven; EOpCeil; EOpFract; EOpModf; EOpMin; EOpMax; EOpClamp; EOpMix;
    EOpStep; EOpSmoothStep; EOpIsNan; EOpIsInf; EOpFma; EOpFrexp; EOpLdexp;
    EOpFloatBitsToInt; EOpFloatBitsToUint; EOpIntBitsToFloat; EOpUintBitsToFloat;
    EOpPackSnorm2x16; EOpUnpackSnorm2x16; EOpPackUnorm2x16; EOpUnpackUnorm2x16;
    EOpPackSnorm4x8; EOpUnpackSnorm4x8; EOpPackUnorm4x8; EOpUnpackUnorm4x8;
    EOpPackHalf2x16; EOpUnpackHalf2x16; EOpPackDouble2x32; EOpUnpackDouble2x32;
    EOpPackInt2x32; EOpUnpackInt2x32; EOpPackUint2x32; EOpUnpackUint2x32; EOpPackFloat2x16;
    EOpUnpackFloat2x16; EOpPackInt2x16; EOpUnpackInt2x16; EOpPackUint2x16;
    EOpUnpackUint2x16; EOpPackInt4x16; EOpUnpackInt4x16; EOpPackUint4x16;
    EOpUnpackUint4x16; EOpPack16; EOpPack32; EOpPack64; EOpUnpack32; EOpUnpack16;
    EOpUnpack8; EOpLength; EOpDistance; EOpDot; EOpCross; EOpNormalize; EOpFaceForward;
    EOpReflect; EOpRefract; EOpMin3; EOpMax3; EOpMid3; EOpDPdx; EOpDPdy; EOpFwidth;
    EOpDPdxFine; EOpDPdyFine; EOpFwidthFine; EOpDPdxCoarse; EOpDPdyCoarse; EOpFwidthCoarse;
    EOpInterpolateAtCentroid; EOpInterpolateAtSample; EOpInterpolateAtOffset;
    EOpInterpolateAtVertex; EOpOuterProduct; EOpDeterminant; EOpMatrixInverse;
    EOpTranspose; EOpFtransform; EOpEmitVertex; EOpEndPrimitive; EOpEmitStreamVertex;
    EOpEndStreamPrimitive; EOpBarrier; EOpMemoryBarrier; EOpMemoryBarrierAtomicCounter;
    EOpMemoryBarrierBuffer; EOpMemoryBarrierImage; EOpMemoryBarrierShared;
    EOpGroupMemoryBarrier; EOpBallot; EOpReadInvocation; EOpReadFirstInvocation;
    EOpAnyInvocation; EOpAllInvocations; EOpAllInvocationsEqual; EOpSubgroupBarrier;
    EOpSubgroupMemoryBarrier; EOpSubgroupMemoryBarrierBuffer;
    EOpSubgroupMemoryBarrierImage; EOpSubgroupMemoryBarrierShared; EOpSubgroupElect;
    EOpSubgroupAll; EOpSubgroupAny; EOpSubgroupAllEqual; EOpSubgroupBroadcast;
    EOpSubgroupBroadcastFirst; EOpSubgroupBallot; EOpSubgroupInverseBallot;
    EOpSubgroupBallotBitExtract; EOpSubgroupBallotBitCount;
    EOpSubgroupBallotInclusiveBitCount; EOpSubgroupBallotExclusiveBitCount;
    EOpSubgroupBallotFindLSB; EOpSubgroupBallotFindMSB; EOpSubgroupShuffle;
    EOpSubgroupShuffleXor; EOpSubgroupShuffleUp; EOpSubgroupShuffleDown; EOpSubgroupAdd;
    EOpSubgroupMul; EOpSubgroupMin; EOpSubgroupMax; EOpSubgroupAnd; EOpSubgroupOr;
    EOpSubgroupXor; EOpSubgroupInclusiveAdd; EOpSubgroupInclusiveMul;
    EOpSubgroupInclusiveMin; EOpSubgroupInclusiveMax; EOpSubgroupInclusiveAnd;
    EOpSubgroupInclusiveOr; EOpSubgroupInclusiveXor; EOpSubgroupExclusiveAdd;
    EOpSubgroupExclusiveMul; EOpSubgroupExclusiveMin; EOpSubgroupExclusiveMax;
    EOpSubgroupExclusiveAnd; EOpSubgroupExclusiveOr; EOpSubgroupExclusiveXor;
    EOpSubgroupClusteredAdd; EOpSubgroupClusteredMul; EOpSubgroupClusteredMin;
    EOpSubgroupClusteredMax; EOpSubgroupClusteredAnd; EOpSubgroupClusteredOr;
    EOpSubgroupClusteredXor; EOpSubgroupQuadBroadcast; EOpSubgroupQuadSwapHorizontal;
    EOpSubgroupQuadSwapVertical; EOpSubgroupQuadSwapDiagonal; EOpSubgroupPartition;
    EOpSubgroupPartitionedAdd; EOpSubgroupPartitionedMul; EOpSubgroupPartitionedMin;
    EOpSubgroupPartitionedMax; EOpSubgroupPartitionedAnd; EOpSubgroupPartitionedOr;
    EOpSubgroupPartitionedXor; EOpSubgroupPartitionedInclusiveAdd;
    EOpSubgroupPartitionedInclusiveMul; EOpSubgroupPartitionedInclusiveMin;
    EOpSubgroupPartitionedInclusiveMax; EOpSubgroupPartitionedInclusiveAnd;
    EOpSubgroupPartitionedInclusiveOr; EOpSubgroupPartitionedInclusiveXor;
    EOpSubgroupPartitionedExclusiveAdd; EOpSubgroupPartitionedExclusiveMul;
    EOpSubgroupPartitionedExclusiveMin; EOpSubgroupPartitionedExclusiveMax;
    EOpSubgroupPartitionedExclusiveAnd; EOpSubgroupPartitionedExclusiveOr;
    EOpSubgroupPartitionedExclusiveXor; EOpMinInvocations; EOpMaxInvocations;
    EOpAddInvocations; EOpMinInvocationsNonUniform; EOpMaxInvocationsNonUniform;
    EOpAddInvocationsNonUniform; EOpMinInvocationsInclusiveScan;
    EOpMaxInvocationsInclusiveScan; EOpAddInvocationsInclusiveScan;
    EOpMinInvocationsInclusiveScanNonUniform; EOpMaxInvocationsInclusiveScanNonUniform;
    EOpAddInvocationsInclusiveScanNonUniform; EOpMinInvocationsExclusiveScan;
    EOpMaxInvocationsExclusiveScan; EOpAddInvocationsExclusiveScan;
    EOpMinInvocationsExclusiveScanNonUniform; EOpMaxInvocationsExclusiveScanNonUniform;
    EOpAddInvocationsExclusiveScanNonUniform; EOpSwizzleInvocations;
    EOpSwizzleInvocationsMasked; EOpWriteInvocation; EOpMbcnt; EOpCubeFaceIndex;
    EOpCubeFaceCoord; EOpTime; EOpAtomicAdd; EOpAtomicMin; EOpAtomicMax; EOpAtomicAnd;
    EOpAtomicOr; EOpAtomicXor; EOpAtomicExchange; EOpAtomicCompSwap; EOpAtomicLoad;
    EOpAtomicStore; EOpAtomicCounterIncrement; EOpAtomicCounterDecrement; EOpAtomicCounter;
    EOpAtomicCounterAdd; EOpAtomicCounterSubtract; EOpAtomicCounterMin;
    EOpAtomicCounterMax; EOpAtomicCounterAnd; EOpAtomicCounterOr; EOpAtomicCounterXor;
    EOpAtomicCounterExchange; EOpAtomicCounterCompSwap; EOpAny; EOpAll;
    EOpCooperativeMatrixLoad; EOpCooperativeMatrixStore; EOpCooperativeMatrixMulAdd;
    EOpCooperativeMatrixLoadNV; EOpCooperativeMatrixStoreNV; EOpCooperativeMatrixMulAddNV;
    EOpBeginInvocationInterlock; EOpEndInvocationInterlock; EOpIsHelperInvocation;
    EOpDebugPrintf; EOpConstructInt; EOpConstructUint; EOpConstructInt8; EOpConstructUint8;
    EOpConstructInt16; EOpConstructUint16; EOpConstructInt64; EOpConstructUint64;
    EOpConstructBool; EOpConstructFloat; EOpConstructDouble; EOpConstructVec2;
    EOpConstructVec3; EOpConstructVec4; EOpConstructMat2x2; EOpConstructMat2x3;
    EOpConstructMat2x4; EOpConstructMat3x2; EOpConstructMat3x3; EOpConstructMat3x4;
    EOpConstructMat4x2; EOpConstructMat4x3; EOpConstructMat4x4; EOpConstructDVec2;
    EOpConstructDVec3; EOpConstructDVec4; EOpConstructBVec2; EOpConstructBVec3;
    EOpConstructBVec4; EOpConstructI8Vec2; EOpConstructI8Vec3; EOpConstructI8Vec4;
    EOpConstructU8Vec2; EOpConstructU8Vec3; EOpConstructU8Vec4; EOpConstructI16Vec2;
    EOpConstructI16Vec3; EOpConstructI16Vec4; EOpConstructU16Vec2; EOpConstructU16Vec3;
    EOpConstructU16Vec4; EOpConstructIVec2; EOpConstructIVec3; EOpConstructIVec4;
    EOpConstructUVec2; EOpConstructUVec3; EOpConstructUVec4; EOpConstructI64Vec2;
    EOpConstructI64Vec3; EOpConstructI64Vec4; EOpConstructU64Vec2; EOpConstructU64Vec3;
    EOpConstructU64Vec4; EOpConstructDMat2x2; EOpConstructDMat2x3; EOpConstructDMat2x4;
    EOpConstructDMat3x2; EOpConstructDMat3x3; EOpConstructDMat3x4; EOpConstructDMat4x2;
    EOpConstructDMat4x3; EOpConstructDMat4x4; EOpConstructIMat2x2; EOpConstructIMat2x3;
    EOpConstructIMat2x4; EOpConstructIMat3x2; EOpConstructIMat3x3; EOpConstructIMat3x4;
    EOpConstructIMat4x2; EOpConstructIMat4x3; EOpConstructIMat4x4; EOpConstructUMat2x2;
    EOpConstructUMat2x3; EOpConstructUMat2x4; EOpConstructUMat3x2; EOpConstructUMat3x3;
    EOpConstructUMat3x4; EOpConstructUMat4x2; EOpConstructUMat4x3; EOpConstructUMat4x4;
    EOpConstructBMat2x2; EOpConstructBMat2x3; EOpConstructBMat2x4; EOpConstructBMat3x2;
    EOpConstructBMat3x3; EOpConstructBMat3x4; EOpConstructBMat4x2; EOpConstructBMat4x3;
    EOpConstructBMat4x4; EOpConstructFloat16; EOpConstructF16Vec2; EOpConstructF16Vec3;
    EOpConstructF16Vec4; EOpConstructF16Mat2x2; EOpConstructF16Mat2x3;
    EOpConstructF16Mat2x4; EOpConstructF16Mat3x2; EOpConstructF16Mat3x3;
    EOpConstructF16Mat3x4; EOpConstructF16Mat4x2; EOpConstructF16Mat4x3;
    EOpConstructF16Mat4x4; EOpConstructStruct; EOpConstructTextureSampler;
    EOpConstructNonuniform; EOpConstructReference; EOpConstructCooperativeMatrixNV;
    EOpConstructCooperativeMatrixKHR; EOpAssign; EOpAddAssign; EOpSubAssign; EOpMulAssign;
    EOpVectorTimesMatrixAssign; EOpVectorTimesScalarAssign; EOpMatrixTimesScalarAssign;
    EOpMatrixTimesMatrixAssign; EOpDivAssign; EOpModAssign; EOpAndAssign;
    EOpInclusiveOrAssign; EOpExclusiveOrAssign; EOpLeftShiftAssign; EOpRightShiftAssign;
    EOpArrayLength; EOpImageQuerySize; EOpImageQuerySamples; EOpImageLoad; EOpImageStore;
    EOpImageLoadLod; EOpImageStoreLod; EOpImageAtomicAdd; EOpImageAtomicMin;
    EOpImageAtomicMax; EOpImageAtomicAnd; EOpImageAtomicOr; EOpImageAtomicXor;
    EOpImageAtomicExchange; EOpImageAtomicCompSwap; EOpImageAtomicLoad;
    EOpImageAtomicStore; EOpSubpassLoad; EOpSubpassLoadMS; EOpSparseImageLoad;
    EOpSparseImageLoadLod; EOpColorAttachmentReadEXT; EOpTextureQuerySize;
    EOpTextureQueryLod; EOpTextureQueryLevels; EOpTextureQuerySamples; EOpTexture;
    EOpTextureProj; EOpTextureLod; EOpTextureOffset; EOpTextureFetch;
    EOpTextureFetchOffset; EOpTextureProjOffset; EOpTextureLodOffset; EOpTextureProjLod;
    EOpTextureProjLodOffset; EOpTextureGrad; EOpTextureGradOffset; EOpTextureProjGrad;
    EOpTextureProjGradOffset; EOpTextureGather; EOpTextureGatherOffset;
    EOpTextureGatherOffsets; EOpTextureClamp; EOpTextureOffsetClamp; EOpTextureGradClamp;
    EOpTextureGradOffsetClamp; EOpTextureGatherLod; EOpTextureGatherLodOffset;
    EOpTextureGatherLodOffsets; EOpFragmentMaskFetch; EOpFragmentFetch; EOpSparseTexture;
    EOpSparseTextureLod; EOpSparseTextureOffset; EOpSparseTextureFetch;
    EOpSparseTextureFetchOffset; EOpSparseTextureLodOffset; EOpSparseTextureGrad;
    EOpSparseTextureGradOffset; EOpSparseTextureGather; EOpSparseTextureGatherOffset;
    EOpSparseTextureGatherOffsets; EOpSparseTexelsResident; EOpSparseTextureClamp;
    EOpSparseTextureOffsetClamp; EOpSparseTextureGradClamp;
    EOpSparseTextureGradOffsetClamp; EOpSparseTextureGatherLod;
    EOpSparseTextureGatherLodOffset; EOpSparseTextureGatherLodOffsets;
    EOpImageSampleFootprintNV; EOpImageSampleFootprintClampNV;
    EOpImageSampleFootprintLodNV; EOpImageSampleFootprintGradNV;
    EOpImageSampleFootprintGradClampNV; EOpAddCarry; EOpSubBorrow; EOpUMulExtended;
    EOpIMulExtended; EOpBitfieldExtract; EOpBitfieldInsert; EOpBitFieldReverse;
    EOpBitCount; EOpFindLSB; EOpFindMSB; EOpCountLeadingZeros; EOpCountTrailingZeros;
    EOpAbsDifference; EOpAddSaturate; EOpSubSaturate; EOpAverage; EOpAverageRounded;
    EOpMul32x16; EOpTraceNV; EOpTraceRayMotionNV; EOpTraceKHR; EOpReportIntersection;
    EOpIgnoreIntersectionNV; EOpTerminateRayNV; EOpExecuteCallableNV;
    EOpExecuteCallableKHR; EOpWritePackedPrimitiveIndices4x8NV; EOpEmitMeshTasksEXT;
    EOpSetMeshOutputsEXT; EOpRayQueryInitialize; EOpRayQueryTerminate;
    EOpRayQueryGenerateIntersection; EOpRayQueryConfirmIntersection; EOpRayQueryProceed;
    EOpRayQueryGetIntersectionType; EOpRayQueryGetRayTMin; EOpRayQueryGetRayFlags;
    EOpRayQueryGetIntersectionT; EOpRayQueryGetIntersectionInstanceCustomIndex;
    EOpRayQueryGetIntersectionInstanceId;
    EOpRayQueryGetIntersectionInstanceShaderBindingTableRecordOffset;
    EOpRayQueryGetIntersectionGeometryIndex; EOpRayQueryGetIntersectionPrimitiveIndex;
    EOpRayQueryGetIntersectionBarycentrics; EOpRayQueryGetIntersectionFrontFace;
    EOpRayQueryGetIntersectionCandidateAABBOpaque;
    EOpRayQueryGetIntersectionObjectRayDirection;
    EOpRayQueryGetIntersectionObjectRayOrigin; EOpRayQueryGetWorldRayDirection;
    EOpRayQueryGetWorldRayOrigin; EOpRayQueryGetIntersectionObjectToWorld;
    EOpRayQueryGetIntersectionWorldToObject; EOpHitObjectTraceRayNV;
    EOpHitObjectTraceRayMotionNV; EOpHitObjectRecordHitNV; EOpHitObjectRecordHitMotionNV;
    EOpHitObjectRecordHitWithIndexNV; EOpHitObjectRecordHitWithIndexMotionNV;
    EOpHitObjectRecordMissNV; EOpHitObjectRecordMissMotionNV; EOpHitObjectRecordEmptyNV;
    EOpHitObjectExecuteShaderNV; EOpHitObjectIsEmptyNV; EOpHitObjectIsMissNV;
    EOpHitObjectIsHitNV; EOpHitObjectGetRayTMinNV; EOpHitObjectGetRayTMaxNV;
    EOpHitObjectGetObjectRayOriginNV; EOpHitObjectGetObjectRayDirectionNV;
    EOpHitObjectGetWorldRayOriginNV; EOpHitObjectGetWorldRayDirectionNV;
    EOpHitObjectGetWorldToObjectNV; EOpHitObjectGetObjectToWorldNV;
    EOpHitObjectGetInstanceCustomIndexNV; EOpHitObjectGetInstanceIdNV;
    EOpHitObjectGetGeometryIndexNV; EOpHitObjectGetPrimitiveIndexNV;
    EOpHitObjectGetHitKindNV; EOpHitObjectGetShaderBindingTableRecordIndexNV;
    EOpHitObjectGetShaderRecordBufferHandleNV; EOpHitObjectGetAttributesNV;
    EOpHitObjectGetCurrentTimeNV; EOpReorderThreadNV;
    EOpFetchMicroTriangleVertexPositionNV; EOpFetchMicroTriangleVertexBarycentricNV;
    EOpReadClockSubgroupKHR; EOpReadClockDeviceKHR;
    EOpRayQueryGetIntersectionTriangleVertexPositionsEXT; EOpStencilAttachmentReadEXT;
    EOpDepthAttachmentReadEXT; EOpImageSampleWeightedQCOM; EOpImageBoxFilterQCOM;
    EOpImageBlockMatchSADQCOM; EOpImageBlockMatchSSDQCOM; EOpKill; EOpTerminateInvocation;
    EOpDemote; EOpTerminateRayKHR; EOpIgnoreIntersectionKHR; EOpReturn; EOpBreak;
    EOpContinue; EOpCase; EOpDefault; EOpSequence; EOpLinkerObjects; EOpFunction;
    EOpParameters; EOpFunctionCall
  ].

Definition TOperator_index (op : TOperator) : N :=
  match op with
  | EOpNegative => 0 | EOpLogicalNot => 1 | EOpVectorLogicalNot => 2 | EOpBitwiseNot => 3
  | EOpPostIncrement => 4 | EOpPostDecrement => 5 | EOpPreIncrement => 6
  | EOpPreDecrement => 7 | EOpConvIntToBool => 8 | EOpConvUintToBool => 9
  | EOpConvFloatToBool => 10 | EOpConvDoubleToBool => 11 | EOpConvBoolToInt => 12
  | EOpConvUintToInt => 13 | EOpConvFloatToInt => 14 | EOpConvDoubleToInt => 15
  | EOpConvBoolToFloat => 16 | EOpConvIntToFloat => 17 | EOpConvUintToFloat => 18
  | EOpConvDoubleToFloat => 19 | EOpConvBoolToDouble => 20 | EOpConvIntToDouble => 21
  | EOpConvUintToDouble => 22 | EOpConvFloatToDouble => 23 | EOpConvBoolToUint => 24
  | EOpConvIntToUint => 25 | EOpConvFloatToUint => 26 | EOpConvDoubleToUint => 27
  | EOpAdd => 28 | EOpSub => 29 | EOpMul => 30 | EOpVectorTimesScalar => 31
  | EOpVectorTimesMatrix => 32 | EOpMatrixTimesVector => 33 | EOpMatrixTimesScalar => 34
  | EOpDiv => 35 | EOpMod => 36 | EOpRightShift => 37 | EOpLeftShift => 38 | EOpAnd => 39
  | EOpInclusiveOr => 40 | EOpExclusiveOr => 41 | EOpEqual => 42 | EOpNotEqual => 43
  | EOpVectorEqual => 44 | EOpVectorNotEqual => 45 | EOpLessThan => 46
  | EOpGreaterThan => 47 | EOpLessThanEqual => 48 | EOpGreaterThanEqual => 49
  | EOpComma => 50 | EOpLogicalOr => 51 | EOpLogicalXor => 52 | EOpLogicalAnd => 53
  | EOpIndexDirect => 54 | EOpIndexIndirect => 55 | EOpIndexDirectStruct => 56
  | EOpVectorSwizzle => 57 | EOpRadians => 58 | EOpDegrees => 59 | EOpSin => 60
  | EOpCos => 61 | EOpTan => 62 | EOpAsin => 63 | EOpAcos => 64 | EOpAtan => 65
  | EOpSinh => 66 | EOpCosh => 67 | EOpTanh => 68 | EOpAsinh => 69 | EOpAcosh => 70
  | EOpAtanh => 71 | EOpPow => 72 | EOpExp => 73 | EOpLog => 74 | EOpExp2 => 75
  | EOpLog2 => 76 | EOpSqrt => 77 | EOpInverseSqrt => 78 | EOpAbs => 79 | EOpSign => 80
  | EOpFloor => 81 | EOpTrunc => 82 | EOpRound => 83 | EOpRoundEven => 84 | EOpCeil => 85
  | EOpFract => 86 | EOpModf => 87 | EOpMin => 88 | EOpMax => 89 | EOpClamp => 90
  | EOpMix => 91 | EOpStep => 92 | EOpSmoothStep => 93 | EOpIsNan => 94 | EOpIsInf => 95
  | EOpFma => 96 | EOpFrexp => 97 | EOpLdexp => 98 | EOpFloatBitsToInt => 99
  | EOpFloatBitsToUint => 100 | EOpIntBitsToFloat => 101 | EOpUintBitsToFloat => 102
  | EOpPackSnorm2x16 => 103 | EOpUnpackSnorm2x16 => 104 | EOpPackUnorm2x16 => 105
  | EOpUnpackUnorm2x16 => 106 | EOpPackSnorm4x8 => 107 | EOpUnpackSnorm4x8 => 108
  | EOpPackUnorm4x8 => 109 | EOpUnpackUnorm4x8 => 110 | EOpPackHalf2x16 => 111
  | EOpUnpackHalf2x16 => 112 | EOpPackDouble2x32 => 113 | EOpUnpackDouble2x32 => 114
  | EOpPackInt2x32 => 115 | EOpUnpackInt2x32 => 116 | EOpPackUint2x32 => 117
  | EOpUnpackUint2x32 => 118 | EOpPackFloat2x16 => 119 | EOpUnpackFloat2x16 => 120
  | EOpPackInt2x16 => 121 | EOpUnpackInt2x16 => 122 | EOpPackUint2x16 => 123
  | EOpUnpackUint2x16 => 124 | EOpPackInt4x16 => 125 | EOpUnpackInt4x16 => 126
  | EOpPackUint4x16 => 127 | EOpUnpackUint4x16 => 128 | EOpPack16 => 129 | EOpPack32 => 130
  | EOpPack64 => 131 | EOpUnpack32 => 132 | EOpUnpack16 => 133 | EOpUnpack8 => 134
  | EOpLength => 135 | EOpDistance => 136 | EOpDot => 137 | EOpCross => 138
  | EOpNormalize => 139 | EOpFaceForward => 140 | EOpReflect => 141 | EOpRefract => 142
  | EOpMin3 => 143 | EOpMax3 => 144 | EOpMid3 => 145 | EOpDPdx => 146 | EOpDPdy => 147
  | EOpFwidth => 148 | EOpDPdxFine => 149 | EOpDPdyFine => 150 | EOpFwidthFine => 151
  | EOpDPdxCoarse => 152 | EOpDPdyCoarse => 153 | EOpFwidthCoarse => 154
  | EOpInterpolateAtCentroid => 155 | EOpInterpolateAtSample => 156
  | EOpInterpolateAtOffset => 157 | EOpInterpolateAtVertex => 158 | EOpOuterProduct => 159
  | EOpDeterminant => 160 | EOpMatrixInverse => 161 | EOpTranspose => 162
  | EOpFtransform => 163 | EOpEmitVertex => 164 | EOpEndPrimitive => 165
  | EOpEmitStreamVertex => 166 | EOpEndStreamPrimitive => 167 | EOpBarrier => 168
  | EOpMemoryBarrier => 169 | EOpMemoryBarrierAtomicCounter => 170
  | EOpMemoryBarrierBuffer => 171 | EOpMemoryBarrierImage => 172
  | EOpMemoryBarrierShared => 173 | EOpGroupMemoryBarrier => 174 | EOpBallot => 175
  | EOpReadInvocation => 176 | EOpReadFirstInvocation => 177 | EOpAnyInvocation => 178
  | EOpAllInvocations => 179 | EOpAllInvocationsEqual => 180 | EOpSubgroupBarrier => 181
  | EOpSubgroupMemoryBarrier => 182 | EOpSubgroupMemoryBarrierBuffer => 183
  | EOpSubgroupMemoryBarrierImage => 184 | EOpSubgroupMemoryBarrierShared => 185
  | EOpSubgroupElect => 186 | EOpSubgroupAll => 187 | EOpSubgroupAny => 188
  | EOpSubgroupAllEqual => 189 | EOpSubgroupBroadcast => 190
  | EOpSubgroupBroadcastFirst => 191 | EOpSubgroupBallot => 192
  | EOpSubgroupInverseBallot => 193 | EOpSubgroupBallotBitExtract => 194
  | EOpSubgroupBallotBitCount => 195 | EOpSubgroupBallotInclusiveBitCount => 196
  | EOpSubgroupBallotExclusiveBitCount => 197 | EOpSubgroupBallotFindLSB => 198
  | EOpSubgroupBallotFindMSB => 199 | EOpSubgroupShuffle => 200
  | EOpSubgroupShuffleXor => 201 | EOpSubgroupShuffleUp => 202
  | EOpSubgroupShuffleDown => 203 | EOpSubgroupAdd => 204 | EOpSubgroupMul => 205
  | EOpSubgroupMin => 206 | EOpSubgroupMax => 207 | EOpSubgroupAnd => 208
  | EOpSubgroupOr => 209 | EOpSubgroupXor => 210 | EOpSubgroupInclusiveAdd => 211
  | EOpSubgroupInclusiveMul => 212 | EOpSubgroupInclusiveMin => 213
  | EOpSubgroupInclusiveMax => 214 | EOpSubgroupInclusiveAnd => 215
  | EOpSubgroupInclusiveOr => 216 | EOpSubgroupInclusiveXor => 217
  | EOpSubgroupExclusiveAdd => 218 | EOpSubgroupExclusiveMul => 219
  | EOpSubgroupExclusiveMin => 220 | EOpSubgroupExclusiveMax => 221
  | EOpSubgroupExclusiveAnd => 222 | EOpSubgroupExclusiveOr => 223
  | EOpSubgroupExclusiveXor => 224 | EOpSubgroupClusteredAdd => 225
  | EOpSubgroupClusteredMul => 226 | EOpSubgroupClusteredMin => 227
  | EOpSubgroupClusteredMax => 228 | EOpSubgroupClusteredAnd => 229
  | EOpSubgroupClusteredOr => 230 | EOpSubgroupClusteredXor => 231
  | EOpSubgroupQuadBroadcast => 232 | EOpSubgroupQuadSwapHorizontal => 233
  | EOpSubgroupQuadSwapVertical => 234 | EOpSubgroupQuadSwapDiagonal => 235
  | EOpSubgroupPartition => 236 | EOpSubgroupPartitionedAdd => 237
  | EOpSubgroupPartitionedMul => 238 | EOpSubgroupPartitionedMin => 239
  | EOpSubgroupPartitionedMax => 240 | EOpSubgroupPartitionedAnd => 241
  | EOpSubgroupPartitionedOr => 242 | EOpSubgroupPartitionedXor => 243
  | EOpSubgroupPartitionedInclusiveAdd => 244 | EOpSubgroupPartitionedInclusiveMul => 245
  | EOpSubgroupPartitionedInclusiveMin => 246 | EOpSubgroupPartitionedInclusiveMax => 247
  | EOpSubgroupPartitionedInclusiveAnd => 248 | EOpSubgroupPartitionedInclusiveOr => 249
  | EOpSubgroupPartitionedInclusiveXor => 250 | EOpSubgroupPartitionedExclusiveAdd => 251
  | EOpSubgroupPartitionedExclusiveMul => 252 | EOpSubgroupPartitionedExclusiveMin => 253
  | EOpSubgroupPartitionedExclusiveMax => 254 | EOpSubgroupPartitionedExclusiveAnd => 255
  | EOpSubgroupPartitionedExclusiveOr => 256 | EOpSubgroupPartitionedExclusiveXor => 257
  | EOpMinInvocations => 258 | EOpMaxInvocations => 259 | EOpAddInvocations => 260
  | EOpMinInvocationsNonUniform => 261 | EOpMaxInvocationsNonUniform => 262
  | EOpAddInvocationsNonUniform => 263 | EOpMinInvocationsInclusiveScan => 264
  | EOpMaxInvocationsInclusiveScan => 265 | EOpAddInvocationsInclusiveScan => 266
  | EOpMinInvocationsInclusiveScanNonUniform => 267
  | EOpMaxInvocationsInclusiveScanNonUniform => 268
  | EOpAddInvocationsInclusiveScanNonUniform => 269 | EOpMinInvocationsExclusiveScan => 270
  | EOpMaxInvocationsExclusiveScan => 271 | EOpAddInvocationsExclusiveScan => 272
  | EOpMinInvocationsExclusiveScanNonUniform => 273
  | EOpMaxInvocationsExclusiveScanNonUniform => 274
  | EOpAddInvocationsExclusiveScanNonUniform => 275 | EOpSwizzleInvocations => 276
  | EOpSwizzleInvocationsMasked => 277 | EOpWriteInvocation => 278 | EOpMbcnt => 279
  | EOpCubeFaceIndex => 280 | EOpCubeFaceCoord => 281 | EOpTime => 282
  | EOpAtomicAdd => 283 | EOpAtomicMin => 284 | EOpAtomicMax => 285 | EOpAtomicAnd => 286
  | EOpAtomicOr => 287 | EOpAtomicXor => 288 | EOpAtomicExchange => 289
  | EOpAtomicCompSwap => 290 | EOpAtomicLoad => 291 | EOpAtomicStore => 292
  | EOpAtomicCounterIncrement => 293 | EOpAtomicCounterDecrement => 294
  | EOpAtomicCounter => 295 | EOpAtomicCounterAdd => 296 | EOpAtomicCounterSubtract => 297
  | EOpAtomicCounterMin => 298 | EOpAtomicCounterMax => 299 | EOpAtomicCounterAnd => 300
  | EOpAtomicCounterOr => 301 | EOpAtomicCounterXor => 302
  | EOpAtomicCounterExchange => 303 | EOpAtomicCounterCompSwap => 304 | EOpAny => 305
  | EOpAll => 306 | EOpCooperativeMatrixLoad => 307 | EOpCooperativeMatrixStore => 308
  | EOpCooperativeMatrixMulAdd => 309 | EOpCooperativeMatrixLoadNV => 310
  | EOpCooperativeMatrixStoreNV => 311 | EOpCooperativeMatrixMulAddNV => 312
  | EOpBeginInvocationInterlock => 313 | EOpEndInvocationInterlock => 314
  | EOpIsHelperInvocation => 315 | EOpDebugPrintf => 316 | EOpConstructInt => 317
  | EOpConstructUint => 318 | EOpConstructInt8 => 319 | EOpConstructUint8 => 320
  | EOpConstructInt16 => 321 | EOpConstructUint16 => 322 | EOpConstructInt64 => 323
  | EOpConstructUint64 => 324 | EOpConstructBool => 325 | EOpConstructFloat => 326
  | EOpConstructDouble => 327 | EOpConstructVec2 => 328 | EOpConstructVec3 => 329
  | EOpConstructVec4 => 330 | EOpConstructMat2x2 => 331 | EOpConstructMat2x3 => 332
  | EOpConstructMat2x4 => 333 | EOpConstructMat3x2 => 334 | EOpConstructMat3x3 => 335
  | EOpConstructMat3x4 => 336 | EOpConstructMat4x2 => 337 | EOpConstructMat4x3 => 338
  | EOpConstructMat4x4 => 339 | EOpConstructDVec2 => 340 | EOpConstructDVec3 => 341
  | EOpConstructDVec4 => 342 | EOpConstructBVec2 => 343 | EOpConstructBVec3 => 344
  | EOpConstructBVec4 => 345 | EOpConstructI8Vec2 => 346 | EOpConstructI8Vec3 => 347
  | EOpConstructI8Vec4 => 348 | EOpConstructU8Vec2 => 349 | EOpConstructU8Vec3 => 350
  | EOpConstructU8Vec4 => 351 | EOpConstructI16Vec2 => 352 | EOpConstructI16Vec3 => 353
  | EOpConstructI16Vec4 => 354 | EOpConstructU16Vec2 => 355 | EOpConstructU16Vec3 => 356
  | EOpConstructU16Vec4 => 357 | EOpConstructIVec2 => 358 | EOpConstructIVec3 => 359
  | EOpConstructIVec4 => 360 | EOpConstructUVec2 => 361 | EOpConstructUVec3 => 362
  | EOpConstructUVec4 => 363 | EOpConstructI64Vec2 => 364 | EOpConstructI64Vec3 => 365
  | EOpConstructI64Vec4 => 366 | EOpConstructU64Vec2 => 367 | EOpConstructU64Vec3 => 368
  | EOpConstructU64Vec4 => 369 | EOpConstructDMat2x2 => 370 | EOpConstructDMat2x3 => 371
  | EOpConstructDMat2x4 => 372 | EOpConstructDMat3x2 => 373 | EOpConstructDMat3x3 => 374
  | EOpConstructDMat3x4 => 375 | EOpConstructDMat4x2 => 376 | EOpConstructDMat4x3 => 377
  | EOpConstructDMat4x4 => 378 | EOpConstructIMat2x2 => 379 | EOpConstructIMat2x3 => 380
  | EOpConstructIMat2x4 => 381 | EOpConstructIMat3x2 => 382 | EOpConstructIMat3x3 => 383
  | EOpConstructIMat3x4 => 384 | EOpConstructIMat4x2 => 385 | EOpConstructIMat4x3 => 386
  | EOpConstructIMat4x4 => 387 | EOpConstructUMat2x2 => 388 | EOpConstructUMat2x3 => 389
  | EOpConstructUMat2x4 => 390 | EOpConstructUMat3x2 => 391 | EOpConstructUMat3x3 => 392
  | EOpConstructUMat3x4 => 393 | EOpConstructUMat4x2 => 394 | EOpConstructUMat4x3 => 395
  | EOpConstructUMat4x4 => 396 | EOpConstructBMat2x2 => 397 | EOpConstructBMat2x3 => 398
  | EOpConstructBMat2x4 => 399 | EOpConstructBMat3x2 => 400 | EOpConstructBMat3x3 => 401
  | EOpConstructBMat3x4 => 402 | EOpConstructBMat4x2 => 403 | EOpConstructBMat4x3 => 404
  | EOpConstructBMat4x4 => 405 | EOpConstructFloat16 => 406 | EOpConstructF16Vec2 => 407
  | EOpConstructF16Vec3 => 408 | EOpConstructF16Vec4 => 409 | EOpConstructF16Mat2x2 => 410
  | EOpConstructF16Mat2x3 => 411 | EOpConstructF16Mat2x4 => 412
  | EOpConstructF16Mat3x2 => 413 | EOpConstructF16Mat3x3 => 414
  | EOpConstructF16Mat3x4 => 415 | EOpConstructF16Mat4x2 => 416
  | EOpConstructF16Mat4x3 => 417 | EOpConstructF16Mat4x4 => 418 | EOpConstructStruct => 419
  | EOpConstructTextureSampler => 420 | EOpConstructNonuniform => 421
  | EOpConstructReference => 422 | EOpConstructCooperativeMatrixNV => 423
  | EOpConstructCooperativeMatrixKHR => 424 | EOpAssign => 425 | EOpAddAssign => 426
  | EOpSubAssign => 427 | EOpMulAssign => 428 | EOpVectorTimesMatrixAssign => 429
  | EOpVectorTimesScalarAssign => 430 | EOpMatrixTimesScalarAssign => 431
  | EOpMatrixTimesMatrixAssign => 432 | EOpDivAssign => 433 | EOpModAssign => 434
  | EOpAndAssign => 435 | EOpInclusiveOrAssign => 436 | EOpExclusiveOrAssign => 437
  | EOpLeftShiftAssign => 438 | EOpRightShiftAssign => 439 | EOpArrayLength => 440
  | EOpImageQuerySize => 441 | EOpImageQuerySamples => 442 | EOpImageLoad => 443
  | EOpImageStore => 444 | EOpImageLoadLod => 445 | EOpImageStoreLod => 446
  | EOpImageAtomicAdd => 447 | EOpImageAtomicMin => 448 | EOpImageAtomicMax => 449
  | EOpImageAtomicAnd => 450 | EOpImageAtomicOr => 451 | EOpImageAtomicXor => 452
  | EOpImageAtomicExchange => 453 | EOpImageAtomicCompSwap => 454
  | EOpImageAtomicLoad => 455 | EOpImageAtomicStore => 456 | EOpSubpassLoad => 457
  | EOpSubpassLoadMS => 458 | EOpSparseImageLoad => 459 | EOpSparseImageLoadLod => 460
  | EOpColorAttachmentReadEXT => 461 | EOpTextureQuerySize => 462
  | EOpTextureQueryLod => 463 | EOpTextureQueryLevels => 464
  | EOpTextureQuerySamples => 465 | EOpTexture => 466 | EOpTextureProj => 467
  | EOpTextureLod => 468 | EOpTextureOffset => 469 | EOpTextureFetch => 470
  | EOpTextureFetchOffset => 471 | EOpTextureProjOffset => 472 | EOpTextureLodOffset => 473
  | EOpTextureProjLod => 474 | EOpTextureProjLodOffset => 475 | EOpTextureGrad => 476
  | EOpTextureGradOffset => 477 | EOpTextureProjGrad => 478
  | EOpTextureProjGradOffset => 479 | EOpTextureGather => 480
  | EOpTextureGatherOffset => 481 | EOpTextureGatherOffsets => 482 | EOpTextureClamp => 483
  | EOpTextureOffsetClamp => 484 | EOpTextureGradClamp => 485
  | EOpTextureGradOffsetClamp => 486 | EOpTextureGatherLod => 487
  | EOpTextureGatherLodOffset => 488 | EOpTextureGatherLodOffsets => 489
  | EOpFragmentMaskFetch => 490 | EOpFragmentFetch => 491 | EOpSparseTexture => 492
  | EOpSparseTextureLod => 493 | EOpSparseTextureOffset => 494
  | EOpSparseTextureFetch => 495 | EOpSparseTextureFetchOffset => 496
  | EOpSparseTextureLodOffset => 497 | EOpSparseTextureGrad => 498
  | EOpSparseTextureGradOffset => 499 | EOpSparseTextureGather => 500
  | EOpSparseTextureGatherOffset => 501 | EOpSparseTextureGatherOffsets => 502
  | EOpSparseTexelsResident => 503 | EOpSparseTextureClamp => 504
  | EOpSparseTextureOffsetClamp => 505 | EOpSparseTextureGradClamp => 506
  | EOpSparseTextureGradOffsetClamp => 507 | EOpSparseTextureGatherLod => 508
  | EOpSparseTextureGatherLodOffset => 509 | EOpSparseTextureGatherLodOffsets => 510
  | EOpImageSampleFootprintNV => 511 | EOpImageSampleFootprintClampNV => 512
  | EOpImageSampleFootprintLodNV => 513 | EOpImageSampleFootprintGradNV => 514
  | EOpImageSampleFootprintGradClampNV => 515 | EOpAddCarry => 516 | EOpSubBorrow => 517
  | EOpUMulExtended => 518 | EOpIMulExtended => 519 | EOpBitfieldExtract => 520
  | EOpBitfieldInsert => 521 | EOpBitFieldReverse => 522 | EOpBitCount => 523
  | EOpFindLSB => 524 | EOpFindMSB => 525 | EOpCountLeadingZeros => 526
  | EOpCountTrailingZeros => 527 | EOpAbsDifference => 528 | EOpAddSaturate => 529
  | EOpSubSaturate => 530 | EOpAverage => 531 | EOpAverageRounded => 532
  | EOpMul32x16 => 533 | EOpTraceNV => 534 | EOpTraceRayMotionNV => 535
  | EOpTraceKHR => 536 | EOpReportIntersection => 537 | EOpIgnoreIntersectionNV => 538
  | EOpTerminateRayNV => 539 | EOpExecuteCallableNV => 540 | EOpExecuteCallableKHR => 541
  | EOpWritePackedPrimitiveIndices4x8NV => 542 | EOpEmitMeshTasksEXT => 543
  | EOpSetMeshOutputsEXT => 544 | EOpRayQueryInitialize => 545
  | EOpRayQueryTerminate => 546 | EOpRayQueryGenerateIntersection => 547
  | EOpRayQueryConfirmIntersection => 548 | EOpRayQueryProceed => 549
  | EOpRayQueryGetIntersectionType => 550 | EOpRayQueryGetRayTMin => 551
  | EOpRayQueryGetRayFlags => 552 | EOpRayQueryGetIntersectionT => 553
  | EOpRayQueryGetIntersectionInstanceCustomIndex => 554
  | EOpRayQueryGetIntersectionInstanceId => 555
  | EOpRayQueryGetIntersectionInstanceShaderBindingTableRecordOffset => 556
  | EOpRayQueryGetIntersectionGeometryIndex => 557
  | EOpRayQueryGetIntersectionPrimitiveIndex => 558
  | EOpRayQueryGetIntersectionBarycentrics => 559
  | EOpRayQueryGetIntersectionFrontFace => 560
  | EOpRayQueryGetIntersectionCandidateAABBOpaque => 561
  | EOpRayQueryGetIntersectionObjectRayDirection => 562
  | EOpRayQueryGetIntersectionObjectRayOrigin => 563
  | EOpRayQueryGetWorldRayDirection => 564 | EOpRayQueryGetWorldRayOrigin => 565
  | EOpRayQueryGetIntersectionObjectToWorld => 566
  | EOpRayQueryGetIntersectionWorldToObject => 567 | EOpHitObjectTraceRayNV => 568
  | EOpHitObjectTraceRayMotionNV => 569 | EOpHitObjectRecordHitNV => 570
  | EOpHitObjectRecordHitMotionNV => 571 | EOpHitObjectRecordHitWithIndexNV => 572
  | EOpHitObjectRecordHitWithIndexMotionNV => 573 | EOpHitObjectRecordMissNV => 574
  | EOpHitObjectRecordMissMotionNV => 575 | EOpHitObjectRecordEmptyNV => 576
  | EOpHitObjectExecuteShaderNV => 577 | EOpHitObjectIsEmptyNV => 578
  | EOpHitObjectIsMissNV => 579 | EOpHitObjectIsHitNV => 580
  | EOpHitObjectGetRayTMinNV => 581 | EOpHitObjectGetRayTMaxNV => 582
  | EOpHitObjectGetObjectRayOriginNV => 583 | EOpHitObjectGetObjectRayDirectionNV => 584
  | EOpHitObjectGetWorldRayOriginNV => 585 | EOpHitObjectGetWorldRayDirectionNV => 586
  | EOpHitObjectGetWorldToObjectNV => 587 | EOpHitObjectGetObjectToWorldNV => 588
  | EOpHitObjectGetInstanceCustomIndexNV => 589 | EOpHitObjectGetInstanceIdNV => 590
  | EOpHitObjectGetGeometryIndexNV => 591 | EOpHitObjectGetPrimitiveIndexNV => 592
  | EOpHitObjectGetHitKindNV => 593 | EOpHitObjectGetShaderBindingTableRecordIndexNV => 594
  | EOpHitObjectGetShaderRecordBufferHandleNV => 595 | EOpHitObjectGetAttributesNV => 596
  | EOpHitObjectGetCurrentTimeNV => 597 | EOpReorderThreadNV => 598
  | EOpFetchMicroTriangleVertexPositionNV => 599
  | EOpFetchMicroTriangleVertexBarycentricNV => 600 | EOpReadClockSubgroupKHR => 601
  | EOpReadClockDeviceKHR => 602
  | EOpRayQueryGetIntersectionTriangleVertexPositionsEXT => 603
  | EOpStencilAttachmentReadEXT => 604 | EOpDepthAttachmentReadEXT => 605
  | EOpImageSampleWeightedQCOM => 606 | EOpImageBoxFilterQCOM => 607
  | EOpImageBlockMatchSADQCOM => 608 | EOpImageBlockMatchSSDQCOM => 609 | EOpKill => 610
  | EOpTerminateInvocation => 611 | EOpDemote => 612 | EOpTerminateRayKHR => 613
  | EOpIgnoreIntersectionKHR => 614 | EOpReturn => 615 | EOpBreak => 616
  | EOpContinue => 617 | EOpCase => 618 | EOpDefault => 619 | EOpSequence => 620
  | EOpLinkerObjects => 621 | EOpFunction => 622 | EOpParameters => 623
  | EOpFunctionCall => 624
  | EOpOther tag => 625 + tag
  end%N.

Definition TOperator_of_index (n : N) : TOperator :=
  if (n <? 625)%N then nth (N.to_nat n) TOperator_named (EOpOther 0)
  else EOpOther (n - 625).

#[global] Instance TOperator_eq_dec : EqDecision TOperator.
Proof.
  assert (∀ op, TOperator_of_index (TOperator_index op) = op) as round_trip.
  { intros op. destruct op; try (vm_compute; reflexivity).
    unfold TOperator_of_index, TOperator_index.
    destruct (N.ltb_spec (625 + tag) 625) as [Hlt|_]; [lia|].
    f_equal. lia. }
  intros a b. destruct (decide (TOperator_index a = TOperator_index b)) as [E|E].
  - left. rewrite <- (round_trip a), <- (round_trip b). by rewrite E.
  - right. by intros ->.
Defined.

(** [glslang::TBasicType], [glslang::TSamplerDim]: the enumerators this file
    names; the last constructor stands for the rest of the upstream enum. *)
Inductive TBasicType : Type :=
  | EbtVoid | EbtFloat | EbtDouble | EbtInt8 | EbtUint8 | EbtInt16 | EbtUint16
  | EbtInt | EbtUint | EbtInt64 | EbtUint64 | EbtBool | EbtAtomicUint | EbtSampler
  | EbtStruct | EbtBlock | EbtString
  | EbtOther (tag : N).

Inductive TSamplerDim : Type :=
  | Esd1D | Esd2D | Esd3D | EsdCube | EsdRect
  | EsdOther (tag : N).

Inductive TPrecisionQualifier : Type :=
  | EpqNone | EpqLow | EpqMedium | EpqHigh.

(** [glslang::TSampler], read through [isShadow()], [dim], [getString()]. *)
Record TSampler : Type := mkTSampler {
  isShadow : bool;
  dim : TSamplerDim;
  getString : string;
}.

(** [glslang::TQualifier], read through its bit fields [invariant], [flat],
    [nopersp], [smooth], [precision] and through [hasLayout()] and
    [isConstant()]. *)
Record TQualifier : Type := mkTQualifier {
  invariant : bool;
  flat : bool;
  nopersp : bool;
  smooth : bool;
  hasLayout : bool;
  isConstant : bool;
  precision : TPrecisionQualifier;
}.

(** [glslang::TType]. [getArraySizes] is the nullable [TArraySizes*], given
    by its [getDimSize(0)], ..., [getDimSize(getNumDims()-1)]. *)
Record TType : Type := mkTType {
  getBasicType : TBasicType;
  isMatrix : bool;
  isVector : bool;
  getVectorSize : Z;
  getMatrixCols : Z;
  getMatrixRows : Z;
  getArraySizes : option (list Z);
  getQualifier : TQualifier;
  getSampler : TSampler;
  getTypeName : string;
  isBuiltIn : bool;
}.

(** [TType::isArray()]: the array-sizes pointer is not null. *)
Definition isArray (type : TType) : bool :=
  match getArraySizes type with Some _ => true | None => false end.

(** [TArraySizes::getNumDims()] *)
Definition getNumDims (sizes : list Z) : Z := Z.of_nat (length sizes).

(** A line written to [utils::slog.e]. *)
Inductive LogEntry : Type :=
  | CannotConvertOperatorToRValueOperator (op : TOperator).

(** ** Operator mapping *)

(** [std::string textureFunctionNameForSampler(suffix, arbOrExt, version,
    arg1Type)] *)
Definition textureFunctionNameForSampler
    (suffix arbOrExt : string) (version : Z) (arg1Type : option TType)
    : Result string :=
  if bool_decide (version > 100) then Ok ("texture" +:+ suffix)
  else
    match arg1Type with
    | None => Fatal FirstArgumentToTextureFunctionMustNotBeNull
    | Some arg1Type =>
        let sampler := getSampler arg1Type in
        let result := if isShadow sampler then "shadow" else "texture" in
        let* result :=
          match dim sampler with
          | Esd1D => Ok (result +:+ "1D")
          | Esd2D => Ok (result +:+ "2D")
          | Esd3D => Ok (result +:+ "3D")
          | EsdCube => Ok (result +:+ "Cube")
          | EsdRect => Ok (result +:+ "2DRect")
          | _ => Fatal UnhandledSamplerDimension
          end in
        let result := result +:+ suffix in
        let result := result +:+ arbOrExt in
        Ok result
    end.

(** [result += "[]"], [numDims] times. *)
Fixpoint appendBrackets (numDims : nat) (result : string) : string :=
  match numDims with
  | O => result
  | S n => appendBrackets n (result +:+ "[]")
  end.

(** [std::string constructorFunctionNameForType(name, returnType)] *)
Definition constructorFunctionNameForType (name : string) (returnType : TType) : string :=
  match getArraySizes returnType with
  | None => name
  | Some sizes => appendBrackets (Z.to_nat (getNumDims sizes)) name
  end.

(** The [std::variant<RValueOperator, std::string>] that the operator mapping
    returns, with the lines it wrote to the error log. *)
Definition OperatorOrName : Type := RValueOperator.t + string.

Section operator_table.
#[local] Abbreviation tag o := (Ok (inl o : OperatorOrName, @nil LogEntry)).
#[local] Abbreviation name s := (Ok (inr s : OperatorOrName, @nil LogEntry)).
#[local] Abbreviation nameR r := (let* s := r in Ok (inr s : OperatorOrName, @nil LogEntry)).

(** [std::variant<RValueOperator, std::string>
    glslangOperatorToRValueOperator(op, version, returnType, arg1Type)] *)
Definition glslangOperatorToRValueOperator
    (op : TOperator) (version : Z) (returnType : TType) (arg1Type : option TType)
    : Result (OperatorOrName * list LogEntry) :=
  match op with
  | EOpNegative => tag RValueOperator.Negative
  | EOpLogicalNot => tag RValueOperator.LogicalNot
  | EOpVectorLogicalNot => name "not"
  | EOpBitwiseNot => tag RValueOperator.BitwiseNot
  | EOpPostIncrement => tag RValueOperator.PostIncrement
  | EOpPostDecrement => tag RValueOperator.PostDecrement
  | EOpPreIncrement => tag RValueOperator.PreIncrement
  | EOpPreDecrement => tag RValueOperator.PreDecrement
  | EOpConvIntToBool
  | EOpConvUintToBool
  | EOpConvFloatToBool
  | EOpConvDoubleToBool =>
      name "bool"
  | EOpConvBoolToInt
  | EOpConvUintToInt
  | EOpConvFloatToInt
  | EOpConvDoubleToInt =>
      name "int"
  | EOpConvBoolToFloat
  | EOpConvIntToFloat
  | EOpConvUintToFloat
  | EOpConvDoubleToFloat =>
      name "float"
  | EOpConvBoolToDouble
  | EOpConvIntToDouble
  | EOpConvUintToDouble
  | EOpConvFloatToDouble =>
      name "double"
  | EOpConvBoolToUint
  | EOpConvIntToUint
  | EOpConvFloatToUint
  | EOpConvDoubleToUint =>
      name "uint"
  | EOpAdd => tag RValueOperator.Add
  | EOpSub => tag RValueOperator.Sub
  | EOpMul
  | EOpVectorTimesScalar
  | EOpVectorTimesMatrix
  | EOpMatrixTimesVector
  | EOpMatrixTimesScalar =>
      tag RValueOperator.Mul
  | EOpDiv => tag RValueOperator.Div
  | EOpMod => tag RValueOperator.Mod
  | EOpRightShift => tag RValueOperator.RightShift
  | EOpLeftShift => tag RValueOperator.LeftShift
  | EOpAnd => tag RValueOperator.And
  | EOpInclusiveOr => tag RValueOperator.InclusiveOr
  | EOpExclusiveOr => tag RValueOperator.ExclusiveOr
  | EOpEqual => tag RValueOperator.Equal
  | EOpNotEqual => tag RValueOperator.NotEqual
  | EOpVectorEqual => name "equal"
  | EOpVectorNotEqual => name "notEqual"
  | EOpLessThan => tag RValueOperator.LessThan
  | EOpGreaterThan => tag RValueOperator.GreaterThan
  | EOpLessThanEqual => tag RValueOperator.LessThanEqual
  | EOpGreaterThanEqual => tag RValueOperator.GreaterThanEqual
  | EOpComma => tag RValueOperator.Comma
  | EOpLogicalOr => tag RValueOperator.LogicalOr
  | EOpLogicalXor => tag RValueOperator.LogicalXor
  | EOpLogicalAnd => tag RValueOperator.LogicalAnd
  | EOpIndexDirect
  | EOpIndexIndirect =>
      tag RValueOperator.Index
  | EOpIndexDirectStruct => tag RValueOperator.IndexStruct
  | EOpVectorSwizzle => tag RValueOperator.VectorSwizzle
  | EOpRadians => name "radians"
  | EOpDegrees => name "degrees"
  | EOpSin => name "sin"
  | EOpCos => name "cos"
  | EOpTan => name "tan"
  | EOpAsin => name "asin"
  | EOpAcos => name "acos"
  | EOpAtan => name "atan"
  | EOpSinh => name "sinh"
  | EOpCosh => name "cosh"
  | EOpTanh => name "tanh"
  | EOpAsinh => name "asinh"
  | EOpAcosh => name "acosh"
  | EOpAtanh => name "atanh"
  | EOpPow => name "pow"
  | EOpExp => name "exp"
  | EOpLog => name "log"
  | EOpExp2 => name "exp2"
  | EOpLog2 => name "log2"
  | EOpSqrt => name "sqrt"
  | EOpInverseSqrt => name "inversesqrt"
  | EOpAbs => name "abs"
  | EOpSign => name "sign"
  | EOpFloor => name "floor"
  | EOpTrunc => name "trunc"
  | EOpRound => name "round"
  | EOpRoundEven => name "roundEven"
  | EOpCeil => name "ceil"
  | EOpFract => name "fract"
  | EOpModf => name "modf"
  | EOpMin => name "min"
  | EOpMax => name "max"
  | EOpClamp => name "clamp"
  | EOpMix => name "mix"
  | EOpStep => name "step"
  | EOpSmoothStep => name "smoothstep"
  | EOpIsNan => name "isnan"
  | EOpIsInf => name "isinf"
  | EOpFma => name "fma"
  | EOpFrexp => name "frexp"
  | EOpLdexp => name "ldexp"
  | EOpFloatBitsToInt => name "floatBitsToInt"
  | EOpFloatBitsToUint => name "floatBitsToUint"
  | EOpIntBitsToFloat => name "intBitsToFloat"
  | EOpUintBitsToFloat => name "uintBitsToFloat"
  | EOpPackSnorm2x16 => name "packSnorm2x16"
  | EOpUnpackSnorm2x16 => name "unpackSnorm2x16"
  | EOpPackUnorm2x16 => name "packUnorm2x16"
  | EOpUnpackUnorm2x16 => name "unpackUnorm2x16"
  | EOpPackSnorm4x8 => name "packSnorm4x8"
  | EOpUnpackSnorm4x8 => name "unpackSnorm4x8"
  | EOpPackUnorm4x8 => name "packUnorm4x8"
  | EOpUnpackUnorm4x8 => name "unpackUnorm4x8"
  | EOpPackHalf2x16 => name "packHalf2x16"
  | EOpUnpackHalf2x16 => name "unpackHalf2x16"
  | EOpPackDouble2x32 => name "packDouble2x32"
  | EOpUnpackDouble2x32 => name "unpackDouble2x32"
  | EOpPackInt2x32 => name "packInt2x32"
  | EOpUnpackInt2x32 => name "unpackInt2x32"
  | EOpPackUint2x32 => name "packUint2x32"
  | EOpUnpackUint2x32 => name "unpackUint2x32"
  | EOpPackFloat2x16 => name "packFloat2x16"
  | EOpUnpackFloat2x16 => name "unpackFloat2x16"
  | EOpPackInt2x16 => name "packInt2x16"
  | EOpUnpackInt2x16 => name "unpackInt2x16"
  | EOpPackUint2x16 => name "packUint2x16"
  | EOpUnpackUint2x16 => name "unpackUint2x16"
  | EOpPackInt4x16 => name "packInt4x16"
  | EOpUnpackInt4x16 => name "unpackInt4x16"
  | EOpPackUint4x16 => name "packUint4x16"
  | EOpUnpackUint4x16 => name "unpackUint4x16"
  | EOpPack16 => name "pack16"
  | EOpPack32 => name "pack32"
  | EOpPack64 => name "pack64"
  | EOpUnpack32 => name "unpack32"
  | EOpUnpack16 => name "unpack16"
  | EOpUnpack8 => name "unpack8"
  | EOpLength => name "length"
  | EOpDistance => name "distance"
  | EOpDot => name "dot"
  | EOpCross => name "cross"
  | EOpNormalize => name "normalize"
  | EOpFaceForward => name "faceforward"
  | EOpReflect => name "reflect"
  | EOpRefract => name "refract"
  | EOpMin3 => name "min3"
  | EOpMax3 => name "max3"
  | EOpMid3 => name "mid3"
  | EOpDPdx => name "dFdx"
  | EOpDPdy => name "dFdy"
  | EOpFwidth => name "fwidth"
  | EOpDPdxFine => name "dFdxFine"
  | EOpDPdyFine => name "dFdyFine"
  | EOpFwidthFine => name "fwidthFine"
  | EOpDPdxCoarse => name "dFdxCoarse"
  | EOpDPdyCoarse => name "dFdyCoarse"
  | EOpFwidthCoarse => name "fwidthCoarse"
  | EOpInterpolateAtCentroid => name "interpolateAtCentroid"
  | EOpInterpolateAtSample => name "interpolateAtSample"
  | EOpInterpolateAtOffset => name "interpolateAtOffset"
  | EOpInterpolateAtVertex => name "interpolateAtVertexAMD"
  | EOpOuterProduct => name "outerProduct"
  | EOpDeterminant => name "determinant"
  | EOpMatrixInverse => name "inverse"
  | EOpTranspose => name "transpose"
  | EOpFtransform => name "ftransform"
  | EOpEmitVertex => name "EmitVertex"
  | EOpEndPrimitive => name "EndPrimitive"
  | EOpEmitStreamVertex => name "EmitStreamVertex"
  | EOpEndStreamPrimitive => name "EndStreamPrimitive"
  | EOpBarrier => name "barrier"
  | EOpMemoryBarrier => name "memoryBarrier"
  | EOpMemoryBarrierAtomicCounter => name "memoryBarrierAtomicCounter"
  | EOpMemoryBarrierBuffer => name "memoryBarrierBuffer"
  | EOpMemoryBarrierImage => name "memoryBarrierImage"
  | EOpMemoryBarrierShared => name "memoryBarrierShared"
  | EOpGroupMemoryBarrier => name "groupMemoryBarrier"
  | EOpBallot => name "ballotARB"
  | EOpReadInvocation => name "readInvocationARB"
  | EOpReadFirstInvocation => name "readFirstInvocationARB"
  | EOpAnyInvocation => name (if bool_decide (version >= 460) then "anyInvocation" else "anyInvocationARB")
  | EOpAllInvocations => name (if bool_decide (version >= 460) then "allInvocations" else "allInvocationsARB")
  | EOpAllInvocationsEqual => name (if bool_decide (version >= 460) then "allInvocationsEqual" else "allInvocationsEqualARB")
  | EOpSubgroupBarrier => name "subgroupBarrier"
  | EOpSubgroupMemoryBarrier => name "subgroupMemoryBarrier"
  | EOpSubgroupMemoryBarrierBuffer => name "subgroupMemoryBarrierBuffer"
  | EOpSubgroupMemoryBarrierImage => name "subgroupMemoryBarrierImage"
  | EOpSubgroupMemoryBarrierShared => name "subgroupMemoryBarrierShared"
  | EOpSubgroupElect => name "subgroupElect"
  | EOpSubgroupAll => name "subgroupAll"
  | EOpSubgroupAny => name "subgroupAny"
  | EOpSubgroupAllEqual => name "subgroupAllEqual"
  | EOpSubgroupBroadcast => name "subgroupBroadcast"
  | EOpSubgroupBroadcastFirst => name "subgroupBroadcastFirst"
  | EOpSubgroupBallot => name "subgroupBallot"
  | EOpSubgroupInverseBallot => name "subgroupInverseBallot"
  | EOpSubgroupBallotBitExtract => name "subgroupBallotBitExtract"
  | EOpSubgroupBallotBitCount => name "subgroupBallotBitCount"
  | EOpSubgroupBallotInclusiveBitCount => name "subgroupBallotInclusiveBitCount"
  | EOpSubgroupBallotExclusiveBitCount => name "subgroupBallotExclusiveBitCount"
  | EOpSubgroupBallotFindLSB => name "subgroupBallotFindLSB"
  | EOpSubgroupBallotFindMSB => name "subgroupBallotFindMSB"
  | EOpSubgroupShuffle => name "subgroupShuffle"
  | EOpSubgroupShuffleXor => name "subgroupShuffleXor"
  | EOpSubgroupShuffleUp => name "subgroupShuffleUp"
  | EOpSubgroupShuffleDown => name "subgroupShuffleDown"
  | EOpSubgroupAdd => name "subgroupAdd"
  | EOpSubgroupMul => name "subgroupMul"
  | EOpSubgroupMin => name "subgroupMin"
  | EOpSubgroupMax => name "subgroupMax"
  | EOpSubgroupAnd => name "subgroupAnd"
  | EOpSubgroupOr => name "subgroupOr"
  | EOpSubgroupXor => name "subgroupXor"
  | EOpSubgroupInclusiveAdd => name "subgroupInclusiveAdd"
  | EOpSubgroupInclusiveMul => name "subgroupInclusiveMul"
  | EOpSubgroupInclusiveMin => name "subgroupInclusiveMin"
  | EOpSubgroupInclusiveMax => name "subgroupInclusiveMax"
  | EOpSubgroupInclusiveAnd => name "subgroupInclusiveAnd"
  | EOpSubgroupInclusiveOr => name "subgroupInclusiveOr"
  | EOpSubgroupInclusiveXor => name "subgroupInclusiveXor"
  | EOpSubgroupExclusiveAdd => name "subgroupExclusiveAdd"
  | EOpSubgroupExclusiveMul => name "subgroupExclusiveMul"
  | EOpSubgroupExclusiveMin => name "subgroupExclusiveMin"
  | EOpSubgroupExclusiveMax => name "subgroupExclusiveMax"
  | EOpSubgroupExclusiveAnd => name "subgroupExclusiveAnd"
  | EOpSubgroupExclusiveOr => name "subgroupExclusiveOr"
  | EOpSubgroupExclusiveXor => name "subgroupExclusiveXor"
  | EOpSubgroupClusteredAdd => name "subgroupClusteredAdd"
  | EOpSubgroupClusteredMul => name "subgroupClusteredMul"
  | EOpSubgroupClusteredMin => name "subgroupClusteredMin"
  | EOpSubgroupClusteredMax => name "subgroupClusteredMax"
  | EOpSubgroupClusteredAnd => name "subgroupClusteredAnd"
  | EOpSubgroupClusteredOr => name "subgroupClusteredOr"
  | EOpSubgroupClusteredXor => name "subgroupClusteredXor"
  | EOpSubgroupQuadBroadcast => name "subgroupQuadBroadcast"
  | EOpSubgroupQuadSwapHorizontal => name "subgroupQuadSwapHorizontal"
  | EOpSubgroupQuadSwapVertical => name "subgroupQuadSwapVertical"
  | EOpSubgroupQuadSwapDiagonal => name "subgroupQuadSwapDiagonal"
  | EOpSubgroupPartition => name "subgroupPartitionNV"
  | EOpSubgroupPartitionedAdd => name "subgroupPartitionedAddNV"
  | EOpSubgroupPartitionedMul => name "subgroupPartitionedMulNV"
  | EOpSubgroupPartitionedMin => name "subgroupPartitionedMinNV"
  | EOpSubgroupPartitionedMax => name "subgroupPartitionedMaxNV"
  | EOpSubgroupPartitionedAnd => name "subgroupPartitionedAndNV"
  | EOpSubgroupPartitionedOr => name "subgroupPartitionedOrNV"
  | EOpSubgroupPartitionedXor => name "subgroupPartitionedXorNV"
  | EOpSubgroupPartitionedInclusiveAdd => name "subgroupPartitionedInclusiveAddNV"
  | EOpSubgroupPartitionedInclusiveMul => name "subgroupPartitionedInclusiveMulNV"
  | EOpSubgroupPartitionedInclusiveMin => name "subgroupPartitionedInclusiveMinNV"
  | EOpSubgroupPartitionedInclusiveMax => name "subgroupPartitionedInclusiveMaxNV"
  | EOpSubgroupPartitionedInclusiveAnd => name "subgroupPartitionedInclusiveAndNV"
  | EOpSubgroupPartitionedInclusiveOr => name "subgroupPartitionedInclusiveOrNV"
  | EOpSubgroupPartitionedInclusiveXor => name "subgroupPartitionedInclusiveXorNV"
  | EOpSubgroupPartitionedExclusiveAdd => name "subgroupPartitionedExclusiveAddNV"
  | EOpSubgroupPartitionedExclusiveMul => name "subgroupPartitionedExclusiveMulNV"
  | EOpSubgroupPartitionedExclusiveMin => name "subgroupPartitionedExclusiveMinNV"
  | EOpSubgroupPartitionedExclusiveMax => name "subgroupPartitionedExclusiveMaxNV"
  | EOpSubgroupPartitionedExclusiveAnd => name "subgroupPartitionedExclusiveAndNV"
  | EOpSubgroupPartitionedExclusiveOr => name "subgroupPartitionedExclusiveOrNV"
  | EOpSubgroupPartitionedExclusiveXor => name "subgroupPartitionedExclusiveXorNV"
  | EOpMinInvocations => name "minInvocationsAMD"
  | EOpMaxInvocations => name "maxInvocationsAMD"
  | EOpAddInvocations => name "addInvocationsAMD"
  | EOpMinInvocationsNonUniform => name "minInvocationsNonUniformAMD"
  | EOpMaxInvocationsNonUniform => name "maxInvocationsNonUniformAMD"
  | EOpAddInvocationsNonUniform => name "addInvocationsNonUniformAMD"
  | EOpMinInvocationsInclusiveScan => name "minInvocationsInclusiveScanAMD"
  | EOpMaxInvocationsInclusiveScan => name "maxInvocationsInclusiveScanAMD"
  | EOpAddInvocationsInclusiveScan => name "addInvocationsInclusiveScanAMD"
  | EOpMinInvocationsInclusiveScanNonUniform => name "minInvocationsInclusiveScanNonUniformAMD"
  | EOpMaxInvocationsInclusiveScanNonUniform => name "maxInvocationsInclusiveScanNonUniformAMD"
  | EOpAddInvocationsInclusiveScanNonUniform => name "addInvocationsInclusiveScanNonUniformAMD"
  | EOpMinInvocationsExclusiveScan => name "minInvocationsExclusiveScanAMD"
  | EOpMaxInvocationsExclusiveScan => name "maxInvocationsExclusiveScanAMD"
  | EOpAddInvocationsExclusiveScan => name "addInvocationsExclusiveScanAMD"
  | EOpMinInvocationsExclusiveScanNonUniform => name "minInvocationsExclusiveScanNonUniformAMD"
  | EOpMaxInvocationsExclusiveScanNonUniform => name "maxInvocationsExclusiveScanNonUniformAMD"
  | EOpAddInvocationsExclusiveScanNonUniform => name "addInvocationsExclusiveScanNonUniformAMD"
  | EOpSwizzleInvocations => name "swizzleInvocationsAMD"
  | EOpSwizzleInvocationsMasked => name "swizzleInvocationsMaskedAMD"
  | EOpWriteInvocation => name "writeInvocationAMD"
  | EOpMbcnt => name "mbcntAMD"
  | EOpCubeFaceIndex => name "cubeFaceIndexAMD"
  | EOpCubeFaceCoord => name "cubeFaceCoordAMD"
  | EOpTime => name "timeAMD"
  | EOpAtomicAdd => name "atomicAdd"
  | EOpAtomicMin => name "atomicMin"
  | EOpAtomicMax => name "atomicMax"
  | EOpAtomicAnd => name "atomicAnd"
  | EOpAtomicOr => name "atomicOr"
  | EOpAtomicXor => name "atomicXor"
  | EOpAtomicExchange => name "atomicExchange"
  | EOpAtomicCompSwap => name "atomicCompSwap"
  | EOpAtomicLoad => name "atomicLoad"
  | EOpAtomicStore => name "atomicStore"
  | EOpAtomicCounterIncrement => name "atomicCounterIncrement"
  | EOpAtomicCounterDecrement => name "atomicCounterDecrement"
  | EOpAtomicCounter => name "atomicCounter"
  | EOpAtomicCounterAdd => name (if bool_decide (version >= 460) then "atomicCounterAdd" else "atomicCounterAddARB")
  | EOpAtomicCounterSubtract => name (if bool_decide (version >= 460) then "atomicCounterSubtract" else "atomicCounterSubtractARB")
  | EOpAtomicCounterMin => name (if bool_decide (version >= 460) then "atomicCounterMin" else "atomicCounterMinARB")
  | EOpAtomicCounterMax => name (if bool_decide (version >= 460) then "atomicCounterMax" else "atomicCounterMaxARB")
  | EOpAtomicCounterAnd => name (if bool_decide (version >= 460) then "atomicCounterAnd" else "atomicCounterAndARB")
  | EOpAtomicCounterOr => name (if bool_decide (version >= 460) then "atomicCounterOr" else "atomicCounterOrARB")
  | EOpAtomicCounterXor => name (if bool_decide (version >= 460) then "atomicCounterXor" else "atomicCounterXorARB")
  | EOpAtomicCounterExchange => name (if bool_decide (version >= 460) then "atomicCounterExchange" else "atomicCounterExchangeARB")
  | EOpAtomicCounterCompSwap => name (if bool_decide (version >= 460) then "atomicCounterCompSwap" else "atomicCounterCompSwapARB")
  | EOpAny => name "any"
  | EOpAll => name "all"
  | EOpCooperativeMatrixLoad => name "coopMatLoad"
  | EOpCooperativeMatrixStore => name "coopMatStore"
  | EOpCooperativeMatrixMulAdd => name "coopMatMulAdd"
  | EOpCooperativeMatrixLoadNV => name "coopMatLoadNV"
  | EOpCooperativeMatrixStoreNV => name "coopMatStoreNV"
  | EOpCooperativeMatrixMulAddNV => name "coopMatMulAddNV"
  | EOpBeginInvocationInterlock => name "beginInvocationInterlockARB"
  | EOpEndInvocationInterlock => name "endInvocationInterlockARB"
  | EOpIsHelperInvocation => name "helperInvocationEXT"
  | EOpDebugPrintf => name "debugPrintfEXT"
  | EOpConstructInt => name (constructorFunctionNameForType "int" returnType)
  | EOpConstructUint => name (constructorFunctionNameForType "uint" returnType)
  | EOpConstructInt8 => name (constructorFunctionNameForType "int8" returnType)
  | EOpConstructUint8 => name (constructorFunctionNameForType "uint8" returnType)
  | EOpConstructInt16 => name (constructorFunctionNameForType "int16" returnType)
  | EOpConstructUint16 => name (constructorFunctionNameForType "uint16" returnType)
  | EOpConstructInt64 => name (constructorFunctionNameForType "int64" returnType)
  | EOpConstructUint64 => name (constructorFunctionNameForType "uint64" returnType)
  | EOpConstructBool => name (constructorFunctionNameForType "bool" returnType)
  | EOpConstructFloat => name (constructorFunctionNameForType "float" returnType)
  | EOpConstructDouble => name (constructorFunctionNameForType "double" returnType)
  | EOpConstructVec2 => name (constructorFunctionNameForType "vec2" returnType)
  | EOpConstructVec3 => name (constructorFunctionNameForType "vec3" returnType)
  | EOpConstructVec4 => name (constructorFunctionNameForType "vec4" returnType)
  | EOpConstructMat2x2 => name (constructorFunctionNameForType "mat2x2" returnType)
  | EOpConstructMat2x3 => name (constructorFunctionNameForType "mat2x3" returnType)
  | EOpConstructMat2x4 => name (constructorFunctionNameForType "mat2x4" returnType)
  | EOpConstructMat3x2 => name (constructorFunctionNameForType "mat3x2" returnType)
  | EOpConstructMat3x3 => name (constructorFunctionNameForType "mat3x3" returnType)
  | EOpConstructMat3x4 => name (constructorFunctionNameForType "mat3x4" returnType)
  | EOpConstructMat4x2 => name (constructorFunctionNameForType "mat4x2" returnType)
  | EOpConstructMat4x3 => name (constructorFunctionNameForType "mat4x3" returnType)
  | EOpConstructMat4x4 => name (constructorFunctionNameForType "mat4x4" returnType)
  | EOpConstructDVec2 => name (constructorFunctionNameForType "dvec2" returnType)
  | EOpConstructDVec3 => name (constructorFunctionNameForType "dvec3" returnType)
  | EOpConstructDVec4 => name (constructorFunctionNameForType "dvec4" returnType)
  | EOpConstructBVec2 => name (constructorFunctionNameForType "bvec2" returnType)
  | EOpConstructBVec3 => name (constructorFunctionNameForType "bvec3" returnType)
  | EOpConstructBVec4 => name (constructorFunctionNameForType "bvec4" returnType)
  | EOpConstructI8Vec2 => name (constructorFunctionNameForType "i8vec2" returnType)
  | EOpConstructI8Vec3 => name (constructorFunctionNameForType "i8vec3" returnType)
  | EOpConstructI8Vec4 => name (constructorFunctionNameForType "i8vec4" returnType)
  | EOpConstructU8Vec2 => name (constructorFunctionNameForType "u8vec2" returnType)
  | EOpConstructU8Vec3 => name (constructorFunctionNameForType "u8vec3" returnType)
  | EOpConstructU8Vec4 => name (constructorFunctionNameForType "u8vec4" returnType)
  | EOpConstructI16Vec2 => name (constructorFunctionNameForType "i16vec2" returnType)
  | EOpConstructI16Vec3 => name (constructorFunctionNameForType "i16vec3" returnType)
  | EOpConstructI16Vec4 => name (constructorFunctionNameForType "i16vec4" returnType)
  | EOpConstructU16Vec2 => name (constructorFunctionNameForType "u16vec2" returnType)
  | EOpConstructU16Vec3 => name (constructorFunctionNameForType "u16vec3" returnType)
  | EOpConstructU16Vec4 => name (constructorFunctionNameForType "u16vec4" returnType)
  | EOpConstructIVec2 => name (constructorFunctionNameForType "ivec2" returnType)
  | EOpConstructIVec3 => name (constructorFunctionNameForType "ivec3" returnType)
  | EOpConstructIVec4 => name (constructorFunctionNameForType "ivec4" returnType)
  | EOpConstructUVec2 => name (constructorFunctionNameForType "uvec2" returnType)
  | EOpConstructUVec3 => name (constructorFunctionNameForType "uvec3" returnType)
  | EOpConstructUVec4 => name (constructorFunctionNameForType "uvec4" returnType)
  | EOpConstructI64Vec2 => name (constructorFunctionNameForType "i64vec2" returnType)
  | EOpConstructI64Vec3 => name (constructorFunctionNameForType "i64vec3" returnType)
  | EOpConstructI64Vec4 => name (constructorFunctionNameForType "i64vec4" returnType)
  | EOpConstructU64Vec2 => name (constructorFunctionNameForType "u64vec2" returnType)
  | EOpConstructU64Vec3 => name (constructorFunctionNameForType "u64vec3" returnType)
  | EOpConstructU64Vec4 => name (constructorFunctionNameForType "u64vec4" returnType)
  | EOpConstructDMat2x2 => name (constructorFunctionNameForType "dmat2x2" returnType)
  | EOpConstructDMat2x3 => name (constructorFunctionNameForType "dmat2x3" returnType)
  | EOpConstructDMat2x4 => name (constructorFunctionNameForType "dmat2x4" returnType)
  | EOpConstructDMat3x2 => name (constructorFunctionNameForType "dmat3x2" returnType)
  | EOpConstructDMat3x3 => name (constructorFunctionNameForType "dmat3x3" returnType)
  | EOpConstructDMat3x4 => name (constructorFunctionNameForType "dmat3x4" returnType)
  | EOpConstructDMat4x2 => name (constructorFunctionNameForType "dmat4x2" returnType)
  | EOpConstructDMat4x3 => name (constructorFunctionNameForType "dmat4x3" returnType)
  | EOpConstructDMat4x4 => name (constructorFunctionNameForType "dmat4x4" returnType)
  | EOpConstructIMat2x2 => name (constructorFunctionNameForType "imat2x2" returnType)
  | EOpConstructIMat2x3 => name (constructorFunctionNameForType "imat2x3" returnType)
  | EOpConstructIMat2x4 => name (constructorFunctionNameForType "imat2x4" returnType)
  | EOpConstructIMat3x2 => name (constructorFunctionNameForType "imat3x2" returnType)
  | EOpConstructIMat3x3 => name (constructorFunctionNameForType "imat3x3" returnType)
  | EOpConstructIMat3x4 => name (constructorFunctionNameForType "imat3x4" returnType)
  | EOpConstructIMat4x2 => name (constructorFunctionNameForType "imat4x2" returnType)
  | EOpConstructIMat4x3 => name (constructorFunctionNameForType "imat4x3" returnType)
  | EOpConstructIMat4x4 => name (constructorFunctionNameForType "imat4x4" returnType)
  | EOpConstructUMat2x2 => name (constructorFunctionNameForType "umat2x2" returnType)
  | EOpConstructUMat2x3 => name (constructorFunctionNameForType "umat2x3" returnType)
  | EOpConstructUMat2x4 => name (constructorFunctionNameForType "umat2x4" returnType)
  | EOpConstructUMat3x2 => name (constructorFunctionNameForType "umat3x2" returnType)
  | EOpConstructUMat3x3 => name (constructorFunctionNameForType "umat3x3" returnType)
  | EOpConstructUMat3x4 => name (constructorFunctionNameForType "umat3x4" returnType)
  | EOpConstructUMat4x2 => name (constructorFunctionNameForType "umat4x2" returnType)
  | EOpConstructUMat4x3 => name (constructorFunctionNameForType "umat4x3" returnType)
  | EOpConstructUMat4x4 => name (constructorFunctionNameForType "umat4x4" returnType)
  | EOpConstructBMat2x2 => name (constructorFunctionNameForType "bmat2x2" returnType)
  | EOpConstructBMat2x3 => name (constructorFunctionNameForType "bmat2x3" returnType)
  | EOpConstructBMat2x4 => name (constructorFunctionNameForType "bmat2x4" returnType)
  | EOpConstructBMat3x2 => name (constructorFunctionNameForType "bmat3x2" returnType)
  | EOpConstructBMat3x3 => name (constructorFunctionNameForType "bmat3x3" returnType)
  | EOpConstructBMat3x4 => name (constructorFunctionNameForType "bmat3x4" returnType)
  | EOpConstructBMat4x2 => name (constructorFunctionNameForType "bmat4x2" returnType)
  | EOpConstructBMat4x3 => name (constructorFunctionNameForType "bmat4x3" returnType)
  | EOpConstructBMat4x4 => name (constructorFunctionNameForType "bmat4x4" returnType)
  | EOpConstructFloat16 => name (constructorFunctionNameForType "float16" returnType)
  | EOpConstructF16Vec2 => name (constructorFunctionNameForType "f16vec2" returnType)
  | EOpConstructF16Vec3 => name (constructorFunctionNameForType "f16vec3" returnType)
  | EOpConstructF16Vec4 => name (constructorFunctionNameForType "f16vec4" returnType)
  | EOpConstructF16Mat2x2 => name (constructorFunctionNameForType "f16mat2x2" returnType)
  | EOpConstructF16Mat2x3 => name (constructorFunctionNameForType "f16mat2x3" returnType)
  | EOpConstructF16Mat2x4 => name (constructorFunctionNameForType "f16mat2x4" returnType)
  | EOpConstructF16Mat3x2 => name (constructorFunctionNameForType "f16mat3x2" returnType)
  | EOpConstructF16Mat3x3 => name (constructorFunctionNameForType "f16mat3x3" returnType)
  | EOpConstructF16Mat3x4 => name (constructorFunctionNameForType "f16mat3x4" returnType)
  | EOpConstructF16Mat4x2 => name (constructorFunctionNameForType "f16mat4x2" returnType)
  | EOpConstructF16Mat4x3 => name (constructorFunctionNameForType "f16mat4x3" returnType)
  | EOpConstructF16Mat4x4 => name (constructorFunctionNameForType "f16mat4x4" returnType)
  | EOpConstructStruct => tag RValueOperator.ConstructStruct
  | EOpConstructTextureSampler => name "textureSampler"
  | EOpConstructNonuniform => name "nonuniform"
  | EOpConstructReference => name "reference"
  | EOpConstructCooperativeMatrixNV => name "cooperativeMatrixNV"
  | EOpConstructCooperativeMatrixKHR => name "cooperativeMatrixKHR"
  | EOpAssign => tag RValueOperator.Assign
  | EOpAddAssign => tag RValueOperator.AddAssign
  | EOpSubAssign => tag RValueOperator.SubAssign
  | EOpMulAssign
  | EOpVectorTimesMatrixAssign
  | EOpVectorTimesScalarAssign
  | EOpMatrixTimesScalarAssign
  | EOpMatrixTimesMatrixAssign =>
      tag RValueOperator.MulAssign
  | EOpDivAssign => tag RValueOperator.DivAssign
  | EOpModAssign => tag RValueOperator.ModAssign
  | EOpAndAssign => tag RValueOperator.AndAssign
  | EOpInclusiveOrAssign => tag RValueOperator.InclusiveOrAssign
  | EOpExclusiveOrAssign => tag RValueOperator.ExclusiveOrAssign
  | EOpLeftShiftAssign => tag RValueOperator.LeftShiftAssign
  | EOpRightShiftAssign => tag RValueOperator.RightShiftAssign
  | EOpArrayLength => tag RValueOperator.ArrayLength
  | EOpImageQuerySize => name "imageSize"
  | EOpImageQuerySamples => name "imageSamples"
  | EOpImageLoad => name "imageLoad"
  | EOpImageStore => name "imageStore"
  | EOpImageLoadLod => name "imageLoadLodAMD"
  | EOpImageStoreLod => name "imageStoreLodAMD"
  | EOpImageAtomicAdd => name "imageAtomicAdd"
  | EOpImageAtomicMin => name "imageAtomicMin"
  | EOpImageAtomicMax => name "imageAtomicMax"
  | EOpImageAtomicAnd => name "imageAtomicAnd"
  | EOpImageAtomicOr => name "imageAtomicOr"
  | EOpImageAtomicXor => name "imageAtomicXor"
  | EOpImageAtomicExchange => name "imageAtomicExchange"
  | EOpImageAtomicCompSwap => name "imageAtomicCompSwap"
  | EOpImageAtomicLoad => name "imageAtomicLoad"
  | EOpImageAtomicStore => name "imageAtomicStore"
  | EOpSubpassLoad => name "subpassLoad"
  | EOpSubpassLoadMS => name "subpassLoadMS"
  | EOpSparseImageLoad => name "sparseImageLoadARB"
  | EOpSparseImageLoadLod => name "sparseImageLoadLodAMD"
  | EOpColorAttachmentReadEXT => name "colorAttachmentReadEXT"
  | EOpTextureQuerySize => name "textureSize"
  | EOpTextureQueryLod => name (if bool_decide (version >= 400) then "textureQueryLod" else "textureQueryLOD")
  | EOpTextureQueryLevels => name "textureQueryLevels"
  | EOpTextureQuerySamples => name "textureSamples"
  | EOpTexture => nameR (textureFunctionNameForSampler "" "" version arg1Type)
  | EOpTextureProj => nameR (textureFunctionNameForSampler "Proj" "" version arg1Type)
  | EOpTextureLod => nameR (textureFunctionNameForSampler "Lod" "" version arg1Type)
  | EOpTextureOffset => name "textureOffset"
  | EOpTextureFetch => name "texelFetch"
  | EOpTextureFetchOffset => name "texelFetchOffset"
  | EOpTextureProjOffset => name "textureProjOffset"
  | EOpTextureLodOffset => name "textureLodOffset"
  | EOpTextureProjLod => nameR (textureFunctionNameForSampler "ProjLod" "" version arg1Type)
  | EOpTextureProjLodOffset => name "textureProjLodOffset"
  | EOpTextureGrad => nameR (textureFunctionNameForSampler "Grad" "ARB" version arg1Type)
  | EOpTextureGradOffset => name "textureGradOffset"
  | EOpTextureProjGrad => nameR (textureFunctionNameForSampler "ProjGrad" "ARB" version arg1Type)
  | EOpTextureProjGradOffset => name "textureProjGradOffset"
  | EOpTextureGather => name "textureGather"
  | EOpTextureGatherOffset => name "textureGatherOffset"
  | EOpTextureGatherOffsets => name "textureGatherOffsets"
  | EOpTextureClamp => name "textureClampARB"
  | EOpTextureOffsetClamp => name "textureOffsetClampARB"
  | EOpTextureGradClamp => name "textureGradClampARB"
  | EOpTextureGradOffsetClamp => name "textureGradOffsetClampARB"
  | EOpTextureGatherLod => name "textureGatherLodAMD"
  | EOpTextureGatherLodOffset => name "textureGatherLodOffsetAMD"
  | EOpTextureGatherLodOffsets => name "textureGatherLodOffsetsAMD"
  | EOpFragmentMaskFetch => name "fragmentMaskFetchAMD"
  | EOpFragmentFetch => name "fragmentFetchAMD"
  | EOpSparseTexture => name "sparseTextureARB"
  | EOpSparseTextureLod => name "sparseTextureLodARB"
  | EOpSparseTextureOffset => name "sparseTextureOffsetARB"
  | EOpSparseTextureFetch => name "sparseTexelFetchARB"
  | EOpSparseTextureFetchOffset => name "sparseTexelFetchOffsetARB"
  | EOpSparseTextureLodOffset => name "sparseTextureLodOffsetARB"
  | EOpSparseTextureGrad => name "sparseTextureGradARB"
  | EOpSparseTextureGradOffset => name "sparseTextureGradOffsetARB"
  | EOpSparseTextureGather => name "sparseTextureGatherARB"
  | EOpSparseTextureGatherOffset => name "sparseTextureGatherOffsetARB"
  | EOpSparseTextureGatherOffsets => name "sparseTextureGatherOffsetsARB"
  | EOpSparseTexelsResident => name "sparseTexelsResidentARB"
  | EOpSparseTextureClamp => name "sparseTextureClampARB"
  | EOpSparseTextureOffsetClamp => name "sparseTextureOffsetClampARB"
  | EOpSparseTextureGradClamp => name "sparseTextureGradClampARB"
  | EOpSparseTextureGradOffsetClamp => name "sparseTextureGradOffsetClampARB"
  | EOpSparseTextureGatherLod => name "sparseTextureGatherLodAMD"
  | EOpSparseTextureGatherLodOffset => name "sparseTextureGatherLodOffsetAMD"
  | EOpSparseTextureGatherLodOffsets => name "sparseTextureGatherLodOffsetsAMD"
  | EOpImageSampleFootprintNV => name "textureFootprintNV"
  | EOpImageSampleFootprintClampNV => name "textureFootprintClampNV"
  | EOpImageSampleFootprintLodNV => name "textureFootprintLodNV"
  | EOpImageSampleFootprintGradNV => name "textureFootprintGradNV"
  | EOpImageSampleFootprintGradClampNV => name "textureFootprintGradClampNV"
  | EOpAddCarry => name "uaddCarry"
  | EOpSubBorrow => name "usubBorrow"
  | EOpUMulExtended => name "umulExtended"
  | EOpIMulExtended => name "imulExtended"
  | EOpBitfieldExtract => name "bitfieldExtract"
  | EOpBitfieldInsert => name "bitfieldInsert"
  | EOpBitFieldReverse => name "bitfieldReverse"
  | EOpBitCount => name "bitCount"
  | EOpFindLSB => name "findLSB"
  | EOpFindMSB => name "findMSB"
  | EOpCountLeadingZeros => name "countLeadingZeros"
  | EOpCountTrailingZeros => name "countTrailingZeros"
  | EOpAbsDifference => name "absoluteDifference"
  | EOpAddSaturate => name "addSaturate"
  | EOpSubSaturate => name "subtractSaturate"
  | EOpAverage => name "average"
  | EOpAverageRounded => name "averageRounded"
  | EOpMul32x16 => name "multiply32x16"
  | EOpTraceNV => name "traceNV"
  | EOpTraceRayMotionNV => name "traceRayMotionNV"
  | EOpTraceKHR => name "traceRayEXT"
  | EOpReportIntersection => name "reportIntersectionEXT"
  | EOpIgnoreIntersectionNV => name "ignoreIntersectionNV"
  | EOpTerminateRayNV => name "terminateRayNV"
  | EOpExecuteCallableNV => name "executeCallableNV"
  | EOpExecuteCallableKHR => name "executeCallableEXT"
  | EOpWritePackedPrimitiveIndices4x8NV => name "writePackedPrimitiveIndices4x8NV"
  | EOpEmitMeshTasksEXT => name "EmitMeshTasksEXT"
  | EOpSetMeshOutputsEXT => name "SetMeshOutputsEXT"
  | EOpRayQueryInitialize => name "rayQueryInitializeEXT"
  | EOpRayQueryTerminate => name "rayQueryTerminateEXT"
  | EOpRayQueryGenerateIntersection => name "rayQueryGenerateIntersectionEXT"
  | EOpRayQueryConfirmIntersection => name "rayQueryConfirmIntersectionEXT"
  | EOpRayQueryProceed => name "rayQueryProceedEXT"
  | EOpRayQueryGetIntersectionType => name "rayQueryGetIntersectionTypeEXT"
  | EOpRayQueryGetRayTMin => name "rayQueryGetRayTMinEXT"
  | EOpRayQueryGetRayFlags => name "rayQueryGetRayFlagsEXT"
  | EOpRayQueryGetIntersectionT => name "rayQueryGetIntersectionTEXT"
  | EOpRayQueryGetIntersectionInstanceCustomIndex => name "rayQueryGetIntersectionInstanceCustomIndexEXT"
  | EOpRayQueryGetIntersectionInstanceId => name "rayQueryGetIntersectionInstanceIdEXT"
  | EOpRayQueryGetIntersectionInstanceShaderBindingTableRecordOffset => name "rayQueryGetIntersectionInstanceShaderBindingTableRecordOffsetEXT"
  | EOpRayQueryGetIntersectionGeometryIndex => name "rayQueryGetIntersectionGeometryIndexEXT"
  | EOpRayQueryGetIntersectionPrimitiveIndex => name "rayQueryGetIntersectionPrimitiveIndexEXT"
  | EOpRayQueryGetIntersectionBarycentrics => name "rayQueryGetIntersectionBarycentricsEXT"
  | EOpRayQueryGetIntersectionFrontFace => name "rayQueryGetIntersectionFrontFaceEXT"
  | EOpRayQueryGetIntersectionCandidateAABBOpaque => name "rayQueryGetIntersectionCandidateAABBOpaqueEXT"
  | EOpRayQueryGetIntersectionObjectRayDirection => name "rayQueryGetIntersectionObjectRayDirectionEXT"
  | EOpRayQueryGetIntersectionObjectRayOrigin => name "rayQueryGetIntersectionObjectRayOriginEXT"
  | EOpRayQueryGetWorldRayDirection => name "rayQueryGetWorldRayDirectionEXT"
  | EOpRayQueryGetWorldRayOrigin => name "rayQueryGetWorldRayOriginEXT"
  | EOpRayQueryGetIntersectionObjectToWorld => name "rayQueryGetIntersectionObjectToWorldEXT"
  | EOpRayQueryGetIntersectionWorldToObject => name "rayQueryGetIntersectionWorldToObjectEXT"
  | EOpHitObjectTraceRayNV => name "hitObjectTraceRayNV"
  | EOpHitObjectTraceRayMotionNV => name "hitObjectTraceRayMotionNV"
  | EOpHitObjectRecordHitNV => name "hitObjectRecordHitNV"
  | EOpHitObjectRecordHitMotionNV => name "hitObjectRecordHitMotionNV"
  | EOpHitObjectRecordHitWithIndexNV => name "hitObjectRecordHitWithIndexNV"
  | EOpHitObjectRecordHitWithIndexMotionNV => name "hitObjectRecordHitWithIndexMotionNV"
  | EOpHitObjectRecordMissNV => name "hitObjectRecordMissNV"
  | EOpHitObjectRecordMissMotionNV => name "hitObjectRecordMissMotionNV"
  | EOpHitObjectRecordEmptyNV => name "hitObjectRecordEmptyNV"
  | EOpHitObjectExecuteShaderNV => name "hitObjectExecuteShaderNV"
  | EOpHitObjectIsEmptyNV => name "hitObjectIsEmptyNV"
  | EOpHitObjectIsMissNV => name "hitObjectIsMissNV"
  | EOpHitObjectIsHitNV => name "hitObjectIsHitNV"
  | EOpHitObjectGetRayTMinNV => name "hitObjectGetRayTMinNV"
  | EOpHitObjectGetRayTMaxNV => name "hitObjectGetRayTMaxNV"
  | EOpHitObjectGetObjectRayOriginNV => name "hitObjectGetObjectRayOriginNV"
  | EOpHitObjectGetObjectRayDirectionNV => name "hitObjectGetObjectRayDirectionNV"
  | EOpHitObjectGetWorldRayOriginNV => name "hitObjectGetWorldRayOriginNV"
  | EOpHitObjectGetWorldRayDirectionNV => name "hitObjectGetWorldRayDirectionNV"
  | EOpHitObjectGetWorldToObjectNV => name "hitObjectGetWorldToObjectNV"
  | EOpHitObjectGetObjectToWorldNV => name "hitObjectGetObjectToWorldNV"
  | EOpHitObjectGetInstanceCustomIndexNV => name "hitObjectGetInstanceCustomIndexNV"
  | EOpHitObjectGetInstanceIdNV => name "hitObjectGetInstanceIdNV"
  | EOpHitObjectGetGeometryIndexNV => name "hitObjectGetGeometryIndexNV"
  | EOpHitObjectGetPrimitiveIndexNV => name "hitObjectGetPrimitiveIndexNV"
  | EOpHitObjectGetHitKindNV => name "hitObjectGetHitKindNV"
  | EOpHitObjectGetShaderBindingTableRecordIndexNV => name "hitObjectGetShaderBindingTableRecordIndexNV"
  | EOpHitObjectGetShaderRecordBufferHandleNV => name "hitObjectGetShaderRecordBufferHandleNV"
  | EOpHitObjectGetAttributesNV => name "hitObjectGetAttributesNV"
  | EOpHitObjectGetCurrentTimeNV => name "hitObjectGetCurrentTimeNV"
  | EOpReorderThreadNV => name "reorderThreadNV"
  | EOpFetchMicroTriangleVertexPositionNV => name "fetchMicroTriangleVertexPositionNV"
  | EOpFetchMicroTriangleVertexBarycentricNV => name "fetchMicroTriangleVertexBarycentricNV"
  | EOpReadClockSubgroupKHR => name "clock2x32ARB"
  | EOpReadClockDeviceKHR => name "clockRealtime2x32EXT"
  | EOpRayQueryGetIntersectionTriangleVertexPositionsEXT => name "rayQueryGetIntersectionTriangleVertexPositionsEXT"
  | EOpStencilAttachmentReadEXT => name "stencilAttachmentReadEXT"
  | EOpDepthAttachmentReadEXT => name "depthAttachmentReadEXT"
  | EOpImageSampleWeightedQCOM => name "textureWeightedQCOM"
  | EOpImageBoxFilterQCOM => name "textureBoxFilterQCOM"
  | EOpImageBlockMatchSADQCOM => name "textureBlockMatchSADQCOM"
  | EOpImageBlockMatchSSDQCOM => name "textureBlockMatchSSDQCOM"
  | _ =>
      Ok (inl RValueOperator.Ternary, [CannotConvertOperatorToRValueOperator op])
  end.
End operator_table.

(** [BranchOperator glslangOperatorToBranchOperator(op)] *)
Definition glslangOperatorToBranchOperator (op : TOperator) : Result BranchOperator.t :=
  match op with
  | EOpKill => Ok BranchOperator.Discard
  | EOpTerminateInvocation => Ok BranchOperator.TerminateInvocation
  | EOpDemote => Ok BranchOperator.Demote
  | EOpTerminateRayKHR => Ok BranchOperator.TerminateRayEXT
  | EOpIgnoreIntersectionKHR => Ok BranchOperator.IgnoreIntersectionEXT
  | EOpReturn => Ok BranchOperator.Return
  | EOpBreak => Ok BranchOperator.Break
  | EOpContinue => Ok BranchOperator.Continue
  | EOpCase => Ok BranchOperator.Case
  | EOpDefault => Ok BranchOperator.Default
  | _ => Fatal CannotConvertOperatorToBranchOperator
  end.

(** The [case] labels of the two switches, as the source lists them. *)
Definition rvalueOperatorCaseLabels : list TOperator :=
  [
    EOpNegative; EOpLogicalNot; EOpVectorLogicalNot; EOpBitwiseNot; EOpPostIncrement;
    EOpPostDecrement; EOpPreIncrement; EOpPreDecrement; EOpConvIntToBool;
    EOpConvUintToBool; EOpConvFloatToBool; EOpConvDoubleToBool; EOpConvBoolToInt;
    EOpConvUintToInt; EOpConvFloatToInt; EOpConvDoubleToInt; EOpConvBoolToFloat;
    EOpConvIntToFloat; EOpConvUintToFloat; EOpConvDoubleToFloat; EOpConvBoolToDouble;
    EOpConvIntToDouble; EOpConvUintToDouble; EOpConvFloatToDouble; EOpConvBoolToUint;
    EOpConvIntToUint; EOpConvFloatToUint; EOpConvDoubleToUint; EOpAdd; EOpSub; EOpMul;
    EOpVectorTimesScalar; EOpVectorTimesMatrix; EOpMatrixTimesVector; EOpMatrixTimesScalar;
    EOpDiv; EOpMod; EOpRightShift; EOpLeftShift; EOpAnd; EOpInclusiveOr; EOpExclusiveOr;
    EOpEqual; EOpNotEqual; EOpVectorEqual; EOpVectorNotEqual; EOpLessThan; EOpGreaterThan;
    EOpLessThanEqual; EOpGreaterThanEqual; EOpComma; EOpLogicalOr; EOpLogicalXor;
    EOpLogicalAnd; EOpIndexDirect; EOpIndexIndirect; EOpIndexDirectStruct;
    EOpVectorSwizzle; EOpRadians; EOpDegrees; EOpSin; EOpCos; EOpTan; EOpAsin; EOpAcos;
    EOpAtan; EOpSinh; EOpCosh; EOpTanh; EOpAsinh; EOpAcosh; EOpAtanh; EOpPow; EOpExp;
    EOpLog; EOpExp2; EOpLog2; EOpSqrt; EOpInverseSqrt; EOpAbs; EOpSign; EOpFloor; EOpTrunc;
    EOpRound; EOpRoundEven; EOpCeil; EOpFract; EOpModf; EOpMin; EOpMax; EOpClamp; EOpMix;
    EOpStep; EOpSmoothStep; EOpIsNan; EOpIsInf; EOpFma; EOpFrexp; EOpLdexp;
    EOpFloatBitsToInt; EOpFloatBitsToUint; EOpIntBitsToFloat; EOpUintBitsToFloat;
    EOpPackSnorm2x16; EOpUnpackSnorm2x16; EOpPackUnorm2x16; EOpUnpackUnorm2x16;
    EOpPackSnorm4x8; EOpUnpackSnorm4x8; EOpPackUnorm4x8; EOpUnpackUnorm4x8;
    EOpPackHalf2x16; EOpUnpackHalf2x16; EOpPackDouble2x32; EOpUnpackDouble2x32;
    EOpPackInt2x32; EOpUnpackInt2x32; EOpPackUint2x32; EOpUnpackUint2x32; EOpPackFloat2x16;
    EOpUnpackFloat2x16; EOpPackInt2x16; EOpUnpackInt2x16; EOpPackUint2x16;
    EOpUnpackUint2x16; EOpPackInt4x16; EOpUnpackInt4x16; EOpPackUint4x16;
    EOpUnpackUint4x16; EOpPack16; EOpPack32; EOpPack64; EOpUnpack32; EOpUnpack16;
    EOpUnpack8; EOpLength; EOpDistance; EOpDot; EOpCross; EOpNormalize; EOpFaceForward;
    EOpReflect; EOpRefract; EOpMin3; EOpMax3; EOpMid3; EOpDPdx; EOpDPdy; EOpFwidth;
    EOpDPdxFine; EOpDPdyFine; EOpFwidthFine; EOpDPdxCoarse; EOpDPdyCoarse; EOpFwidthCoarse;
    EOpInterpolateAtCentroid; EOpInterpolateAtSample; EOpInterpolateAtOffset;
    EOpInterpolateAtVertex; EOpOuterProduct; EOpDeterminant; EOpMatrixInverse;
    EOpTranspose; EOpFtransform; EOpEmitVertex; EOpEndPrimitive; EOpEmitStreamVertex;
    EOpEndStreamPrimitive; EOpBarrier; EOpMemoryBarrier; EOpMemoryBarrierAtomicCounter;
    EOpMemoryBarrierBuffer; EOpMemoryBarrierImage; EOpMemoryBarrierShared;
    EOpGroupMemoryBarrier; EOpBallot; EOpReadInvocation; EOpReadFirstInvocation;
    EOpAnyInvocation; EOpAllInvocations; EOpAllInvocationsEqual; EOpSubgroupBarrier;
    EOpSubgroupMemoryBarrier; EOpSubgroupMemoryBarrierBuffer;
    EOpSubgroupMemoryBarrierImage; EOpSubgroupMemoryBarrierShared; EOpSubgroupElect;
    EOpSubgroupAll; EOpSubgroupAny; EOpSubgroupAllEqual; EOpSubgroupBroadcast;
    EOpSubgroupBroadcastFirst; EOpSubgroupBallot; EOpSubgroupInverseBallot;
    EOpSubgroupBallotBitExtract; EOpSubgroupBallotBitCount;
    EOpSubgroupBallotInclusiveBitCount; EOpSubgroupBallotExclusiveBitCount;
    EOpSubgroupBallotFindLSB; EOpSubgroupBallotFindMSB; EOpSubgroupShuffle;
    EOpSubgroupShuffleXor; EOpSubgroupShuffleUp; EOpSubgroupShuffleDown; EOpSubgroupAdd;
    EOpSubgroupMul; EOpSubgroupMin; EOpSubgroupMax; EOpSubgroupAnd; EOpSubgroupOr;
    EOpSubgroupXor; EOpSubgroupInclusiveAdd; EOpSubgroupInclusiveMul;
    EOpSubgroupInclusiveMin; EOpSubgroupInclusiveMax; EOpSubgroupInclusiveAnd;
    EOpSubgroupInclusiveOr; EOpSubgroupInclusiveXor; EOpSubgroupExclusiveAdd;
    EOpSubgroupExclusiveMul; EOpSubgroupExclusiveMin; EOpSubgroupExclusiveMax;
    EOpSubgroupExclusiveAnd; EOpSubgroupExclusiveOr; EOpSubgroupExclusiveXor;
    EOpSubgroupClusteredAdd; EOpSubgroupClusteredMul; EOpSubgroupClusteredMin;
    EOpSubgroupClusteredMax; EOpSubgroupClusteredAnd; EOpSubgroupClusteredOr;
    EOpSubgroupClusteredXor; EOpSubgroupQuadBroadcast; EOpSubgroupQuadSwapHorizontal;
    EOpSubgroupQuadSwapVertical; EOpSubgroupQuadSwapDiagonal; EOpSubgroupPartition;
    EOpSubgroupPartitionedAdd; EOpSubgroupPartitionedMul; EOpSubgroupPartitionedMin;
    EOpSubgroupPartitionedMax; EOpSubgroupPartitionedAnd; EOpSubgroupPartitionedOr;
    EOpSubgroupPartitionedXor; EOpSubgroupPartitionedInclusiveAdd;
    EOpSubgroupPartitionedInclusiveMul; EOpSubgroupPartitionedInclusiveMin;
    EOpSubgroupPartitionedInclusiveMax; EOpSubgroupPartitionedInclusiveAnd;
    EOpSubgroupPartitionedInclusiveOr; EOpSubgroupPartitionedInclusiveXor;
    EOpSubgroupPartitionedExclusiveAdd; EOpSubgroupPartitionedExclusiveMul;
    EOpSubgroupPartitionedExclusiveMin; EOpSubgroupPartitionedExclusiveMax;
    EOpSubgroupPartitionedExclusiveAnd; EOpSubgroupPartitionedExclusiveOr;
    EOpSubgroupPartitionedExclusiveXor; EOpMinInvocations; EOpMaxInvocations;
    EOpAddInvocations; EOpMinInvocationsNonUniform; EOpMaxInvocationsNonUniform;
    EOpAddInvocationsNonUniform; EOpMinInvocationsInclusiveScan;
    EOpMaxInvocationsInclusiveScan; EOpAddInvocationsInclusiveScan;
    EOpMinInvocationsInclusiveScanNonUniform; EOpMaxInvocationsInclusiveScanNonUniform;
    EOpAddInvocationsInclusiveScanNonUniform; EOpMinInvocationsExclusiveScan;
    EOpMaxInvocationsExclusiveScan; EOpAddInvocationsExclusiveScan;
    EOpMinInvocationsExclusiveScanNonUniform; EOpMaxInvocationsExclusiveScanNonUniform;
    EOpAddInvocationsExclusiveScanNonUniform; EOpSwizzleInvocations;
    EOpSwizzleInvocationsMasked; EOpWriteInvocation; EOpMbcnt; EOpCubeFaceIndex;
    EOpCubeFaceCoord; EOpTime; EOpAtomicAdd; EOpAtomicMin; EOpAtomicMax; EOpAtomicAnd;
    EOpAtomicOr; EOpAtomicXor; EOpAtomicExchange; EOpAtomicCompSwap; EOpAtomicLoad;
    EOpAtomicStore; EOpAtomicCounterIncrement; EOpAtomicCounterDecrement; EOpAtomicCounter;
    EOpAtomicCounterAdd; EOpAtomicCounterSubtract; EOpAtomicCounterMin;
    EOpAtomicCounterMax; EOpAtomicCounterAnd; EOpAtomicCounterOr; EOpAtomicCounterXor;
    EOpAtomicCounterExchange; EOpAtomicCounterCompSwap; EOpAny; EOpAll;
    EOpCooperativeMatrixLoad; EOpCooperativeMatrixStore; EOpCooperativeMatrixMulAdd;
    EOpCooperativeMatrixLoadNV; EOpCooperativeMatrixStoreNV; EOpCooperativeMatrixMulAddNV;
    EOpBeginInvocationInterlock; EOpEndInvocationInterlock; EOpIsHelperInvocation;
    EOpDebugPrintf; EOpConstructInt; EOpConstructUint; EOpConstructInt8; EOpConstructUint8;
    EOpConstructInt16; EOpConstructUint16; EOpConstructInt64; EOpConstructUint64;
    EOpConstructBool; EOpConstructFloat; EOpConstructDouble; EOpConstructVec2;
    EOpConstructVec3; EOpConstructVec4; EOpConstructMat2x2; EOpConstructMat2x3;
    EOpConstructMat2x4; EOpConstructMat3x2; EOpConstructMat3x3; EOpConstructMat3x4;
    EOpConstructMat4x2; EOpConstructMat4x3; EOpConstructMat4x4; EOpConstructDVec2;
    EOpConstructDVec3; EOpConstructDVec4; EOpConstructBVec2; EOpConstructBVec3;
    EOpConstructBVec4; EOpConstructI8Vec2; EOpConstructI8Vec3; EOpConstructI8Vec4;
    EOpConstructU8Vec2; EOpConstructU8Vec3; EOpConstructU8Vec4; EOpConstructI16Vec2;
    EOpConstructI16Vec3; EOpConstructI16Vec4; EOpConstructU16Vec2; EOpConstructU16Vec3;
    EOpConstructU16Vec4; EOpConstructIVec2; EOpConstructIVec3; EOpConstructIVec4;
    EOpConstructUVec2; EOpConstructUVec3; EOpConstructUVec4; EOpConstructI64Vec2;
    EOpConstructI64Vec3; EOpConstructI64Vec4; EOpConstructU64Vec2; EOpConstructU64Vec3;
    EOpConstructU64Vec4; EOpConstructDMat2x2; EOpConstructDMat2x3; EOpConstructDMat2x4;
    EOpConstructDMat3x2; EOpConstructDMat3x3; EOpConstructDMat3x4; EOpConstructDMat4x2;
    EOpConstructDMat4x3; EOpConstructDMat4x4; EOpConstructIMat2x2; EOpConstructIMat2x3;
    EOpConstructIMat2x4; EOpConstructIMat3x2; EOpConstructIMat3x3; EOpConstructIMat3x4;
    EOpConstructIMat4x2; EOpConstructIMat4x3; EOpConstructIMat4x4; EOpConstructUMat2x2;
    EOpConstructUMat2x3; EOpConstructUMat2x4; EOpConstructUMat3x2; EOpConstructUMat3x3;
    EOpConstructUMat3x4; EOpConstructUMat4x2; EOpConstructUMat4x3; EOpConstructUMat4x4;
    EOpConstructBMat2x2; EOpConstructBMat2x3; EOpConstructBMat2x4; EOpConstructBMat3x2;
    EOpConstructBMat3x3; EOpConstructBMat3x4; EOpConstructBMat4x2; EOpConstructBMat4x3;
    EOpConstructBMat4x4; EOpConstructFloat16; EOpConstructF16Vec2; EOpConstructF16Vec3;
    EOpConstructF16Vec4; EOpConstructF16Mat2x2; EOpConstructF16Mat2x3;
    EOpConstructF16Mat2x4; EOpConstructF16Mat3x2; EOpConstructF16Mat3x3;
    EOpConstructF16Mat3x4; EOpConstructF16Mat4x2; EOpConstructF16Mat4x3;
    EOpConstructF16Mat4x4; EOpConstructStruct; EOpConstructTextureSampler;
    EOpConstructNonuniform; EOpConstructReference; EOpConstructCooperativeMatrixNV;
    EOpConstructCooperativeMatrixKHR; EOpAssign; EOpAddAssign; EOpSubAssign; EOpMulAssign;
    EOpVectorTimesMatrixAssign; EOpVectorTimesScalarAssign; EOpMatrixTimesScalarAssign;
    EOpMatrixTimesMatrixAssign; EOpDivAssign; EOpModAssign; EOpAndAssign;
    EOpInclusiveOrAssign; EOpExclusiveOrAssign; EOpLeftShiftAssign; EOpRightShiftAssign;
    EOpArrayLength; EOpImageQuerySize; EOpImageQuerySamples; EOpImageLoad; EOpImageStore;
    EOpImageLoadLod; EOpImageStoreLod; EOpImageAtomicAdd; EOpImageAtomicMin;
    EOpImageAtomicMax; EOpImageAtomicAnd; EOpImageAtomicOr; EOpImageAtomicXor;
    EOpImageAtomicExchange; EOpImageAtomicCompSwap; EOpImageAtomicLoad;
    EOpImageAtomicStore; EOpSubpassLoad; EOpSubpassLoadMS; EOpSparseImageLoad;
    EOpSparseImageLoadLod; EOpColorAttachmentReadEXT; EOpTextureQuerySize;
    EOpTextureQueryLod; EOpTextureQueryLevels; EOpTextureQuerySamples; EOpTexture;
    EOpTextureProj; EOpTextureLod; EOpTextureOffset; EOpTextureFetch;
    EOpTextureFetchOffset; EOpTextureProjOffset; EOpTextureLodOffset; EOpTextureProjLod;
    EOpTextureProjLodOffset; EOpTextureGrad; EOpTextureGradOffset; EOpTextureProjGrad;
    EOpTextureProjGradOffset; EOpTextureGather; EOpTextureGatherOffset;
    EOpTextureGatherOffsets; EOpTextureClamp; EOpTextureOffsetClamp; EOpTextureGradClamp;
    EOpTextureGradOffsetClamp; EOpTextureGatherLod; EOpTextureGatherLodOffset;
    EOpTextureGatherLodOffsets; EOpFragmentMaskFetch; EOpFragmentFetch; EOpSparseTexture;
    EOpSparseTextureLod; EOpSparseTextureOffset; EOpSparseTextureFetch;
    EOpSparseTextureFetchOffset; EOpSparseTextureLodOffset; EOpSparseTextureGrad;
    EOpSparseTextureGradOffset; EOpSparseTextureGather; EOpSparseTextureGatherOffset;
    EOpSparseTextureGatherOffsets; EOpSparseTexelsResident; EOpSparseTextureClamp;
    EOpSparseTextureOffsetClamp; EOpSparseTextureGradClamp;
    EOpSparseTextureGradOffsetClamp; EOpSparseTextureGatherLod;
    EOpSparseTextureGatherLodOffset; EOpSparseTextureGatherLodOffsets;
    EOpImageSampleFootprintNV; EOpImageSampleFootprintClampNV;
    EOpImageSampleFootprintLodNV; EOpImageSampleFootprintGradNV;
    EOpImageSampleFootprintGradClampNV; EOpAddCarry; EOpSubBorrow; EOpUMulExtended;
    EOpIMulExtended; EOpBitfieldExtract; EOpBitfieldInsert; EOpBitFieldReverse;
    EOpBitCount; EOpFindLSB; EOpFindMSB; EOpCountLeadingZeros; EOpCountTrailingZeros;
    EOpAbsDifference; EOpAddSaturate; EOpSubSaturate; EOpAverage; EOpAverageRounded;
    EOpMul32x16; EOpTraceNV; EOpTraceRayMotionNV; EOpTraceKHR; EOpReportIntersection;
    EOpIgnoreIntersectionNV; EOpTerminateRayNV; EOpExecuteCallableNV;
    EOpExecuteCallableKHR; EOpWritePackedPrimitiveIndices4x8NV; EOpEmitMeshTasksEXT;
    EOpSetMeshOutputsEXT; EOpRayQueryInitialize; EOpRayQueryTerminate;
    EOpRayQueryGenerateIntersection; EOpRayQueryConfirmIntersection; EOpRayQueryProceed;
    EOpRayQueryGetIntersectionType; EOpRayQueryGetRayTMin; EOpRayQueryGetRayFlags;
    EOpRayQueryGetIntersectionT; EOpRayQueryGetIntersectionInstanceCustomIndex;
    EOpRayQueryGetIntersectionInstanceId;
    EOpRayQueryGetIntersectionInstanceShaderBindingTableRecordOffset;
    EOpRayQueryGetIntersectionGeometryIndex; EOpRayQueryGetIntersectionPrimitiveIndex;
    EOpRayQueryGetIntersectionBarycentrics; EOpRayQueryGetIntersectionFrontFace;
    EOpRayQueryGetIntersectionCandidateAABBOpaque;
    EOpRayQueryGetIntersectionObjectRayDirection;
    EOpRayQueryGetIntersectionObjectRayOrigin; EOpRayQueryGetWorldRayDirection;
    EOpRayQueryGetWorldRayOrigin; EOpRayQueryGetIntersectionObjectToWorld;
    EOpRayQueryGetIntersectionWorldToObject; EOpHitObjectTraceRayNV;
    EOpHitObjectTraceRayMotionNV; EOpHitObjectRecordHitNV; EOpHitObjectRecordHitMotionNV;
    EOpHitObjectRecordHitWithIndexNV; EOpHitObjectRecordHitWithIndexMotionNV;
    EOpHitObjectRecordMissNV; EOpHitObjectRecordMissMotionNV; EOpHitObjectRecordEmptyNV;
    EOpHitObjectExecuteShaderNV; EOpHitObjectIsEmptyNV; EOpHitObjectIsMissNV;
    EOpHitObjectIsHitNV; EOpHitObjectGetRayTMinNV; EOpHitObjectGetRayTMaxNV;
    EOpHitObjectGetObjectRayOriginNV; EOpHitObjectGetObjectRayDirectionNV;
    EOpHitObjectGetWorldRayOriginNV; EOpHitObjectGetWorldRayDirectionNV;
    EOpHitObjectGetWorldToObjectNV; EOpHitObjectGetObjectToWorldNV;
    EOpHitObjectGetInstanceCustomIndexNV; EOpHitObjectGetInstanceIdNV;
    EOpHitObjectGetGeometryIndexNV; EOpHitObjectGetPrimitiveIndexNV;
    EOpHitObjectGetHitKindNV; EOpHitObjectGetShaderBindingTableRecordIndexNV;
    EOpHitObjectGetShaderRecordBufferHandleNV; EOpHitObjectGetAttributesNV;
    EOpHitObjectGetCurrentTimeNV; EOpReorderThreadNV;
    EOpFetchMicroTriangleVertexPositionNV; EOpFetchMicroTriangleVertexBarycentricNV;
    EOpReadClockSubgroupKHR; EOpReadClockDeviceKHR;
    EOpRayQueryGetIntersectionTriangleVertexPositionsEXT; EOpStencilAttachmentReadEXT;
    EOpDepthAttachmentReadEXT; EOpImageSampleWeightedQCOM; EOpImageBoxFilterQCOM;
    EOpImageBlockMatchSADQCOM; EOpImageBlockMatchSSDQCOM
  ].

Definition branchOperatorCaseLabels : list TOperator :=
  [ EOpKill; EOpTerminateInvocation; EOpDemote; EOpTerminateRayKHR;
    EOpIgnoreIntersectionKHR; EOpReturn; EOpBreak; EOpContinue; EOpCase; EOpDefault ].

(** [std::string_view expandTypeNameToVector(typeNames, vectorSize)] *)
Definition expandTypeNameToVector (typeNames : list string) (vectorSize : Z)
    : Result string :=
  let* _ := assertPrecondition
              (bool_decide (vectorSize >= 1) && bool_decide (vectorSize <= 4))
              VectorSizeMustBeBetween1And4 in
  Ok (nth (Z.to_nat (vectorSize - 1)) typeNames "").

(** [std::string_view expandTypeNameToVectorOrMatrix(typeNames, isMatrix,
    vectorSize, matrixCols, matrixRows)] *)
Definition expandTypeNameToVectorOrMatrix
    (typeNames : list string) (isMatrix : bool)
    (vectorSize matrixCols matrixRows : Z) : Result string :=
  if isMatrix then
    let* _ := assertPrecondition
                (bool_decide (matrixCols >= 2) && bool_decide (matrixCols <= 4))
                MatrixColsMustBeBetween2And4 in
    let* _ := assertPrecondition
                (bool_decide (matrixRows >= 2) && bool_decide (matrixRows <= 4))
                MatrixRowsMustBeBetween2And4 in
    Ok (nth (Z.to_nat (4 + (matrixCols - 2) * 3 + (matrixRows - 2))) typeNames "")
  else expandTypeNameToVector typeNames vectorSize.

Definition FLOAT_TYPE_NAMES : list string :=
  [ "float"; "vec2"; "vec3"; "vec4"; "mat2"; "mat2x3"; "mat2x4"; "mat3x2"; "mat3";
    "mat3x4"; "mat4x2"; "mat4x3"; "mat4" ].
Definition DOUBLE_TYPE_NAMES : list string :=
  [ "double"; "dvec2"; "dvec3"; "dvec4"; "dmat2"; "dmat2x3"; "dmat2x4"; "dmat3x2";
    "dmat3"; "dmat3x4"; "dmat4x2"; "dmat4x3"; "dmat4" ].
Definition INT_TYPE_NAMES : list string := [ "int"; "ivec2"; "ivec3"; "ivec4" ].
Definition UINT_TYPE_NAMES : list string := [ "uint"; "uvec2"; "uvec3"; "uvec4" ].
Definition BOOL_TYPE_NAMES : list string := [ "bool"; "bvec2"; "bvec3"; "bvec4" ].

(** The conversion of an [int] dimension to [std::size_t]. *)
Definition to_size_t (d : Z) : Z := d mod 2 ^ 64.

(** ** The canonical form ([Types.h]) *)

(** Modelled from the spec: [Type], [Symbol] and the id-keyed variants of
    [Types.h], which this file only constructs by aggregate initialisation:
    [Type{name, qualifiers, arraySizes}], [Symbol{name, type}]. *)
Record Type_ : Type := mkType {
  type_name : StringId;
  type_qualifiers : option StringId;
  type_arraySizes : list Z;
}.

Record Symbol : Type := mkSymbol {
  symbol_name : StringId;
  symbol_type : option TypeId;
}.

(** [using ValueId = std::variant<GlobalSymbolId, LocalSymbolId, RValueId>] *)
Inductive ValueId : Type :=
  | ValueGlobal (id : GlobalSymbolId)
  | ValueLocal (id : LocalSymbolId)
  | ValueRValue (id : RValueId).

(** [EvaluableRValue{op, args}] *)
Record EvaluableRValue : Type := mkEvaluableRValue {
  evaluable_op : RValueOperator.t + FunctionId;
  evaluable_args : list ValueId;
}.

Record IfStatement : Type := mkIfStatement {
  if_condition : ValueId;
  if_thenBlock : StatementBlockId;
  if_elseBlock : option StatementBlockId;
}.

Record LoopStatement : Type := mkLoopStatement {
  loop_condition : ValueId;
  loop_terminal : option RValueId;
  loop_testFirst : bool;
  loop_body : StatementBlockId;
}.

Record SwitchStatement : Type := mkSwitchStatement {
  switch_condition : ValueId;
  switch_body : StatementBlockId;
}.

Record BranchStatement : Type := mkBranchStatement {
  branch_op : BranchOperator.t;
  branch_operand : option ValueId;
}.

Inductive Statement : Type :=
  | StatementRValue (id : RValueId)
  | StatementIf (s : IfStatement)
  | StatementLoop (s : LoopStatement)
  | StatementSwitch (s : SwitchStatement)
  | StatementBranch (s : BranchStatement).

Record FunctionDefinition : Type := mkFunctionDefinition {
  definition_name : FunctionId;
  definition_returnType : TypeId;
  definition_parameters : list LocalSymbolId;
  definition_body : StatementBlockId;
  definition_localSymbols : gmap LocalSymbolId Symbol;
}.

#[global] Instance Type_eq_dec : EqDecision Type_.
Proof. solve_decision. Defined.
#[global] Instance Type_countable : Countable Type_.
Proof.
  refine (inj_countable'
    (λ t, (type_name t, type_qualifiers t, type_arraySizes t))
    (λ '(n, q, a), mkType n q a) _).
  by intros [].
Defined.

#[global] Instance Symbol_eq_dec : EqDecision Symbol.
Proof. solve_decision. Defined.

#[global] Instance ValueId_eq_dec : EqDecision ValueId.
Proof. solve_decision. Defined.
#[global] Instance ValueId_countable : Countable ValueId.
Proof.
  refine (inj_countable'
    (λ v, match v with
          | ValueGlobal i => inl i
          | ValueLocal i => inr (inl i)
          | ValueRValue i => inr (inr i)
          end)
    (λ e, match e with
          | inl i => ValueGlobal i
          | inr (inl i) => ValueLocal i
          | inr (inr i) => ValueRValue i
          end) _).
  by intros [].
Defined.

#[global] Instance EvaluableRValue_eq_dec : EqDecision EvaluableRValue.
Proof. solve_decision. Defined.
#[global] Instance EvaluableRValue_countable : Countable EvaluableRValue.
Proof.
  refine (inj_countable'
    (λ e, (evaluable_op e, evaluable_args e))
    (λ '(o, a), mkEvaluableRValue o a) _).
  by intros [].
Defined.

#[global] Instance Statement_eq_dec : EqDecision Statement.
Proof.
  assert (EqDecision IfStatement) by solve_decision.
  assert (EqDecision LoopStatement) by solve_decision.
  assert (EqDecision SwitchStatement) by solve_decision.
  assert (EqDecision BranchStatement) by solve_decision.
  solve_decision.
Defined.
#[global] Instance Statement_countable : Countable Statement.
Proof.
  refine (inj_countable'
    (λ s, match s with
          | StatementRValue i => inl i
          | StatementIf (mkIfStatement c t e) => inr (inl (c, t, e))
          | StatementLoop (mkLoopStatement c t f b) => inr (inr (inl (c, t, f, b)))
          | StatementSwitch (mkSwitchStatement c b) => inr (inr (inr (inl (c, b))))
          | StatementBranch (mkBranchStatement o v) => inr (inr (inr (inr (o, v))))
          end)
    (λ e, match e with
          | inl i => StatementRValue i
          | inr (inl (c, t, e)) => StatementIf (mkIfStatement c t e)
          | inr (inr (inl (c, t, f, b))) => StatementLoop (mkLoopStatement c t f b)
          | inr (inr (inr (inl (c, b)))) => StatementSwitch (mkSwitchStatement c b)
          | inr (inr (inr (inr (o, v)))) => StatementBranch (mkBranchStatement o v)
          end) _).
  by intros [?|[]|[]|[]|[]].
Defined.

Section Lowering.
(** The C++ [double] of a floating-point constant, with the equality and
    hash that [Types.h] gives to literals. *)
Context {double : Type} `{Countable double}.

(** [glslang::TConstUnion]: a tagged union, one constructor per setter. *)
Inductive TConstUnion : Type :=
  | ConstI8 (getI8Const : Z)
  | ConstU8 (getU8Const : Z)
  | ConstI16 (getI16Const : Z)
  | ConstU16 (getU16Const : Z)
  | ConstI (getIConst : Z)
  | ConstU (getUConst : Z)
  | ConstI64 (getI64Const : Z)
  | ConstU64 (getU64Const : Z)
  | ConstD (getDConst : double)
  | ConstB (getBConst : bool)
  | ConstS (getSConst : string).

(** [TConstUnion::getType()] *)
Definition getType (value : TConstUnion) : TBasicType :=
  match value with
  | ConstI8 _ => EbtInt8
  | ConstU8 _ => EbtUint8
  | ConstI16 _ => EbtInt16
  | ConstU16 _ => EbtUint16
  | ConstI _ => EbtInt
  | ConstU _ => EbtUint
  | ConstI64 _ => EbtInt64
  | ConstU64 _ => EbtUint64
  | ConstD _ => EbtDouble
  | ConstB _ => EbtBool
  | ConstS _ => EbtString
  end.

(** Modelled from the spec: [LiteralRValue] of [Types.h], a scalar
    constant; the model keeps the constant as the getter returned it. *)
Inductive LiteralRValue : Type :=
  | LiteralI8 (v : Z)
  | LiteralU8 (v : Z)
  | LiteralI16 (v : Z)
  | LiteralU16 (v : Z)
  | LiteralInt (v : Z)
  | LiteralUint (v : Z)
  | LiteralDouble (v : double)
  | LiteralBool (v : bool).

(** [using RValue = std::variant<EvaluableRValue, LiteralRValue>] *)
Inductive RValue : Type :=
  | RValueEvaluable (e : EvaluableRValue)
  | RValueLiteral (l : LiteralRValue).

#[global] Instance LiteralRValue_eq_dec : EqDecision LiteralRValue.
Proof. solve_decision. Defined.
#[global] Instance LiteralRValue_countable : Countable LiteralRValue.
Proof.
  refine (inj_countable'
    (λ l, match l with
          | LiteralI8 v => inl (0%nat, v)
          | LiteralU8 v => inl (1%nat, v)
          | LiteralI16 v => inl (2%nat, v)
          | LiteralU16 v => inl (3%nat, v)
          | LiteralInt v => inl (4%nat, v)
          | LiteralUint v => inl (5%nat, v)
          | LiteralDouble v => inr (inl v)
          | LiteralBool v => inr (inr v)
          end)
    (λ e, match e with
          | inl (0%nat, v) => LiteralI8 v
          | inl (1%nat, v) => LiteralU8 v
          | inl (2%nat, v) => LiteralI16 v
          | inl (3%nat, v) => LiteralU16 v
          | inl (4%nat, v) => LiteralInt v
          | inl (_, v) => LiteralUint v
          | inr (inl v) => LiteralDouble v
          | inr (inr v) => LiteralBool v
          end) _).
  by intros [].
Defined.

#[global] Instance RValue_eq_dec : EqDecision RValue.
Proof. solve_decision. Defined.
#[global] Instance RValue_countable : Countable RValue.
Proof.
  refine (inj_countable'
    (λ r, match r with RValueEvaluable e => inl e | RValueLiteral l => inr l end)
    (λ e, match e with inl e => RValueEvaluable e | inr l => RValueLiteral l end) _).
  by intros [].
Defined.

(** [LiteralRValue constUnionToLiteralRValue(const TConstUnion& value)] *)
Definition constUnionToLiteralRValue (value : TConstUnion) : Result LiteralRValue :=
  match value with
  | ConstI8 v => Ok (LiteralI8 v)
  | ConstU8 v => Ok (LiteralU8 v)
  | ConstI16 v => Ok (LiteralI16 v)
  | ConstU16 v => Ok (LiteralU16 v)
  | ConstI v => Ok (LiteralInt v)
  | ConstU v => Ok (LiteralUint v)
  | ConstI64 _ => Fatal UnsupportedTypeInt64
  | ConstU64 _ => Fatal UnsupportedTypeUint64
  | ConstD v => Ok (LiteralDouble v)
  | ConstB v => Ok (LiteralBool v)
  | ConstS _ => Fatal UnsupportedTypeString
  end.

(** The glslang node hierarchy. [TIntermLoop], [TIntermBranch] and
    [TIntermSwitch] derive from [TIntermNode]; the other classes derive
    from [TIntermTyped] and carry the [TType] that [getType()] returns.
    A child that glslang leaves null for some programs is an [option]. *)
#[local] Unset Elimination Schemes.
Inductive TIntermNode : Type :=
  | TIntermLoop (getTest : option TIntermNode) (getTerminal : option TIntermNode)
      (testFirst : bool) (getBody : option TIntermNode)
  | TIntermBranch (getFlowOp : TOperator) (getExpression : option TIntermNode)
  | TIntermSwitch (getCondition : TIntermNode) (getBody : TIntermNode)
  | TIntermSelection (type : TType) (getCondition : TIntermNode)
      (getTrueBlock getFalseBlock : option TIntermNode)
  | TIntermConstantUnion (type : TType) (getConstArray : list TConstUnion)
  | TIntermSymbol (type : TType) (getId : Z) (getName getAccessName : string)
  | TIntermUnary (type : TType) (getOp : TOperator) (getOperand : TIntermNode)
  | TIntermBinary (type : TType) (getOp : TOperator) (getLeft getRight : TIntermNode)
  | TIntermAggregate (type : TType) (getOp : TOperator) (getName : string)
      (getSequence : list TIntermNode)
  | TIntermMethod (type : TType) (getObject : TIntermNode) (getMethodName : string).
#[local] Set Elimination Schemes.

(** [TIntermNode::getAsTyped()], then [TIntermTyped::getType()]. *)
Definition getAsTyped (node : TIntermNode) : option TType :=
  match node with
  | TIntermLoop _ _ _ _ | TIntermBranch _ _ | TIntermSwitch _ _ => None
  | TIntermSelection type _ _ _ | TIntermConstantUnion type _
  | TIntermSymbol type _ _ _ | TIntermUnary type _ _ | TIntermBinary type _ _ _
  | TIntermAggregate type _ _ _ | TIntermMethod type _ _ => Some type
  end.

Definition getAsSymbolNode (node : TIntermNode) : bool :=
  match node with TIntermSymbol _ _ _ _ => true | _ => false end.

Definition getAsConstantUnion (node : TIntermNode) : bool :=
  match node with TIntermConstantUnion _ _ => true | _ => false end.

(** [glslang::TIntermediate], read through [getVersion()] and
    [getTreeRoot()]. *)
Record TIntermediate : Type := mkTIntermediate {
  getVersion : Z;
  getTreeRoot : option TIntermNode;
}.

(** [using LocalSymbols = IdStoreByKey<LocalSymbolId, Symbol, long long>] *)
Definition LocalSymbols : Type := IdStoreByKey LocalSymbolId Symbol.

(** The data members of [class Slurper], with the error log it writes. *)
Record Slurper : Type := mkSlurper {
  mVersion : Z;
  mStrings : IdStoreByValue StringId string;
  mTypes : IdStoreByValue TypeId Type_;
  mStructs : IdStoreByKey StructId Symbol;
  mGlobalSymbols : IdStoreByKey GlobalSymbolId Symbol;
  mRValues : IdStoreByValue RValueId RValue;
  mFunctionNames : IdStoreByValue FunctionId string;
  mStatementBlocks : IdStoreByValue StatementBlockId (list Statement);
  mFunctionDefinitions : gmap FunctionId FunctionDefinition;
  mFunctionPrototypes : gset FunctionId;
  mGlobalSymbolDefinitionsInOrder : list (GlobalSymbolId * ValueId);
  mFunctionDefinitionsInOrder : list FunctionId;
  slog : list LogEntry;
}.

(** [struct PackFromGlsl] *)
Record PackFromGlsl : Type := mkPackFromGlsl {
  pack_version : Z;
  pack_strings : gmap StringId string;
  pack_types : gmap TypeId Type_;
  pack_globalSymbols : gmap GlobalSymbolId Symbol;
  pack_rValues : gmap RValueId RValue;
  pack_functionNames : gmap FunctionId string;
  pack_statementBlocks : gmap StatementBlockId (list Statement);
  pack_functionDefinitions : gmap FunctionId FunctionDefinition;
  pack_functionPrototypes : gset FunctionId;
  pack_globalSymbolDefinitionsInOrder : list (GlobalSymbolId * ValueId);
  pack_functionDefinitionsInOrder : list FunctionId;
}.

(** *** The lowering monad: the Slurper's members threaded through a pass
    that may abort *)
Definition M (A : Type) : Type := Slurper → Result (A * Slurper).

Definition ret {A} (a : A) : M A := λ s, Ok (a, s).

Definition bind {A B} (m : M A) (k : A → M B) : M B :=
  λ s, match m s with
       | Ok (a, s') => k a s'
       | Fatal p => Fatal p
       end.

Definition panic {A} (p : Panic) : M A := λ _, Fatal p.

Definition lift {A} (r : Result A) : M A :=
  λ s, match r with
       | Ok a => Ok (a, s)
       | Fatal p => Fatal p
       end.

Definition gets {A} (f : Slurper → A) : M A := λ s, Ok (f s, s).

Definition modify (f : Slurper → Slurper) : M unit := λ s, Ok (tt, f s).

#[local] Notation "'do' x <- c ; k" := (bind c (λ x, k))
  (at level 10, x name, c at level 100, k at level 200, only parsing).
#[local] Notation "'do' ' x <- c ; k" := (bind c (λ x, k))
  (at level 10, x strict pattern, c at level 100, k at level 200, only parsing).

(** [ASSERT_PRECONDITION(cond, ...)] inside the pass. *)
Definition assertM (cond : bool) (p : Panic) : M unit :=
  lift (assertPrecondition cond p).

(** Dereferencing a pointer that may be null. *)
Definition deref {A} (pointer : option A) : M A :=
  match pointer with
  | Some a => ret a
  | None => panic NullDereference
  end.

Definition set_mStrings (v : IdStoreByValue StringId string) (s : Slurper) :=
  mkSlurper (mVersion s) v (mTypes s) (mStructs s) (mGlobalSymbols s) (mRValues s)
    (mFunctionNames s) (mStatementBlocks s) (mFunctionDefinitions s)
    (mFunctionPrototypes s) (mGlobalSymbolDefinitionsInOrder s)
    (mFunctionDefinitionsInOrder s) (slog s).
Definition set_mTypes (v : IdStoreByValue TypeId Type_) (s : Slurper) :=
  mkSlurper (mVersion s) (mStrings s) v (mStructs s) (mGlobalSymbols s) (mRValues s)
    (mFunctionNames s) (mStatementBlocks s) (mFunctionDefinitions s)
    (mFunctionPrototypes s) (mGlobalSymbolDefinitionsInOrder s)
    (mFunctionDefinitionsInOrder s) (slog s).
Definition set_mGlobalSymbols (v : IdStoreByKey GlobalSymbolId Symbol) (s : Slurper) :=
  mkSlurper (mVersion s) (mStrings s) (mTypes s) (mStructs s) v (mRValues s)
    (mFunctionNames s) (mStatementBlocks s) (mFunctionDefinitions s)
    (mFunctionPrototypes s) (mGlobalSymbolDefinitionsInOrder s)
    (mFunctionDefinitionsInOrder s) (slog s).
Definition set_mRValues (v : IdStoreByValue RValueId RValue) (s : Slurper) :=
  mkSlurper (mVersion s) (mStrings s) (mTypes s) (mStructs s) (mGlobalSymbols s) v
    (mFunctionNames s) (mStatementBlocks s) (mFunctionDefinitions s)
    (mFunctionPrototypes s) (mGlobalSymbolDefinitionsInOrder s)
    (mFunctionDefinitionsInOrder s) (slog s).
Definition set_mFunctionNames (v : IdStoreByValue FunctionId string) (s : Slurper) :=
  mkSlurper (mVersion s) (mStrings s) (mTypes s) (mStructs s) (mGlobalSymbols s)
    (mRValues s) v (mStatementBlocks s) (mFunctionDefinitions s)
    (mFunctionPrototypes s) (mGlobalSymbolDefinitionsInOrder s)
    (mFunctionDefinitionsInOrder s) (slog s).
Definition set_mStatementBlocks
    (v : IdStoreByValue StatementBlockId (list Statement)) (s : Slurper) :=
  mkSlurper (mVersion s) (mStrings s) (mTypes s) (mStructs s) (mGlobalSymbols s)
    (mRValues s) (mFunctionNames s) v (mFunctionDefinitions s)
    (mFunctionPrototypes s) (mGlobalSymbolDefinitionsInOrder s)
    (mFunctionDefinitionsInOrder s) (slog s).
Definition set_mFunctionDefinitions
    (v : gmap FunctionId FunctionDefinition) (s : Slurper) :=
  mkSlurper (mVersion s) (mStrings s) (mTypes s) (mStructs s) (mGlobalSymbols s)
    (mRValues s) (mFunctionNames s) (mStatementBlocks s) v
    (mFunctionPrototypes s) (mGlobalSymbolDefinitionsInOrder s)
    (mFunctionDefinitionsInOrder s) (slog s).
Definition set_mFunctionPrototypes (v : gset FunctionId) (s : Slurper) :=
  mkSlurper (mVersion s) (mStrings s) (mTypes s) (mStructs s) (mGlobalSymbols s)
    (mRValues s) (mFunctionNames s) (mStatementBlocks s) (mFunctionDefinitions s)
    v (mGlobalSymbolDefinitionsInOrder s)
    (mFunctionDefinitionsInOrder s) (slog s).
Definition set_mGlobalSymbolDefinitionsInOrder
    (v : list (GlobalSymbolId * ValueId)) (s : Slurper) :=
  mkSlurper (mVersion s) (mStrings s) (mTypes s) (mStructs s) (mGlobalSymbols s)
    (mRValues s) (mFunctionNames s) (mStatementBlocks s) (mFunctionDefinitions s)
    (mFunctionPrototypes s) v (mFunctionDefinitionsInOrder s) (slog s).
Definition set_mFunctionDefinitionsInOrder (v : list FunctionId) (s : Slurper) :=
  mkSlurper (mVersion s) (mStrings s) (mTypes s) (mStructs s) (mGlobalSymbols s)
    (mRValues s) (mFunctionNames s) (mStatementBlocks s) (mFunctionDefinitions s)
    (mFunctionPrototypes s) (mGlobalSymbolDefinitionsInOrder s) v (slog s).
Definition set_slog (v : list LogEntry) (s : Slurper) :=
  mkSlurper (mVersion s) (mStrings s) (mTypes s) (mStructs s) (mGlobalSymbols s)
    (mRValues s) (mFunctionNames s) (mStatementBlocks s) (mFunctionDefinitions s)
    (mFunctionPrototypes s) (mGlobalSymbolDefinitionsInOrder s)
    (mFunctionDefinitionsInOrder s) v.

(** [mStrings.insert(...)], [mTypes.insert(...)], ... *)
Definition mStrings_insert (value : string) : M StringId :=
  λ s, let '(id, st) := ByValue.insert value (mStrings s) in Ok (id, set_mStrings st s).
Definition mTypes_insert (value : Type_) : M TypeId :=
  λ s, let '(id, st) := ByValue.insert value (mTypes s) in Ok (id, set_mTypes st s).
Definition mGlobalSymbols_insert (key : Z) (value : Symbol) : M GlobalSymbolId :=
  λ s, let '(id, st) := ByKey.insert key value (mGlobalSymbols s) in
       Ok (id, set_mGlobalSymbols st s).
Definition mGlobalSymbols_get (key : Z) : M (option GlobalSymbolId) :=
  gets (λ s, ByKey.get key (mGlobalSymbols s)).
Definition mRValues_insert (value : RValue) : M RValueId :=
  λ s, let '(id, st) := ByValue.insert value (mRValues s) in Ok (id, set_mRValues st s).
Definition mFunctionNames_insert (value : string) : M FunctionId :=
  λ s, let '(id, st) := ByValue.insert value (mFunctionNames s) in
       Ok (id, set_mFunctionNames st s).
Definition mStatementBlocks_insert (value : list Statement) : M StatementBlockId :=
  λ s, let '(id, st) := ByValue.insert value (mStatementBlocks s) in
       Ok (id, set_mStatementBlocks st s).

(** [std::optional<StringId> slurpQualifiers(const TQualifier& qualifier)]:
    the text [s] the function builds, then the interning of it. *)
Definition qualifierText (qualifier : TQualifier) : string :=
  let s := "" in
  let s := if invariant qualifier then s +:+ "invariant " else s in
  let s := if flat qualifier then s +:+ "flat " else s in
  let s := if nopersp qualifier then s +:+ "noperspective " else s in
  let s := if smooth qualifier then s +:+ "smooth " else s in
  let s := if hasLayout qualifier then (s +:+ "layout(") +:+ ") " else s in
  let s := if isConstant qualifier then s +:+ "const " else s in
  let s := match precision qualifier with
           | EpqLow => s +:+ "lowp "
           | EpqMedium => s +:+ "mediump "
           | EpqHigh => s +:+ "highp "
           | EpqNone => s
           end in
  s.

Definition slurpQualifiers (qualifier : TQualifier) : M (option StringId) :=
  let s := qualifierText qualifier in
  if negb (String.eqb s "") then
    do id <- mStrings_insert s;
    ret (Some id)
  else ret None.

(** [TypeId slurpType(const glslang::TType& type)] *)
Definition slurpType (type : TType) : M TypeId :=
  let typeArraySizes := getArraySizes type in
  let arraySizes :=
    match typeArraySizes with
    | Some sizes => map to_size_t sizes
    | None => []
    end in
  do typeName <- lift
    match getBasicType type with
    | EbtVoid => Ok "void"
    | EbtFloat =>
        expandTypeNameToVectorOrMatrix FLOAT_TYPE_NAMES (isMatrix type)
          (getVectorSize type) (getMatrixCols type) (getMatrixRows type)
    | EbtDouble =>
        expandTypeNameToVectorOrMatrix DOUBLE_TYPE_NAMES (isMatrix type)
          (getVectorSize type) (getMatrixCols type) (getMatrixRows type)
    | EbtInt => expandTypeNameToVector INT_TYPE_NAMES (getVectorSize type)
    | EbtUint => expandTypeNameToVector UINT_TYPE_NAMES (getVectorSize type)
    | EbtBool => expandTypeNameToVector BOOL_TYPE_NAMES (getVectorSize type)
    | EbtAtomicUint => Ok "atomic_uint"
    | EbtSampler => Ok (getString (getSampler type))
    | EbtStruct | EbtBlock => Ok (getTypeName type)
    | _ => Fatal CannotConvertGlslangTypeToType
    end;
  do nameId <- mStrings_insert typeName;
  do qualifiersId <- slurpQualifiers (getQualifier type);
  mTypes_insert (mkType nameId qualifiersId arraySizes).

(** [GlobalSymbolId slurpGlobalSymbol(const glslang::TIntermSymbol* node)],
    on the fields of the symbol node. *)
Definition slurpGlobalSymbol (type : TType) (getId : Z) (getAccessName : string)
    : M GlobalSymbolId :=
  do typeId <- slurpType type;
  do nameId <- mStrings_insert getAccessName;
  mGlobalSymbols_insert getId (mkSymbol nameId (Some typeId)).

(** [std::variant<RValueOperator, FunctionId> slurpOperator(op, returnType,
    arg1Type)] *)
Definition slurpOperator (op : TOperator) (returnType : TType) (arg1Type : option TType)
    : M (RValueOperator.t + FunctionId) :=
  do version <- gets mVersion;
  do '(opOrFunctionName, logged) <-
    lift (glslangOperatorToRValueOperator op version returnType arg1Type);
  do _ <- modify (λ s, set_slog (slog s ++ logged) s);
  match opOrFunctionName with
  | inr op => do id <- mFunctionNames_insert op; ret (inr id)
  | inl op => ret (inl op)
  end.

(** The loop of [slurpValueFromConstantUnion] that fills [args]. *)
Fixpoint slurpConstArray (constArray : list TConstUnion) : M (list ValueId) :=
  match constArray with
  | [] => ret []
  | value :: rest =>
      do literal <- lift (constUnionToLiteralRValue value);
      do id <- mRValues_insert (RValueLiteral literal);
      do args <- slurpConstArray rest;
      ret (ValueRValue id :: args)
  end.

(** [ValueId slurpValueFromConstantUnion(node, parent, localSymbols)], on
    the fields of the constant node. *)
Definition slurpValueFromConstantUnion (type : TType) (constArray : list TConstUnion)
    : M ValueId :=
  match constArray with
  | [] => panic ConstantUnionValueArrayMustNotBeEmpty
  | [value] =>
      do literal <- lift (constUnionToLiteralRValue value);
      do id <- mRValues_insert (RValueLiteral literal);
      ret (ValueRValue id)
  | _ =>
      do _ <- assertM (isVector type) ConstantUnionWithMultipleValuesMustBeAVector;
      do functionName <- lift
        match length constArray with
        | 2%nat => Ok "vec2"
        | 3%nat => Ok "vec3"
        | 4%nat => Ok "vec4"
        | _ => Fatal UnsupportedConstArraySize
        end;
      do functionId <- mFunctionNames_insert functionName;
      do args <- slurpConstArray constArray;
      do id <- mRValues_insert (RValueEvaluable (mkEvaluableRValue (inr functionId) args));
      ret (ValueRValue id)
  end.

(** [ValueId slurpValueFromSymbol(node, localSymbols)], on the fields of
    the symbol node. *)
Definition slurpValueFromSymbol (type : TType) (id : Z) (getAccessName : string)
    (localSymbols : LocalSymbols) : M (ValueId * LocalSymbols) :=
  do globalId <- mGlobalSymbols_get id;
  match globalId with
  | Some globalId => ret (ValueGlobal globalId, localSymbols)
  | None =>
      do nameId <- mStrings_insert getAccessName;
      if isBuiltIn type then
        do globalId <- mGlobalSymbols_insert id (mkSymbol nameId None);
        ret (ValueGlobal globalId, localSymbols)
      else
        do typeId <- slurpType type;
        let '(localId, localSymbols) :=
          ByKey.insert id (mkSymbol nameId (Some typeId)) localSymbols in
        ret (ValueLocal localId, localSymbols)
  end.

Section value_knot.
(** The recursive call of [slurpValue] inside its helper functions. *)
Variable slurpValue : TIntermNode → LocalSymbols → M (ValueId * LocalSymbols).

(** [ValueId slurpValueFromUnary(node, localSymbols)] *)
Definition slurpValueFromUnary (type : TType) (getOp : TOperator)
    (getOperand : TIntermNode) (localSymbols : LocalSymbols)
    : M (ValueId * LocalSymbols) :=
  do '(operandId, localSymbols) <- slurpValue getOperand localSymbols;
  do operandType <- deref (getAsTyped getOperand);
  do op <- slurpOperator getOp type (Some operandType);
  do id <- mRValues_insert (RValueEvaluable (mkEvaluableRValue op [operandId]));
  ret (ValueRValue id, localSymbols).

(** [ValueId slurpValueFromBinary(node, parent, localSymbols)] *)
Definition slurpValueFromBinary (type : TType) (getOp : TOperator)
    (getLeft getRight : TIntermNode) (localSymbols : LocalSymbols)
    : M (ValueId * LocalSymbols) :=
  match getOp with
  | EOpVectorSwizzle =>
      match getRight with
      | TIntermAggregate _ swizzleOp _ _ =>
          do _ <- assertM
                    match swizzleOp with EOpSequence => true | _ => false end
                    SwizzleNodeMustBeASequence;
          do id <- mRValues_insert
                     (RValueEvaluable
                        (mkEvaluableRValue (inl RValueOperator.VectorSwizzle) []));
          ret (ValueRValue id, localSymbols)
      | _ => panic SwizzleNodeMustBeAnAggregate
      end
  | _ =>
      do '(lhsId, localSymbols) <- slurpValue getLeft localSymbols;
      do '(rhsId, localSymbols) <- slurpValue getRight localSymbols;
      do leftType <- deref (getAsTyped getLeft);
      do op <- slurpOperator getOp type (Some leftType);
      do id <- mRValues_insert (RValueEvaluable (mkEvaluableRValue op [lhsId; rhsId]));
      ret (ValueRValue id, localSymbols)
  end.

(** [ValueId slurpValueFromSelection(node, parent, localSymbols)] *)
Definition slurpValueFromSelection (getCondition : TIntermNode)
    (getTrueBlock getFalseBlock : option TIntermNode) (localSymbols : LocalSymbols)
    : M (ValueId * LocalSymbols) :=
  do '(conditionId, localSymbols) <- slurpValue getCondition localSymbols;
  match getTrueBlock, getFalseBlock with
  | Some trueNode, Some falseNode =>
      match getAsTyped trueNode, getAsTyped falseNode with
      | Some _, Some _ =>
          do '(trueId, localSymbols) <- slurpValue trueNode localSymbols;
          do '(falseId, localSymbols) <- slurpValue falseNode localSymbols;
          do id <- mRValues_insert
                     (RValueEvaluable
                        (mkEvaluableRValue (inl RValueOperator.Ternary)
                           [conditionId; trueId; falseId]));
          ret (ValueRValue id, localSymbols)
      | _, _ => panic SelectionNodeBranchWasNotTyped
      end
  | _, _ => panic NullDereference
  end.

(** The argument loop of [slurpValueFromFunctionCall] and of
    [slurpValueFromAggregate]; [notTyped] is the panic of the caller. *)
Fixpoint slurpArguments (notTyped : Panic) (sequence : list TIntermNode)
    (localSymbols : LocalSymbols) (args : list ValueId)
    : M (list ValueId * LocalSymbols) :=
  match sequence with
  | [] => ret (args, localSymbols)
  | arg :: rest =>
      match getAsTyped arg with
      | Some _ =>
          do '(argId, localSymbols) <- slurpValue arg localSymbols;
          slurpArguments notTyped rest localSymbols (args ++ [argId])
      | None => panic notTyped
      end
  end.

(** [ValueId slurpValueFromFunctionCall(node, parent, localSymbols)] *)
Definition slurpValueFromFunctionCall (getName : string)
    (sequence : list TIntermNode) (localSymbols : LocalSymbols)
    : M (ValueId * LocalSymbols) :=
  do functionId <- mFunctionNames_insert getName;
  do '(args, localSymbols) <-
    slurpArguments FunctionCallArgumentWasNotTyped sequence localSymbols [];
  do id <- mRValues_insert (RValueEvaluable (mkEvaluableRValue (inr functionId) args));
  ret (ValueRValue id, localSymbols).

(** [ValueId slurpValueFromAggregate(node, parent, localSymbols)] *)
Definition slurpValueFromAggregate (type : TType) (getOp : TOperator)
    (sequence : list TIntermNode) (localSymbols : LocalSymbols)
    : M (ValueId * LocalSymbols) :=
  do '(args, localSymbols) <-
    slurpArguments OperatorArgumentWasNotTyped sequence localSymbols [];
  do firstArgType <-
    match sequence with
    | [] => ret None
    | first :: _ => do t <- deref (getAsTyped first); ret (Some t)
    end;
  do op <- slurpOperator getOp type firstArgType;
  do id <- mRValues_insert (RValueEvaluable (mkEvaluableRValue op args));
  ret (ValueRValue id, localSymbols).
End value_knot.

(** [ValueId slurpValue(node, parent, localSymbols)]; [parent] only feeds
    the panic messages. *)
Fixpoint slurpValue (node : TIntermNode) (localSymbols : LocalSymbols) {struct node}
    : M (ValueId * LocalSymbols) :=
  match node with
  | TIntermConstantUnion type constArray =>
      do id <- slurpValueFromConstantUnion type constArray;
      ret (id, localSymbols)
  | TIntermSymbol type id _ accessName =>
      slurpValueFromSymbol type id accessName localSymbols
  | TIntermUnary type op operand =>
      slurpValueFromUnary slurpValue type op operand localSymbols
  | TIntermBinary type op lhs rhs =>
      slurpValueFromBinary slurpValue type op lhs rhs localSymbols
  | TIntermSelection _ condition trueBlock falseBlock =>
      slurpValueFromSelection slurpValue condition trueBlock falseBlock localSymbols
  | TIntermAggregate type op name sequence =>
      match op with
      | EOpFunction | EOpLinkerObjects | EOpParameters | EOpSequence =>
          panic CannotConvertToStatement
      | EOpFunctionCall =>
          slurpValueFromFunctionCall slurpValue name sequence localSymbols
      | _ => slurpValueFromAggregate slurpValue type op sequence localSymbols
      end
  | _ => panic CannotConvertToStatement
  end.

Section statement_knot.
(** The recursive call of [nodeToStatements] inside [slurpStatementBlock]
    and inside the flattening of a sequence. *)
Variable nodeToStatements :
  TIntermNode → LocalSymbols → list Statement → M (LocalSymbols * list Statement).

(** [for (child : sequence) nodeToStatements(child, node, localSymbols,
    output)] *)
Fixpoint nodesToStatements (sequence : list TIntermNode)
    (localSymbols : LocalSymbols) (output : list Statement)
    : M (LocalSymbols * list Statement) :=
  match sequence with
  | [] => ret (localSymbols, output)
  | child :: rest =>
      do '(localSymbols, output) <- nodeToStatements child localSymbols output;
      nodesToStatements rest localSymbols output
  end.

(** [StatementBlockId slurpStatementBlock(node, parent, localSymbols)],
    open in its recursive call. *)
Definition slurpStatementBlockRec (node : TIntermNode) (localSymbols : LocalSymbols)
    : M (StatementBlockId * LocalSymbols) :=
  do '(localSymbols, statements) <-
    match node with
    | TIntermAggregate _ EOpSequence _ sequence =>
        nodesToStatements sequence localSymbols []
    | _ => nodeToStatements node localSymbols []
    end;
  do id <- mStatementBlocks_insert statements;
  ret (id, localSymbols).
End statement_knot.

(** The tail of [nodeToStatements]: a node that is none of loop, branch,
    switch, selection or sequence. *)
Definition typedNodeToStatements (node : TIntermNode) (localSymbols : LocalSymbols)
    (output : list Statement) : M (LocalSymbols * list Statement) :=
  match getAsTyped node with
  | Some _ =>
      if negb (getAsSymbolNode node) && negb (getAsConstantUnion node) then
        do '(valueId, localSymbols) <- slurpValue node localSymbols;
        match valueId with
        | ValueRValue rValueId => ret (localSymbols, output ++ [StatementRValue rValueId])
        | _ => panic EncounteredNonRValueAsStatement
        end
      else ret (localSymbols, output)
  | None => panic CannotConvertToStatement
  end.

(** The terminal of a loop node, inside [nodeToStatements]. *)
Definition slurpLoopTerminal (getTerminal : option TIntermNode)
    (localSymbols : LocalSymbols) : M (option RValueId * LocalSymbols) :=
  match getTerminal with
  | Some terminal =>
      if negb (getAsSymbolNode terminal) && negb (getAsConstantUnion terminal) then
        do '(terminalIdAsValueId, localSymbols) <- slurpValue terminal localSymbols;
        match terminalIdAsValueId with
        | ValueRValue terminalIdAsRValueId =>
            ret (Some terminalIdAsRValueId, localSymbols)
        | _ => panic EncounteredNonRValueInLoopTerminal
        end
      else ret (None, localSymbols)
  | None => ret (None, localSymbols)
  end.

(** [void nodeToStatements(node, parent, localSymbols, output)]: the
    statements are appended to [output]. *)
Fixpoint nodeToStatements (node : TIntermNode) (localSymbols : LocalSymbols)
    (output : list Statement) {struct node} : M (LocalSymbols * list Statement) :=
  match node with
  | TIntermLoop getTest getTerminal testFirst getBody =>
      match getTest with
      | None => panic NullDereference
      | Some test =>
          do '(conditionId, localSymbols) <- slurpValue test localSymbols;
          do '(terminalId, localSymbols) <- slurpLoopTerminal getTerminal localSymbols;
          match getBody with
          | None => panic NullDereference
          | Some body =>
              do '(bodyId, localSymbols) <-
                slurpStatementBlockRec nodeToStatements body localSymbols;
              ret (localSymbols,
                   output ++ [StatementLoop
                                (mkLoopStatement conditionId terminalId testFirst bodyId)])
          end
      end
  | TIntermBranch getFlowOp getExpression =>
      do op <- lift (glslangOperatorToBranchOperator getFlowOp);
      do '(operandId, localSymbols) <-
        match getExpression with
        | Some operand =>
            do '(operandId, localSymbols) <- slurpValue operand localSymbols;
            ret (Some operandId, localSymbols)
        | None => ret (None, localSymbols)
        end;
      ret (localSymbols, output ++ [StatementBranch (mkBranchStatement op operandId)])
  | TIntermSwitch getCondition getBody =>
      match getAsTyped getCondition with
      | Some _ =>
          do '(conditionId, localSymbols) <- slurpValue getCondition localSymbols;
          do '(bodyId, localSymbols) <-
            slurpStatementBlockRec nodeToStatements getBody localSymbols;
          ret (localSymbols,
               output ++ [StatementSwitch (mkSwitchStatement conditionId bodyId)])
      | None => panic SwitchNodeConditionWasNotTyped
      end
  | TIntermSelection _ getCondition getTrueBlock getFalseBlock =>
      do '(conditionId, localSymbols) <- slurpValue getCondition localSymbols;
      match getTrueBlock with
      | None => panic NullDereference
      | Some trueBlock =>
          do '(trueId, localSymbols) <-
            slurpStatementBlockRec nodeToStatements trueBlock localSymbols;
          do '(falseId, localSymbols) <-
            match getFalseBlock with
            | Some falseBlock =>
                do '(falseId, localSymbols) <-
                  slurpStatementBlockRec nodeToStatements falseBlock localSymbols;
                ret (Some falseId, localSymbols)
            | None => ret (None, localSymbols)
            end;
          ret (localSymbols,
               output ++ [StatementIf (mkIfStatement conditionId trueId falseId)])
      end
  | TIntermAggregate _ EOpSequence _ getSequence =>
      nodesToStatements nodeToStatements getSequence localSymbols output
  | _ => typedNodeToStatements node localSymbols output
  end.

(** [StatementBlockId slurpStatementBlock(node, parent, localSymbols)] *)
Definition slurpStatementBlock : TIntermNode → LocalSymbols →
    M (StatementBlockId * LocalSymbols) :=
  slurpStatementBlockRec nodeToStatements.

(** A [TIntermAggregate*]: the node a successful [getAsAggregate()]
    returns, given by [getType()], [getOp()], [getName()] and
    [getSequence()]. *)
Record TIntermAggregateNode : Type := mkAggregateNode {
  aggregateType : TType;
  aggregateOp : TOperator;
  aggregateName : string;
  aggregateSequence : list TIntermNode;
}.

Definition getAsAggregate (node : TIntermNode) : option TIntermAggregateNode :=
  match node with
  | TIntermAggregate type op name sequence => Some (mkAggregateNode type op name sequence)
  | _ => None
  end.

(** The parameter loop of [slurpFunctionDefinition]. *)
Fixpoint slurpParameters (sequence : list TIntermNode) (localSymbols : LocalSymbols)
    (parameters : list LocalSymbolId) : M (list LocalSymbolId * LocalSymbols) :=
  match sequence with
  | [] => ret (parameters, localSymbols)
  | parameter :: rest =>
      match parameter with
      | TIntermSymbol type id getName _ =>
          do nameId <- mStrings_insert getName;
          do typeId <- slurpType type;
          let '(symbolId, localSymbols) :=
            ByKey.insert id (mkSymbol nameId (Some typeId)) localSymbols in
          slurpParameters rest localSymbols (parameters ++ [symbolId])
      | _ => panic FunctionParameterMustBeSymbol
      end
  end.

(** [void slurpFunctionDefinition(glslang::TIntermAggregate* node, parent)] *)
Definition slurpFunctionDefinition (node : TIntermAggregateNode) : M unit :=
  do _ <- assertM match aggregateOp node with EOpFunction => true | _ => false end
            NodeMustBeAFunction;
  let sequence := aggregateSequence node in
  do _ <- assertM (Nat.eqb (length sequence) 1 || Nat.eqb (length sequence) 2)
            SequenceMustBeOfLength1Or2;
  do first <- deref (head sequence);
  match getAsAggregate first with
  | None => panic FunctionParametersMustBeAnAggregateNode
  | Some parametersNode =>
      do functionId <- mFunctionNames_insert (aggregateName node);
      if Nat.eqb (length sequence) 1 then
        modify (λ s, set_mFunctionPrototypes ({[functionId]} ∪ mFunctionPrototypes s) s)
      else
        do returnTypeId <- slurpType (aggregateType node);
        let localSymbols : LocalSymbols := ByKey.empty in
        do '(parameters, localSymbols) <-
          slurpParameters (aggregateSequence parametersNode) localSymbols [];
        do body <- deref (sequence !! 1%nat);
        do '(bodyId, localSymbols) <- slurpStatementBlock body localSymbols;
        do _ <- modify (λ s,
                  set_mFunctionDefinitions
                    (<[functionId :=
                         mkFunctionDefinition functionId returnTypeId parameters bodyId
                           (ByKey.getFinal localSymbols)]> (mFunctionDefinitions s)) s);
        modify (λ s,
          set_mFunctionDefinitionsInOrder (mFunctionDefinitionsInOrder s ++ [functionId]) s)
  end.

(** The three buckets of [slurpFromRoot]. *)
Record RootChildren : Type := mkRootChildren {
  linkerObjectNodes : list TIntermAggregateNode;
  sequenceNodes : list TIntermAggregateNode;
  functionNodes : list TIntermAggregateNode;
}.

(** The first loop of [slurpFromRoot]: sort the children into categories. *)
Fixpoint sortChildren (children : list TIntermNode) (sorted : RootChildren)
    : Result RootChildren :=
  match children with
  | [] => Ok sorted
  | child :: rest =>
      match getAsAggregate child with
      | Some childAsAggregate =>
          match aggregateOp childAsAggregate with
          | EOpLinkerObjects =>
              sortChildren rest
                (mkRootChildren (linkerObjectNodes sorted ++ [childAsAggregate])
                   (sequenceNodes sorted) (functionNodes sorted))
          | EOpSequence =>
              sortChildren rest
                (mkRootChildren (linkerObjectNodes sorted)
                   (sequenceNodes sorted ++ [childAsAggregate]) (functionNodes sorted))
          | EOpFunction =>
              sortChildren rest
                (mkRootChildren (linkerObjectNodes sorted) (sequenceNodes sorted)
                   (functionNodes sorted ++ [childAsAggregate]))
          | _ => Fatal UnhandledChildOfRootNode
          end
      | None => Fatal UnhandledChildOfRootNode
      end
  end.

(** [for (x : l) f(x)] *)
Fixpoint forEach {A} (f : A → M unit) (l : list A) : M unit :=
  match l with
  | [] => ret tt
  | x :: rest => do _ <- f x; forEach f rest
  end.

(** [for (x : l) acc = f(x, acc)], for a loop that updates a local. *)
Fixpoint forEachWith {A B} (f : A → B → M B) (l : list A) (acc : B) : M B :=
  match l with
  | [] => ret acc
  | x :: rest => do acc <- f x acc; forEachWith f rest acc
  end.

(** The body of the loop over the children of a linker-objects node. *)
Definition slurpLinkerObject (child : TIntermNode) : M unit :=
  match child with
  | TIntermSymbol type id _ accessName =>
      do _ <- slurpGlobalSymbol type id accessName;
      ret tt
  | _ => panic UnhandledChildOfLinkerObjectsNode
  end.

(** The body of the loop over the children of a sequence node of the root:
    one global definition. [emptyLocalSymbols] is the store declared
    before the loops. *)
Definition slurpGlobalSymbolDefinition (child : TIntermNode)
    (emptyLocalSymbols : LocalSymbols) : M LocalSymbols :=
  match child with
  | TIntermBinary _ EOpAssign getLeft getRight =>
      match getLeft with
      | TIntermSymbol type id _ accessName =>
          do globalSymbolId <- slurpGlobalSymbol type id accessName;
          do '(initialValue, emptyLocalSymbols) <- slurpValue getRight emptyLocalSymbols;
          do _ <- assertM (ByKey.isEmpty emptyLocalSymbols)
                    GlobalSymbolDefinitionMustNotTouchLocalSymbols;
          do _ <- modify (λ s,
                    set_mGlobalSymbolDefinitionsInOrder
                      (mGlobalSymbolDefinitionsInOrder s ++ [(globalSymbolId, initialValue)])
                      s);
          ret emptyLocalSymbols
      | _ => panic LeftHandSideOfGlobalVariableDefinitionMustBeSymbol
      end
  | _ => panic UnhandledChildOfLinkerObjectsNode
  end.

(** [void slurpFromRoot(glslang::TIntermAggregate* node)]; [None] is the
    null pointer. *)
Definition slurpFromRoot (node : option TIntermAggregateNode) : M unit :=
  match node with
  | None => panic NodeMustNotBeNull
  | Some node =>
      do _ <- assertM match aggregateOp node with EOpSequence => true | _ => false end
                NodeMustBeASequence;
      do sorted <- lift (sortChildren (aggregateSequence node) (mkRootChildren [] [] []));
      do _ <- forEach
                (λ linkerObject, forEach slurpLinkerObject (aggregateSequence linkerObject))
                (linkerObjectNodes sorted);
      let emptyLocalSymbols : LocalSymbols := ByKey.empty in
      do _ <- forEachWith
                (λ sequence, forEachWith slurpGlobalSymbolDefinition
                               (aggregateSequence sequence))
                (sequenceNodes sorted) emptyLocalSymbols;
      forEach slurpFunctionDefinition (functionNodes sorted)
  end.

(** The members of a [Slurper] before its constructor body runs: default
    initialised, with [mVersion] set. *)
Definition initialSlurper (version : Z) : Slurper :=
  mkSlurper version ByValue.empty ByValue.empty ByKey.empty
    ByKey.empty ByValue.empty ByValue.empty ByValue.empty ∅ ∅ [] [] [].

(** [Slurper(const glslang::TIntermediate& intermediate)] *)
Definition newSlurper (intermediate : TIntermediate) : Result Slurper :=
  match getTreeRoot intermediate with
  | None => Fatal NullDereference
  | Some root =>
      match slurpFromRoot (getAsAggregate root)
              (initialSlurper (getVersion intermediate)) with
      | Ok (_, slurper) => Ok slurper
      | Fatal p => Fatal p
      end
  end.

(** [PackFromGlsl intoPack()] *)
Definition intoPack (s : Slurper) : PackFromGlsl :=
  mkPackFromGlsl (mVersion s)
    (ByValue.getFinal (mStrings s))
    (ByValue.getFinal (mTypes s))
    (ByKey.getFinal (mGlobalSymbols s))
    (ByValue.getFinal (mRValues s))
    (ByValue.getFinal (mFunctionNames s))
    (ByValue.getFinal (mStatementBlocks s))
    (mFunctionDefinitions s)
    (mFunctionPrototypes s)
    (mGlobalSymbolDefinitionsInOrder s)
    (mFunctionDefinitionsInOrder s).

(** [PackFromGlsl fromGlsl(const glslang::TIntermediate& intermediate)] *)
Definition fromGlsl (intermediate : TIntermediate) : Result PackFromGlsl :=
  let* slurper := newSlurper intermediate in
  Ok (intoPack slurper).
End Lowering.

(** ** Definitions used to state the properties *)

(** The distinct values of a run of inserts, in the order of their first use. *)
Definition addUse `{EqDecision A} (seen : list A) (v : A) : list A :=
  if decide (v ∈ seen) then seen else seen ++ [v].

Definition firstUses `{EqDecision A} (values : list A) : list A :=
  foldl addUse [] values.

(** A by-value store holds exactly the values [l], the [i]-th of them
    (counting from 0) under the id [i + 1]. *)
Definition ByValue_rep {Id Value : Type} `{IdLike Id} `{Countable Value}
    (l : list Value) (s : IdStoreByValue Id Value) : Prop :=
  NoDup l ∧
  bv_mLastId s = Z.of_nat (length l) ∧
  ∀ v id, bv_mMap s !! v = Some id ↔
          ∃ i : nat, l !! i = Some v ∧ id = of_int (Z.of_nat i + 1).

(** A by-key store holds exactly the bindings [l], in the order in which
    their keys were first inserted. *)
Definition ByKey_rep {Id Value : Type} `{IdLike Id}
    (l : list (Z * Value)) (s : IdStoreByKey Id Value) : Prop :=
  NoDup l.*1 ∧
  bk_mLastId s = Z.of_nat (length l) ∧
  ∀ k id v, bk_mMap s !! k = Some (id, v) ↔
            ∃ i : nat, l !! i = Some (k, v) ∧ id = of_int (Z.of_nat i + 1).

(** The bindings of a run of keyed inserts that were stored: for each key
    the first pair inserted with it. *)
Definition addBinding {Value : Type} (seen : list (Z * Value)) (kv : Z * Value)
    : list (Z * Value) :=
  if decide (kv.1 ∈ seen.*1) then seen else seen ++ [kv].

Definition firstBindings {Value : Type} (kvs : list (Z * Value)) : list (Z * Value) :=
  foldl addBinding [] kvs.

(** The machine counter of a store is an [int]: the model agrees with it as
    long as the counter is at most [INT_MAX]. A store that was built from
    an empty one holds as many entries as its counter says, so the
    condition is stated of the number of entries too. *)
Definition INT_MAX : Z := 2 ^ 31 - 1.
Definition no_overflow (lastId : Z) : Prop := (0 ≤ lastId ≤ INT_MAX)%Z.

(** The texture-sampling operators whose name depends on the sampler, with
    the suffix and the ARB/EXT tag of each. *)
Definition textureSamplingSuffix (op : TOperator) : option (string * string) :=
  match op with
  | EOpTexture => Some ("", "")
  | EOpTextureProj => Some ("Proj", "")
  | EOpTextureLod => Some ("Lod", "")
  | EOpTextureProjLod => Some ("ProjLod", "")
  | EOpTextureGrad => Some ("Grad", "ARB")
  | EOpTextureProjGrad => Some ("ProjGrad", "ARB")
  | _ => None
  end.

(** The text of a recognised sampler dimensionality. *)
Definition samplerDimName (d : TSamplerDim) : option string :=
  match d with
  | Esd1D => Some "1D"
  | Esd2D => Some "2D"
  | Esd3D => Some "3D"
  | EsdCube => Some "Cube"
  | EsdRect => Some "2DRect"
  | EsdOther _ => None
  end.

(** The qualifiers that are present, in the fixed order. *)
Definition presentQualifiers (q : TQualifier) : list string :=
  (if invariant q then ["invariant"] else []) ++
  (if flat q then ["flat"] else []) ++
  (if nopersp q then ["noperspective"] else []) ++
  (if smooth q then ["smooth"] else []) ++
  (if hasLayout q then ["layout()"] else []) ++
  (if isConstant q then ["const"] else []) ++
  match precision q with
  | EpqLow => ["lowp"]
  | EpqMedium => ["mediump"]
  | EpqHigh => ["highp"]
  | EpqNone => []
  end.

(** The words joined with single spaces between them. *)
Definition joinWithSpaces (words : list string) : string := String.concat " " words.

(** Each word followed by one space. *)
Definition spaceTerminated (words : list string) : string :=
  foldr (λ w rest, w +:+ " " +:+ rest) "" words.

(** The tags that [glslangOperatorToBranchOperator] returns for its case
    labels, in the order of the labels. *)
Definition branchOperatorTags : list BranchOperator.t :=
  [ BranchOperator.Discard; BranchOperator.TerminateInvocation; BranchOperator.Demote;
    BranchOperator.TerminateRayEXT; BranchOperator.IgnoreIntersectionEXT;
    BranchOperator.Return; BranchOperator.Break; BranchOperator.Continue;
    BranchOperator.Case; BranchOperator.Default ].

Section StepRelations.
Context {double : Type} `{Countable double}.
#[local] Abbreviation Slurper := (@Slurper double _ _).

(** One primitive change of the interning tables of a Slurper: an insert
    into one of its stores, or lines appended to the error log. *)
Inductive intern_step : Slurper → Slurper → Prop :=
  | intern_string value s :
      intern_step s (set_mStrings (ByValue.insert value (mStrings s)).2 s)
  | intern_type value s :
      intern_step s (set_mTypes (ByValue.insert value (mTypes s)).2 s)
  | intern_globalSymbol key value s :
      intern_step s (set_mGlobalSymbols (ByKey.insert key value (mGlobalSymbols s)).2 s)
  | intern_rValue value s :
      intern_step s (set_mRValues (ByValue.insert value (mRValues s)).2 s)
  | intern_functionName value s :
      intern_step s (set_mFunctionNames (ByValue.insert value (mFunctionNames s)).2 s)
  | intern_statementBlock value s :
      intern_step s
        (set_mStatementBlocks (ByValue.insert value (mStatementBlocks s)).2 s)
  | intern_log logged s :
      intern_step s (set_slog (slog s ++ logged) s).

(** The Slurper [s'] is reached from [s] by interning only. *)
Definition interned (s s' : Slurper) : Prop := rtc intern_step s s'.

(** One primitive change of a Slurper during a pass: interning, or an
    update of the function and global-definition tables. *)
Inductive pass_step : Slurper → Slurper → Prop :=
  | pass_intern s s' : intern_step s s' → pass_step s s'
  | pass_prototype functionId s :
      pass_step s (set_mFunctionPrototypes ({[functionId]} ∪ mFunctionPrototypes s) s)
  | pass_definition functionId definition s :
      pass_step s
        (set_mFunctionDefinitions (<[functionId := definition]> (mFunctionDefinitions s)) s)
  | pass_definitionInOrder functionId s :
      pass_step s
        (set_mFunctionDefinitionsInOrder (mFunctionDefinitionsInOrder s ++ [functionId]) s)
  | pass_globalDefinitionInOrder definition s :
      pass_step s
        (set_mGlobalSymbolDefinitionsInOrder
           (mGlobalSymbolDefinitionsInOrder s ++ [definition]) s).

(** The Slurper [s'] is a later state of the pass that reached [s]. *)
Definition later (s s' : Slurper) : Prop := rtc pass_step s s'.

(** Every store of a Slurper is in the state that a run of inserts into a
    new store leaves. *)
Definition Slurper_wf (s : Slurper) : Prop :=
  (∃ l, ByValue_rep l (mStrings s)) ∧
  (∃ l, ByValue_rep l (mTypes s)) ∧
  (∃ l, ByKey_rep l (mGlobalSymbols s)) ∧
  (∃ l, ByValue_rep l (mRValues s)) ∧
  (∃ l, ByValue_rep l (mFunctionNames s)) ∧
  (∃ l, ByValue_rep l (mStatementBlocks s)).

(** The swizzle marker that [slurpValueFromBinary] interns. *)
Definition swizzleMarker : @RValue double :=
  RValueEvaluable (mkEvaluableRValue (inl RValueOperator.VectorSwizzle) []).
End StepRelations.

Section ConstantSpec.
Context {double : Type}.

(** The literal of a scalar constant as the spec has it, [lit(1.0)] for
    the constant [1.0]: the value of the constant, of the kind of the
    constant. The 64-bit integers and strings have no literal. *)
Definition literalOfConstant (value : @TConstUnion double)
    : option (@LiteralRValue double) :=
  match value with
  | ConstI8 v => Some (LiteralI8 v)
  | ConstU8 v => Some (LiteralU8 v)
  | ConstI16 v => Some (LiteralI16 v)
  | ConstU16 v => Some (LiteralU16 v)
  | ConstI v => Some (LiteralInt v)
  | ConstU v => Some (LiteralUint v)
  | ConstD v => Some (LiteralDouble v)
  | ConstB v => Some (LiteralBool v)
  | ConstI64 _ | ConstU64 _ | ConstS _ => None
  end.

(** The panic for a constant of a kind without a literal. *)
Definition unsupportedConstant (value : @TConstUnion double) : option Panic :=
  match value with
  | ConstI64 _ => Some UnsupportedTypeInt64
  | ConstU64 _ => Some UnsupportedTypeUint64
  | ConstS _ => Some UnsupportedTypeString
  | _ => None
  end.
End ConstantSpec.

(** The name of the synthetic constructor for a constant vector of [n]
    elements. *)
Definition vectorConstructorName (n : nat) : string :=
  match n with
  | 2%nat => "vec2"
  | 3%nat => "vec3"
  | 4%nat => "vec4"
  | _ => ""
  end.

Section QualifierSpec.
Context {double : Type} `{Countable double}.

(** [slurpQualifiers] yields nothing when no qualifier is present, and
    otherwise the id of the interned text [join words] of the present
    qualifiers. *)
Definition slurpQualifiers_yields (join : list string → string)
    (q : TQualifier) (s : @Slurper double _ _) : Prop :=
  slurpQualifiers q s =
    match presentQualifiers q with
    | [] => Ok (None, s)
    | words =>
        Ok (Some (ByValue.insert (join words) (mStrings s)).1,
            set_mStrings (ByValue.insert (join words) (mStrings s)).2 s)
    end.
End QualifierSpec.

(** One insert into a store of local symbols, and a run of them. *)
Definition locals_step (localSymbols localSymbols' : IdStoreByKey LocalSymbolId Symbol)
    : Prop :=
  ∃ key value, localSymbols' = (ByKey.insert key value localSymbols).2.

Definition locals_grow : relation (IdStoreByKey LocalSymbolId Symbol) := rtc locals_step.

Section RootSpec.
Context {double : Type}.

(** The children of the root that are aggregates with an operator that
    [select] accepts, in order. *)
Definition childrenWithOp (select : TOperator → bool)
    (children : list (@TIntermNode double)) : list (@TIntermAggregateNode double) :=
  omap (λ child,
          match getAsAggregate child with
          | Some node => if select (aggregateOp node) then Some node else None
          | None => None
          end) children.

Definition isLinkerObjects (op : TOperator) : bool :=
  match op with EOpLinkerObjects => true | _ => false end.
Definition isSequence (op : TOperator) : bool :=
  match op with EOpSequence => true | _ => false end.
Definition isFunction (op : TOperator) : bool :=
  match op with EOpFunction => true | _ => false end.

(** The global initializers of a root: the children of its sequence
    children, in order. *)
Definition globalInitializers (children : list (@TIntermNode double))
    : list (@TIntermNode double) :=
  concat (aggregateSequence <$> childrenWithOp isSequence children).

(** The function nodes of a root that are prototypes (one child) and
    those that are definitions (two children). *)
Definition isPrototypeNode (node : @TIntermAggregateNode double) : Prop :=
  length (aggregateSequence node) = 1%nat.
Definition isDefinitionNode (node : @TIntermAggregateNode double) : Prop :=
  length (aggregateSequence node) = 2%nat.

#[global] Instance isPrototypeNode_dec node : Decision (isPrototypeNode node).
Proof. unfold isPrototypeNode. apply _. Defined.
#[global] Instance isDefinitionNode_dec node : Decision (isDefinitionNode node).
Proof. unfold isDefinitionNode. apply _. Defined.

(** A global initializer of the required shape: an assignment whose left
    side is a plain symbol reference. *)
Definition isSymbolAssignment (child : @TIntermNode double) : Prop :=
  ∃ type symbolType id name accessName right,
    child = TIntermBinary type EOpAssign
              (TIntermSymbol symbolType id name accessName) right.
End RootSpec.

Section InitializerSpec.
Context {double : Type} `{Countable double}.

(** One global initializer lowered in a new, empty scope of local
    symbols. *)
Definition slurpGlobalSymbolDefinitionInEmptyScope (child : @TIntermNode double)
    : @M double _ _ unit :=
  bind (slurpGlobalSymbolDefinition child ByKey.empty) (λ _, ret tt).
End InitializerSpec.

(** ** Example inputs, with floating-point constants taken in [Z] *)

Definition noQualifiers : TQualifier :=
  mkTQualifier false false false false false false EpqNone.
Definition highpOnly : TQualifier :=
  mkTQualifier false false false false false false EpqHigh.
Definition noSampler : TSampler := mkTSampler false (EsdOther 0) "".
Definition floatType : TType :=
  mkTType EbtFloat false false 1 0 0 None noQualifiers noSampler "" false.
Definition voidType : TType :=
  mkTType EbtVoid false false 1 0 0 None noQualifiers noSampler "" false.

(** [float x; float f(float y) { return y + x; }] *)
Definition globalAndFunction : @TIntermediate Z :=
  let x := TIntermSymbol floatType 10 "x" "x" in
  let y := TIntermSymbol floatType 11 "y" "y" in
  mkTIntermediate 300
    (Some
       (TIntermAggregate voidType EOpSequence ""
          [ TIntermAggregate voidType EOpLinkerObjects "" [x];
            TIntermAggregate floatType EOpFunction "f(f1;"
              [ TIntermAggregate voidType EOpParameters "" [y];
                TIntermAggregate voidType EOpSequence ""
                  [ TIntermBranch EOpReturn (Some (TIntermBinary floatType EOpAdd y x)) ] ]
          ])).

(** [void g(); void g() { }]: a function node with one child, then a
    function node of the same name with two. *)
Definition prototypeThenDefinition : @TIntermediate Z :=
  mkTIntermediate 300
    (Some
       (TIntermAggregate voidType EOpSequence ""
          [ TIntermAggregate voidType EOpFunction "g("
              [ TIntermAggregate voidType EOpParameters "" [] ];
            TIntermAggregate voidType EOpFunction "g("
              [ TIntermAggregate voidType EOpParameters "" [];
                TIntermAggregate voidType EOpSequence "" [] ] ])).

(** ** Definitions used to state further properties *)

(** One pair of brackets per array dimension. *)
Fixpoint arrayBrackets (numDims : nat) : string :=
  match numDims with
  | O => ""
  | S n => "[]" +:+ arrayBrackets n
  end.

(** The number of array dimensions of a type; none when it is no array. *)
Definition arrayDimensions (type : TType) : nat :=
  match getArraySizes type with
  | Some sizes => length sizes
  | None => O
  end.

(** The type without its array sizes. *)
Definition withoutArraySizes (type : TType) : TType :=
  mkTType (getBasicType type) (isMatrix type) (isVector type) (getVectorSize type)
    (getMatrixCols type) (getMatrixRows type) None (getQualifier type)
    (getSampler type) (getTypeName type) (isBuiltIn type).

(** The GLSL name of a matrix type: [mat] after the prefix of the scalar
    type, the number of columns, and the number of rows when it differs. *)
Definition dimensionDigit (n : Z) : string :=
  match n with
  | 2 => "2"
  | 3 => "3"
  | 4 => "4"
  | _ => ""
  end.

Definition matrixTypeName (scalarPrefix : string) (matrixCols matrixRows : Z) : string :=
  ((scalarPrefix +:+ "mat") +:+ dimensionDigit matrixCols) +:+
  (if bool_decide (matrixCols = matrixRows) then ""
   else "x" +:+ dimensionDigit matrixRows).

Section StatementSpec.
Context {double : Type} `{Countable double}.

(** The result of a run that appends statements, seen from a caller whose
    list already holds [output]. *)
Definition appendedTo (output : list Statement)
    (r : Result (LocalSymbols * list Statement * @Slurper double _ _))
    : Result (LocalSymbols * list Statement * @Slurper double _ _) :=
  match r with
  | Ok (localSymbols, statements, s) => Ok (localSymbols, output ++ statements, s)
  | Fatal p => Fatal p
  end.

(** A node that is a bare symbol or a bare constant. *)
Definition isStray (node : @TIntermNode double) : bool :=
  getAsSymbolNode node || getAsConstantUnion node.
End StatementSpec.

Section RootOrderSpec.
Context {double : Type}.

(** The child is an aggregate with an operator that [select] accepts. *)
Definition hasOp (select : TOperator → bool) (child : @TIntermNode double) : bool :=
  match getAsAggregate child with
  | Some node => select (aggregateOp node)
  | None => false
  end.

(** A child that the sorting loop of [slurpFromRoot] puts in one of its
    three categories. *)
Definition isRootChild (child : @TIntermNode double) : bool :=
  hasOp isLinkerObjects child || hasOp isSequence child || hasOp isFunction child.

(** The children of a root, category by category: the linker objects,
    then the sequences, then the functions, each in the order in which
    they stand in the root. *)
Definition byCategory (children : list (@TIntermNode double))
    : list (@TIntermNode double) :=
  List.filter (hasOp isLinkerObjects) children ++
  List.filter (hasOp isSequence) children ++
  List.filter (hasOp isFunction) children.
End RootOrderSpec.

(** The keys of a table are the ids [1..n], for [n] the number of its
    entries. *)
Definition denseIds {Id Value : Type} `{IdLike Id} (table : gmap Id Value) : Prop :=
  ∀ id, is_Some (table !! id) ↔ (1 ≤ to_int id ≤ Z.of_nat (size table))%Z.

(** No value stands twice in a table. *)
Definition withoutDuplicates {Id Value : Type} `{IdLike Id} (table : gmap Id Value) : Prop :=
  ∀ id1 id2 value, table !! id1 = Some value → table !! id2 = Some value → id1 = id2.

Section PackSpec.
Context {double : Type} `{Countable double}.

(** The ids that a function definition mentions are keys of the tables of
    the Pack, its parameters are local symbols of the definition, and the
    local symbols are numbered from 1 when their [int] counter has not
    overflowed, that is when they are at most [INT_MAX]. *)
Definition definitionClosed (pack : @PackFromGlsl double)
    (definition : FunctionDefinition) : Prop :=
  is_Some (pack_functionNames pack !! definition_name definition) ∧
  is_Some (pack_types pack !! definition_returnType definition) ∧
  is_Some (pack_statementBlocks pack !! definition_body definition) ∧
  Forall (λ parameter, is_Some (definition_localSymbols definition !! parameter))
    (definition_parameters definition) ∧
  (no_overflow (Z.of_nat (size (definition_localSymbols definition))) →
   denseIds (definition_localSymbols definition)).

(** The value of a global definition: a global symbol or an RValue of the
    Pack, never a local symbol. *)
Definition globalValueClosed (pack : @PackFromGlsl double) (value : ValueId) : Prop :=
  match value with
  | ValueGlobal id => is_Some (pack_globalSymbols pack !! id)
  | ValueRValue id => is_Some (pack_rValues pack !! id)
  | ValueLocal _ => False
  end.

(** A computation of the pass fails with the listed panics only. *)
Definition raisesOnly {A} (allowed : list Panic) (m : @M double _ _ A) : Prop :=
  ∀ s p, m s = Fatal p → p ∈ allowed.
End PackSpec.

(** The panics of the lowering of an expression. *)
Definition expressionPanics : list Panic :=
  [ NullDereference; FirstArgumentToTextureFunctionMustNotBeNull;
    UnhandledSamplerDimension; VectorSizeMustBeBetween1And4;
    MatrixColsMustBeBetween2And4; MatrixRowsMustBeBetween2And4; UnsupportedTypeInt64;
    UnsupportedTypeUint64; UnsupportedTypeString; CannotConvertGlslangTypeToType;
    CannotConvertToStatement; ConstantUnionValueArrayMustNotBeEmpty;
    ConstantUnionWithMultipleValuesMustBeAVector; UnsupportedConstArraySize;
    SwizzleNodeMustBeAnAggregate; SwizzleNodeMustBeASequence;
    SelectionNodeBranchWasNotTyped; FunctionCallArgumentWasNotTyped;
    OperatorArgumentWasNotTyped ].

(** The panics of the lowering of a statement: those of an expression and
    the two of the statement forms. *)
Definition statementPanics : list Panic :=
  expressionPanics ++ [ CannotConvertOperatorToBranchOperator; SwitchNodeConditionWasNotTyped ].

(** The panics of a pass: those of a statement and those of the root, of
    the global definitions and of the function definitions. *)
Definition passPanics : list Panic :=
  statementPanics ++
  [ NodeMustNotBeNull; NodeMustBeASequence; UnhandledChildOfRootNode;
    UnhandledChildOfLinkerObjectsNode; LeftHandSideOfGlobalVariableDefinitionMustBeSymbol;
    GlobalSymbolDefinitionMustNotTouchLocalSymbols; SequenceMustBeOfLength1Or2;
    FunctionParametersMustBeAnAggregateNode; FunctionParameterMustBeSymbol ].

(** The checks of the source that no input makes fail. *)
Definition unreachablePanics : list Panic :=
  [ NodeMustBeAFunction; EncounteredNonRValueInLoopTerminal;
    EncounteredNonRValueAsStatement ].

Section ParameterSpec.
Context {double : Type}.

(** The ids of the symbol nodes of a list of parameters, in order. *)
Definition symbolIds (sequence : list (@TIntermNode double)) : list Z :=
  omap (λ parameter,
          match parameter with
          | TIntermSymbol _ id _ _ => Some id
          | _ => None
          end) sequence.
End ParameterSpec.

(** ** Further example inputs *)

Definition intType : TType :=
  mkTType EbtInt false false 1 0 0 None noQualifiers noSampler "" false.

(** [float x = 1.0;], the initializer standing before the linker objects. *)
Definition initializedGlobal : @TIntermediate Z :=
  let x := TIntermSymbol floatType 10 "x" "x" in
  mkTIntermediate 300
    (Some
       (TIntermAggregate voidType EOpSequence ""
          [ TIntermAggregate voidType EOpSequence ""
              [ TIntermBinary floatType EOpAssign x
                  (TIntermConstantUnion floatType [ConstD 1]) ];
            TIntermAggregate voidType EOpLinkerObjects "" [x] ])).

(** A tree whose root is a symbol node. *)
Definition symbolRoot : @TIntermediate Z :=
  mkTIntermediate 300 (Some (TIntermSymbol floatType 10 "x" "x")).

Section ConstructorSpec.
Context {double : Type}.

(** The constructor operator of a vector of [n] components. *)
Definition vectorConstructorOperator (n : nat) : TOperator :=
  match n with
  | 2%nat => EOpConstructVec2
  | 3%nat => EOpConstructVec3
  | _ => EOpConstructVec4
  end.

(** One constant node per value, each with a single value. *)
Definition constantNodes (elementType : TType) (constArray : list (@TConstUnion double))
    : list (@TIntermNode double) :=
  (λ value, TIntermConstantUnion elementType [value]) <$> constArray.
End ConstructorSpec.

(** The type of a [vec3] value. *)
Definition vec3Type : TType :=
  mkTType EbtFloat false true 3 0 0 None noQualifiers noSampler "" false.

(** * Properties *)

(** ** The interning stores *)

Lemma of_int_inj `{IdLike Id} (a b : Z) : of_int a = of_int b → a = b.
Proof. intros E. rewrite <- (to_of_int a), <- (to_of_int b). by rewrite E. Qed.

Lemma to_int_inj `{IdLike Id} (a b : Id) : to_int a = to_int b → a = b.
Proof. intros E. rewrite <- (of_to_int a), <- (of_to_int b). by rewrite E. Qed.

Section first_uses.
Context `{EqDecision A}.
Implicit Types (seen vs : list A) (v x : A).

Lemma addUse_NoDup seen v : NoDup seen → NoDup (addUse seen v).
Proof.
  intros Hnd. unfold addUse. case_decide; [done|].
  apply NoDup_app. split_and!; [done| |apply NoDup_singleton].
  intros x Hx ->%list_elem_of_singleton. done.
Qed.

Lemma addUse_elem_of seen v x : x ∈ addUse seen v ↔ x ∈ seen ∨ x = v.
Proof.
  unfold addUse. case_decide.
  - split; [by left|]. intros [?| ->]; done.
  - rewrite elem_of_app, list_elem_of_singleton. done.
Qed.

Lemma foldl_addUse_NoDup vs seen : NoDup seen → NoDup (foldl addUse seen vs).
Proof.
  revert seen. induction vs as [|v vs IH]; intros seen Hnd; [done|].
  cbn. apply IH. by apply addUse_NoDup.
Qed.

Lemma foldl_addUse_elem_of vs seen x :
  x ∈ foldl addUse seen vs ↔ x ∈ seen ∨ x ∈ vs.
Proof.
  revert seen. induction vs as [|v vs IH]; intros seen; cbn.
  - split; [by left|]. intros [?|?%elem_of_nil]; done.
  - rewrite IH, addUse_elem_of, elem_of_cons. tauto.
Qed.

Lemma foldl_addUse_prefix vs seen : seen `prefix_of` foldl addUse seen vs.
Proof.
  revert seen. induction vs as [|v vs IH]; intros seen; cbn; [done|].
  etrans; [|apply IH]. unfold addUse. case_decide; [done|].
  by apply prefix_app_r.
Qed.

Lemma firstUses_NoDup (vs : list A) : NoDup (firstUses vs).
Proof. apply foldl_addUse_NoDup, NoDup_nil_2. Qed.

Lemma firstUses_elem_of (vs : list A) x : x ∈ firstUses vs ↔ x ∈ vs.
Proof.
  unfold firstUses. rewrite (foldl_addUse_elem_of vs []).
  split; [intros [?%elem_of_nil|?]; done|by right].
Qed.

(** The number of first uses is the number of distinct values. *)
Lemma firstUses_length (vs : list A) : length (firstUses vs) = length (remove_dups vs).
Proof.
  apply Permutation_length, NoDup_Permutation.
  - apply firstUses_NoDup.
  - apply NoDup_remove_dups.
  - intros x. by rewrite firstUses_elem_of, elem_of_remove_dups.
Qed.
End first_uses.

Section by_value_theory.
Context {Id Value : Type} `{IdLike Id} `{Countable Value}.
Implicit Types (s : IdStoreByValue Id Value) (v : Value) (id : Id).

Lemma ByValue_insert_hit s v id :
  bv_mMap s !! v = Some id → ByValue.insert v s = (id, s).
Proof. intros E. unfold ByValue.insert. by rewrite E. Qed.

Lemma ByValue_insert_miss s v :
  bv_mMap s !! v = None →
  ByValue.insert v s =
    (of_int (bv_mLastId s + 1),
     mkIdStoreByValue (bv_mLastId s + 1)
       (<[v := of_int (bv_mLastId s + 1)]> (bv_mMap s))).
Proof. intros E. unfold ByValue.insert. by rewrite E. Qed.

Lemma ByValue_insert_lookup s v :
  bv_mMap (ByValue.insert v s).2 !! v = Some (ByValue.insert v s).1.
Proof.
  unfold ByValue.insert. destruct (bv_mMap s !! v) eqn:E; cbn; [done|].
  apply lookup_insert_eq.
Qed.

Lemma ByValue_insert_subseteq s v : bv_mMap s ⊆ bv_mMap (ByValue.insert v s).2.
Proof.
  unfold ByValue.insert. destruct (bv_mMap s !! v) eqn:E; cbn; [done|].
  by apply insert_subseteq.
Qed.

Lemma ByValue_empty_rep : ByValue_rep [] (ByValue.empty : IdStoreByValue Id Value).
Proof.
  split_and!; [apply NoDup_nil_2|done|].
  intros v id. cbn. rewrite lookup_empty. split; [done|].
  by intros (i & ? & _).
Qed.

Lemma ByValue_insert_rep l s v :
  ByValue_rep l s → ByValue_rep (addUse l v) (ByValue.insert v s).2.
Proof.
  intros (Hnd & Hlast & Hmap). unfold addUse, ByValue.insert.
  destruct (bv_mMap s !! v) as [id|] eqn:E.
  - apply Hmap in E as (i & Hi & _).
    rewrite decide_True by (by eapply list_elem_of_lookup_2).
    done.
  - assert (v ∉ l) as Hnotin.
    { intros (i & Hi)%list_elem_of_lookup.
      assert (bv_mMap s !! v = Some (of_int (Z.of_nat i + 1))) by (apply Hmap; eauto).
      congruence. }
    rewrite decide_False by done. cbn.
    split_and!.
    + apply NoDup_app. split_and!; [done| |apply NoDup_singleton].
      by intros x Hx ->%list_elem_of_singleton.
    + cbn. rewrite length_app. cbn. lia.
    + intros w id. cbn. destruct (decide (w = v)) as [->|Hne].
      * rewrite lookup_insert_eq. split.
        -- intros [= <-]. exists (length l). split; [|by rewrite Hlast].
           by rewrite lookup_app_r, Nat.sub_diag by lia.
        -- intros (i & Hi & ->). f_equal.
           apply lookup_app_Some in Hi as [Hi|[Hge Hi]].
           ++ exfalso. apply Hnotin. by eapply list_elem_of_lookup_2.
           ++ apply list_lookup_singleton_Some in Hi as [Hi _].
              f_equal. lia.
      * rewrite lookup_insert_ne by done. rewrite Hmap.
        split; intros (i & Hi & ->); exists i; split; try done.
        -- by apply lookup_app_l_Some.
        -- apply lookup_app_Some in Hi as [Hi|[Hge Hi]]; [done|].
           apply list_lookup_singleton_Some in Hi as [_ ?]. congruence.
Qed.

Lemma ByValue_insertAll_rep vs l s :
  ByValue_rep l s → ByValue_rep (foldl addUse l vs) (ByValue.insertAll vs s).2.
Proof.
  revert l s. induction vs as [|v vs IH]; intros l s Hrep; [done|].
  cbn. pose proof (ByValue_insert_rep l s v Hrep) as Hrep'.
  destruct (ByValue.insert v s) as [id s1]. cbn in Hrep'.
  specialize (IH _ _ Hrep').
  destruct (ByValue.insertAll vs s1) as [ids s2]. done.
Qed.

Lemma ByValue_insertAll_subseteq vs s :
  bv_mMap s ⊆ bv_mMap (ByValue.insertAll vs s).2.
Proof.
  revert s. induction vs as [|v vs IH]; intros s; [done|].
  cbn. pose proof (ByValue_insert_subseteq s v) as Hsub.
  destruct (ByValue.insert v s) as [id s1]. cbn in Hsub.
  specialize (IH s1). destruct (ByValue.insertAll vs s1) as [ids s2].
  cbn in *. by etrans.
Qed.

Lemma ByValue_insertAll_length vs s : length (ByValue.insertAll vs s).1 = length vs.
Proof.
  revert s. induction vs as [|v vs IH]; intros s; [done|].
  cbn. destruct (ByValue.insert v s) as [id s1]. specialize (IH s1).
  destruct (ByValue.insertAll vs s1) as [ids s2]. cbn in *. by rewrite IH.
Qed.

(** The id that the [i]-th insert returned is the id of its value in the
    final store. *)
Lemma ByValue_insertAll_ids vs s (i : nat) v :
  vs !! i = Some v →
  (ByValue.insertAll vs s).1 !! i = bv_mMap (ByValue.insertAll vs s).2 !! v.
Proof.
  revert s i. induction vs as [|w vs IH]; intros s i Hi; [done|].
  cbn. pose proof (ByValue_insert_lookup s w) as Hlook.
  destruct (ByValue.insert w s) as [id s1]. cbn in Hlook.
  pose proof (ByValue_insertAll_subseteq vs s1) as Hsub.
  specialize (IH s1).
  destruct (ByValue.insertAll vs s1) as [ids s2]. cbn in *.
  destruct i as [|i]; cbn in *.
  - injection Hi as ->. symmetry. by eapply lookup_weaken.
  - by apply IH.
Qed.

(** In a store that represents [l] the ids are the numbers [1..length l],
    and different values have different ids. *)
Lemma ByValue_rep_dense l s id :
  ByValue_rep l s →
  (∃ v, bv_mMap s !! v = Some id) ↔ (1 ≤ to_int id ≤ Z.of_nat (length l))%Z.
Proof.
  intros (Hnd & Hlast & Hmap). split.
  - intros (v & (i & Hi & ->)%Hmap). rewrite to_of_int.
    apply lookup_lt_Some in Hi. lia.
  - intros Hrange.
    destruct (lookup_lt_is_Some_2 l (Z.to_nat (to_int id - 1))) as [v Hv]; [lia|].
    exists v. apply Hmap. eexists. split; [done|].
    rewrite <- (of_to_int id) at 1. f_equal. lia.
Qed.

Lemma ByValue_rep_inj l s v w id :
  ByValue_rep l s →
  bv_mMap s !! v = Some id → bv_mMap s !! w = Some id → v = w.
Proof.
  intros (Hnd & Hlast & Hmap) (i & Hi & ->)%Hmap (j & Hj & Hij%of_int_inj)%Hmap.
  assert (i = j) as -> by lia. congruence.
Qed.

(** The counter of a store that represents [l] has not overflowed while
    [l] has at most [INT_MAX] values. *)
Lemma ByValue_rep_no_overflow l s :
  ByValue_rep l s → (Z.of_nat (length l) ≤ INT_MAX)%Z → no_overflow (bv_mLastId s).
Proof. intros (_ & -> & _) ?. unfold no_overflow. lia. Qed.
End by_value_theory.

Section get_final.
Context {Id Value : Type} `{IdLike Id} `{Countable Value}.

Lemma foldr_insert_swap_lookup (L : list (Value * Id)) id v :
  NoDup L.*2 →
  foldr (λ p r, <[p.2 := p.1]> r) (∅ : gmap Id Value) L !! id = Some v ↔ (v, id) ∈ L.
Proof.
  induction L as [|[w j] L IH]; intros Hnd; cbn.
  - rewrite lookup_empty. split; [done|]. by intros ?%elem_of_nil.
  - cbn in Hnd. apply NoDup_cons in Hnd as [Hj Hnd].
    rewrite elem_of_cons. destruct (decide (j = id)) as [->|Hne].
    + rewrite lookup_insert_eq. split.
      * intros [= ->]. by left.
      * intros [[= ->]|Hin]; [done|].
        exfalso. apply Hj. apply list_elem_of_fmap. by exists (v, id).
    + rewrite lookup_insert_ne by done. rewrite IH by done.
      split; [by right|]. intros [[= _ ->]|?]; done.
Qed.

(** The final map of a store that a run of inserts built is the inverse
    of its map. *)
Lemma ByValue_getFinal_lookup l (s : IdStoreByValue Id Value) id v :
  ByValue_rep l s →
  ByValue.getFinal s !! id = Some v ↔ bv_mMap s !! v = Some id.
Proof.
  intros Hrep. unfold ByValue.getFinal.
  rewrite foldr_insert_swap_lookup, elem_of_map_to_list; [done|].
  apply NoDup_fmap_2_strong; [|apply NoDup_map_to_list].
  intros [v1 i1] [v2 i2] H1%elem_of_map_to_list H2%elem_of_map_to_list Heq.
  cbn in Heq. subst i2. f_equal. by eapply ByValue_rep_inj.
Qed.
End get_final.

Section first_bindings.
Context {Value : Type}.
Implicit Types (seen kvs : list (Z * Value)) (k : Z) (v : Value).

Lemma addBinding_keys seen k v x :
  x ∈ (addBinding seen (k, v)).*1 ↔ x ∈ seen.*1 ∨ x = k.
Proof.
  unfold addBinding. cbn. case_decide.
  - split; [by left|]. intros [?| ->]; done.
  - rewrite fmap_app, elem_of_app. cbn. rewrite list_elem_of_singleton. done.
Qed.

Lemma addBinding_prefix seen kv : seen `prefix_of` addBinding seen kv.
Proof. unfold addBinding. case_decide; [done|]. by apply prefix_app_r. Qed.

Lemma foldl_addBinding_prefix kvs seen : seen `prefix_of` foldl addBinding seen kvs.
Proof.
  revert seen. induction kvs as [|kv kvs IH]; intros seen; cbn; [done|].
  etrans; [apply addBinding_prefix|apply IH].
Qed.

Lemma addBinding_NoDup seen kv : NoDup seen.*1 → NoDup (addBinding seen kv).*1.
Proof.
  intros Hnd. unfold addBinding. case_decide; [done|].
  rewrite fmap_app. apply NoDup_app. split_and!; [done| |apply NoDup_singleton].
  cbn. by intros x Hx ->%list_elem_of_singleton.
Qed.

(** A binding of the folded list was already seen, or it is the first
    pair of the run with its key. *)
Lemma foldl_addBinding_elem_of kvs seen k v :
  (k, v) ∈ foldl addBinding seen kvs →
  (k, v) ∈ seen ∨
  ((k ∉ seen.*1) ∧
   ∃ j : nat, kvs !! j = Some (k, v) ∧
              ∀ (j' : nat) v', (j' < j)%nat → kvs !! j' ≠ Some (k, v')).
Proof.
  revert seen. induction kvs as [|[k0 v0] kvs IH]; intros seen; cbn.
  - by left.
  - intros [Hin|(Hnotin & j & Hj & Hfirst)]%IH.
    + unfold addBinding in Hin. cbn in Hin. case_decide as Hdec; [by left|].
      apply elem_of_app in Hin as [Hin|[= -> ->]%list_elem_of_singleton]; [by left|].
      right. split; [done|]. exists 0%nat. split; [done|]. intros; lia.
    + rewrite addBinding_keys in Hnotin.
      right. split; [tauto|]. exists (S j). split; [done|].
      intros [|j'] v' Hlt; cbn.
      * intros [= -> ->]. tauto.
      * apply Hfirst. lia.
Qed.

Lemma foldl_addBinding_keys kvs seen x :
  x ∈ (foldl addBinding seen kvs).*1 ↔ x ∈ seen.*1 ∨ x ∈ kvs.*1.
Proof.
  revert seen. induction kvs as [|[k0 v0] kvs IH]; intros seen; cbn.
  - split; [by left|]. intros [?|?%elem_of_nil]; done.
  - rewrite IH, addBinding_keys, elem_of_cons. tauto.
Qed.
End first_bindings.

Section by_key_theory.
Context {Id Value : Type} `{IdLike Id}.
Implicit Types (s : IdStoreByKey Id Value) (k : Z) (v : Value) (id : Id).

Lemma ByKey_insert_hit s k v id v0 :
  bk_mMap s !! k = Some (id, v0) → ByKey.insert k v s = (id, s).
Proof. intros E. unfold ByKey.insert. by rewrite E. Qed.

Lemma ByKey_insert_miss s k v :
  bk_mMap s !! k = None →
  ByKey.insert k v s =
    (of_int (bk_mLastId s + 1),
     mkIdStoreByKey (bk_mLastId s + 1)
       (<[k := (of_int (bk_mLastId s + 1), v)]> (bk_mMap s))).
Proof. intros E. unfold ByKey.insert. by rewrite E. Qed.

Lemma ByKey_insert_lookup s k v :
  fst <$> bk_mMap (ByKey.insert k v s).2 !! k = Some (ByKey.insert k v s).1.
Proof.
  unfold ByKey.insert. destruct (bk_mMap s !! k) as [[id v0]|] eqn:E; cbn.
  - by rewrite E.
  - by rewrite lookup_insert_eq.
Qed.

Lemma ByKey_insert_subseteq s k v : bk_mMap s ⊆ bk_mMap (ByKey.insert k v s).2.
Proof.
  unfold ByKey.insert. destruct (bk_mMap s !! k) eqn:E; cbn; [done|].
  by apply insert_subseteq.
Qed.

Lemma ByKey_get_lookup s k : ByKey.get k s = fst <$> bk_mMap s !! k.
Proof. unfold ByKey.get. by destruct (bk_mMap s !! k). Qed.

Lemma ByKey_empty_rep : ByKey_rep [] (ByKey.empty : IdStoreByKey Id Value).
Proof.
  split_and!; [apply NoDup_nil_2|done|].
  intros k id v. cbn. rewrite lookup_empty. split; [done|].
  by intros (i & ? & _).
Qed.

Lemma ByKey_insert_rep l s k v :
  ByKey_rep l s → ByKey_rep (addBinding l (k, v)) (ByKey.insert k v s).2.
Proof.
  intros (Hnd & Hlast & Hmap). unfold addBinding, ByKey.insert. cbn [fst].
  destruct (bk_mMap s !! k) as [[id v0]|] eqn:E.
  - apply Hmap in E as (i & Hi & _).
    rewrite decide_True; [done|].
    apply list_elem_of_fmap. exists (k, v0). split; [done|].
    by eapply list_elem_of_lookup_2.
  - assert (k ∉ l.*1) as Hnotin.
    { intros ([k' v'] & Hk & (i & Hi)%list_elem_of_lookup)%list_elem_of_fmap.
      cbn in Hk. subst k'.
      assert (bk_mMap s !! k = Some (of_int (Z.of_nat i + 1), v')) by (apply Hmap; eauto).
      congruence. }
    rewrite decide_False by done. cbn.
    split_and!.
    + rewrite fmap_app. apply NoDup_app. split_and!; [done| |apply NoDup_singleton].
      cbn. by intros x Hx ->%list_elem_of_singleton.
    + cbn. rewrite length_app. cbn. lia.
    + intros k' id v'. cbn. destruct (decide (k' = k)) as [->|Hne].
      * rewrite lookup_insert_eq. split.
        -- intros [= <- <-]. exists (length l). split; [|by rewrite Hlast].
           by rewrite lookup_app_r, Nat.sub_diag by lia.
        -- intros (i & Hi & ->).
           apply lookup_app_Some in Hi as [Hi|[Hge Hi]].
           ++ exfalso. apply Hnotin. apply list_elem_of_fmap.
              exists (k, v'). split; [done|]. by eapply list_elem_of_lookup_2.
           ++ apply list_lookup_singleton_Some in Hi as [Hi [= ->]].
              do 3 f_equal. lia.
      * rewrite lookup_insert_ne by done. rewrite Hmap.
        split; intros (i & Hi & ->); exists i; split; try done.
        -- by apply lookup_app_l_Some.
        -- apply lookup_app_Some in Hi as [Hi|[Hge Hi]]; [done|].
           apply list_lookup_singleton_Some in Hi as [_ ?]. congruence.
Qed.

Lemma ByKey_insertAll_rep kvs l s :
  ByKey_rep l s → ByKey_rep (foldl addBinding l kvs) (ByKey.insertAll kvs s).2.
Proof.
  revert l s. induction kvs as [|[k v] kvs IH]; intros l s Hrep; [done|].
  cbn. pose proof (ByKey_insert_rep l s k v Hrep) as Hrep'.
  destruct (ByKey.insert k v s) as [id s1]. cbn in Hrep'.
  specialize (IH _ _ Hrep').
  destruct (ByKey.insertAll kvs s1) as [ids s2]. done.
Qed.

Lemma ByKey_insertAll_subseteq kvs s :
  bk_mMap s ⊆ bk_mMap (ByKey.insertAll kvs s).2.
Proof.
  revert s. induction kvs as [|[k v] kvs IH]; intros s; [done|].
  cbn. pose proof (ByKey_insert_subseteq s k v) as Hsub.
  destruct (ByKey.insert k v s) as [id s1]. cbn in Hsub.
  specialize (IH s1). destruct (ByKey.insertAll kvs s1) as [ids s2].
  cbn in *. by etrans.
Qed.

(** The id that the [i]-th insert returned is the id of its key in the
    final store. *)
Lemma ByKey_insertAll_ids kvs s (i : nat) k v :
  kvs !! i = Some (k, v) →
  (ByKey.insertAll kvs s).1 !! i = fst <$> bk_mMap (ByKey.insertAll kvs s).2 !! k.
Proof.
  revert s i. induction kvs as [|[k0 v0] kvs IH]; intros s i Hi; [done|].
  cbn. pose proof (ByKey_insert_lookup s k0 v0) as Hlook.
  destruct (ByKey.insert k0 v0 s) as [id s1]. cbn in Hlook.
  pose proof (ByKey_insertAll_subseteq kvs s1) as Hsub.
  specialize (IH s1).
  destruct (ByKey.insertAll kvs s1) as [ids s2]. cbn in *.
  destruct i as [|i]; cbn in *.
  - injection Hi as -> ->.
    destruct (bk_mMap s1 !! k) as [p|] eqn:E; [|done].
    rewrite (lookup_weaken _ _ _ _ E Hsub). done.
  - by apply IH.
Qed.

Lemma ByKey_isEmpty_empty : ByKey.isEmpty (ByKey.empty : IdStoreByKey Id Value) = true.
Proof. done. Qed.

Lemma ByKey_isEmpty_true `{EqDecision Value} s :
  ByKey.isEmpty s = true ↔ bk_mMap s = ∅.
Proof. unfold ByKey.isEmpty. by rewrite bool_decide_eq_true. Qed.
End by_key_theory.
(** C2. The by-value interning store. [insert] returns the id already
    allocated for an equal value and leaves the store unchanged, and
    otherwise allocates the next id, which no value holds yet. After a run
    of inserts into a new store the allocated ids are exactly [1..n] for [n]
    the number of distinct values inserted, they are given in the order of
    first use, equal values received equal ids and distinct values distinct
    ids. The counter of the source is an [int]: the ids are stated for the
    runs in which it has not overflowed, those of at most [INT_MAX] distinct
    values, and the id of a further new value where [n + 1] is in that range
    too. *)
Theorem IdStoreByValue_interns_densely {Id Value : Type} `{IdLike Id} `{Countable Value} :
  (∀ (s : IdStoreByValue Id Value) v id,
     bv_mMap s !! v = Some id → ByValue.insert v s = (id, s)) ∧
  (∀ values : list Value,
     no_overflow (Z.of_nat (length (remove_dups values))) →
     let ids := (ByValue.insertAll values (ByValue.empty : IdStoreByValue Id Value)).1 in
     let s := (ByValue.insertAll values (ByValue.empty : IdStoreByValue Id Value)).2 in
     let n := Z.of_nat (length (remove_dups values)) in
     bv_mLastId s = n ∧ no_overflow (bv_mLastId s) ∧
     (∀ id, (∃ v, bv_mMap s !! v = Some id) ↔ (1 ≤ to_int id ≤ n)%Z) ∧
     (∀ (k : nat) v, firstUses values !! k = Some v →
        bv_mMap s !! v = Some (of_int (Z.of_nat k + 1))) ∧
     (∀ (i : nat) v, values !! i = Some v →
        is_Some (ids !! i) ∧ ids !! i = bv_mMap s !! v) ∧
     (∀ (i j : nat) v w a b,
        values !! i = Some v → values !! j = Some w →
        ids !! i = Some a → ids !! j = Some b → (a = b ↔ v = w)) ∧
     (∀ v, v ∉ values → no_overflow (n + 1) →
        (ByValue.insert v s).1 = of_int (n + 1) ∧
        bv_mLastId (ByValue.insert v s).2 = (n + 1)%Z ∧
        ∀ w, bv_mMap s !! w ≠ Some (of_int (n + 1)))).
Proof.
  split; [apply ByValue_insert_hit|].
  intros values Hbound ids s n.
  pose proof (ByValue_insertAll_rep values [] ByValue.empty ByValue_empty_rep) as Hrep.
  fold (firstUses values) in Hrep. fold s in Hrep.
  assert (Z.of_nat (length (firstUses values)) = n) as Hn
    by (unfold n; by rewrite firstUses_length).
  pose proof Hrep as (Hnd & Hlast & Hmap).
  assert (∀ (i : nat) v, values !! i = Some v →
            is_Some (ids !! i) ∧ ids !! i = bv_mMap s !! v) as Hids.
  { intros i v Hi. split; [|by apply ByValue_insertAll_ids].
    apply lookup_lt_is_Some. unfold ids. rewrite ByValue_insertAll_length.
    by eapply lookup_lt_Some. }
  split_and!.
  - by rewrite Hlast.
  - rewrite Hlast, Hn. exact Hbound.
  - intros id. rewrite <- Hn. by apply ByValue_rep_dense.
  - intros k v Hk. apply Hmap. eauto.
  - done.
  - intros i j v w a b Hi Hj Ha Hb.
    apply Hids in Hi as [_ Hi], Hj as [_ Hj].
    rewrite Ha in Hi. rewrite Hb in Hj. split.
    + intros ->. by eapply ByValue_rep_inj.
    + intros ->. congruence.
  - intros v Hv _.
    assert (bv_mMap s !! v = None) as Hnone.
    { destruct (bv_mMap s !! v) as [id|] eqn:E; [|done].
      apply Hmap in E as (i & Hi & _).
      apply list_elem_of_lookup_2 in Hi. rewrite firstUses_elem_of in Hi. done. }
    split_and!.
    + rewrite ByValue_insert_miss by done. cbn. by rewrite Hlast, Hn.
    + rewrite ByValue_insert_miss by done. cbn. by rewrite Hlast, Hn.
    + intros w (i & Hi & Heq%of_int_inj)%Hmap.
      apply lookup_lt_Some in Hi. lia.
Qed.

(** C3. The by-key interning store. [insert] with a key that is present
    returns the id stored with it and changes nothing, so the value given
    with a repeated key is ignored; [get] returns the id stored with a key,
    or nothing when the key is absent. After any run of inserts into a new
    store every insert with key [k] returned the id that the final store
    holds for [k], and the value stored with [k] is the one of the first
    insert with [k]. *)
Theorem IdStoreByKey_first_insert_wins {Id Value : Type} `{IdLike Id} :
  (∀ (s : IdStoreByKey Id Value) k v id v0,
     bk_mMap s !! k = Some (id, v0) → ByKey.insert k v s = (id, s)) ∧
  (∀ (s : IdStoreByKey Id Value) k, ByKey.get k s = fst <$> bk_mMap s !! k) ∧
  (∀ kvs : list (Z * Value),
     let ids := (ByKey.insertAll kvs (ByKey.empty : IdStoreByKey Id Value)).1 in
     let s := (ByKey.insertAll kvs (ByKey.empty : IdStoreByKey Id Value)).2 in
     (∀ (i : nat) k v, kvs !! i = Some (k, v) →
        ∃ id v0 (j : nat),
          ids !! i = Some id ∧ ByKey.get k s = Some id ∧
          bk_mMap s !! k = Some (id, v0) ∧
          (j ≤ i)%nat ∧ kvs !! j = Some (k, v0) ∧
          ∀ (j' : nat) v', (j' < j)%nat → kvs !! j' ≠ Some (k, v')) ∧
     (∀ k, k ∉ kvs.*1 → ByKey.get k s = None)).
Proof.
  split_and!; [apply ByKey_insert_hit|apply ByKey_get_lookup|].
  intros kvs ids s.
  pose proof (ByKey_insertAll_rep kvs [] ByKey.empty ByKey_empty_rep) as Hrep.
  fold s in Hrep. destruct Hrep as (Hnd & Hlast & Hmap).
  split.
  - intros i k v Hi.
    assert (k ∈ (foldl addBinding [] kvs).*1) as Hin.
    { apply foldl_addBinding_keys. right. apply list_elem_of_fmap.
      exists (k, v). split; [done|]. by eapply list_elem_of_lookup_2. }
    apply list_elem_of_fmap in Hin as ([k' v0] & Hk & Hin). cbn in Hk. subst k'.
    pose proof Hin as (m & Hm)%list_elem_of_lookup.
    assert (bk_mMap s !! k = Some (of_int (Z.of_nat m + 1), v0)) as Hs
      by (apply Hmap; eauto).
    apply foldl_addBinding_elem_of in Hin as [?%elem_of_nil|(_ & j & Hj & Hfirst)]; [done|].
    exists (of_int (Z.of_nat m + 1)), v0, j. split_and!; try done.
    + unfold ids. erewrite ByKey_insertAll_ids by done. fold s. by rewrite Hs.
    + by rewrite ByKey_get_lookup, Hs.
    + destruct (decide (j ≤ i)%nat) as [|Hgt]; [done|].
      exfalso. apply (Hfirst i v); [lia|done].
  - intros k Hk. rewrite ByKey_get_lookup.
    destruct (bk_mMap s !! k) as [[id v]|] eqn:E; [|done].
    apply Hmap in E as (i & Hi & _). exfalso. apply Hk.
    assert (k ∈ (foldl addBinding [] kvs).*1) as Hin.
    { apply list_elem_of_fmap. exists (k, v). split; [done|].
      by eapply list_elem_of_lookup_2. }
    apply foldl_addBinding_keys in Hin as [Hin|Hin]; [|done].
    by apply elem_of_nil in Hin.
Qed.

(** ** The final maps of the stores *)

Section by_key_final.
Context {Id Value : Type} `{IdLike Id}.

(** In a by-key store that a run of inserts built an id belongs to one
    key only. *)
Lemma ByKey_rep_inj l (s : IdStoreByKey Id Value) k1 k2 id v1 v2 :
  ByKey_rep l s →
  bk_mMap s !! k1 = Some (id, v1) → bk_mMap s !! k2 = Some (id, v2) →
  k1 = k2 ∧ v1 = v2.
Proof.
  intros (Hnd & Hlast & Hmap) (i & Hi & ->)%Hmap (j & Hj & Hij%of_int_inj)%Hmap.
  assert (i = j) as -> by lia. split; congruence.
Qed.

Lemma foldr_insert_binding_lookup (L : list (Z * (Id * Value))) id v :
  NoDup ((λ kp, kp.2.1) <$> L) →
  foldr (λ kp r, <[kp.2.1 := kp.2.2]> r) (∅ : gmap Id Value) L !! id = Some v ↔
  ∃ k, (k, (id, v)) ∈ L.
Proof.
  induction L as [|[k [j w]] L IH]; intros Hnd; cbn.
  - rewrite lookup_empty. split; [done|]. by intros [? ?%elem_of_nil].
  - cbn in Hnd. apply NoDup_cons in Hnd as [Hj Hnd].
    destruct (decide (j = id)) as [->|Hne].
    + rewrite lookup_insert_eq. split.
      * intros [= ->]. exists k. by left.
      * intros [k' [[= _ ->]|Hin]%elem_of_cons]; [done|].
        exfalso. apply Hj. apply list_elem_of_fmap. by exists (k', (id, v)).
    + rewrite lookup_insert_ne by done. rewrite IH by done.
      split; intros [k' Hin]; exists k'; [by right|].
      apply elem_of_cons in Hin as [[= _ -> _]|?]; done.
Qed.

(** The final map of a by-key store that a run of inserts built holds,
    under each id, the value stored with the key of that id. *)
Lemma ByKey_getFinal_lookup l (s : IdStoreByKey Id Value) id v :
  ByKey_rep l s →
  ByKey.getFinal s !! id = Some v ↔ ∃ k, bk_mMap s !! k = Some (id, v).
Proof.
  intros Hrep. unfold ByKey.getFinal. rewrite foldr_insert_binding_lookup.
  - by setoid_rewrite elem_of_map_to_list.
  - apply NoDup_fmap_2_strong; [|apply NoDup_map_to_list].
    intros [k1 [i1 v1]] [k2 [i2 v2]] H1%elem_of_map_to_list H2%elem_of_map_to_list Heq.
    cbn in Heq. subst i2.
    destruct (ByKey_rep_inj _ _ _ _ _ _ _ Hrep H1 H2) as [-> ->]. done.
Qed.

Lemma ByKey_insertAll_length kvs (s : IdStoreByKey Id Value) :
  length (ByKey.insertAll kvs s).1 = length kvs.
Proof.
  revert s. induction kvs as [|[k v] rest IH]; intros s; cbn; [done|].
  destruct (ByKey.insert k v s) as [id s1].
  specialize (IH s1). destruct (ByKey.insertAll rest s1) as [ids s2].
  cbn in *. by rewrite IH.
Qed.
End by_key_final.

(** X1. [IdStoreByValue::getFinal] inverts a store that a run of inserts
    built: it maps an id to a value exactly when the store maps that value
    to that id, every value inserted is read back under the id that its
    insert returned, and, when the [int] counter of the source has not
    overflowed, that is for at most [INT_MAX] distinct values, the keys of
    the final map are the ids [1..n] for [n] the number of distinct
    values. *)
Theorem IdStoreByValue_getFinal_inverts {Id Value : Type} `{IdLike Id} `{Countable Value}
    (values : list Value) :
  let ids := (ByValue.insertAll values (ByValue.empty : IdStoreByValue Id Value)).1 in
  let s := (ByValue.insertAll values (ByValue.empty : IdStoreByValue Id Value)).2 in
  (∀ id v, ByValue.getFinal s !! id = Some v ↔ bv_mMap s !! v = Some id) ∧
  (∀ (i : nat) v, values !! i = Some v →
     ∃ id, ids !! i = Some id ∧ ByValue.getFinal s !! id = Some v) ∧
  (no_overflow (Z.of_nat (length (remove_dups values))) →
   no_overflow (bv_mLastId s) ∧
   ∀ id, is_Some (ByValue.getFinal s !! id) ↔
         (1 ≤ to_int id ≤ Z.of_nat (length (remove_dups values)))%Z).
Proof.
  intros ids s.
  pose proof (ByValue_insertAll_rep values [] ByValue.empty ByValue_empty_rep) as Hrep.
  fold (firstUses values) in Hrep. fold s in Hrep.
  assert (∀ id v, ByValue.getFinal s !! id = Some v ↔ bv_mMap s !! v = Some id) as Hfinal
    by (intros id v; by eapply ByValue_getFinal_lookup).
  split_and!; [done| |].
  - intros i v Hi.
    pose proof (ByValue_insertAll_ids values ByValue.empty i v Hi) as Hid.
    fold ids in Hid. fold s in Hid.
    destruct (ids !! i) as [id|] eqn:E.
    + exists id. split; [done|]. by apply Hfinal.
    + apply lookup_ge_None in E. unfold ids in E.
      rewrite ByValue_insertAll_length in E. apply lookup_lt_Some in Hi. lia.
  - intros Hbound. split.
    + destruct Hrep as (_ & -> & _). by rewrite firstUses_length.
    + intros id. rewrite <- firstUses_length.
      rewrite <- (ByValue_rep_dense _ s id Hrep). unfold is_Some.
      by setoid_rewrite Hfinal.
Qed.

(** X2. [IdStoreByKey::getFinal] drops the keys of a store that a run of
    inserts built and loses no entry: it maps an id to a value exactly when
    some key is stored with that id and value, the ids of the final map are
    the ids that the inserts returned, and under the id that an insert with
    key [k] returned it holds the value of the first insert with [k].
    [empty()] holds exactly when nothing was inserted. *)
Theorem IdStoreByKey_getFinal_keeps_first_values {Id Value : Type} `{IdLike Id}
    (kvs : list (Z * Value)) :
  let ids := (ByKey.insertAll kvs (ByKey.empty : IdStoreByKey Id Value)).1 in
  let s := (ByKey.insertAll kvs (ByKey.empty : IdStoreByKey Id Value)).2 in
  (∀ id v, ByKey.getFinal s !! id = Some v ↔ ∃ k, bk_mMap s !! k = Some (id, v)) ∧
  (∀ (i : nat) k v, kvs !! i = Some (k, v) →
     ∃ id v0 (j : nat),
       ids !! i = Some id ∧ ByKey.getFinal s !! id = Some v0 ∧
       (j ≤ i)%nat ∧ kvs !! j = Some (k, v0) ∧
       ∀ (j' : nat) v', (j' < j)%nat → kvs !! j' ≠ Some (k, v')) ∧
  (∀ id, is_Some (ByKey.getFinal s !! id) ↔ id ∈ ids) ∧
  (ByKey.isEmpty s = true ↔ kvs = []).
Proof.
  intros ids s.
  pose proof (ByKey_insertAll_rep kvs [] ByKey.empty ByKey_empty_rep) as Hrep.
  fold s in Hrep.
  assert (∀ id v, ByKey.getFinal s !! id = Some v ↔
                  ∃ k, bk_mMap s !! k = Some (id, v)) as Hfinal
    by (intros id v; by eapply ByKey_getFinal_lookup).
  destruct Hrep as (Hnd & Hlast & Hmap).
  assert (∀ (i : nat) k v, kvs !! i = Some (k, v) →
            ∃ id v0 (j : nat),
              ids !! i = Some id ∧ bk_mMap s !! k = Some (id, v0) ∧
              (j ≤ i)%nat ∧ kvs !! j = Some (k, v0) ∧
              ∀ (j' : nat) v', (j' < j)%nat → kvs !! j' ≠ Some (k, v')) as Hruns.
  { intros i k v Hi.
    assert (k ∈ (foldl addBinding [] kvs).*1) as Hin.
    { apply foldl_addBinding_keys. right. apply list_elem_of_fmap.
      exists (k, v). split; [done|]. by eapply list_elem_of_lookup_2. }
    apply list_elem_of_fmap in Hin as ([k' v0] & Hk & Hin). cbn in Hk. subst k'.
    pose proof Hin as (m & Hm)%list_elem_of_lookup.
    assert (bk_mMap s !! k = Some (of_int (Z.of_nat m + 1), v0)) as Hs
      by (apply Hmap; eauto).
    apply foldl_addBinding_elem_of in Hin as [?%elem_of_nil|(_ & j & Hj & Hfirst)]; [done|].
    exists (of_int (Z.of_nat m + 1)), v0, j. split_and!; try done.
    - unfold ids. erewrite ByKey_insertAll_ids by done. fold s. by rewrite Hs.
    - destruct (decide (j ≤ i)%nat) as [|Hgt]; [done|].
      exfalso. apply (Hfirst i v); [lia|done]. }
  split_and!; [done| | |].
  - intros i k v Hi.
    destruct (Hruns i k v Hi) as (id & v0 & j & Hid & Hs & Hle & Hj & Hfirst).
    exists id, v0, j. split_and!; try done. apply Hfinal. by exists k.
  - intros id. split.
    + intros [v (k & Hs)%Hfinal].
      pose proof Hs as (m & Hm & _)%Hmap.
      apply list_elem_of_lookup_2, foldl_addBinding_elem_of in Hm
        as [?%elem_of_nil|(_ & j & Hj & _)]; [done|].
      destruct (Hruns j k v Hj) as (id' & v0 & _ & Hid & Hs' & _).
      rewrite Hs in Hs'. injection Hs' as <- <-.
      by eapply list_elem_of_lookup_2.
    + intros (i & Hi)%list_elem_of_lookup.
      assert (i < length kvs)%nat as Hlt.
      { apply lookup_lt_Some in Hi. unfold ids in Hi.
        by rewrite ByKey_insertAll_length in Hi. }
      apply lookup_lt_is_Some in Hlt as [[k v] Hkv].
      destruct (Hruns i k v Hkv) as (id' & v0 & _ & Hid & Hs & _).
      rewrite Hi in Hid. injection Hid as <-.
      exists v0. apply Hfinal. by exists k.
  - unfold ByKey.isEmpty. rewrite bool_decide_eq_true. split.
    + intros Hempty. destruct kvs as [|[k v] rest]; [done|].
      destruct (Hruns 0%nat k v eq_refl) as (id & v0 & _ & _ & Hs & _).
      rewrite Hempty, lookup_empty in Hs. done.
    + intros ->. done.
Qed.

(** ** Operator mapping *)

Lemma rvalueOperatorCaseLabels_named op :
  op ∈ rvalueOperatorCaseLabels → (TOperator_index op < 625)%N.
Proof.
  assert (forallb (λ op, (TOperator_index op <? 625)%N) rvalueOperatorCaseLabels = true)
    as Hall by (by vm_compute).
  apply Is_true_true, forallb_True in Hall. rewrite Forall_forall in Hall.
  intros Hin. apply Hall in Hin. by apply Is_true_true, N.ltb_lt in Hin.
Qed.

Lemma other_not_rvalueOperatorCaseLabel tag : EOpOther tag ∉ rvalueOperatorCaseLabels.
Proof. intros Hin%rvalueOperatorCaseLabels_named. cbn in Hin. lia. Qed.

(** Refute a hypothesis on the membership of a named operator in a list of
    case labels by computing the membership. *)
#[local] Ltac decide_label H :=
  let B := fresh in
  lazymatch type of H with
  | ¬ ?P =>
      assert (bool_decide P = false) as B by (apply bool_decide_eq_false_2, H);
      vm_compute in B; discriminate B
  | ?P =>
      assert (bool_decide P = true) as B by (apply bool_decide_eq_true_2, H);
      vm_compute in B; discriminate B
  end.

Lemma unrecognized_rvalue_operator op version returnType arg1Type :
  op ∉ rvalueOperatorCaseLabels →
  glslangOperatorToRValueOperator op version returnType arg1Type =
    Ok (inl RValueOperator.Ternary, [CannotConvertOperatorToRValueOperator op]).
Proof.
  intros Hnot. destruct op; try reflexivity; decide_label Hnot.
Qed.

Lemma recognized_rvalue_operator op version returnType arg1Type r logged :
  op ∈ rvalueOperatorCaseLabels →
  glslangOperatorToRValueOperator op version returnType arg1Type = Ok (r, logged) →
  logged = [] ∧ r ≠ inl RValueOperator.Ternary.
Proof.
  intros Hin Heq.
  destruct op;
    try (injection Heq as <- <-; split; [reflexivity|discriminate]);
    try (by apply other_not_rvalueOperatorCaseLabel in Hin);
    try decide_label Hin;
    cbn in Heq;
    destruct (textureFunctionNameForSampler _ _ _ _); cbn in Heq;
    try discriminate Heq;
    injection Heq as <- <-; (split; [reflexivity|discriminate]).
Qed.

Lemma unrecognized_branch_operator op :
  op ∉ branchOperatorCaseLabels →
  glslangOperatorToBranchOperator op = Fatal CannotConvertOperatorToBranchOperator.
Proof.
  intros Hnot. destruct op; try reflexivity; decide_label Hnot.
Qed.

Lemma branch_labels_not_rvalue_labels op :
  op ∈ branchOperatorCaseLabels → op ∉ rvalueOperatorCaseLabels.
Proof.
  intros Hin.
  assert (Forall (λ op, bool_decide (op ∈ rvalueOperatorCaseLabels) = false)
            branchOperatorCaseLabels) as Hall.
  { repeat constructor; by vm_compute. }
  rewrite Forall_forall in Hall. by eapply bool_decide_eq_false_1, Hall.
Qed.

(** C5. The sampler-dependent texture names. For each of the six
    texture-sampling operators that are named through
    [textureFunctionNameForSampler]: with a shader version above 100 the name
    is ["texture"] followed by the suffix of the operator, whatever the first
    argument is; with a version of at most 100 the name is ["shadow"] or
    ["texture"] by the shadow-ness of the first argument's sampler, then its
    dimensionality, the suffix and the ARB/EXT tag, and the mapping is fatal
    when the first argument's type is missing or the dimensionality is not
    one of 1D, 2D, 3D, Cube, 2DRect. *)
Theorem texture_function_names op suffix arbOrExt returnType :
  textureSamplingSuffix op = Some (suffix, arbOrExt) →
  (∀ version arg1Type,
     (version > 100)%Z →
     glslangOperatorToRValueOperator op version returnType arg1Type =
       Ok (inr ("texture" +:+ suffix), [])) ∧
  (∀ version arg1Type dimName,
     (version ≤ 100)%Z →
     samplerDimName (dim (getSampler arg1Type)) = Some dimName →
     glslangOperatorToRValueOperator op version returnType (Some arg1Type) =
       Ok (inr ((((if isShadow (getSampler arg1Type) then "shadow" else "texture")
                  +:+ dimName) +:+ suffix) +:+ arbOrExt), [])) ∧
  (∀ version,
     (version ≤ 100)%Z →
     glslangOperatorToRValueOperator op version returnType None =
       Fatal FirstArgumentToTextureFunctionMustNotBeNull) ∧
  (∀ version arg1Type,
     (version ≤ 100)%Z →
     samplerDimName (dim (getSampler arg1Type)) = None →
     glslangOperatorToRValueOperator op version returnType (Some arg1Type) =
       Fatal UnhandledSamplerDimension).
Proof.
  intros Hop.
  destruct op; try discriminate Hop; injection Hop as <- <-;
    (split_and!;
     [ intros version arg1Type Hv; cbn; unfold textureFunctionNameForSampler;
       by rewrite bool_decide_true by done
     | intros version arg1Type dimName Hv Hdim; cbn;
       unfold textureFunctionNameForSampler;
       rewrite bool_decide_false by lia;
       destruct arg1Type as [? ? ? ? ? ? ? ? [shadow [] ?] ? ?];
       cbn in *; simplify_eq; by destruct shadow
     | intros version Hv; cbn; unfold textureFunctionNameForSampler;
       by rewrite bool_decide_false by lia
     | intros version arg1Type Hv Hdim; cbn;
       unfold textureFunctionNameForSampler;
       rewrite bool_decide_false by lia;
       destruct arg1Type as [? ? ? ? ? ? ? ? [shadow [] ?] ? ?];
       cbn in *; by simplify_eq ]).
Qed.

(** ** Names of types and of constructors *)

Lemma string_app_empty_r (s : string) : s +:+ "" = s.
Proof.
  induction s as [|c r IH]; [done|].
  change (String c (r +:+ "") = String c r). by f_equal.
Qed.

Lemma string_app_assoc (a b c : string) : (a +:+ b) +:+ c = a +:+ (b +:+ c).
Proof.
  induction a as [|x r IH]; [done|].
  change (String x ((r +:+ b) +:+ c) = String x (r +:+ (b +:+ c))). by f_equal.
Qed.

Lemma appendBrackets_arrayBrackets (numDims : nat) (result : string) :
  appendBrackets numDims result = result +:+ arrayBrackets numDims.
Proof.
  revert result. induction numDims as [|n IH]; intros result.
  - cbn. by rewrite string_app_empty_r.
  - cbn [appendBrackets arrayBrackets]. by rewrite IH, string_app_assoc.
Qed.

(** X3. The expansion of a scalar type name to a vector or matrix name.
    It succeeds exactly when the sizes it reads are in range (columns and
    rows between 2 and 4 for a matrix, checked in that order and without
    looking at the vector size; the vector size between 1 and 4 otherwise).
    When it succeeds on a table of thirteen names the name it returns is an
    entry of the table, and on the tables of [float] and [double] the entry
    of a matrix is the GLSL name of the matrix with these columns and rows. *)
Theorem type_name_expansion (typeNames : list string) (isMatrix : bool)
    (vectorSize matrixCols matrixRows : Z) :
  let run := expandTypeNameToVectorOrMatrix typeNames isMatrix vectorSize
               matrixCols matrixRows in
  (isOk run = true ↔
     if isMatrix then (2 ≤ matrixCols ≤ 4)%Z ∧ (2 ≤ matrixRows ≤ 4)%Z
     else (1 ≤ vectorSize ≤ 4)%Z) ∧
  (isMatrix = true → ¬ (2 ≤ matrixCols ≤ 4)%Z →
     run = Fatal MatrixColsMustBeBetween2And4) ∧
  (isMatrix = true → (2 ≤ matrixCols ≤ 4)%Z → ¬ (2 ≤ matrixRows ≤ 4)%Z →
     run = Fatal MatrixRowsMustBeBetween2And4) ∧
  (isMatrix = false → ¬ (1 ≤ vectorSize ≤ 4)%Z →
     run = Fatal VectorSizeMustBeBetween1And4) ∧
  (∀ typeName, length typeNames = 13%nat → run = Ok typeName → typeName ∈ typeNames) ∧
  (isMatrix = true → (2 ≤ matrixCols ≤ 4)%Z → (2 ≤ matrixRows ≤ 4)%Z →
     expandTypeNameToVectorOrMatrix FLOAT_TYPE_NAMES isMatrix vectorSize
       matrixCols matrixRows = Ok (matrixTypeName "" matrixCols matrixRows) ∧
     expandTypeNameToVectorOrMatrix DOUBLE_TYPE_NAMES isMatrix vectorSize
       matrixCols matrixRows = Ok (matrixTypeName "d" matrixCols matrixRows)).
Proof.
  intros run. unfold run, expandTypeNameToVectorOrMatrix, expandTypeNameToVector.
  split_and!.
  - destruct isMatrix.
    + destruct (decide (2 ≤ matrixCols ≤ 4)%Z) as [Hc|Hc].
      * rewrite (bool_decide_true (matrixCols >= 2)), (bool_decide_true (matrixCols <= 4))
          by lia. cbn.
        destruct (decide (2 ≤ matrixRows ≤ 4)%Z) as [Hr|Hr].
        -- rewrite (bool_decide_true (matrixRows >= 2)),
             (bool_decide_true (matrixRows <= 4)) by lia. cbn. done.
        -- destruct (bool_decide (matrixRows >= 2)) eqn:E1;
             destruct (bool_decide (matrixRows <= 4)) eqn:E2; cbn;
             try (split; [done|tauto]).
           apply bool_decide_eq_true in E1, E2. lia.
      * destruct (bool_decide (matrixCols >= 2)) eqn:E1;
          destruct (bool_decide (matrixCols <= 4)) eqn:E2; cbn;
          try (split; [done|tauto]).
        apply bool_decide_eq_true in E1, E2. lia.
    + destruct (bool_decide (vectorSize >= 1)) eqn:E1;
        destruct (bool_decide (vectorSize <= 4)) eqn:E2; cbn;
        try apply bool_decide_eq_true in E1; try apply bool_decide_eq_true in E2;
        try apply bool_decide_eq_false in E1; try apply bool_decide_eq_false in E2;
        split; try done; lia.
  - intros -> Hc.
    destruct (bool_decide (matrixCols >= 2)) eqn:E1;
      destruct (bool_decide (matrixCols <= 4)) eqn:E2; cbn; try done.
    apply bool_decide_eq_true in E1, E2. lia.
  - intros -> Hc Hr.
    rewrite (bool_decide_true (matrixCols >= 2)), (bool_decide_true (matrixCols <= 4))
      by lia. cbn.
    destruct (bool_decide (matrixRows >= 2)) eqn:E1;
      destruct (bool_decide (matrixRows <= 4)) eqn:E2; cbn; try done.
    apply bool_decide_eq_true in E1, E2. lia.
  - intros -> Hv.
    destruct (bool_decide (vectorSize >= 1)) eqn:E1;
      destruct (bool_decide (vectorSize <= 4)) eqn:E2; cbn; try done.
    apply bool_decide_eq_true in E1, E2. lia.
  - intros typeName Hlen Hrun.
    assert (∀ i : nat, (i < 13)%nat → nth i typeNames "" ∈ typeNames) as Hnth.
    { intros i Hi. apply list_elem_of_In, nth_In. lia. }
    destruct isMatrix.
    + destruct (bool_decide (matrixCols >= 2)) eqn:E1;
        destruct (bool_decide (matrixCols <= 4)) eqn:E2; cbn in Hrun; try done.
      destruct (bool_decide (matrixRows >= 2)) eqn:E3;
        destruct (bool_decide (matrixRows <= 4)) eqn:E4; cbn in Hrun; try done.
      apply bool_decide_eq_true in E1, E2, E3, E4.
      injection Hrun as <-. apply Hnth. lia.
    + destruct (bool_decide (vectorSize >= 1)) eqn:E1;
        destruct (bool_decide (vectorSize <= 4)) eqn:E2; cbn in Hrun; try done.
      apply bool_decide_eq_true in E1, E2.
      injection Hrun as <-. apply Hnth. lia.
  - intros -> Hc Hr.
    assert (matrixCols = 2 ∨ matrixCols = 3 ∨ matrixCols = 4)%Z
      as [->|[->| ->]] by lia;
      assert (matrixRows = 2 ∨ matrixRows = 3 ∨ matrixRows = 4)%Z
        as [->|[->| ->]] by lia;
      split; reflexivity.
Qed.

(** X4. Constructor names. [constructorFunctionNameForType] returns the
    name followed by one pair of brackets per array dimension of the return
    type, and the name itself for a type that is no array. Through the
    operator mapping, the array sizes of the return type change a result at
    most in this way: the mapping at a type either agrees with the mapping
    at that type without array sizes, or the latter is a function name and
    the former is that name followed by the brackets. *)
Theorem constructor_names_append_array_brackets :
  (∀ name returnType,
     constructorFunctionNameForType name returnType =
       name +:+ arrayBrackets (arrayDimensions returnType)) ∧
  (∀ name returnType,
     isArray returnType = false → constructorFunctionNameForType name returnType = name) ∧
  (∀ op version returnType arg1Type,
     glslangOperatorToRValueOperator op version returnType arg1Type =
       glslangOperatorToRValueOperator op version (withoutArraySizes returnType) arg1Type ∨
     ∃ name,
       glslangOperatorToRValueOperator op version (withoutArraySizes returnType) arg1Type =
         Ok (inr name, []) ∧
       glslangOperatorToRValueOperator op version returnType arg1Type =
         Ok (inr (name +:+ arrayBrackets (arrayDimensions returnType)), [])).
Proof.
  assert (∀ name returnType,
            constructorFunctionNameForType name returnType =
              name +:+ arrayBrackets (arrayDimensions returnType)) as Hname.
  { intros name returnType. unfold constructorFunctionNameForType, arrayDimensions.
    destruct (getArraySizes returnType) as [sizes|].
    - unfold getNumDims. rewrite Nat2Z.id. apply appendBrackets_arrayBrackets.
    - cbn. by rewrite string_app_empty_r. }
  split_and!; [exact Hname| |].
  - intros name returnType Harray. unfold constructorFunctionNameForType, isArray in *.
    by destruct (getArraySizes returnType).
  - intros op version returnType arg1Type.
    destruct op; try (left; reflexivity);
      right; eexists; (split; [reflexivity|]); cbn; by rewrite Hname.
Qed.

(** X5. The operator mapping can only fail through the sampler-dependent
    texture names: for every operator other than the six texture-sampling
    operators it returns a result for every version, return type and first
    argument, and the first argument's type does not influence that result;
    with a shader version above 100 it returns a result for every operator,
    and so does [slurpOperator] in a Slurper of such a version. *)
Theorem operator_mapping_fails_only_for_sampler_names
    {double : Type} `{Countable double} :
  (∀ op version returnType arg1Type,
     textureSamplingSuffix op = None →
     isOk (glslangOperatorToRValueOperator op version returnType arg1Type) = true) ∧
  (∀ op version returnType arg1Type arg1Type',
     textureSamplingSuffix op = None →
     glslangOperatorToRValueOperator op version returnType arg1Type =
       glslangOperatorToRValueOperator op version returnType arg1Type') ∧
  (∀ op version returnType arg1Type,
     (version > 100)%Z →
     isOk (glslangOperatorToRValueOperator op version returnType arg1Type) = true) ∧
  (∀ op returnType arg1Type (s : @Slurper double _ _),
     (mVersion s > 100)%Z →
     isOk (slurpOperator op returnType arg1Type s) = true).
Proof.
  assert (∀ op version returnType arg1Type,
            (version > 100)%Z →
            isOk (glslangOperatorToRValueOperator op version returnType arg1Type) = true)
    as Hversion.
  { intros op version returnType arg1Type Hv.
    destruct op; try reflexivity;
      cbn; unfold textureFunctionNameForSampler;
      by rewrite bool_decide_true by done. }
  split_and!.
  - intros op version returnType arg1Type Hop.
    destruct op; try reflexivity; discriminate Hop.
  - intros op version returnType arg1Type arg1Type' Hop.
    destruct op; try reflexivity; discriminate Hop.
  - exact Hversion.
  - intros op returnType arg1Type s Hv.
    specialize (Hversion op (mVersion s) returnType arg1Type Hv).
    unfold slurpOperator, bind, gets, lift, modify.
    destruct (glslangOperatorToRValueOperator op (mVersion s) returnType arg1Type)
      as [[[tag|name] logged]|p]; [reflexivity| |discriminate Hversion].
    cbn. unfold mFunctionNames_insert.
    by destruct (ByValue.insert name _).
Qed.

(** ** The lowering pass *)

Section Properties.
Context {double : Type} `{Countable double}.

#[local] Abbreviation Slurper := (@Slurper double _ _).
#[local] Abbreviation M := (@M double _ _).
#[local] Abbreviation TIntermNode := (@TIntermNode double).
#[local] Abbreviation TConstUnion := (@TConstUnion double).
#[local] Abbreviation RValue := (@RValue double).
#[local] Abbreviation LiteralRValue := (@LiteralRValue double).
#[local] Abbreviation TIntermAggregateNode := (@TIntermAggregateNode double).

Implicit Types (s : Slurper) (node : TIntermNode) (localSymbols : LocalSymbols).
Implicit Types (sequence : list TIntermNode) (constArray : list TConstUnion).

(** *** Running the monad *)

Lemma bind_Ok {A B} (m : M A) (k : A → M B) s r :
  bind m k s = Ok r ↔ ∃ a s1, m s = Ok (a, s1) ∧ k a s1 = Ok r.
Proof.
  unfold bind. destruct (m s) as [[a s1]|p]; split.
  - eauto.
  - by intros (a' & s1' & [= <- <-] & ?).
  - discriminate.
  - by intros (a' & s1' & [=] & ?).
Qed.

Lemma bind_Fatal {A B} (m : M A) (k : A → M B) s p :
  bind m k s = Fatal p ↔
  m s = Fatal p ∨ ∃ a s1, m s = Ok (a, s1) ∧ k a s1 = Fatal p.
Proof.
  unfold bind. destruct (m s) as [[a s1]|q]; split.
  - eauto.
  - by intros [[=]|(a' & s1' & [= <- <-] & ?)].
  - intros [= ->]. by left.
  - by intros [[= ->]|(a' & s1' & [=] & ?)].
Qed.

Lemma lift_Ok {A} (r : Result A) s a s' : lift r s = Ok (a, s') ↔ r = Ok a ∧ s' = s.
Proof.
  unfold lift. destruct r; split; try (intros [= <- <-]; done);
    try (intros [[= <-] ->]; done); try discriminate; by intros [[=] _].
Qed.

Lemma assertM_Ok cond p s u s' : assertM cond p s = Ok (u, s') ↔ cond = true ∧ s' = s.
Proof.
  unfold assertM, lift. destruct cond, u; cbn; split;
    try (intros [= <-]; done); try (intros [_ ->]; done);
    try discriminate; by intros [[=] _].
Qed.

Lemma assertM_false p s : assertM false p s = Fatal p.
Proof. done. Qed.

Lemma deref_Ok {A} (pointer : option A) s a s' :
  deref pointer s = Ok (a, s') ↔ pointer = Some a ∧ s' = s.
Proof.
  unfold deref, ret, panic. destruct pointer; split;
    try (intros [= <- <-]; done); try (intros [[= <-] ->]; done);
    try discriminate; by intros [[=] _].
Qed.

(** *** The step relations *)

#[global] Instance interned_refl : Reflexive (@interned double _ _).
Proof. intros s. apply rtc_refl. Qed.
#[global] Instance interned_trans : Transitive (@interned double _ _).
Proof. intros s1 s2 s3. apply rtc_trans. Qed.
#[global] Instance later_refl : Reflexive (@later double _ _).
Proof. intros s. apply rtc_refl. Qed.
#[global] Instance later_trans : Transitive (@later double _ _).
Proof. intros s1 s2 s3. apply rtc_trans. Qed.

Lemma interned_later s s' : interned s s' → later s s'.
Proof.
  induction 1 as [|s1 s2 s3 Hstep _ IH]; [done|].
  eapply rtc_l; [|done]. by constructor.
Qed.

(** What one interning step preserves. *)
Record preserved (s s' : Slurper) : Prop := mkPreserved {
  preserved_version : mVersion s' = mVersion s;
  preserved_strings : bv_mMap (mStrings s) ⊆ bv_mMap (mStrings s');
  preserved_types : bv_mMap (mTypes s) ⊆ bv_mMap (mTypes s');
  preserved_globalSymbols : bk_mMap (mGlobalSymbols s) ⊆ bk_mMap (mGlobalSymbols s');
  preserved_rValues : bv_mMap (mRValues s) ⊆ bv_mMap (mRValues s');
  preserved_functionNames : bv_mMap (mFunctionNames s) ⊆ bv_mMap (mFunctionNames s');
  preserved_statementBlocks :
    bv_mMap (mStatementBlocks s) ⊆ bv_mMap (mStatementBlocks s');
  preserved_slog : slog s `prefix_of` slog s';
  preserved_wf : Slurper_wf s → Slurper_wf s';
}.

Lemma preserved_refl s : preserved s s.
Proof. by split. Qed.

Lemma preserved_trans s1 s2 s3 : preserved s1 s2 → preserved s2 s3 → preserved s1 s3.
Proof.
  intros [] []. split; try (by etrans); first [congruence|auto].
Qed.

Lemma wf_insert_by_value {Id Value} `{IdLike Id} `{Countable Value}
    (st : IdStoreByValue Id Value) v :
  (∃ l, ByValue_rep l st) → ∃ l, ByValue_rep l (ByValue.insert v st).2.
Proof. intros [l Hl]. eexists. by apply ByValue_insert_rep. Qed.

Lemma wf_insert_by_key {Id Value} `{IdLike Id} (st : IdStoreByKey Id Value) k v :
  (∃ l, ByKey_rep l st) → ∃ l, ByKey_rep l (ByKey.insert k v st).2.
Proof. intros [l Hl]. eexists. by apply ByKey_insert_rep. Qed.

Lemma intern_step_preserved s s' : intern_step s s' → preserved s s'.
Proof.
  destruct 1; split; cbn; try done;
    try apply ByValue_insert_subseteq; try apply ByKey_insert_subseteq;
    try (by apply prefix_app_r);
    intros (? & ? & ? & ? & ? & ?); split_and!; cbn; try done;
    by (apply wf_insert_by_value || apply wf_insert_by_key).
Qed.

Lemma interned_preserved s s' : interned s s' → preserved s s'.
Proof.
  induction 1 as [|s1 s2 s3 Hstep _ IH]; [apply preserved_refl|].
  eapply preserved_trans; [by apply intern_step_preserved|done].
Qed.

Lemma pass_step_preserved s s' : pass_step s s' → preserved s s'.
Proof.
  destruct 1 as [s s' Hstep| | | |]; [by apply intern_step_preserved|..];
    by split.
Qed.

Lemma later_preserved s s' : later s s' → preserved s s'.
Proof.
  induction 1 as [|s1 s2 s3 Hstep _ IH]; [apply preserved_refl|].
  eapply preserved_trans; [by apply pass_step_preserved|done].
Qed.

(** Lookups survive later steps. *)
Lemma interned_rValues_lookup s s' (value : RValue) id :
  interned s s' →
  bv_mMap (mRValues s) !! value = Some id → bv_mMap (mRValues s') !! value = Some id.
Proof.
  intros Hint%interned_preserved Hlook.
  eapply lookup_weaken; [done|apply Hint].
Qed.

Lemma interned_functionNames_lookup s s' (value : string) id :
  interned s s' →
  bv_mMap (mFunctionNames s) !! value = Some id →
  bv_mMap (mFunctionNames s') !! value = Some id.
Proof.
  intros Hint%interned_preserved Hlook.
  eapply lookup_weaken; [done|apply Hint].
Qed.

Lemma later_rValues_lookup s s' (value : RValue) id :
  later s s' →
  bv_mMap (mRValues s) !! value = Some id → bv_mMap (mRValues s') !! value = Some id.
Proof.
  intros Hlater%later_preserved Hlook.
  eapply lookup_weaken; [done|apply Hlater].
Qed.

Lemma later_functionNames_lookup s s' (value : string) id :
  later s s' →
  bv_mMap (mFunctionNames s) !! value = Some id →
  bv_mMap (mFunctionNames s') !! value = Some id.
Proof.
  intros Hlater%later_preserved Hlook.
  eapply lookup_weaken; [done|apply Hlater].
Qed.

(** Interning leaves the function and global-definition tables alone. *)
Record tables_unchanged (s s' : Slurper) : Prop := mkTablesUnchanged {
  unchanged_definitions : mFunctionDefinitions s' = mFunctionDefinitions s;
  unchanged_prototypes : mFunctionPrototypes s' = mFunctionPrototypes s;
  unchanged_globalsInOrder :
    mGlobalSymbolDefinitionsInOrder s' = mGlobalSymbolDefinitionsInOrder s;
  unchanged_definitionsInOrder :
    mFunctionDefinitionsInOrder s' = mFunctionDefinitionsInOrder s;
}.

Lemma interned_tables_unchanged s s' : interned s s' → tables_unchanged s s'.
Proof.
  induction 1 as [|s1 s2 s3 Hstep _ [? ? ? ?]]; [by split|].
  destruct Hstep; split; cbn in *; congruence.
Qed.

Lemma initialSlurper_wf version : Slurper_wf (initialSlurper version : Slurper).
Proof.
  split_and!; cbn; eexists; first [apply ByValue_empty_rep|apply ByKey_empty_rep].
Qed.

(** *** The store primitives *)

Lemma mStrings_insert_Ok value s :
  mStrings_insert value s =
    Ok ((ByValue.insert value (mStrings s)).1,
        set_mStrings (ByValue.insert value (mStrings s)).2 s).
Proof. unfold mStrings_insert. by destruct (ByValue.insert _ _). Qed.

Lemma mTypes_insert_Ok value s :
  mTypes_insert value s =
    Ok ((ByValue.insert value (mTypes s)).1,
        set_mTypes (ByValue.insert value (mTypes s)).2 s).
Proof. unfold mTypes_insert. by destruct (ByValue.insert _ _). Qed.

Lemma mGlobalSymbols_insert_Ok key value s :
  mGlobalSymbols_insert key value s =
    Ok ((ByKey.insert key value (mGlobalSymbols s)).1,
        set_mGlobalSymbols (ByKey.insert key value (mGlobalSymbols s)).2 s).
Proof. unfold mGlobalSymbols_insert. by destruct (ByKey.insert _ _ _). Qed.

Lemma mRValues_insert_Ok value s :
  mRValues_insert value s =
    Ok ((ByValue.insert value (mRValues s)).1,
        set_mRValues (ByValue.insert value (mRValues s)).2 s).
Proof. unfold mRValues_insert. by destruct (ByValue.insert _ _). Qed.

Lemma mFunctionNames_insert_Ok value s :
  mFunctionNames_insert value s =
    Ok ((ByValue.insert value (mFunctionNames s)).1,
        set_mFunctionNames (ByValue.insert value (mFunctionNames s)).2 s).
Proof. unfold mFunctionNames_insert. by destruct (ByValue.insert _ _). Qed.

Lemma mStatementBlocks_insert_Ok value s :
  mStatementBlocks_insert value s =
    Ok ((ByValue.insert value (mStatementBlocks s)).1,
        set_mStatementBlocks (ByValue.insert value (mStatementBlocks s)).2 s).
Proof. unfold mStatementBlocks_insert. by destruct (ByValue.insert _ _). Qed.

(** *** Inversion of a successful run *)

Lemma ret_Ok {A} (a : A) s r : ret a s = Ok r → r = (a, s).
Proof. by intros [= <-]. Qed.

Lemma gets_Ok {A} (f : Slurper → A) s r : gets f s = Ok r → r = (f s, s).
Proof. by intros [= <-]. Qed.

Lemma modify_Ok (f : Slurper → Slurper) s r : modify f s = Ok r → r = (tt, f s).
Proof. by intros [= <-]. Qed.

Lemma insert_Ok_inv {A} (x : A * Slurper) r : Ok x = Ok r → r = x.
Proof. by intros [= <-]. Qed.

(** Decompose every hypothesis that states the success of a monadic
    computation into the successes of its steps. *)
Ltac minv :=
  repeat match goal with
  | H : bind _ _ _ = Ok _ |- _ =>
      let a := fresh "a" in let s := fresh "s" in let H1 := fresh "H" in
      apply bind_Ok in H as (a & s & H1 & H); cbn beta in H
  | H : ret _ _ = Ok _ |- _ => apply ret_Ok in H; simplify_eq
  | H : gets _ _ = Ok _ |- _ => apply gets_Ok in H; simplify_eq
  | H : modify _ _ = Ok _ |- _ => apply modify_Ok in H; simplify_eq
  | H : panic _ _ = Ok _ |- _ => discriminate H
  | H : Fatal _ = Ok _ |- _ => discriminate H
  | H : lift _ _ = Ok (_, _) |- _ => apply lift_Ok in H as [H ->]
  | H : assertM _ _ _ = Ok (_, _) |- _ => apply assertM_Ok in H as [H ->]
  | H : deref _ _ = Ok (_, _) |- _ => apply deref_Ok in H as [H ->]
  | H : mStrings_insert _ _ = Ok _ |- _ =>
      rewrite mStrings_insert_Ok in H; apply insert_Ok_inv in H; simplify_eq
  | H : mTypes_insert _ _ = Ok _ |- _ =>
      rewrite mTypes_insert_Ok in H; apply insert_Ok_inv in H; simplify_eq
  | H : mGlobalSymbols_insert _ _ _ = Ok _ |- _ =>
      rewrite mGlobalSymbols_insert_Ok in H; apply insert_Ok_inv in H; simplify_eq
  | H : mRValues_insert _ _ = Ok _ |- _ =>
      rewrite mRValues_insert_Ok in H; apply insert_Ok_inv in H; simplify_eq
  | H : mFunctionNames_insert _ _ = Ok _ |- _ =>
      rewrite mFunctionNames_insert_Ok in H; apply insert_Ok_inv in H; simplify_eq
  | H : mStatementBlocks_insert _ _ = Ok _ |- _ =>
      rewrite mStatementBlocks_insert_Ok in H; apply insert_Ok_inv in H; simplify_eq
  | H : mGlobalSymbols_get _ _ = Ok _ |- _ =>
      unfold mGlobalSymbols_get in H
  | H : (let '(_, _) := ?p in _) _ = Ok _ |- _ => destruct p eqn:?
  | H : (let '(_, _) := ?p in _) = Ok _ |- _ => destruct p eqn:?
  | H : match ?p with (_, _) => _ end _ = Ok _ |- _ => destruct p eqn:?
  | H : match ?p with (_, _) => _ end = Ok _ |- _ => destruct p eqn:?
  | H : ?x = Ok (?a, ?b) |- _ =>
      is_var x; subst x
  end.

(** Case analysis on the scrutinee of a match of a small type in a
    hypothesis that states a success. *)
Ltac mcase :=
  match goal with
  | H : context [match ?x with _ => _ end] |- _ =>
      lazymatch type of H with
      | _ = Ok _ =>
          let T := type of x in
          lazymatch eval hnf in T with
          | sum _ _ => destruct x eqn:?
          | option _ => destruct x eqn:?
          | bool => destruct x eqn:?
          | prod _ _ => destruct x eqn:?
          | ValueId => destruct x eqn:?
          end
      end
  end.

Ltac minv_cases := minv; repeat (mcase; minv).

(** Prove that a state is reached by interning, from the steps that the
    inversion exposed. *)
Ltac interned_tac :=
  repeat match goal with
  | |- rtc intern_step ?s ?t => change (interned s t)
  | |- interned ?s ?s => reflexivity
  | H : interned ?m ?t |- interned ?s ?t =>
      first [ exact H | transitivity m; [|exact H] ]
  | |- interned _ (set_mStrings _ _) => eapply rtc_r; [|apply intern_string]
  | |- interned _ (set_mTypes _ _) => eapply rtc_r; [|apply intern_type]
  | |- interned _ (set_mGlobalSymbols _ _) => eapply rtc_r; [|apply intern_globalSymbol]
  | |- interned _ (set_mRValues _ _) => eapply rtc_r; [|apply intern_rValue]
  | |- interned _ (set_mFunctionNames _ _) => eapply rtc_r; [|apply intern_functionName]
  | |- interned _ (set_mStatementBlocks _ _) =>
      eapply rtc_r; [|apply intern_statementBlock]
  | |- interned _ (set_slog _ _) => eapply rtc_r; [|apply intern_log]
  end.

(** *** Induction on nodes *)

Section node_induction.
Variable P : TIntermNode → Prop.
Hypothesis P_loop : ∀ getTest getTerminal testFirst getBody,
  (∀ n, getTest = Some n → P n) → (∀ n, getTerminal = Some n → P n) →
  (∀ n, getBody = Some n → P n) →
  P (TIntermLoop getTest getTerminal testFirst getBody).
Hypothesis P_branch : ∀ getFlowOp getExpression,
  (∀ n, getExpression = Some n → P n) → P (TIntermBranch getFlowOp getExpression).
Hypothesis P_switch : ∀ getCondition getBody,
  P getCondition → P getBody → P (TIntermSwitch getCondition getBody).
Hypothesis P_selection : ∀ type getCondition getTrueBlock getFalseBlock,
  P getCondition → (∀ n, getTrueBlock = Some n → P n) →
  (∀ n, getFalseBlock = Some n → P n) →
  P (TIntermSelection type getCondition getTrueBlock getFalseBlock).
Hypothesis P_constant : ∀ type getConstArray,
  P (TIntermConstantUnion type getConstArray).
Hypothesis P_symbol : ∀ type getId getName getAccessName,
  P (TIntermSymbol type getId getName getAccessName).
Hypothesis P_unary : ∀ type getOp getOperand,
  P getOperand → P (TIntermUnary type getOp getOperand).
Hypothesis P_binary : ∀ type getOp getLeft getRight,
  P getLeft → P getRight → P (TIntermBinary type getOp getLeft getRight).
Hypothesis P_aggregate : ∀ type getOp getName getSequence,
  Forall P getSequence → P (TIntermAggregate type getOp getName getSequence).
Hypothesis P_method : ∀ type getObject getMethodName,
  P getObject → P (TIntermMethod type getObject getMethodName).

Definition on_option (rec : ∀ n, P n) (o : option TIntermNode)
    : ∀ n, o = Some n → P n :=
  match o with
  | Some m => λ n E,
      match E in (_ = y) return match y with Some k => P k | None => True end with
      | eq_refl => rec m
      end
  | None => λ n E,
      match E in (_ = y) return match y with Some _ => P n | None => True end with
      | eq_refl => I
      end
  end.

Fixpoint TIntermNode_ind (node : TIntermNode) : P node :=
  let on_option := on_option TIntermNode_ind in
  match node with
  | TIntermLoop a b c d => P_loop a b c d (on_option a) (on_option b) (on_option d)
  | TIntermBranch a b => P_branch a b (on_option b)
  | TIntermSwitch a b => P_switch a b (TIntermNode_ind a) (TIntermNode_ind b)
  | TIntermSelection t a b c =>
      P_selection t a b c (TIntermNode_ind a) (on_option b) (on_option c)
  | TIntermConstantUnion t a => P_constant t a
  | TIntermSymbol t a b c => P_symbol t a b c
  | TIntermUnary t a b => P_unary t a b (TIntermNode_ind b)
  | TIntermBinary t a b c => P_binary t a b c (TIntermNode_ind b) (TIntermNode_ind c)
  | TIntermAggregate t a b l =>
      P_aggregate t a b l
        ((fix all (l : list TIntermNode) : Forall P l :=
            match l with
            | [] => @List.Forall_nil TIntermNode P
            | n :: l' => @List.Forall_cons TIntermNode P n l' (TIntermNode_ind n) (all l')
            end) l)
  | TIntermMethod t a b => P_method t a b (TIntermNode_ind a)
  end.
End node_induction.

(** *** Every lowering function only interns *)

Create HintDb interned_db discriminated.

(** Record, for every successful run among the hypotheses, that its final
    state is reached from its initial state by interning. *)
Ltac derive_interned :=
  repeat match goal with
  | H : _ ?s = Ok (_, ?s') |- _ =>
      lazymatch goal with
      | _ : interned s s' |- _ => fail
      | _ => assert (interned s s') by (eauto 3 with interned_db)
      end
  end.

Ltac interned_auto := minv_cases; derive_interned; interned_tac.

Lemma slurpQualifiers_interned qualifier s r s' :
  slurpQualifiers qualifier s = Ok (r, s') → interned s s'.
Proof.
  unfold slurpQualifiers. destruct (negb _); intros Hrun; interned_auto.
Qed.
#[local] Hint Resolve slurpQualifiers_interned : interned_db.

Lemma slurpType_interned type s r s' :
  slurpType type s = Ok (r, s') → interned s s'.
Proof. unfold slurpType. intros Hrun. interned_auto. Qed.
#[local] Hint Resolve slurpType_interned : interned_db.

Lemma slurpGlobalSymbol_interned type id accessName s r s' :
  slurpGlobalSymbol type id accessName s = Ok (r, s') → interned s s'.
Proof. unfold slurpGlobalSymbol. intros Hrun. interned_auto. Qed.
#[local] Hint Resolve slurpGlobalSymbol_interned : interned_db.

Lemma slurpOperator_interned op returnType arg1Type s r s' :
  slurpOperator op returnType arg1Type s = Ok (r, s') → interned s s'.
Proof.
  unfold slurpOperator. intros Hrun. interned_auto.
Qed.
#[local] Hint Resolve slurpOperator_interned : interned_db.

Lemma slurpConstArray_interned constArray s r s' :
  slurpConstArray constArray s = Ok (r, s') → interned s s'.
Proof.
  revert s r s'. induction constArray as [|value rest IH]; intros s r s' Hrun;
    cbn in Hrun; interned_auto.
Qed.
#[local] Hint Resolve slurpConstArray_interned : interned_db.

Lemma slurpValueFromConstantUnion_interned type constArray s r s' :
  slurpValueFromConstantUnion type constArray s = Ok (r, s') → interned s s'.
Proof.
  unfold slurpValueFromConstantUnion. intros Hrun.
  destruct constArray as [|value [|value2 rest]]; interned_auto.
Qed.
#[local] Hint Resolve slurpValueFromConstantUnion_interned : interned_db.

Lemma slurpValueFromSymbol_interned type id accessName localSymbols s r s' :
  slurpValueFromSymbol type id accessName localSymbols s = Ok (r, s') → interned s s'.
Proof.
  unfold slurpValueFromSymbol. intros Hrun. interned_auto.
Qed.
#[local] Hint Resolve slurpValueFromSymbol_interned : interned_db.

(** The property of a node that the induction proves. *)
Definition value_interns (node : TIntermNode) : Prop :=
  ∀ localSymbols s r s', slurpValue node localSymbols s = Ok (r, s') → interned s s'.

Lemma slurpArguments_interned notTyped sequence :
  Forall value_interns sequence →
  ∀ localSymbols args s r s',
    slurpArguments slurpValue notTyped sequence localSymbols args s = Ok (r, s') →
    interned s s'.
Proof.
  induction 1 as [|arg rest Harg _ IH]; intros localSymbols args s r s' Hrun;
    cbn in Hrun; [interned_auto|].
  destruct (getAsTyped arg); [|minv]. minv.
  apply Harg in H0. apply IH in Hrun. interned_tac.
Qed.

Lemma slurpValue_interned node : value_interns node.
Proof.
  induction node as
    [ | | | type cond trueBlock falseBlock IHc IHt IHf | | | type op operand IH
    | type op lhs rhs IHl IHr | type op name sequence IH | ] using TIntermNode_ind;
    intros localSymbols s r s' Hrun; cbn in Hrun; try (by minv).
  - (* selection *)
    unfold slurpValueFromSelection in Hrun. minv.
    destruct trueBlock as [trueNode|], falseBlock as [falseNode|]; try (by minv).
    destruct (getAsTyped trueNode), (getAsTyped falseNode); try (by minv).
    minv. apply IHc in H0. eapply IHt in H1; [|done]. eapply IHf in H2; [|done].
    interned_tac.
  - (* constant *)
    interned_auto.
  - (* symbol *)
    interned_auto.
  - (* unary *)
    unfold slurpValueFromUnary in Hrun. minv. apply IH in H0. interned_auto.
  - (* binary *)
    unfold slurpValueFromBinary in Hrun.
    destruct op;
      try (minv; apply IHl in H0; apply IHr in H1; by interned_auto).
    destruct rhs; try (by minv). interned_auto.
  - (* aggregate *)
    pose proof (slurpArguments_interned FunctionCallArgumentWasNotTyped _ IH) as Hcall.
    pose proof (slurpArguments_interned OperatorArgumentWasNotTyped _ IH) as Hagg.
    destruct op; try (by minv);
      unfold slurpValueFromFunctionCall, slurpValueFromAggregate in Hrun; minv;
      try (destruct sequence; minv); interned_auto.
Qed.

Lemma slurpValue_Ok_interned node localSymbols s r s' :
  slurpValue node localSymbols s = Ok (r, s') → interned s s'.
Proof. apply slurpValue_interned. Qed.
#[local] Hint Resolve slurpValue_Ok_interned : interned_db.

Definition statements_intern (node : TIntermNode) : Prop :=
  ∀ localSymbols output s r s',
    nodeToStatements node localSymbols output s = Ok (r, s') → interned s s'.

Lemma nodesToStatements_interned sequence :
  Forall statements_intern sequence →
  ∀ localSymbols output s r s',
    nodesToStatements nodeToStatements sequence localSymbols output s = Ok (r, s') →
    interned s s'.
Proof.
  induction 1 as [|child rest Hchild _ IH]; intros localSymbols output s r s' Hrun;
    cbn in Hrun; [interned_auto|].
  minv. apply Hchild in H0. apply IH in Hrun. interned_tac.
Qed.

Lemma typedNodeToStatements_interned node localSymbols output s r s' :
  typedNodeToStatements node localSymbols output s = Ok (r, s') → interned s s'.
Proof. unfold typedNodeToStatements. intros Hrun. interned_auto. Qed.
#[local] Hint Resolve typedNodeToStatements_interned : interned_db.

Lemma slurpLoopTerminal_interned getTerminal localSymbols s r s' :
  slurpLoopTerminal getTerminal localSymbols s = Ok (r, s') → interned s s'.
Proof. unfold slurpLoopTerminal. intros Hrun. interned_auto. Qed.
#[local] Hint Resolve slurpLoopTerminal_interned : interned_db.

(** A statement block of a node whose statements only intern. *)
Lemma slurpStatementBlockRec_interned node :
  statements_intern node →
  ∀ localSymbols s r s',
    slurpStatementBlockRec nodeToStatements node localSymbols s = Ok (r, s') →
    interned s s'.
Proof.
  intros Hnode localSymbols s r s' Hrun.
  unfold slurpStatementBlockRec in Hrun. minv.
  assert (interned s s0) as Hblock.
  { destruct node; try (by eapply Hnode). destruct getOp; by eapply Hnode. }
  interned_tac.
Qed.

Lemma nodeToStatements_interned node : statements_intern node.
Proof.
  induction node as
    [ test terminal testFirst body IHtest IHterminal IHbody
    | flowOp expression IH
    | cond body IHc IHb
    | type cond trueBlock falseBlock IHc IHt IHf | | | type op operand IH
    | type op lhs rhs IHl IHr | type op name sequence IH | ] using TIntermNode_ind;
    intros localSymbols output s r s' Hrun;
    try exact (typedNodeToStatements_interned _ localSymbols output s r s' Hrun).
  - (* loop *)
    cbn in Hrun. destruct test as [test|]; [|by minv]. minv.
    destruct body as [body|]; [|by minv].
    pose proof (slurpStatementBlockRec_interned _ (IHbody _ eq_refl)).
    interned_auto.
  - (* branch *)
    cbn in Hrun. interned_auto.
  - (* switch *)
    cbn in Hrun. pose proof (slurpStatementBlockRec_interned _ IHb).
    destruct (getAsTyped cond); [|by minv]. interned_auto.
  - (* selection *)
    cbn in Hrun. minv. destruct trueBlock as [trueBlock|]; [|by minv].
    pose proof (slurpStatementBlockRec_interned _ (IHt _ eq_refl)).
    destruct falseBlock as [falseBlock|].
    + pose proof (slurpStatementBlockRec_interned _ (IHf _ eq_refl)).
      interned_auto.
    + interned_auto.
  - (* aggregate *)
    destruct op;
      lazymatch type of Hrun with
      | nodeToStatements ?n _ _ _ = _ =>
          try exact (typedNodeToStatements_interned n localSymbols output s r s' Hrun)
      end.
    cbn in Hrun. eapply nodesToStatements_interned; [exact IH|exact Hrun].
Qed.

Lemma nodeToStatements_Ok_interned node localSymbols output s r s' :
  nodeToStatements node localSymbols output s = Ok (r, s') → interned s s'.
Proof. apply nodeToStatements_interned. Qed.
#[local] Hint Resolve nodeToStatements_Ok_interned : interned_db.

Lemma slurpStatementBlock_interned node localSymbols s r s' :
  slurpStatementBlock node localSymbols s = Ok (r, s') → interned s s'.
Proof. apply slurpStatementBlockRec_interned, nodeToStatements_interned. Qed.
#[local] Hint Resolve slurpStatementBlock_interned : interned_db.

Lemma slurpParameters_interned sequence localSymbols parameters s r s' :
  slurpParameters sequence localSymbols parameters s = Ok (r, s') → interned s s'.
Proof.
  revert localSymbols parameters s. induction sequence as [|parameter rest IH];
    intros localSymbols parameters s Hrun; cbn in Hrun; [interned_auto|].
  destruct parameter; try (by minv). minv. apply IH in Hrun. interned_auto.
Qed.
#[local] Hint Resolve slurpParameters_interned : interned_db.

(** *** Unfolding the dispatch on operators *)

Lemma slurpValueFromBinary_unfold
    (sv : TIntermNode → LocalSymbols → M (ValueId * LocalSymbols))
    type op lhs rhs localSymbols :
  slurpValueFromBinary sv type op lhs rhs localSymbols =
    if decide (op = EOpVectorSwizzle) then
      slurpValueFromBinary sv type EOpVectorSwizzle lhs rhs localSymbols
    else
      bind (sv lhs localSymbols) (λ '(lhsId, localSymbols),
      bind (sv rhs localSymbols) (λ '(rhsId, localSymbols),
      bind (deref (getAsTyped lhs)) (λ leftType,
      bind (slurpOperator op type (Some leftType)) (λ op,
      bind (mRValues_insert (RValueEvaluable (mkEvaluableRValue op [lhsId; rhsId])))
        (λ id, ret (ValueRValue id, localSymbols)))))).
Proof.
  destruct op; try reflexivity. by rewrite decide_False.
Qed.

Lemma slurpValue_aggregate_unfold type op name sequence localSymbols :
  slurpValue (TIntermAggregate type op name sequence) localSymbols =
    if decide (op ∈ [EOpFunction; EOpLinkerObjects; EOpParameters; EOpSequence]) then
      panic CannotConvertToStatement
    else if decide (op = EOpFunctionCall) then
      slurpValueFromFunctionCall slurpValue name sequence localSymbols
    else slurpValueFromAggregate slurpValue type op sequence localSymbols.
Proof.
  destruct op; try reflexivity.
  rewrite decide_False; [by rewrite decide_False|].
  rewrite !elem_of_cons, elem_of_nil. by intros [|[|[|[|]]]].
Qed.

(** A node that is not a symbol lowers to an [RValueId]. *)
Lemma slurpValue_rvalue node localSymbols s v localSymbols' s' :
  getAsSymbolNode node = false →
  slurpValue node localSymbols s = Ok (v, localSymbols', s') →
  ∃ id, v = ValueRValue id.
Proof.
  intros Hsym Hrun. destruct node; try discriminate Hsym; cbn in Hrun;
    try (by minv).
  - unfold slurpValueFromSelection in Hrun. minv_cases; eauto.
  - unfold slurpValueFromConstantUnion in Hrun. minv.
    destruct getConstArray as [|? [|? ?]]; minv; eauto.
  - unfold slurpValueFromUnary in Hrun. minv. eauto.
  - rewrite slurpValueFromBinary_unfold in Hrun. case_decide; [subst getOp|].
    + cbn in Hrun. destruct node2; minv. eauto.
    + minv. eauto.
  - change (slurpValue (TIntermAggregate type getOp getName getSequence) localSymbols s =
              Ok (v, localSymbols', s')) in Hrun.
    rewrite slurpValue_aggregate_unfold in Hrun.
    repeat case_decide; [by minv| |];
      unfold slurpValueFromFunctionCall, slurpValueFromAggregate in Hrun;
      minv; eauto.
Qed.

(** *** The local symbols only grow *)

#[global] Instance locals_grow_refl : Reflexive locals_grow.
Proof. intros ls. apply rtc_refl. Qed.
#[global] Instance locals_grow_trans : Transitive locals_grow.
Proof. intros l1 l2 l3. apply rtc_trans. Qed.

Lemma locals_grow_insert key value localSymbols :
  locals_grow localSymbols (ByKey.insert key value localSymbols).2.
Proof. apply rtc_once. by exists key, value. Qed.

(** A store of local symbols that is empty after a run of inserts was
    never inserted into. *)
Lemma locals_grow_empty localSymbols localSymbols' :
  locals_grow localSymbols localSymbols' →
  ByKey.isEmpty localSymbols' = true → localSymbols' = localSymbols.
Proof.
  induction 1 as [|l1 l2 l3 (key & value & ->) _ IH]; [done|].
  intros Hempty. specialize (IH Hempty). subst l3.
  unfold ByKey.insert in *. destruct (bk_mMap l1 !! key) eqn:E; [done|].
  apply bool_decide_eq_true in Hempty. cbn in Hempty.
  by apply insert_non_empty in Hempty.
Qed.

Create HintDb locals_db discriminated.

Ltac derive_locals :=
  repeat match goal with
  | H : _ ?ls ?s = Ok (_, ?ls', _) |- _ =>
      lazymatch goal with
      | _ : locals_grow ls ls' |- _ => fail
      | _ => assert (locals_grow ls ls') by (eauto 3 with locals_db)
      end
  end.

Ltac locals_tac :=
  repeat match goal with
  | |- rtc locals_step ?l ?t => change (locals_grow l t)
  | |- locals_grow ?l ?l => reflexivity
  | H : locals_grow ?m ?t |- locals_grow ?l ?t =>
      first [ exact H | transitivity m; [|exact H] ]
  | |- locals_grow _ (ByKey.insert _ _ _).2 =>
      etrans; [|apply locals_grow_insert]
  end.

Ltac locals_auto := minv_cases; derive_locals; locals_tac.

Lemma slurpValueFromSymbol_locals type id accessName localSymbols s v localSymbols' s' :
  slurpValueFromSymbol type id accessName localSymbols s = Ok (v, localSymbols', s') →
  locals_grow localSymbols localSymbols'.
Proof.
  unfold slurpValueFromSymbol. intros Hrun. minv_cases; try reflexivity.
  match goal with
  | E : ByKey.insert _ _ _ = (_, _) |- _ =>
      apply (f_equal snd) in E; cbn [snd] in E; rewrite <- E
  end.
  apply locals_grow_insert.
Qed.
#[local] Hint Resolve slurpValueFromSymbol_locals : locals_db.

Definition value_grows_locals (node : TIntermNode) : Prop :=
  ∀ localSymbols s v localSymbols' s',
    slurpValue node localSymbols s = Ok (v, localSymbols', s') →
    locals_grow localSymbols localSymbols'.

Lemma slurpArguments_locals notTyped sequence :
  Forall value_grows_locals sequence →
  ∀ localSymbols args s r localSymbols' s',
    slurpArguments slurpValue notTyped sequence localSymbols args s =
      Ok (r, localSymbols', s') →
    locals_grow localSymbols localSymbols'.
Proof.
  induction 1 as [|arg rest Harg _ IH]; intros localSymbols args s r ls' s' Hrun;
    cbn in Hrun; [by minv|].
  destruct (getAsTyped arg); [|by minv]. minv. unfold value_grows_locals in Harg.
  match goal with
  | H1 : slurpValue arg _ _ = Ok _ |- _ =>
      apply Harg in H1; apply IH in Hrun; etrans; [exact H1|exact Hrun]
  end.
Qed.

Lemma slurpValue_locals node : value_grows_locals node.
Proof.
  induction node as
    [ | | | type cond trueBlock falseBlock IHc IHt IHf | | | type op operand IH
    | type op lhs rhs IHl IHr | type op name sequence IH | ] using TIntermNode_ind;
    intros localSymbols s v localSymbols' s' Hrun; try (cbn in Hrun; by minv).
  - (* selection *)
    cbn in Hrun. unfold slurpValueFromSelection in Hrun. minv.
    destruct trueBlock as [trueNode|], falseBlock as [falseNode|]; try (by minv).
    specialize (IHt _ eq_refl). specialize (IHf _ eq_refl).
    unfold value_grows_locals in *. locals_auto.
  - (* symbol *)
    exact (slurpValueFromSymbol_locals _ _ _ _ _ _ _ _ Hrun).
  - (* unary *)
    cbn in Hrun. unfold slurpValueFromUnary in Hrun.
    unfold value_grows_locals in *. locals_auto.
  - (* binary *)
    cbn in Hrun. rewrite slurpValueFromBinary_unfold in Hrun.
    case_decide; [subst op; cbn in Hrun; destruct rhs; minv; reflexivity|].
    unfold value_grows_locals in *. locals_auto.
  - (* aggregate *)
    rewrite slurpValue_aggregate_unfold in Hrun.
    pose proof (slurpArguments_locals FunctionCallArgumentWasNotTyped _ IH) as Hcall.
    pose proof (slurpArguments_locals OperatorArgumentWasNotTyped _ IH) as Hagg.
    repeat case_decide; [by minv| |];
      unfold slurpValueFromFunctionCall, slurpValueFromAggregate in Hrun; minv;
      repeat match goal with p : (_ * _)%type |- _ => destruct p end;
      match goal with
      | H1 : slurpArguments _ _ _ _ _ _ = Ok _ |- _ =>
          first [apply Hcall in H1|apply Hagg in H1]
      end; minv_cases; done.
Qed.

Lemma slurpValue_Ok_locals node localSymbols s v localSymbols' s' :
  slurpValue node localSymbols s = Ok (v, localSymbols', s') →
  locals_grow localSymbols localSymbols'.
Proof. apply slurpValue_locals. Qed.

(** *** The passes over the root children *)

Lemma slurpFunctionDefinition_Ok (node : TIntermAggregateNode) s u s' :
  slurpFunctionDefinition node s = Ok (u, s') →
  later s s' ∧
  mGlobalSymbolDefinitionsInOrder s' = mGlobalSymbolDefinitionsInOrder s ∧
  ∃ functionId,
    bv_mMap (mFunctionNames s') !! aggregateName node = Some functionId ∧
    ((isPrototypeNode node ∧
      mFunctionPrototypes s' = {[functionId]} ∪ mFunctionPrototypes s ∧
      mFunctionDefinitions s' = mFunctionDefinitions s ∧
      mFunctionDefinitionsInOrder s' = mFunctionDefinitionsInOrder s) ∨
     (isDefinitionNode node ∧
      mFunctionPrototypes s' = mFunctionPrototypes s ∧
      (∃ definition,
         mFunctionDefinitions s' = <[functionId := definition]> (mFunctionDefinitions s) ∧
         definition_name definition = functionId) ∧
      mFunctionDefinitionsInOrder s' = mFunctionDefinitionsInOrder s ++ [functionId])).
Proof.
  unfold slurpFunctionDefinition. intros Hrun. minv.
  destruct (getAsAggregate _) as [parametersNode|]; [|by minv]. minv.
  set (names := ByValue.insert (aggregateName node) (mFunctionNames s)) in *.
  set (s1 := set_mFunctionNames names.2 s) in *.
  assert (interned s s1) as Hs1 by (subst s1 names; interned_tac).
  assert (bv_mMap (mFunctionNames s1) !! aggregateName node = Some names.1) as Hname
    by (subst s1 names; cbn; apply ByValue_insert_lookup).
  destruct (length (aggregateSequence node) =? 1)%nat eqn:Hlen.
  - apply Nat.eqb_eq in Hlen. minv. split_and!.
    + etrans; [by apply interned_later|]. apply rtc_once. apply pass_prototype.
    + done.
    + exists names.1. split; [done|]. left. by split_and!.
  - apply Nat.eqb_neq in Hlen. minv_cases. derive_interned.
    match goal with
    | Hb : slurpStatementBlock _ _ ?sb = Ok (_, _, ?sf) |- _ =>
        assert (interned s1 sf) as Hsf by interned_tac
    end.
    pose proof (interned_tables_unchanged _ _ Hsf) as [Hd Hp Hg Ho].
    pose proof (interned_tables_unchanged _ _ Hs1) as [Hd1 Hp1 Hg1 Ho1].
    split_and!.
    + etrans; [by apply interned_later|].
      etrans; [by apply interned_later|].
      eapply rtc_l; [apply pass_definition|]. apply rtc_once.
      apply pass_definitionInOrder.
    + cbn. congruence.
    + exists names.1. split.
      * cbn. eapply interned_functionNames_lookup; [exact Hsf|exact Hname].
      * right. split_and!.
        -- unfold isDefinitionNode.
           match goal with
           | Ha : _ || _ = true |- _ => cbn in Ha; by apply Nat.eqb_eq in Ha
           end.
        -- cbn. congruence.
        -- eexists. split; [cbn; by rewrite Hd, Hd1|done].
        -- cbn. by rewrite Ho, Ho1.
Qed.

(** The loop over the function nodes. *)
Lemma forEach_slurpFunctionDefinition_Ok (nodes : list TIntermAggregateNode) s u s' :
  forEach slurpFunctionDefinition nodes s = Ok (u, s') →
  later s s' ∧
  mGlobalSymbolDefinitionsInOrder s' = mGlobalSymbolDefinitionsInOrder s ∧
  (∀ fn : TIntermAggregateNode,
     fn ∈ nodes → is_Some (bv_mMap (mFunctionNames s') !! aggregateName fn)) ∧
  (∀ functionId,
     functionId ∈ mFunctionPrototypes s' ↔
     functionId ∈ mFunctionPrototypes s ∨
     ∃ fn : TIntermAggregateNode,
       fn ∈ nodes ∧ isPrototypeNode fn ∧
       bv_mMap (mFunctionNames s') !! aggregateName fn = Some functionId) ∧
  (∀ functionId,
     functionId ∈ dom (mFunctionDefinitions s') ↔
     functionId ∈ dom (mFunctionDefinitions s) ∨
     ∃ fn : TIntermAggregateNode,
       fn ∈ nodes ∧ isDefinitionNode fn ∧
       bv_mMap (mFunctionNames s') !! aggregateName fn = Some functionId) ∧
  ((∀ functionId definition,
      mFunctionDefinitions s !! functionId = Some definition →
      definition_name definition = functionId) →
   ∀ functionId definition,
     mFunctionDefinitions s' !! functionId = Some definition →
     definition_name definition = functionId) ∧
  ∃ functionIds,
    mFunctionDefinitionsInOrder s' = mFunctionDefinitionsInOrder s ++ functionIds ∧
    Forall2 (λ (fn : TIntermAggregateNode) functionId,
               bv_mMap (mFunctionNames s') !! aggregateName fn = Some functionId)
      (filter isDefinitionNode nodes) functionIds.
Proof.
  revert s. induction nodes as [|node nodes IH]; intros s Hrun; cbn in Hrun.
  - minv. split_and!; try done.
    + by intros fn ?%elem_of_nil.
    + intros functionId. split; [by left|].
      by intros [?|(node & ?%elem_of_nil & _)].
    + intros functionId. split; [by left|].
      by intros [?|(node & ?%elem_of_nil & _)].
    + exists []. split; [by rewrite app_nil_r|constructor].
  - minv.
    match goal with
    | H1 : slurpFunctionDefinition node s = Ok (_, ?sm) |- _ =>
        apply slurpFunctionDefinition_Ok in H1
          as (Hlater1 & Hglobals1 & functionId1 & Hname1 & Hcases);
        rename sm into s1
    end.
    apply IH in Hrun
      as (Hlater & Hglobals & Hinterned & Hprotos & Hdefs & Hkeys & ids & Horder & Hids).
    assert (bv_mMap (mFunctionNames s') !! aggregateName node = Some functionId1) as Hname
      by (by eapply later_functionNames_lookup).
    split_and!.
    + by etrans.
    + congruence.
    + intros fn [->|Hfn]%elem_of_cons; [by eexists|by apply Hinterned].
    + intros functionId. rewrite Hprotos.
      destruct Hcases as [(Hproto & -> & _)|(Hdef & -> & _)].
      * rewrite elem_of_union, elem_of_singleton. split.
        -- intros [[->|?]|(n & Hn & ? & ?)]; [right|by left|right].
           ++ exists node. split_and!; [by left|done|done].
           ++ exists n. split_and!; [by right|done|done].
        -- intros [?|(n & [->|Hn]%elem_of_cons & Hp & Hlook)].
           ++ left. by right.
           ++ left. left. congruence.
           ++ right. by exists n.
      * split.
        -- intros [?|(n & Hn & ? & ?)]; [by left|right].
           exists n. split_and!; [by right|done|done].
        -- intros [?|(n & [->|Hn]%elem_of_cons & Hp & Hlook)]; [by left| |].
           ++ unfold isPrototypeNode, isDefinitionNode in *. lia.
           ++ right. by exists n.
    + intros functionId. rewrite Hdefs.
      destruct Hcases as [(Hproto & _ & -> & _)|(Hdef & _ & (def & -> & _) & _)].
      * split.
        -- intros [?|(n & Hn & ? & ?)]; [by left|right].
           exists n. split_and!; [by right|done|done].
        -- intros [?|(n & [->|Hn]%elem_of_cons & Hp & Hlook)]; [by left| |].
           ++ unfold isPrototypeNode, isDefinitionNode in *. lia.
           ++ right. by exists n.
      * rewrite dom_insert, elem_of_union, elem_of_singleton. split.
        -- intros [[->|?]|(n & Hn & ? & ?)]; [right|by left|right].
           ++ exists node. split_and!; [by left|done|done].
           ++ exists n. split_and!; [by right|done|done].
        -- intros [?|(n & [->|Hn]%elem_of_cons & Hp & Hlook)].
           ++ left. by right.
           ++ left. left. congruence.
           ++ right. by exists n.
    + intros Hkeys0. apply Hkeys.
      destruct Hcases as [(_ & _ & -> & _)|(_ & _ & (def & -> & Hdefname) & _)];
        [done|].
      intros functionId definition.
      destruct (decide (functionId = functionId1)) as [->|Hne].
      * rewrite lookup_insert_eq. by intros [= <-].
      * rewrite lookup_insert_ne by done. apply Hkeys0.
    + destruct Hcases as [(Hproto & _ & _ & Ho)|(Hdef & _ & _ & Ho)].
      * exists ids. split; [by rewrite Horder, Ho|].
        rewrite filter_cons_False; [done|].
        unfold isPrototypeNode, isDefinitionNode in *. lia.
      * exists (functionId1 :: ids). split.
        -- rewrite Horder, Ho. by rewrite <- app_assoc.
        -- rewrite filter_cons_True by done. by constructor.
Qed.

Lemma sortChildren_Ok (children : list TIntermNode) sorted result :
  sortChildren children sorted = Ok result →
  linkerObjectNodes result =
    linkerObjectNodes sorted ++ childrenWithOp isLinkerObjects children ∧
  sequenceNodes result = sequenceNodes sorted ++ childrenWithOp isSequence children ∧
  functionNodes result = functionNodes sorted ++ childrenWithOp isFunction children.
Proof.
  revert sorted. induction children as [|child children IH]; intros sorted Hrun;
    cbn in Hrun.
  - injection Hrun as <-. unfold childrenWithOp. cbn. by rewrite !app_nil_r.
  - unfold childrenWithOp. cbn [omap list_omap].
    destruct (getAsAggregate child) as [node|]; [|discriminate].
    destruct (aggregateOp node) eqn:Hop; try discriminate;
      apply IH in Hrun as (-> & -> & ->); cbn;
      by rewrite <- ?app_assoc.
Qed.

Lemma slurpLinkerObject_interned child s u s' :
  slurpLinkerObject child s = Ok (u, s') → interned s s'.
Proof. unfold slurpLinkerObject. intros Hrun. destruct child; interned_auto. Qed.
#[local] Hint Resolve slurpLinkerObject_interned : interned_db.

Lemma forEach_interned {A} (f : A → M unit) (l : list A) :
  (∀ x s u s', f x s = Ok (u, s') → interned s s') →
  ∀ s u s', forEach f l s = Ok (u, s') → interned s s'.
Proof.
  intros Hf. induction l as [|x l IH]; intros s u s' Hrun; cbn in Hrun; minv;
    [reflexivity|].
  match goal with
  | H1 : f x s = Ok _ |- _ => apply Hf in H1; apply IH in Hrun; by etrans
  end.
Qed.

(** The lowering of one global initializer. *)
Lemma slurpGlobalSymbolDefinition_binary_unfold
    type op (lhs rhs : TIntermNode) localSymbols :
  slurpGlobalSymbolDefinition (TIntermBinary type op lhs rhs) localSymbols =
    if decide (op = EOpAssign) then
      slurpGlobalSymbolDefinition (TIntermBinary type EOpAssign lhs rhs) localSymbols
    else panic UnhandledChildOfLinkerObjectsNode.
Proof. destruct op; try reflexivity. by rewrite decide_False. Qed.

Lemma slurpGlobalSymbolDefinition_Ok child localSymbols s localSymbols' s' :
  slurpGlobalSymbolDefinition child localSymbols s = Ok (localSymbols', s') →
  ∃ type symbolType id name accessName right globalSymbolId s1 initialValue s2,
    child = TIntermBinary type EOpAssign
              (TIntermSymbol symbolType id name accessName) right ∧
    slurpGlobalSymbol symbolType id accessName s = Ok (globalSymbolId, s1) ∧
    slurpValue right localSymbols s1 = Ok (initialValue, localSymbols', s2) ∧
    ByKey.isEmpty localSymbols' = true ∧
    s' = set_mGlobalSymbolDefinitionsInOrder
           (mGlobalSymbolDefinitionsInOrder s2 ++ [(globalSymbolId, initialValue)]) s2 ∧
    mGlobalSymbolDefinitionsInOrder s' =
      mGlobalSymbolDefinitionsInOrder s ++ [(globalSymbolId, initialValue)] ∧
    mFunctionPrototypes s' = mFunctionPrototypes s ∧
    mFunctionDefinitions s' = mFunctionDefinitions s ∧
    mFunctionDefinitionsInOrder s' = mFunctionDefinitionsInOrder s ∧
    later s s'.
Proof.
  intros Hrun. destruct child; try (by cbn in Hrun).
  rewrite slurpGlobalSymbolDefinition_binary_unfold in Hrun.
  case_decide; [subst getOp|by minv].
  destruct child1; try (by cbn in Hrun). cbn in Hrun. minv.
  repeat match goal with p : (_ * _)%type |- _ => destruct p end.
  match goal with
  | Hg : slurpGlobalSymbol _ _ _ s = Ok (_, ?sa),
    Hv : slurpValue _ _ ?sa = Ok (_, _, ?sb) |- _ =>
      pose proof (slurpGlobalSymbol_interned _ _ _ _ _ _ Hg) as Hi1;
      pose proof (slurpValue_Ok_interned _ _ _ _ _ Hv) as Hi2;
      assert (interned s sb) as Hi by (by etrans);
      pose proof (interned_tables_unchanged _ _ Hi) as [Hd Hp Hgl Ho]
  end.
  eexists _, _, _, _, _, _, _, _, _, _.
  split_and!; try done; cbn; try congruence.
  etrans; [by apply interned_later|]. apply rtc_once.
  apply pass_globalDefinitionInOrder.
Qed.

(** The loop over the initializers of one sequence node, and over all
    sequence nodes: every initializer starts in the empty scope. *)
Lemma forEach_app {A} (f : A → M unit) (l1 l2 : list A) s s1 s' :
  forEach f l1 s = Ok (tt, s1) → forEach f l2 s1 = Ok (tt, s') →
  forEach f (l1 ++ l2) s = Ok (tt, s').
Proof.
  revert s. induction l1 as [|x l1 IH]; intros s H1 H2; cbn in *.
  - by minv.
  - minv. apply bind_Ok. eexists _, _. split; [done|]. by apply IH.
Qed.

Record initializers_run (children : list TIntermNode) (s s' : Slurper) : Prop :=
  mkInitializersRun {
    run_in_empty_scope :
      forEach slurpGlobalSymbolDefinitionInEmptyScope children s = Ok (tt, s');
    run_shapes : Forall isSymbolAssignment children;
    run_appended :
      ∃ definitions,
        mGlobalSymbolDefinitionsInOrder s' =
          mGlobalSymbolDefinitionsInOrder s ++ definitions ∧
        length definitions = length children;
    run_prototypes : mFunctionPrototypes s' = mFunctionPrototypes s;
    run_definitions : mFunctionDefinitions s' = mFunctionDefinitions s;
    run_definitionsInOrder :
      mFunctionDefinitionsInOrder s' = mFunctionDefinitionsInOrder s;
    run_later : later s s';
  }.

Lemma initializers_run_nil s : initializers_run [] s s.
Proof.
  split; try done; try (by constructor). exists []. by rewrite app_nil_r.
Qed.

Lemma initializers_run_app l1 l2 s s1 s' :
  initializers_run l1 s s1 → initializers_run l2 s1 s' →
  initializers_run (l1 ++ l2) s s'.
Proof.
  intros [R1 S1 (d1 & A1 & L1) P1 D1 O1 T1] [R2 S2 (d2 & A2 & L2) P2 D2 O2 T2].
  split; try congruence.
  - by eapply forEach_app.
  - by apply Forall_app.
  - exists (d1 ++ d2). split.
    + by rewrite A2, A1, app_assoc.
    + rewrite !length_app. lia.
  - by etrans.
Qed.

Lemma forEachWith_slurpGlobalSymbolDefinition_Ok children s localSymbols' s' :
  forEachWith slurpGlobalSymbolDefinition children ByKey.empty s =
    Ok (localSymbols', s') →
  localSymbols' = ByKey.empty ∧ initializers_run children s s'.
Proof.
  revert s. induction children as [|child children IH]; intros s Hrun; cbn in Hrun.
  - minv. split; [done|apply initializers_run_nil].
  - minv.
    match goal with
    | H1 : slurpGlobalSymbolDefinition child _ s = Ok (?l1, ?sm) |- _ =>
        pose proof H1 as Hstep;
        apply slurpGlobalSymbolDefinition_Ok in H1
          as (type & symbolType & id & name & accessName & right & gid & s1 &
              value & s2 & -> & Hglobal & Hvalue & Hempty & -> & Happ & Hp & Hd & Ho
              & Hlater);
        assert (l1 = ByKey.empty) as ->
          by (eapply locals_grow_empty; [by eapply slurpValue_Ok_locals|done])
    end.
    apply IH in Hrun as [-> Hrest]. split; [done|].
    eapply (initializers_run_app [_] children); [|exact Hrest].
    split; try done.
    + cbn. unfold slurpGlobalSymbolDefinitionInEmptyScope.
      apply bind_Ok. eexists _, _. split; [|reflexivity].
      apply bind_Ok. eexists _, _. split; [exact Hstep|reflexivity].
    + constructor; [|constructor]. by eexists _, _, _, _, _, _.
    + by exists [(gid, value)].
Qed.

Lemma forEachWith_sequences_Ok (sequences : list TIntermAggregateNode) s
    localSymbols' s' :
  forEachWith
    (λ sq : TIntermAggregateNode,
       forEachWith slurpGlobalSymbolDefinition (aggregateSequence sq))
    sequences ByKey.empty s = Ok (localSymbols', s') →
  localSymbols' = ByKey.empty ∧
  initializers_run (concat (aggregateSequence <$> sequences)) s s'.
Proof.
  revert s. induction sequences as [|sq sequences IH]; intros s Hrun;
    cbn in Hrun.
  - minv. split; [done|apply initializers_run_nil].
  - minv.
    match goal with
    | H1 : forEachWith slurpGlobalSymbolDefinition _ _ s = Ok _ |- _ =>
        apply forEachWith_slurpGlobalSymbolDefinition_Ok in H1 as [-> Hfirst]
    end.
    apply IH in Hrun as [-> Hrest]. split; [done|].
    cbn. by eapply initializers_run_app.
Qed.

(** The whole pass. *)
Lemma fromGlsl_Ok (intermediate : TIntermediate) pack :
  fromGlsl intermediate = Ok pack →
  ∃ rootNode root s1 s2 s3,
    getTreeRoot intermediate = Some rootNode ∧
    getAsAggregate rootNode = Some root ∧
    aggregateOp root = EOpSequence ∧
    interned (initialSlurper (getVersion intermediate)) s1 ∧
    initializers_run (globalInitializers (aggregateSequence root)) s1 s2 ∧
    forEach slurpFunctionDefinition
      (childrenWithOp isFunction (aggregateSequence root)) s2 = Ok (tt, s3) ∧
    pack = intoPack s3.
Proof.
  unfold fromGlsl, newSlurper. intros Hrun.
  destruct (getTreeRoot intermediate) as [rootNode|]; [|discriminate].
  cbn in Hrun.
  destruct (slurpFromRoot _ _) as [[[] s3]|] eqn:Hroot; [|discriminate].
  cbn in Hrun. injection Hrun as <-.
  unfold slurpFromRoot in Hroot.
  destruct (getAsAggregate rootNode) as [root|] eqn:Hagg; [|by minv]. minv.
  match goal with
  | Hs : sortChildren _ _ = Ok ?sorted |- _ =>
      apply sortChildren_Ok in Hs as (Hl & Hq & Hf); cbn in Hl, Hq, Hf;
      rewrite ?Hl, ?Hq, ?Hf in *
  end.
  match goal with
  | Hq : forEachWith _ _ _ _ = Ok _ |- _ =>
      apply forEachWith_sequences_Ok in Hq as [-> Hinit]
  end.
  match goal with
  | Hl : forEach _ (childrenWithOp isLinkerObjects _) _ = Ok (_, ?sa) |- _ =>
      eapply forEach_interned in Hl;
        [|intros x sx ux sx' Hx; eapply forEach_interned; [|exact Hx];
          apply slurpLinkerObject_interned]
  end.
  match goal with
  | u : unit |- _ => destruct u
  end.
  eexists _, _, _, _, _. split_and!; try done.
  match goal with
  | Ha : match aggregateOp root with _ => _ end = true |- _ =>
      by destruct (aggregateOp root)
  end.
Qed.

(** *** Operators *)

(** C4. An operator outside the case labels of
    [glslangOperatorToRValueOperator] maps to the placeholder tag [Ternary]
    with one line written to the error log, no operator among the labels
    does, and [slurpOperator] succeeds on it, so the pass continues. An
    operator outside the ten case labels of
    [glslangOperatorToBranchOperator] is fatal there and in the lowering of
    a branch node; the ten labels map to the ten branch tags, and none of
    them is a label of the value-producing mapping. *)
Theorem unrecognized_operator_policy :
  (∀ op version returnType arg1Type,
     op ∉ rvalueOperatorCaseLabels →
     glslangOperatorToRValueOperator op version returnType arg1Type =
       Ok (inl RValueOperator.Ternary, [CannotConvertOperatorToRValueOperator op])) ∧
  (∀ op version returnType arg1Type r logged,
     op ∈ rvalueOperatorCaseLabels →
     glslangOperatorToRValueOperator op version returnType arg1Type = Ok (r, logged) →
     logged = [] ∧ r ≠ inl RValueOperator.Ternary) ∧
  (∀ op returnType arg1Type s,
     op ∉ rvalueOperatorCaseLabels →
     slurpOperator op returnType arg1Type s =
       Ok (inl RValueOperator.Ternary,
           set_slog (slog s ++ [CannotConvertOperatorToRValueOperator op]) s)) ∧
  (∀ op,
     op ∉ branchOperatorCaseLabels →
     glslangOperatorToBranchOperator op = Fatal CannotConvertOperatorToBranchOperator) ∧
  glslangOperatorToBranchOperator <$> branchOperatorCaseLabels = Ok <$> branchOperatorTags ∧
  (∀ op getExpression localSymbols output s,
     op ∉ branchOperatorCaseLabels →
     nodeToStatements (TIntermBranch op getExpression) localSymbols output s =
       Fatal CannotConvertOperatorToBranchOperator) ∧
  (∀ op, op ∈ branchOperatorCaseLabels → op ∉ rvalueOperatorCaseLabels).
Proof.
  split_and!.
  - apply unrecognized_rvalue_operator.
  - intros *. apply recognized_rvalue_operator.
  - intros op returnType arg1Type s Hop.
    unfold slurpOperator, bind, gets, lift, modify, ret.
    by rewrite (unrecognized_rvalue_operator _ _ _ _ Hop).
  - apply unrecognized_branch_operator.
  - reflexivity.
  - intros op getExpression localSymbols output s Hop. cbn.
    unfold bind, lift. by rewrite (unrecognized_branch_operator _ Hop).
  - apply branch_labels_not_rvalue_labels.
Qed.

(** *** Qualifiers *)

Lemma slurpQualifiers_run (q : TQualifier) (s : Slurper) :
  slurpQualifiers q s =
    if String.eqb (qualifierText q) "" then Ok (None, s)
    else Ok (Some (ByValue.insert (qualifierText q) (mStrings s)).1,
             set_mStrings (ByValue.insert (qualifierText q) (mStrings s)).2 s).
Proof.
  unfold slurpQualifiers. destruct (String.eqb _ _); cbn; [done|].
  unfold bind. by rewrite mStrings_insert_Ok.
Qed.

(** C6, as amended. The qualifier text is the concatenation of the present
    qualifiers in the fixed order invariant, flat, noperspective, smooth,
    layout() (no parameter contents), const, then one of
    lowp/mediump/highp, each followed by one space, so the text ends with a
    space. When no qualifier is present the result is absent and nothing
    is interned; otherwise the text is not empty and the result is the id
    under which it is interned. *)
Theorem qualifier_text_is_space_terminated (q : TQualifier) (s : Slurper) :
  qualifierText q = spaceTerminated (presentQualifiers q) ∧
  slurpQualifiers_yields spaceTerminated q s ∧
  (presentQualifiers q = [] ↔ slurpQualifiers q s = Ok (None, s)) ∧
  (presentQualifiers q ≠ [] ↔
     qualifierText q ≠ "" ∧
     ∃ id s', slurpQualifiers q s = Ok (Some id, s') ∧
              bv_mMap (mStrings s') !! qualifierText q = Some id).
Proof.
  unfold slurpQualifiers_yields.
  pose proof (slurpQualifiers_run q s) as Hrun.
  set (r := slurpQualifiers q s) in *. clearbody r.
  destruct q as [[] [] [] [] [] [] []]; cbn in *; subst r;
    (split_and!; [reflexivity|reflexivity|..]);
    try (split; [discriminate|discriminate]);
    try (split; reflexivity);
    try (split; [done|]; by intros [[] _]);
    (split; [intros _|intros _; discriminate]; split; [discriminate|];
     eexists _, _; split; [reflexivity|]; cbn; apply ByValue_insert_lookup).
Qed.

(** *** Constants *)

(** The element literals of a constant array and the arguments that
    [slurpConstArray] returns for them in the final state [s']. *)
Definition literal_arguments s' (constArray : list TConstUnion) (args : list ValueId)
    : Prop :=
  ∃ literals : list LiteralRValue,
    Forall2 (λ value literal, constUnionToLiteralRValue value = Ok literal)
      constArray literals ∧
    Forall2 (λ literal arg,
               ∃ id, arg = ValueRValue id ∧
                     bv_mMap (mRValues s') !! RValueLiteral literal = Some id)
      literals args.

Lemma literal_arguments_interned s s' constArray args :
  interned s s' → literal_arguments s constArray args →
  literal_arguments s' constArray args.
Proof.
  intros Hint (literals & Hlits & Hargs). exists literals. split; [done|].
  eapply Forall2_impl; [exact Hargs|]. intros literal arg (id & -> & Hid).
  exists id. split; [done|]. by eapply interned_rValues_lookup.
Qed.

Lemma slurpConstArray_Ok constArray s args s' :
  slurpConstArray constArray s = Ok (args, s') →
  literal_arguments s' constArray args.
Proof.
  revert s args s'. induction constArray as [|value rest IH]; intros s args s' Hrun;
    cbn in Hrun.
  - minv. exists []. split; constructor.
  - minv. pose proof (slurpConstArray_interned _ _ _ _ H2) as Hint.
    apply IH in H2 as (literals & Hlits & Hargs).
    exists (a :: literals). split; constructor; try done.
    eexists. split; [done|]. eapply interned_rValues_lookup; [exact Hint|].
    cbn. apply ByValue_insert_lookup.
Qed.

Lemma slurpConstArray_total constArray s :
  Forall (λ value, isOk (constUnionToLiteralRValue value) = true) constArray →
  isOk (slurpConstArray constArray s) = true.
Proof.
  intros Hall. revert s. induction Hall as [|value rest Hvalue _ IH]; intros s; [done|].
  cbn. unfold bind at 1. unfold lift.
  destruct (constUnionToLiteralRValue value) as [literal|]; [|done].
  unfold bind at 1. rewrite mRValues_insert_Ok.
  unfold bind at 1. specialize (IH (set_mRValues (ByValue.insert (RValueLiteral literal) (mRValues s)).2 s)).
  by destruct (slurpConstArray rest _) as [[args s']|].
Qed.

(** The lowering of a constant node, element literals as
    [constUnionToLiteralRValue] gives them. *)
Lemma slurpValue_constant_union
    (type : TType) (constArray : list TConstUnion) localSymbols (s : Slurper) :
  let run := slurpValue (TIntermConstantUnion type constArray) localSymbols s in
  match constArray with
  | [] => run = Fatal ConstantUnionValueArrayMustNotBeEmpty
  | [value] =>
      run =
        match constUnionToLiteralRValue value with
        | Ok literal =>
            Ok (ValueRValue (ByValue.insert (RValueLiteral literal) (mRValues s)).1,
                localSymbols,
                set_mRValues (ByValue.insert (RValueLiteral literal) (mRValues s)).2 s)
        | Fatal p => Fatal p
        end
  | _ =>
      (isVector type = false →
         run = Fatal ConstantUnionWithMultipleValuesMustBeAVector) ∧
      (isVector type = true → (4 < length constArray)%nat →
         run = Fatal UnsupportedConstArraySize) ∧
      (∀ r s', run = Ok (r, s') →
         isVector type = true ∧ (2 ≤ length constArray ≤ 4)%nat ∧
         ∃ functionId args id,
           r = (ValueRValue id, localSymbols) ∧
           literal_arguments s' constArray args ∧
           bv_mMap (mFunctionNames s') !! vectorConstructorName (length constArray)
             = Some functionId ∧
           bv_mMap (mRValues s') !!
             RValueEvaluable (mkEvaluableRValue (inr functionId) args) = Some id ∧
           interned s s' ∧
           (Slurper_wf s →
              ByValue.getFinal (mRValues s') !! id =
                Some (RValueEvaluable (mkEvaluableRValue (inr functionId) args)) ∧
              ByValue.getFinal (mFunctionNames s') !! functionId =
                Some (vectorConstructorName (length constArray)))) ∧
      (isVector type = true → (length constArray ≤ 4)%nat →
         Forall (λ value, isOk (constUnionToLiteralRValue value) = true) constArray →
         isOk run = true)
  end.
Proof.
  intros run. destruct constArray as [|value [|value2 rest]].
  - reflexivity.
  - subst run. cbn. unfold bind at 1. unfold bind at 1. unfold lift.
    destruct (constUnionToLiteralRValue value) as [literal|]; [|done].
    unfold bind at 1. by rewrite mRValues_insert_Ok.
  - set (constArray := value :: value2 :: rest) in *.
    assert (run = bind (slurpValueFromConstantUnion type constArray)
                    (λ id, ret (id, localSymbols)) s) as Hrun by reflexivity.
    clearbody run. subst run.
    assert (∀ p, (match length constArray with
                  | 2%nat => Ok "vec2" | 3%nat => Ok "vec3" | 4%nat => Ok "vec4"
                  | _ => Fatal UnsupportedConstArraySize
                  end = Fatal p) → (4 < length constArray)%nat) as Hlarge.
    { intros p. subst constArray. cbn. destruct rest as [|? [|? [|? ?]]]; cbn;
        try discriminate; lia. }
    split_and!.
    + intros Hvec. unfold bind at 1. unfold slurpValueFromConstantUnion. cbn.
      unfold bind at 1. by rewrite Hvec.
    + intros Hvec Hlen. unfold bind at 1. unfold slurpValueFromConstantUnion.
      cbn [constArray]. unfold bind at 1. rewrite Hvec. cbn [assertM assertPrecondition lift].
      unfold bind at 1. unfold lift.
      subst constArray. cbn in Hlen |- *.
      destruct rest as [|? [|? [|? ?]]]; cbn in Hlen |- *; try lia; done.
    + intros r s' Hok. unfold slurpValueFromConstantUnion in Hok. cbn [constArray] in Hok.
      fold constArray in Hok. minv.
      lazymatch goal with
      | Hv : isVector type = true,
        Hn : _ = Ok ?name,
        Hc : slurpConstArray constArray _ = Ok (?args, ?sc) |- _ =>
          rename Hv into Hvec; rename Hn into Hfn; rename Hc into Hca;
          rename name into functionName; rename args into arguments;
          rename sc into s4
      end.
      assert (2 ≤ length constArray ≤ 4)%nat as Hlen.
      { subst constArray. cbn in Hfn |- *.
        destruct rest as [|? [|? [|? ?]]]; cbn in Hfn |- *; try discriminate; lia. }
      assert (functionName = vectorConstructorName (length constArray)) as ->.
      { subst constArray. cbn in Hfn |- *.
        destruct rest as [|? [|? [|? ?]]]; cbn in Hfn |- *; by simplify_eq. }
      pose proof (slurpConstArray_interned _ _ _ _ Hca) as Hint.
      apply slurpConstArray_Ok in Hca as Hargs.
      set (evaluable := RValueEvaluable _).
      set (s2 := set_mRValues _ s4).
      assert (interned s4 s2) as Hs2 by (subst s2; interned_tac).
      assert (interned s s4) as Hs4 by (etrans; [|exact Hint]; interned_tac).
      assert (interned s s2) as Hs by (by transitivity s4).
      assert (bv_mMap (mFunctionNames s2) !! vectorConstructorName (length constArray) =
                Some (ByValue.insert (vectorConstructorName (length constArray))
                        (mFunctionNames s)).1) as Hname.
      { eapply interned_functionNames_lookup; [transitivity s4; [exact Hint|exact Hs2]|].
        cbn. apply ByValue_insert_lookup. }
      assert (bv_mMap (mRValues s2) !! evaluable =
                Some (ByValue.insert evaluable (mRValues s4)).1) as Hvalue.
      { subst s2. cbn. apply ByValue_insert_lookup. }
      split_and!; [done|lia|lia|].
      eexists _, _, _. split_and!; [reflexivity| |exact Hname|exact Hvalue|exact Hs|].
      * eapply literal_arguments_interned; [exact Hs2|exact Hargs].
      * intros Hwf.
        apply (preserved_wf _ _ (interned_preserved _ _ Hs)) in Hwf.
        destruct Hwf as (_ & _ & _ & [lr Hlr] & [lf Hlf] & _).
        split.
        -- by apply (ByValue_getFinal_lookup lr).
        -- by apply (ByValue_getFinal_lookup lf).
    + intros Hvec Hlen Hall.
      unfold bind at 1. unfold slurpValueFromConstantUnion. cbn [constArray].
      fold constArray. unfold bind at 1. rewrite Hvec.
      cbn [assertM assertPrecondition lift].
      unfold bind at 1. unfold lift.
      destruct (match length constArray with
                | 2%nat => Ok "vec2" | 3%nat => Ok "vec3" | 4%nat => Ok "vec4"
                | _ => Fatal UnsupportedConstArraySize
                end) as [functionName|p] eqn:Hname.
      2: { specialize (Hlarge p eq_refl). lia. }
      unfold bind at 1. rewrite mFunctionNames_insert_Ok.
      unfold bind at 1.
      pose proof (slurpConstArray_total constArray
                    (set_mFunctionNames
                       (ByValue.insert functionName (mFunctionNames s)).2 s) Hall) as Htotal.
      destruct (slurpConstArray constArray _) as [[args s1]|]; [|done].
      unfold bind at 1. by rewrite mRValues_insert_Ok.
Qed.

(** The literal that [constUnionToLiteralRValue] returns, kind by kind. *)
Lemma constUnionToLiteralRValue_literal value :
  constUnionToLiteralRValue value =
    match literalOfConstant value with
    | Some literal => Ok literal
    | None =>
        match unsupportedConstant value return Result LiteralRValue with
        | Some p => Fatal p
        | None => Fatal NullDereference
        end
    end.
Proof. by destruct value. Qed.

Lemma literalOfConstant_supported (value : TConstUnion) :
  unsupportedConstant value = None → is_Some (literalOfConstant value).
Proof. destruct value; cbn; intros; by eauto. Qed.

Lemma slurpConstArray_unsupported constArray (i : nat) (value : TConstUnion) p s :
  constArray !! i = Some value → unsupportedConstant value = Some p →
  (∀ (j : nat) (value' : TConstUnion), (j < i)%nat → constArray !! j = Some value' →
     unsupportedConstant value' = None) →
  slurpConstArray constArray s = Fatal p.
Proof.
  revert i s. induction constArray as [|first rest IH]; intros i s Hi Hp Hbefore;
    [done|].
  cbn [slurpConstArray]. unfold bind at 1. unfold lift.
  rewrite constUnionToLiteralRValue_literal. destruct i as [|i]; cbn in Hi.
  - injection Hi as ->. rewrite Hp. by destruct value.
  - destruct (literalOfConstant_supported first) as [literal ->].
    { apply (Hbefore 0%nat); [lia|done]. }
    unfold bind at 1. rewrite mRValues_insert_Ok. unfold bind at 1.
    rewrite (IH i _ Hi Hp); [done|].
    intros j value' Hj Hv. apply (Hbefore (S j)); [lia|done].
Qed.

(** C7. A constant node in expression position. With no value it is
    fatal. With one value it interns the literal of that value: the
    value itself, of its own kind, so [lit(1.0)] for the constant [1.0];
    for a 64-bit integer or a string it is fatal with the panic of that
    kind. With several values it is fatal unless the node is a vector of
    2, 3 or 4 values, and fatal with the panic of the first element that
    is a 64-bit integer or a string. On success the result is the id of an
    [EvaluableRValue] whose operator is the interned function name vec2,
    vec3 or vec4 for that count and whose arguments are the ids of the
    literals of the elements, in element order; and it succeeds whenever
    the node is a vector of at most 4 values none of which is a 64-bit
    integer or a string. *)
Theorem constant_union_lowering
    (type : TType) (constArray : list TConstUnion) localSymbols (s : Slurper) :
  let run := slurpValue (TIntermConstantUnion type constArray) localSymbols s in
  match constArray with
  | [] => run = Fatal ConstantUnionValueArrayMustNotBeEmpty
  | [value] =>
      match literalOfConstant value with
      | Some literal =>
          run =
            Ok (ValueRValue (ByValue.insert (RValueLiteral literal) (mRValues s)).1,
                localSymbols,
                set_mRValues (ByValue.insert (RValueLiteral literal) (mRValues s)).2 s)
      | None => ∃ p, unsupportedConstant value = Some p ∧ run = Fatal p
      end
  | _ =>
      (isVector type = false →
         run = Fatal ConstantUnionWithMultipleValuesMustBeAVector) ∧
      (isVector type = true → (4 < length constArray)%nat →
         run = Fatal UnsupportedConstArraySize) ∧
      (isVector type = true → (length constArray ≤ 4)%nat →
         ∀ (i : nat) (value : TConstUnion) p,
           constArray !! i = Some value → unsupportedConstant value = Some p →
           (∀ (j : nat) (value' : TConstUnion),
              (j < i)%nat → constArray !! j = Some value' →
              unsupportedConstant value' = None) →
           run = Fatal p) ∧
      (∀ r s', run = Ok (r, s') →
         isVector type = true ∧ (2 ≤ length constArray ≤ 4)%nat ∧
         ∃ functionId literals args id,
           r = (ValueRValue id, localSymbols) ∧
           Forall2 (λ value literal, literalOfConstant value = Some literal)
             constArray literals ∧
           Forall2 (λ literal arg,
                      ∃ argId, arg = ValueRValue argId ∧
                               bv_mMap (mRValues s') !! RValueLiteral literal = Some argId)
             literals args ∧
           bv_mMap (mFunctionNames s') !! vectorConstructorName (length constArray)
             = Some functionId ∧
           bv_mMap (mRValues s') !!
             RValueEvaluable (mkEvaluableRValue (inr functionId) args) = Some id ∧
           interned s s' ∧
           (Slurper_wf s →
              ByValue.getFinal (mRValues s') !! id =
                Some (RValueEvaluable (mkEvaluableRValue (inr functionId) args)) ∧
              ByValue.getFinal (mFunctionNames s') !! functionId =
                Some (vectorConstructorName (length constArray)) ∧
              Forall2 (λ literal arg,
                         ∃ argId, arg = ValueRValue argId ∧
                                  ByValue.getFinal (mRValues s') !! argId =
                                    Some (RValueLiteral literal))
                literals args)) ∧
      (isVector type = true → (length constArray ≤ 4)%nat →
         Forall (λ value, unsupportedConstant value = None) constArray →
         isOk run = true)
  end.
Proof.
  intros run.
  pose proof (slurpValue_constant_union type constArray localSymbols s) as Hraw.
  cbv zeta in Hraw. fold run in Hraw.
  destruct constArray as [|value [|value2 rest]].
  - exact Hraw.
  - rewrite constUnionToLiteralRValue_literal in Hraw.
    destruct value; cbn [literalOfConstant unsupportedConstant] in *;
      first [exact Hraw|eexists; split; [reflexivity|exact Hraw]].
  - destruct Hraw as (Hscalar & Hlarge & Hok & Htotal).
    set (constArray := value :: value2 :: rest) in *.
    split_and!; [exact Hscalar|exact Hlarge| | |].
    + intros Hvec Hlen i element p Hi Hp Hbefore. subst run.
      change (bind (slurpValueFromConstantUnion type constArray)
                (λ id, ret (id, localSymbols)) s = Fatal p).
      unfold bind at 1. unfold slurpValueFromConstantUnion. cbn [constArray].
      fold constArray. unfold bind at 1. rewrite Hvec.
      cbn [assertM assertPrecondition lift].
      unfold bind at 1. unfold lift.
      destruct (match length constArray with
                | 2%nat => Ok "vec2" | 3%nat => Ok "vec3" | 4%nat => Ok "vec4"
                | _ => Fatal UnsupportedConstArraySize
                end) as [functionName|q] eqn:Hname.
      2:{ exfalso. subst constArray. cbn in Hname, Hlen.
          destruct rest as [|? [|? [|? ?]]]; cbn in Hname, Hlen;
            try discriminate Hname; lia. }
      unfold bind at 1. rewrite mFunctionNames_insert_Ok. unfold bind at 1.
      by rewrite (slurpConstArray_unsupported constArray i element p _ Hi Hp Hbefore).
    + intros r s' Hrun.
      destruct (Hok r s' Hrun)
        as (Hvec & Hlen & functionId & args & id & -> & (literals & Hlits & Hargs) &
            Hname & Hvalue & Hint & Hfinal).
      split; [exact Hvec|]. split; [exact Hlen|].
      exists functionId, literals, args, id.
      split_and!; [done| |exact Hargs|exact Hname|exact Hvalue|exact Hint|].
      * eapply Forall2_impl; [exact Hlits|]. intros element literal Hliteral.
        cbn beta in Hliteral. rewrite constUnionToLiteralRValue_literal in Hliteral.
        destruct (literalOfConstant element); [by injection Hliteral as ->|].
        by destruct (unsupportedConstant element).
      * intros Hwf. destruct (Hfinal Hwf) as [Hid Hfn].
        split; [exact Hid|]. split; [exact Hfn|].
        apply (preserved_wf _ _ (interned_preserved _ _ Hint)) in Hwf.
        destruct Hwf as (_ & _ & _ & [lr Hlr] & _).
        eapply Forall2_impl; [exact Hargs|]. intros literal arg (argId & -> & Hl).
        exists argId. split; [done|]. by apply (ByValue_getFinal_lookup lr).
    + intros Hvec Hlen Hall. apply Htotal; [done|done|].
      eapply Forall_impl; [exact Hall|]. intros element Hsupported.
      cbn beta. rewrite constUnionToLiteralRValue_literal.
      by destruct (literalOfConstant_supported element Hsupported) as [literal ->].
Qed.

(** *** Loops *)


(** *** Swizzles *)

(** C10. A vector-swizzle binary node whose component selector is a
    sequence aggregate lowers to the interned zero-argument
    [EvaluableRValue] with operator [VectorSwizzle]: the result depends
    neither on the swizzled expression, which is not lowered, nor on the
    selected components, and the local symbols are untouched. So any two
    such nodes, lowered at any two points of one pass, receive the same
    [RValueId]. *)
Theorem swizzle_lowering :
  (∀ type getLeft selectorType selectorName (components : list TIntermNode)
     localSymbols (s : Slurper),
     slurpValue
       (TIntermBinary type EOpVectorSwizzle getLeft
          (TIntermAggregate selectorType EOpSequence selectorName components))
       localSymbols s =
       Ok (ValueRValue (ByValue.insert swizzleMarker (mRValues s)).1, localSymbols,
           set_mRValues (ByValue.insert swizzleMarker (mRValues s)).2 s)) ∧
  (∀ type1 left1 selectorType1 selectorName1 (components1 : list TIntermNode)
     type2 left2 selectorType2 selectorName2 (components2 : list TIntermNode)
     localSymbols1 localSymbols2 (s1 s2 : Slurper) r1 r2 s1' s2',
     slurpValue
       (TIntermBinary type1 EOpVectorSwizzle left1
          (TIntermAggregate selectorType1 EOpSequence selectorName1 components1))
       localSymbols1 s1 = Ok (r1, s1') →
     later s1' s2 →
     slurpValue
       (TIntermBinary type2 EOpVectorSwizzle left2
          (TIntermAggregate selectorType2 EOpSequence selectorName2 components2))
       localSymbols2 s2 = Ok (r2, s2') →
     r1.1 = r2.1 ∧
     ∃ id, r1.1 = ValueRValue id ∧ bv_mMap (mRValues s2') !! swizzleMarker = Some id).
Proof.
  assert (∀ type getLeft selectorType selectorName (components : list TIntermNode)
            localSymbols (s : Slurper),
            slurpValue
              (TIntermBinary type EOpVectorSwizzle getLeft
                 (TIntermAggregate selectorType EOpSequence selectorName components))
              localSymbols s =
              Ok (ValueRValue (ByValue.insert swizzleMarker (mRValues s)).1, localSymbols,
                  set_mRValues (ByValue.insert swizzleMarker (mRValues s)).2 s)) as Hrun.
  { intros. cbn. unfold bind, assertM, lift. cbn.
    by rewrite mRValues_insert_Ok. }
  split; [exact Hrun|].
  intros type1 left1 selectorType1 selectorName1 components1
    type2 left2 selectorType2 selectorName2 components2
    localSymbols1 localSymbols2 s1 s2 r1 r2 s1' s2' Hrun1 Hlater Hrun2.
  rewrite Hrun in Hrun1, Hrun2.
  injection Hrun1 as <- <-. injection Hrun2 as <- <-.
  pose proof (ByValue_insert_lookup (mRValues s1) swizzleMarker) as Hfirst.
  assert (bv_mMap (mRValues s2) !! swizzleMarker =
            Some (ByValue.insert swizzleMarker (mRValues s1)).1) as Hsecond.
  { eapply later_rValues_lookup; [exact Hlater|]. exact Hfirst. }
  rewrite (ByValue_insert_hit _ _ _ Hsecond). cbn.
  split; [done|]. eexists. split; [done|]. exact Hsecond.
Qed.

(** *** Global initializers *)


(** *** Function prototypes and definitions *)

(** C1, as amended. In the Pack of a pass, a function id is in the
    prototype set exactly when some function node with one child has the
    name interned under that id, and it is a key of the definition map
    exactly when some function node with two children has; the definition
    stored under a key names that key. The prototype set is never reduced:
    a function declared once as a prototype-only node and once with a body
    is a key of the definition map and is in the prototype set as well. *)
Theorem function_tables_of_a_pass (intermediate : TIntermediate) pack :
  fromGlsl intermediate = Ok pack →
  ∃ rootNode root,
    getTreeRoot intermediate = Some rootNode ∧
    getAsAggregate rootNode = Some root ∧
    let functions := childrenWithOp isFunction (aggregateSequence root) in
    (∀ functionId,
       functionId ∈ pack_functionPrototypes pack ↔
       ∃ fn : TIntermAggregateNode,
         fn ∈ functions ∧ isPrototypeNode fn ∧
         pack_functionNames pack !! functionId = Some (aggregateName fn)) ∧
    (∀ functionId,
       functionId ∈ dom (pack_functionDefinitions pack) ↔
       ∃ fn : TIntermAggregateNode,
         fn ∈ functions ∧ isDefinitionNode fn ∧
         pack_functionNames pack !! functionId = Some (aggregateName fn)) ∧
    (∀ functionId definition,
       pack_functionDefinitions pack !! functionId = Some definition →
       definition_name definition = functionId) ∧
    (∀ prototype definition : TIntermAggregateNode,
       prototype ∈ functions → definition ∈ functions →
       isPrototypeNode prototype → isDefinitionNode definition →
       aggregateName prototype = aggregateName definition →
       ∃ functionId,
         pack_functionNames pack !! functionId = Some (aggregateName definition) ∧
         functionId ∈ dom (pack_functionDefinitions pack) ∧
         functionId ∈ pack_functionPrototypes pack).
Proof.
  intros Hrun.
  apply fromGlsl_Ok in Hrun
    as (rootNode & root & s1 & s2 & s3 & Hroot & Hagg & Hop & Hs1 & Hinit & Hfun & ->).
  destruct Hinit as [_ _ _ Hp2 Hd2 _ Hlater2].
  pose proof (interned_tables_unchanged _ _ Hs1) as [Hd1 Hp1 _ _]. cbn in Hd1, Hp1.
  apply forEach_slurpFunctionDefinition_Ok in Hfun
    as (Hlater3 & _ & Hinterned & Hprotos & Hdefs & Hkeys & _).
  assert (Slurper_wf s3) as Hwf.
  { eapply (preserved_wf (initialSlurper (getVersion intermediate))).
    - apply later_preserved. etrans; [by apply interned_later|]. by etrans.
    - apply initialSlurper_wf. }
  destruct Hwf as (_ & _ & _ & _ & [names Hnames] & _).
  assert (∀ functionId name,
            ByValue.getFinal (mFunctionNames s3) !! functionId = Some name ↔
            bv_mMap (mFunctionNames s3) !! name = Some functionId) as Hfinal.
  { intros functionId name. by apply (ByValue_getFinal_lookup names). }
  assert (∀ functionId,
            functionId ∈ mFunctionPrototypes s3 ↔
            ∃ fn : TIntermAggregateNode,
              fn ∈ childrenWithOp isFunction (aggregateSequence root) ∧
              isPrototypeNode fn ∧
              ByValue.getFinal (mFunctionNames s3) !! functionId =
                Some (aggregateName fn)) as Hprototypes.
  { intros functionId. rewrite Hprotos, Hp2, Hp1. split.
    - intros [?%elem_of_empty|(fn & ? & ? & ?)]; [done|].
      exists fn. by rewrite Hfinal.
    - intros (fn & ? & ? & ?%Hfinal). right. by exists fn. }
  assert (∀ functionId,
            functionId ∈ dom (mFunctionDefinitions s3) ↔
            ∃ fn : TIntermAggregateNode,
              fn ∈ childrenWithOp isFunction (aggregateSequence root) ∧
              isDefinitionNode fn ∧
              ByValue.getFinal (mFunctionNames s3) !! functionId =
                Some (aggregateName fn)) as Hdefinitions.
  { intros functionId. rewrite Hdefs, Hd2, Hd1, dom_empty. split.
    - intros [?%elem_of_empty|(fn & ? & ? & ?)]; [done|].
      exists fn. by rewrite Hfinal.
    - intros (fn & ? & ? & ?%Hfinal). right. by exists fn. }
  exists rootNode, root. split; [done|]. split; [done|]. cbn zeta.
  split_and!; [exact Hprototypes|exact Hdefinitions| |].
  - apply Hkeys. intros functionId definition. by rewrite Hd2, Hd1, lookup_empty.
  - intros prototype definition Hpin Hdin Hproto Hdef Hname. cbn.
    assert (functionId_of : ∃ functionId,
              bv_mMap (mFunctionNames s3) !! aggregateName definition = Some functionId)
      by (by apply Hinterned).
    destruct functionId_of as [functionId Hid].
    exists functionId. split_and!.
    + by apply Hfinal.
    + apply Hdefinitions. exists definition. by rewrite Hfinal.
    + apply Hprototypes. exists prototype. by rewrite Hfinal, Hname.
Qed.

(** *** Lowering something again *)

Lemma mStrings_insert_hit value s id :
  bv_mMap (mStrings s) !! value = Some id → mStrings_insert value s = Ok (id, s).
Proof.
  intros Hl. rewrite mStrings_insert_Ok, (ByValue_insert_hit _ _ _ Hl). by destruct s.
Qed.

Lemma mStrings_insert_lookup value s id s' :
  mStrings_insert value s = Ok (id, s') → bv_mMap (mStrings s') !! value = Some id.
Proof. rewrite mStrings_insert_Ok. intros [= <- <-]. apply ByValue_insert_lookup. Qed.

Lemma mTypes_insert_hit value s id :
  bv_mMap (mTypes s) !! value = Some id → mTypes_insert value s = Ok (id, s).
Proof.
  intros Hl. rewrite mTypes_insert_Ok, (ByValue_insert_hit _ _ _ Hl). by destruct s.
Qed.

Lemma mTypes_insert_lookup value s id s' :
  mTypes_insert value s = Ok (id, s') → bv_mMap (mTypes s') !! value = Some id.
Proof. rewrite mTypes_insert_Ok. intros [= <- <-]. apply ByValue_insert_lookup. Qed.

Lemma mGlobalSymbols_insert_hit key value s id value0 :
  bk_mMap (mGlobalSymbols s) !! key = Some (id, value0) →
  mGlobalSymbols_insert key value s = Ok (id, s).
Proof.
  intros Hl. rewrite mGlobalSymbols_insert_Ok, (ByKey_insert_hit _ _ _ _ _ Hl).
  by destruct s.
Qed.

Lemma mGlobalSymbols_insert_lookup key value s id s' :
  mGlobalSymbols_insert key value s = Ok (id, s') →
  ∃ value0,
    bk_mMap (mGlobalSymbols s') !! key = Some (id, value0) ∧
    (bk_mMap (mGlobalSymbols s) !! key = None → value0 = value).
Proof.
  rewrite mGlobalSymbols_insert_Ok. intros [= <- <-]. cbn.
  destruct (bk_mMap (mGlobalSymbols s) !! key) as [[id0 value0]|] eqn:E.
  - rewrite (ByKey_insert_hit _ _ _ _ _ E). cbn. exists value0. by rewrite E.
  - rewrite (ByKey_insert_miss _ _ _ E). cbn. exists value.
    by rewrite lookup_insert_eq.
Qed.

Lemma locals_grow_subseteq localSymbols localSymbols' :
  locals_grow localSymbols localSymbols' → bk_mMap localSymbols ⊆ bk_mMap localSymbols'.
Proof.
  induction 1 as [|l1 l2 l3 (key & value & ->) _ IH]; [done|].
  etrans; [|exact IH]. apply ByKey_insert_subseteq.
Qed.

Lemma slurpQualifiers_again qualifier s r s' s2 :
  slurpQualifiers qualifier s = Ok (r, s') → later s' s2 →
  slurpQualifiers qualifier s2 = Ok (r, s2).
Proof.
  unfold slurpQualifiers. destruct (negb _); intros Hrun Hlater.
  - apply bind_Ok in Hrun as (id & s1 & Hins & Hret).
    apply ret_Ok in Hret. injection Hret as -> ->.
    apply mStrings_insert_lookup in Hins.
    apply bind_Ok. exists id, s2. split; [|done].
    apply mStrings_insert_hit. eapply lookup_weaken; [exact Hins|].
    by apply later_preserved.
  - apply ret_Ok in Hrun. by injection Hrun as -> ->.
Qed.

Lemma slurpType_again type s typeId s' s2 :
  slurpType type s = Ok (typeId, s') → later s' s2 →
  slurpType type s2 = Ok (typeId, s2).
Proof.
  unfold slurpType. intros Hrun Hlater.
  apply bind_Ok in Hrun as (typeName & s0 & Hname & Hrun).
  apply lift_Ok in Hname as [Hname ->].
  apply bind_Ok in Hrun as (nameId & s1 & Hins & Hrun).
  apply bind_Ok in Hrun as (qualifiersId & s3 & Hq & Hrun).
  assert (interned s1 s3) as H13 by (by eapply slurpQualifiers_interned).
  assert (interned s3 s') as H3' by (minv; interned_tac).
  assert (later s3 s2) as H32 by (etrans; [by apply interned_later|done]).
  apply mStrings_insert_lookup in Hins. apply mTypes_insert_lookup in Hrun.
  apply bind_Ok. exists typeName, s2. split; [by apply lift_Ok|].
  apply bind_Ok. exists nameId, s2. split.
  { apply mStrings_insert_hit. eapply lookup_weaken; [exact Hins|].
    apply later_preserved. etrans; [by apply interned_later|done]. }
  apply bind_Ok. exists qualifiersId, s2. split; [by eapply slurpQualifiers_again|].
  apply mTypes_insert_hit. eapply lookup_weaken; [exact Hrun|].
  by apply later_preserved.
Qed.

(** X6. A type that was lowered is found again. A successful [slurpType]
    leaves the type interned as [Type{name, qualifiers, arraySizes}] with
    the sizes of its array dimensions in order (none for a type that is no
    array), and in every later state of the pass [slurpType] returns the
    same TypeId for it and changes nothing, neither a store nor the log. *)
Theorem slurpType_finds_a_lowered_type_again type s typeId s' :
  slurpType type s = Ok (typeId, s') →
  (∃ nameId qualifiersId,
     bv_mMap (mTypes s') !!
       mkType nameId qualifiersId
         (match getArraySizes type with
          | Some sizes => to_size_t <$> sizes
          | None => []
          end) = Some typeId) ∧
  ∀ s2, later s' s2 → slurpType type s2 = Ok (typeId, s2).
Proof.
  intros Hrun. split; [|intros s2 Hlater; by eapply slurpType_again].
  unfold slurpType in Hrun.
  apply bind_Ok in Hrun as (typeName & s0 & Hname & Hrun).
  apply bind_Ok in Hrun as (nameId & s1 & Hins & Hrun).
  apply bind_Ok in Hrun as (qualifiersId & s3 & Hq & Hrun).
  apply mTypes_insert_lookup in Hrun. by exists nameId, qualifiersId.
Qed.

(** X7. A global symbol keeps its first declaration. [slurpGlobalSymbol]
    on a node whose id is already a key of the global symbols returns the
    GlobalSymbolId stored with it and leaves the global symbols unchanged,
    so the name and type of the later node are not recorded with the
    symbol; the type of the later node is lowered all the same, and the
    call succeeds exactly when that lowering does. *)
Theorem slurpGlobalSymbol_keeps_the_first_declaration
    type id accessName s globalSymbolId symbol :
  bk_mMap (mGlobalSymbols s) !! id = Some (globalSymbolId, symbol) →
  (∀ r s', slurpGlobalSymbol type id accessName s = Ok (r, s') →
     r = globalSymbolId ∧ mGlobalSymbols s' = mGlobalSymbols s ∧
     ∃ typeId s1, slurpType type s = Ok (typeId, s1) ∧
                  s' = set_mStrings (ByValue.insert accessName (mStrings s1)).2 s1) ∧
  isOk (slurpGlobalSymbol type id accessName s) = isOk (slurpType type s).
Proof.
  intros Hknown.
  assert (∀ typeId s1,
            slurpType type s = Ok (typeId, s1) →
            slurpGlobalSymbol type id accessName s =
              Ok (globalSymbolId,
                  set_mStrings (ByValue.insert accessName (mStrings s1)).2 s1) ∧
            mGlobalSymbols s1 = mGlobalSymbols s) as Hrun.
  { intros typeId s1 Htype.
    assert (mGlobalSymbols s1 = mGlobalSymbols s) as Hsame.
    { unfold slurpType, slurpQualifiers in Htype. minv_cases; done. }
    split; [|done]. unfold slurpGlobalSymbol.
    apply bind_Ok. eexists _, _. split; [exact Htype|].
    apply bind_Ok. eexists _, _. split; [apply mStrings_insert_Ok|].
    eapply mGlobalSymbols_insert_hit. cbn. rewrite Hsame. exact Hknown. }
  split.
  - intros r s' Hok.
    destruct (slurpType type s) as [[typeId s1]|p] eqn:Htype.
    + destruct (Hrun typeId s1 eq_refl) as [Heq Hsame].
      rewrite Heq in Hok. injection Hok as <- <-.
      split_and!; [done|done|]. by exists typeId, s1.
    + unfold slurpGlobalSymbol, bind in Hok. by rewrite Htype in Hok.
  - destruct (slurpType type s) as [[typeId s1]|p] eqn:Htype.
    + destruct (Hrun typeId s1 eq_refl) as [-> _]. done.
    + unfold slurpGlobalSymbol, bind. by rewrite Htype.
Qed.

(** X8. How a symbol node resolves. A symbol whose id is a key of the
    global symbols resolves to that global and nothing is interned, not
    even its name; an unknown symbol of a built-in type becomes a global
    symbol without a type; any other symbol becomes a local symbol of the
    scope, and the global symbols are left as they were. The result is
    never an RValue. In every later state and larger scope the symbol
    resolves to the same id again and nothing changes, provided that, for
    a local symbol, no global symbol with its id has appeared. *)
Theorem symbol_resolution type id accessName localSymbols s v localSymbols' s' :
  slurpValueFromSymbol type id accessName localSymbols s = Ok (v, localSymbols', s') →
  match v with
  | ValueGlobal globalId =>
      localSymbols' = localSymbols ∧
      ByKey.get id (mGlobalSymbols s') = Some globalId ∧
      (ByKey.get id (mGlobalSymbols s) = Some globalId ∧ s' = s ∨
       ByKey.get id (mGlobalSymbols s) = None ∧ isBuiltIn type = true ∧
       ∃ nameId, bk_mMap (mGlobalSymbols s') !! id =
                   Some (globalId, mkSymbol nameId None))
  | ValueLocal localId =>
      ByKey.get id (mGlobalSymbols s) = None ∧ isBuiltIn type = false ∧
      mGlobalSymbols s' = mGlobalSymbols s ∧
      ByKey.get id localSymbols' = Some localId
  | ValueRValue _ => False
  end ∧
  ∀ s2 localSymbols2,
    later s' s2 → locals_grow localSymbols' localSymbols2 →
    (∀ localId, v = ValueLocal localId → ByKey.get id (mGlobalSymbols s2) = None) →
    slurpValueFromSymbol type id accessName localSymbols2 s2 =
      Ok (v, localSymbols2, s2).
Proof.
  unfold slurpValueFromSymbol. intros Hrun.
  apply bind_Ok in Hrun as (globalId & s0 & Hget & Hrun).
  apply gets_Ok in Hget. injection Hget as -> ->.
  destruct (ByKey.get id (mGlobalSymbols s)) as [globalId|] eqn:Hknown.
  - apply ret_Ok in Hrun. injection Hrun as -> -> ->. split.
    + split_and!; [done|done|by left].
    + intros s2 localSymbols2 Hlater _ _.
      apply bind_Ok. exists (Some globalId), s2. split; [|done].
      unfold mGlobalSymbols_get, gets. do 2 f_equal.
      rewrite ByKey_get_lookup in Hknown |- *.
      destruct (bk_mMap (mGlobalSymbols s) !! id) as [[g symbol]|] eqn:E; [|done].
      cbn in Hknown. injection Hknown as ->.
      assert (bk_mMap (mGlobalSymbols s2) !! id = Some (globalId, symbol)) as ->
        by (eapply lookup_weaken; [exact E|by apply later_preserved]).
      done.
  - apply bind_Ok in Hrun as (nameId & s1 & Hname & Hrun).
    pose proof (mStrings_insert_lookup _ _ _ _ Hname) as Hnamed.
    destruct (isBuiltIn type) eqn:Hbuiltin.
    + apply bind_Ok in Hrun as (globalId & s3 & Hins & Hrun).
      apply ret_Ok in Hrun. injection Hrun as -> -> ->.
      assert (bk_mMap (mGlobalSymbols s1) !! id = None) as Hnone.
      { rewrite mStrings_insert_Ok in Hname. injection Hname as <- <-. cbn.
        rewrite ByKey_get_lookup in Hknown.
        by destruct (bk_mMap (mGlobalSymbols s) !! id). }
      apply mGlobalSymbols_insert_lookup in Hins as (symbol & Hstored & Hfirst).
      specialize (Hfirst Hnone). subst symbol.
      assert (∀ s2, later s3 s2 → ByKey.get id (mGlobalSymbols s2) = Some globalId)
        as Hgot.
      { intros s2 Hlater. rewrite ByKey_get_lookup.
        assert (bk_mMap (mGlobalSymbols s2) !! id =
                  Some (globalId, mkSymbol nameId None)) as ->
          by (eapply lookup_weaken; [exact Hstored|by apply later_preserved]).
        done. }
      split.
      * split_and!; [done|by apply Hgot|]. right. split_and!; [done|done|].
        by exists nameId.
      * intros s2 localSymbols2 Hlater _ _.
        apply bind_Ok. exists (Some globalId), s2. split; [|reflexivity].
        unfold mGlobalSymbols_get, gets. do 2 f_equal. by apply Hgot.
    + apply bind_Ok in Hrun as (typeId & s3 & Htype & Hrun).
      destruct (ByKey.insert id (mkSymbol nameId (Some typeId)) localSymbols)
        as [localId localSymbols1] eqn:Hlocal.
      apply ret_Ok in Hrun. injection Hrun as -> -> ->.
      assert (mGlobalSymbols s3 = mGlobalSymbols s) as Hsame.
      { unfold slurpType, slurpQualifiers in Htype.
        rewrite mStrings_insert_Ok in Hname. injection Hname as <- <-.
        minv_cases; done. }
      pose proof (ByKey_insert_lookup localSymbols id (mkSymbol nameId (Some typeId)))
        as Hstored.
      rewrite Hlocal in Hstored. cbn in Hstored.
      split.
      * split_and!; [done|done|done|]. by rewrite ByKey_get_lookup.
      * intros s2 localSymbols2 Hlater Hgrow Hnoglobal.
        apply bind_Ok. exists None, s2. split.
        { unfold mGlobalSymbols_get, gets. do 2 f_equal. by eapply Hnoglobal. }
        apply bind_Ok. exists nameId, s2. split.
        { apply mStrings_insert_hit. eapply lookup_weaken; [exact Hnamed|].
          apply later_preserved. etrans; [|exact Hlater].
          apply interned_later. by eapply slurpType_interned. }
        apply bind_Ok. exists typeId, s2. split; [by eapply slurpType_again|].
        destruct (bk_mMap localSymbols1 !! id) as [[l symbol]|] eqn:E; [|done].
        cbn in Hstored. injection Hstored as ->.
        erewrite ByKey_insert_hit; [done|].
        eapply lookup_weaken; [exact E|]. by apply locals_grow_subseteq.
Qed.

(** *** The shape of statement lists *)

Lemma nodeToStatements_aggregate_unfold type op name sequence localSymbols output :
  nodeToStatements (TIntermAggregate type op name sequence) localSymbols output =
    if decide (op = EOpSequence) then
      nodesToStatements nodeToStatements sequence localSymbols output
    else
      typedNodeToStatements (TIntermAggregate type op name sequence) localSymbols output.
Proof.
  destruct op; try reflexivity. by rewrite decide_False.
Qed.

Definition statements_append (node : TIntermNode) : Prop :=
  ∀ localSymbols output s,
    nodeToStatements node localSymbols output s =
      appendedTo output (nodeToStatements node localSymbols [] s).

Lemma typedNodeToStatements_appends node localSymbols output s :
  typedNodeToStatements node localSymbols output s =
    appendedTo output (typedNodeToStatements node localSymbols [] s).
Proof.
  unfold typedNodeToStatements, appendedTo, bind, ret, panic.
  repeat case_match; simplify_eq; try done.
  by rewrite app_nil_r.
Qed.

Lemma nodesToStatements_appends sequence :
  Forall statements_append sequence →
  ∀ localSymbols output s,
    nodesToStatements nodeToStatements sequence localSymbols output s =
      appendedTo output (nodesToStatements nodeToStatements sequence localSymbols [] s).
Proof.
  induction 1 as [|child rest Hchild _ IH]; intros localSymbols output s.
  - cbn. unfold ret. by rewrite app_nil_r.
  - cbn [nodesToStatements]. unfold bind. rewrite (Hchild localSymbols output s).
    destruct (nodeToStatements child localSymbols [] s) as [[[ls1 new1] s1]|p];
      [|done].
    cbn. rewrite (IH ls1 (output ++ new1) s1), (IH ls1 new1 s1).
    destruct (nodesToStatements nodeToStatements rest ls1 [] s1)
      as [[[ls2 new2] s2]|p]; [|done].
    cbn. by rewrite app_assoc.
Qed.

Lemma nodeToStatements_statements_append node : statements_append node.
Proof.
  induction node as
    [ test terminal testFirst body IHtest IHterminal IHbody
    | flowOp expression IH
    | cond body IHc IHb
    | type cond trueBlock falseBlock IHc IHt IHf | | | type op operand IH
    | type op lhs rhs IHl IHr | type op name sequence IH | ] using TIntermNode_ind;
    intros localSymbols output s;
    try exact (typedNodeToStatements_appends _ localSymbols output s).
  - cbn [nodeToStatements]. unfold appendedTo, bind, ret, panic.
    repeat case_match; simplify_eq; done.
  - cbn [nodeToStatements]. unfold appendedTo, bind, ret, panic.
    repeat case_match; simplify_eq; done.
  - cbn [nodeToStatements]. unfold appendedTo, bind, ret, panic.
    repeat case_match; simplify_eq; done.
  - cbn [nodeToStatements]. unfold appendedTo, bind, ret, panic.
    repeat case_match; simplify_eq; done.
  - rewrite !nodeToStatements_aggregate_unfold. case_decide.
    + by apply nodesToStatements_appends.
    + apply typedNodeToStatements_appends.
Qed.

Lemma nodesToStatements_app (xs ys : list TIntermNode) localSymbols output s :
  nodesToStatements nodeToStatements (xs ++ ys) localSymbols output s =
    bind (nodesToStatements nodeToStatements xs localSymbols output)
      (λ '(localSymbols, output),
         nodesToStatements nodeToStatements ys localSymbols output) s.
Proof.
  revert localSymbols output s.
  induction xs as [|x xs IH]; intros localSymbols output s; [done|].
  cbn [app nodesToStatements]. unfold bind in *.
  destruct (nodeToStatements x localSymbols output s) as [[[ls1 out1] s1]|p]; [|done].
  apply IH.
Qed.

Lemma stray_node_gives_no_statement node localSymbols output s :
  isStray node = true →
  nodeToStatements node localSymbols output s = Ok (localSymbols, output, s).
Proof. destruct node; try discriminate; reflexivity. Qed.

Lemma nodesToStatements_without_strays (xs : list TIntermNode) localSymbols output s :
  nodesToStatements nodeToStatements (List.filter (λ node, negb (isStray node)) xs)
    localSymbols output s =
  nodesToStatements nodeToStatements xs localSymbols output s.
Proof.
  revert localSymbols output s.
  induction xs as [|x xs IH]; intros localSymbols output s; [done|].
  cbn [List.filter nodesToStatements].
  destruct (isStray x) eqn:Hx; cbn [negb nodesToStatements].
  - unfold bind. rewrite (stray_node_gives_no_statement x) by done. apply IH.
  - unfold bind.
    destruct (nodeToStatements x localSymbols output s) as [[[ls1 out1] s1]|p]; [|done].
    apply IH.
Qed.

(** X9. Statements are only ever appended. Lowering a node to statements
    with a list that already holds [output] gives what lowering it with an
    empty list gives, with [output] in front: the statements that were
    there are kept, in order, and neither the new statements nor the state
    nor a failure depend on them. A sequence lowers as its first part
    followed by its second part. *)
Theorem statements_are_appended :
  (∀ node localSymbols output s,
     nodeToStatements node localSymbols output s =
       appendedTo output (nodeToStatements node localSymbols [] s)) ∧
  (∀ type name (xs ys : list TIntermNode) localSymbols output s,
     nodeToStatements (TIntermAggregate type EOpSequence name (xs ++ ys))
       localSymbols output s =
     match nodeToStatements (TIntermAggregate type EOpSequence name xs)
             localSymbols output s with
     | Ok (localSymbols1, output1, s1) =>
         nodeToStatements (TIntermAggregate type EOpSequence name ys)
           localSymbols1 output1 s1
     | Fatal p => Fatal p
     end).
Proof.
  split.
  - intros node. apply nodeToStatements_statements_append.
  - intros type name xs ys localSymbols output s.
    cbn [nodeToStatements]. rewrite nodesToStatements_app. unfold bind.
    by destruct (nodesToStatements nodeToStatements xs localSymbols output s)
      as [[[ls1 out1] s1]|p].
Qed.

(** X10. Nested sequences are flattened. A sequence node among the
    children of a sequence lowers as if its children stood in its place,
    and a statement block made of a sequence with the single child [node]
    is the statement block of [node] itself, with the same
    StatementBlockId. *)
Theorem nested_sequences_are_flattened :
  (∀ type name type' name' (xs ys zs : list TIntermNode) localSymbols output s,
     nodeToStatements
       (TIntermAggregate type EOpSequence name
          (xs ++ [TIntermAggregate type' EOpSequence name' ys] ++ zs))
       localSymbols output s =
     nodeToStatements (TIntermAggregate type EOpSequence name (xs ++ ys ++ zs))
       localSymbols output s) ∧
  (∀ type name node localSymbols s,
     slurpStatementBlock (TIntermAggregate type EOpSequence name [node]) localSymbols s =
     slurpStatementBlock node localSymbols s).
Proof.
  split.
  - intros type name type' name' xs ys zs localSymbols output s.
    cbn [nodeToStatements]. rewrite !nodesToStatements_app. unfold bind.
    destruct (nodesToStatements nodeToStatements xs localSymbols output s)
      as [[[ls1 out1] s1]|p]; [|done].
    rewrite (nodesToStatements_app [_] zs), (nodesToStatements_app ys zs).
    cbn [nodesToStatements nodeToStatements]. unfold bind, ret.
    by destruct (nodesToStatements nodeToStatements ys ls1 out1 s1)
      as [[[ls2 out2] s2]|p].
  - intros type name node localSymbols s.
    unfold slurpStatementBlock, slurpStatementBlockRec.
    cbn [nodesToStatements]. unfold bind.
    assert (nodeToStatements node localSymbols [] s =
              match node with
              | TIntermAggregate _ EOpSequence _ sequence =>
                  nodesToStatements nodeToStatements sequence localSymbols []
              | _ => nodeToStatements node localSymbols []
              end s) as <-.
    { destruct node; try reflexivity.
      rewrite nodeToStatements_aggregate_unfold. case_decide as Hop.
      - by subst getOp.
      - by destruct getOp. }
    by destruct (nodeToStatements node localSymbols [] s) as [[[ls1 out1] s1]|p].
Qed.

(** X11. Bare symbols and bare constants are dropped from statement
    lists. As a statement such a node is not looked at: nothing is
    interned, no local symbol is made and nothing can fail, whatever its
    type or value. Removing these nodes from the children of a sequence
    changes neither its statements nor its statement block. *)
Theorem stray_symbols_and_constants_are_dropped :
  (∀ node localSymbols output s,
     isStray node = true →
     nodeToStatements node localSymbols output s = Ok (localSymbols, output, s)) ∧
  (∀ type name (children : list TIntermNode) localSymbols output s,
     nodeToStatements
       (TIntermAggregate type EOpSequence name
          (List.filter (λ node, negb (isStray node)) children)) localSymbols output s =
     nodeToStatements (TIntermAggregate type EOpSequence name children)
       localSymbols output s) ∧
  (∀ type name (children : list TIntermNode) localSymbols s,
     slurpStatementBlock
       (TIntermAggregate type EOpSequence name
          (List.filter (λ node, negb (isStray node)) children)) localSymbols s =
     slurpStatementBlock (TIntermAggregate type EOpSequence name children)
       localSymbols s).
Proof.
  split_and!.
  - intros node localSymbols output s. apply stray_node_gives_no_statement.
  - intros type name children localSymbols output s.
    cbn [nodeToStatements]. apply nodesToStatements_without_strays.
  - intros type name children localSymbols s.
    unfold slurpStatementBlock, slurpStatementBlockRec, bind.
    by rewrite nodesToStatements_without_strays.
Qed.

(** *** The root *)

Lemma sortChildren_spec (children : list TIntermNode) sorted :
  sortChildren children sorted =
    if forallb isRootChild children then
      Ok (mkRootChildren
            (linkerObjectNodes sorted ++ childrenWithOp isLinkerObjects children)
            (sequenceNodes sorted ++ childrenWithOp isSequence children)
            (functionNodes sorted ++ childrenWithOp isFunction children))
    else Fatal UnhandledChildOfRootNode.
Proof.
  revert sorted. induction children as [|child children IH]; intros sorted.
  - cbn. unfold childrenWithOp. cbn. rewrite !app_nil_r. by destruct sorted.
  - cbn [sortChildren forallb]. unfold isRootChild at 1, hasOp, childrenWithOp.
    cbn [omap list_omap].
    destruct (getAsAggregate child) as [node|]; [|done].
    destruct (aggregateOp node) eqn:Hop; try reflexivity;
      rewrite IH; cbn; destruct (forallb isRootChild children); try done;
      cbn; by rewrite <- ?app_assoc.
Qed.

Lemma childrenWithOp_app select (xs ys : list TIntermNode) :
  childrenWithOp select (xs ++ ys) = childrenWithOp select xs ++ childrenWithOp select ys.
Proof. unfold childrenWithOp. apply omap_app. Qed.

Lemma childrenWithOp_filter_same select (children : list TIntermNode) :
  childrenWithOp select (List.filter (hasOp select) children) =
    childrenWithOp select children.
Proof.
  induction children as [|child children IH]; [done|].
  cbn [List.filter]. unfold hasOp at 1. unfold childrenWithOp in *.
  cbn [omap list_omap].
  destruct (getAsAggregate child) as [node|] eqn:Hagg; [|done].
  destruct (select (aggregateOp node)) eqn:Hsel; [|done].
  cbn [omap list_omap]. by rewrite Hagg, Hsel, IH.
Qed.

Lemma childrenWithOp_filter_other select select' (children : list TIntermNode) :
  (∀ op, select op = true → select' op = true → False) →
  childrenWithOp select (List.filter (hasOp select') children) = [].
Proof.
  intros Hdisjoint. induction children as [|child children IH]; [done|].
  cbn [List.filter]. unfold hasOp at 1. unfold childrenWithOp in *.
  destruct (getAsAggregate child) as [node|] eqn:Hagg; [|done].
  destruct (select' (aggregateOp node)) eqn:Hsel'; [|done].
  cbn [omap list_omap]. rewrite Hagg.
  destruct (select (aggregateOp node)) eqn:Hsel; [|done].
  destruct (Hdisjoint _ Hsel Hsel').
Qed.

Lemma byCategory_root_children (children : list TIntermNode) :
  forallb isRootChild (byCategory children) = true.
Proof.
  unfold byCategory. rewrite !forallb_app.
  assert (∀ select : TOperator → bool,
            (∀ child : TIntermNode, hasOp select child = true → isRootChild child = true) →
            forallb isRootChild (List.filter (hasOp select) children) = true) as Hall.
  { intros select Hsel. apply forallb_forall. intros child [_ Hin]%filter_In. auto. }
  rewrite !Hall; [done|..]; intros child Hc; unfold isRootChild; rewrite Hc;
    by rewrite ?orb_true_r.
Qed.

Lemma childrenWithOp_byCategory (children : list TIntermNode) :
  childrenWithOp isLinkerObjects (byCategory children) =
    childrenWithOp isLinkerObjects children ∧
  childrenWithOp isSequence (byCategory children) = childrenWithOp isSequence children ∧
  childrenWithOp isFunction (byCategory children) = childrenWithOp isFunction children.
Proof.
  unfold byCategory. rewrite !childrenWithOp_app, !childrenWithOp_filter_same.
  rewrite !childrenWithOp_filter_other; [by rewrite ?app_nil_r|..];
    by intros [].
Qed.

(** X12. The root is processed category by category, after all its
    children were checked. For a root that is a sequence: when one child
    is not an aggregate with one of the operators LinkerObjects, Sequence
    and Function the pass fails on that child before anything is lowered,
    whatever else the tree holds; otherwise the pass gives what it gives
    for the root with the linker objects first, then the sequences of
    global initializers, then the functions, so the order in which children
    of different categories stand in the root does not matter. A root
    that is no aggregate and a root that is no sequence are rejected. *)
Theorem root_is_processed_by_category version type name (children : list TIntermNode) :
  (forallb isRootChild children = false →
   fromGlsl (mkTIntermediate version
               (Some (TIntermAggregate type EOpSequence name children))) =
     Fatal UnhandledChildOfRootNode) ∧
  (forallb isRootChild children = true →
   fromGlsl (mkTIntermediate version
               (Some (TIntermAggregate type EOpSequence name children))) =
   fromGlsl (mkTIntermediate version
               (Some (TIntermAggregate type EOpSequence name (byCategory children))))) ∧
  (∀ root : TIntermNode,
     getAsAggregate root = None →
     fromGlsl (mkTIntermediate version (Some root)) = Fatal NodeMustNotBeNull) ∧
  (∀ op, op ≠ EOpSequence →
     fromGlsl (mkTIntermediate version (Some (TIntermAggregate type op name children))) =
       Fatal NodeMustBeASequence).
Proof.
  split_and!.
  - intros Hbad. unfold fromGlsl, newSlurper, slurpFromRoot. cbn.
    unfold bind, assertM, lift. cbn. by rewrite sortChildren_spec, Hbad.
  - intros Hgood. unfold fromGlsl, newSlurper, slurpFromRoot. cbn.
    unfold bind at 1 2 5 6, assertM, lift. cbn.
    rewrite !sortChildren_spec, Hgood, byCategory_root_children. cbn.
    destruct (childrenWithOp_byCategory children) as (-> & -> & ->). done.
  - intros root Hroot. unfold fromGlsl, newSlurper, slurpFromRoot. cbn.
    by rewrite Hroot.
  - intros op Hop. unfold fromGlsl, newSlurper, slurpFromRoot. cbn.
    destruct op; try done.
Qed.

(** *** The tables of a Pack *)

Lemma dense_size {Id Value : Type} `{IdLike Id} (table : gmap Id Value) (n : nat) :
  (∀ id, is_Some (table !! id) ↔ (1 ≤ to_int id ≤ Z.of_nat n)%Z) → size table = n.
Proof.
  intros Hdense.
  assert (dom table = list_to_set ((λ i : nat, of_int (Z.of_nat i + 1)) <$> seq 0 n))
    as Hdom.
  { apply set_eq. intros id. rewrite elem_of_dom, Hdense, elem_of_list_to_set.
    rewrite list_elem_of_fmap. split.
    - intros Hid. exists (Z.to_nat (to_int id - 1)). split.
      + rewrite <- (of_to_int id) at 1. f_equal. lia.
      + apply elem_of_seq. lia.
    - intros (i & -> & Hi%elem_of_seq). rewrite to_of_int. lia. }
  rewrite <- size_dom, Hdom, size_list_to_set, length_fmap, length_seq; [done|].
  apply NoDup_fmap_2_strong; [|apply NoDup_seq].
  intros i j _ _ Heq%of_int_inj. lia.
Qed.

Lemma ByValue_getFinal_dense {Id Value : Type} `{IdLike Id} `{Countable Value}
    (st : IdStoreByValue Id Value) :
  (∃ l, ByValue_rep l st) →
  denseIds (ByValue.getFinal st) ∧ withoutDuplicates (ByValue.getFinal st).
Proof.
  intros [l Hrep].
  assert (∀ id, is_Some (ByValue.getFinal st !! id) ↔
                (1 ≤ to_int id ≤ Z.of_nat (length l))%Z) as Hdense.
  { intros id. rewrite <- (ByValue_rep_dense l st id Hrep). unfold is_Some.
    by setoid_rewrite (ByValue_getFinal_lookup l st id _ Hrep). }
  split.
  - intros id. by rewrite (dense_size _ _ Hdense).
  - intros id1 id2 value Hid1 Hid2.
    apply (ByValue_getFinal_lookup l st _ _ Hrep) in Hid1, Hid2. congruence.
Qed.

Lemma ByKey_getFinal_dense {Id Value : Type} `{IdLike Id} (st : IdStoreByKey Id Value) :
  (∃ l, ByKey_rep l st) → denseIds (ByKey.getFinal st).
Proof.
  intros [l Hrep].
  assert (∀ id, is_Some (ByKey.getFinal st !! id) ↔
                (1 ≤ to_int id ≤ Z.of_nat (length l))%Z) as Hdense.
  { intros id. unfold is_Some.
    setoid_rewrite (ByKey_getFinal_lookup l st id _ Hrep).
    destruct Hrep as (Hnd & Hlast & Hmap). split.
    - intros (v & k & (i & Hi & ->)%Hmap). rewrite to_of_int.
      apply lookup_lt_Some in Hi. lia.
    - intros Hid.
      destruct (lookup_lt_is_Some_2 l (Z.to_nat (to_int id - 1))) as [[k v] Hkv];
        [lia|].
      exists v, k. apply Hmap. exists (Z.to_nat (to_int id - 1)). split; [done|].
      rewrite <- (of_to_int id) at 1. f_equal. lia. }
  intros id. by rewrite (dense_size _ _ Hdense).
Qed.

Lemma fromGlsl_wf (intermediate : TIntermediate) pack :
  fromGlsl intermediate = Ok pack →
  ∃ s, pack = intoPack s ∧ Slurper_wf s ∧
       later (initialSlurper (getVersion intermediate)) s.
Proof.
  intros (rootNode & root & s1 & s2 & s3 & _ & _ & _ & Hs1 & Hs2 & Hs3 & ->)%fromGlsl_Ok.
  apply forEach_slurpFunctionDefinition_Ok in Hs3 as (Hs3 & _).
  assert (later (initialSlurper (getVersion intermediate)) s3) as Hlater.
  { etrans; [by apply interned_later|]. etrans; [apply Hs2|exact Hs3]. }
  exists s3. split_and!; [done| |done].
  eapply later_preserved; [exact Hlater|]. apply initialSlurper_wf.
Qed.

(** X13. The tables of a Pack are dense and free of duplicates. In every
    Pack that [fromGlsl] returns the keys of a table of strings, types,
    global symbols, RValues, function names or statement blocks are the
    ids [1..n], for [n] the number of entries of the table, when the
    [int] counter of its store has not overflowed, that is when the table
    has at most [INT_MAX] entries; and in the tables that are interned by
    value (all but the global symbols) no value stands under two ids. The
    version of the Pack is the version of the input. *)
Theorem pack_tables_are_dense (intermediate : @TIntermediate double) pack :
  fromGlsl intermediate = Ok pack →
  pack_version pack = getVersion intermediate ∧
  ((no_overflow (Z.of_nat (size (pack_strings pack))) → denseIds (pack_strings pack)) ∧
   withoutDuplicates (pack_strings pack)) ∧
  ((no_overflow (Z.of_nat (size (pack_types pack))) → denseIds (pack_types pack)) ∧
   withoutDuplicates (pack_types pack)) ∧
  (no_overflow (Z.of_nat (size (pack_globalSymbols pack))) →
   denseIds (pack_globalSymbols pack)) ∧
  ((no_overflow (Z.of_nat (size (pack_rValues pack))) → denseIds (pack_rValues pack)) ∧
   withoutDuplicates (pack_rValues pack)) ∧
  ((no_overflow (Z.of_nat (size (pack_functionNames pack))) →
    denseIds (pack_functionNames pack)) ∧
   withoutDuplicates (pack_functionNames pack)) ∧
  ((no_overflow (Z.of_nat (size (pack_statementBlocks pack))) →
    denseIds (pack_statementBlocks pack)) ∧
   withoutDuplicates (pack_statementBlocks pack)).
Proof.
  intros (s & -> & (Hs & Ht & Hg & Hr & Hf & Hb) & Hlater)%fromGlsl_wf. cbn.
  split; [by destruct (later_preserved _ _ Hlater)|].
  split; [by destruct (ByValue_getFinal_dense _ Hs)|].
  split; [by destruct (ByValue_getFinal_dense _ Ht)|].
  split; [intros _; by apply ByKey_getFinal_dense|].
  split; [by destruct (ByValue_getFinal_dense _ Hr)|].
  split; [by destruct (ByValue_getFinal_dense _ Hf)|by destruct (ByValue_getFinal_dense _ Hb)].
Qed.

(** *** The local symbols of statements and of parameters *)

Definition statements_grow_locals (node : TIntermNode) : Prop :=
  ∀ localSymbols output s localSymbols' output' s',
    nodeToStatements node localSymbols output s = Ok (localSymbols', output', s') →
    locals_grow localSymbols localSymbols'.

Lemma nodesToStatements_locals sequence :
  Forall statements_grow_locals sequence →
  ∀ localSymbols output s localSymbols' output' s',
    nodesToStatements nodeToStatements sequence localSymbols output s =
      Ok (localSymbols', output', s') →
    locals_grow localSymbols localSymbols'.
Proof.
  induction 1 as [|child rest Hchild _ IH];
    intros localSymbols output s localSymbols' output' s' Hrun; cbn in Hrun.
  - by minv.
  - apply bind_Ok in Hrun as ([ls1 out1] & s1 & Hfirst & Hrest).
    etrans; [by eapply Hchild|by eapply IH].
Qed.

Lemma typedNodeToStatements_locals node localSymbols output s localSymbols' output' s' :
  typedNodeToStatements node localSymbols output s = Ok (localSymbols', output', s') →
  locals_grow localSymbols localSymbols'.
Proof.
  unfold typedNodeToStatements. intros Hrun.
  destruct (getAsTyped node); [|by minv].
  destruct (negb _ && negb _); [|by minv].
  apply bind_Ok in Hrun as ([v ls1] & s1 & Hvalue & Hrest).
  apply slurpValue_Ok_locals in Hvalue. destruct v; by minv.
Qed.

Lemma slurpLoopTerminal_locals getTerminal localSymbols s terminalId localSymbols' s' :
  slurpLoopTerminal getTerminal localSymbols s = Ok (terminalId, localSymbols', s') →
  locals_grow localSymbols localSymbols'.
Proof.
  unfold slurpLoopTerminal. intros Hrun.
  destruct getTerminal as [terminal|]; [|by minv].
  destruct (negb _ && negb _); [|by minv].
  apply bind_Ok in Hrun as ([v ls1] & s1 & Hvalue & Hrest).
  apply slurpValue_Ok_locals in Hvalue. destruct v; by minv.
Qed.

Lemma slurpStatementBlockRec_locals node :
  statements_grow_locals node →
  ∀ localSymbols s id localSymbols' s',
    slurpStatementBlockRec nodeToStatements node localSymbols s =
      Ok (id, localSymbols', s') →
    locals_grow localSymbols localSymbols'.
Proof.
  intros Hnode localSymbols s id localSymbols' s' Hrun.
  unfold slurpStatementBlockRec in Hrun.
  apply bind_Ok in Hrun as ([ls1 statements] & s1 & Hblock & Hrest). minv.
  destruct node; try (by eapply Hnode). destruct getOp; by eapply Hnode.
Qed.

Lemma nodeToStatements_locals node : statements_grow_locals node.
Proof.
  induction node as
    [ test terminal testFirst body IHtest IHterminal IHbody
    | flowOp expression IH
    | cond body IHc IHb
    | type cond trueBlock falseBlock IHc IHt IHf | | | type op operand IH
    | type op lhs rhs IHl IHr | type op name sequence IH | ] using TIntermNode_ind;
    intros localSymbols output s localSymbols' output' s' Hrun;
    try exact (typedNodeToStatements_locals _ _ _ _ _ _ _ Hrun).
  - (* loop *)
    cbn in Hrun. destruct test as [test|]; [|by minv].
    apply bind_Ok in Hrun as ([c ls1] & s1 & Htest & Hrun).
    apply bind_Ok in Hrun as ([t ls2] & s2 & Hterminal & Hrun).
    destruct body as [body|]; [|by minv].
    apply bind_Ok in Hrun as ([b ls3] & s3 & Hbody & Hrun). minv.
    apply slurpValue_Ok_locals in Htest. apply slurpLoopTerminal_locals in Hterminal.
    apply (slurpStatementBlockRec_locals _ (IHbody _ eq_refl)) in Hbody.
    etrans; [exact Htest|]. by etrans.
  - (* branch *)
    cbn in Hrun. apply bind_Ok in Hrun as (op & s1 & Hop & Hrun).
    apply lift_Ok in Hop as [_ ->].
    apply bind_Ok in Hrun as ([operandId ls1] & s2 & Hoperand & Hrun). minv.
    destruct expression as [operand|]; [|by minv].
    apply bind_Ok in Hoperand as ([v ls2] & s3 & Hvalue & Hret). minv.
    by apply slurpValue_Ok_locals in Hvalue.
  - (* switch *)
    cbn in Hrun. destruct (getAsTyped cond); [|by minv].
    apply bind_Ok in Hrun as ([c ls1] & s1 & Hcond & Hrun).
    apply bind_Ok in Hrun as ([b ls2] & s2 & Hbody & Hrun). minv.
    apply slurpValue_Ok_locals in Hcond.
    apply (slurpStatementBlockRec_locals _ IHb) in Hbody. by etrans.
  - (* selection *)
    cbn in Hrun. apply bind_Ok in Hrun as ([c ls1] & s1 & Hcond & Hrun).
    destruct trueBlock as [trueBlock|]; [|by minv].
    apply bind_Ok in Hrun as ([t ls2] & s2 & Htrue & Hrun).
    apply bind_Ok in Hrun as ([f ls3] & s3 & Hfalse & Hrun). minv.
    apply slurpValue_Ok_locals in Hcond.
    apply (slurpStatementBlockRec_locals _ (IHt _ eq_refl)) in Htrue.
    etrans; [exact Hcond|]. etrans; [exact Htrue|].
    destruct falseBlock as [falseBlock|]; [|by minv].
    apply bind_Ok in Hfalse as ([f' ls4] & s4 & Hfalse & Hret). minv.
    by apply (slurpStatementBlockRec_locals _ (IHf _ eq_refl)) in Hfalse.
  - (* aggregate *)
    rewrite nodeToStatements_aggregate_unfold in Hrun. case_decide.
    + eapply nodesToStatements_locals; [exact IH|exact Hrun].
    + by eapply typedNodeToStatements_locals.
Qed.

Lemma slurpStatementBlock_locals node localSymbols s id localSymbols' s' :
  slurpStatementBlock node localSymbols s = Ok (id, localSymbols', s') →
  locals_grow localSymbols localSymbols'.
Proof. apply slurpStatementBlockRec_locals, nodeToStatements_locals. Qed.

Lemma locals_grow_rep localSymbols localSymbols' :
  locals_grow localSymbols localSymbols' →
  (∃ l, ByKey_rep l localSymbols) → ∃ l, ByKey_rep l localSymbols'.
Proof.
  induction 1 as [|l1 l2 l3 (key & value & ->) _ IH]; [done|].
  intros Hrep. apply IH. by apply wf_insert_by_key.
Qed.

(** The ids that a store of local symbols holds. *)
Definition local_present (localSymbols : LocalSymbols) (id : LocalSymbolId) : Prop :=
  ∃ key symbol, bk_mMap localSymbols !! key = Some (id, symbol).

Lemma local_present_grow localSymbols localSymbols' id :
  locals_grow localSymbols localSymbols' →
  local_present localSymbols id → local_present localSymbols' id.
Proof.
  intros Hgrow (key & symbol & Hl). exists key, symbol.
  eapply lookup_weaken; [exact Hl|]. by apply locals_grow_subseteq.
Qed.

Lemma slurpParameters_present sequence localSymbols parameters s
    parameters' localSymbols' s' :
  slurpParameters sequence localSymbols parameters s =
    Ok (parameters', localSymbols', s') →
  locals_grow localSymbols localSymbols' ∧
  (Forall (local_present localSymbols) parameters →
   Forall (local_present localSymbols') parameters') ∧
  length parameters' = (length parameters + length sequence)%nat.
Proof.
  revert localSymbols parameters s.
  induction sequence as [|parameter rest IH]; intros localSymbols parameters s Hrun;
    cbn in Hrun.
  - minv. by rewrite Nat.add_0_r.
  - destruct parameter; try (by minv).
    apply bind_Ok in Hrun as (nameId & s1 & Hname & Hrun).
    apply bind_Ok in Hrun as (typeId & s2 & Htype & Hrun).
    destruct (ByKey.insert getId (mkSymbol nameId (Some typeId)) localSymbols)
      as [symbolId ls1] eqn:Hinsert.
    apply IH in Hrun as (Hgrow & Hpresent & Hlength).
    assert (locals_grow localSymbols ls1) as Hstep.
    { apply (f_equal snd) in Hinsert. cbn in Hinsert. subst ls1.
      apply locals_grow_insert. }
    split_and!.
    + by etrans.
    + intros Hall. apply Hpresent. apply Forall_app. split.
      * eapply Forall_impl; [exact Hall|]. intros id. by apply local_present_grow.
      * apply Forall_singleton.
        pose proof (ByKey_insert_lookup localSymbols getId
                      (mkSymbol nameId (Some typeId))) as Hl.
        rewrite Hinsert in Hl. cbn in Hl.
        destruct (bk_mMap ls1 !! getId) as [[i symbol]|] eqn:E; [|done].
        cbn in Hl. injection Hl as ->. by exists getId, symbol.
    + rewrite Hlength, length_app. cbn. lia.
Qed.

(** *** The ids that the tables mention *)

Definition value_present s (localSymbols : LocalSymbols) (v : ValueId) : Prop :=
  match v with
  | ValueGlobal id => ∃ key symbol, bk_mMap (mGlobalSymbols s) !! key = Some (id, symbol)
  | ValueLocal id => local_present localSymbols id
  | ValueRValue id => ∃ value, bv_mMap (mRValues s) !! value = Some id
  end.

Lemma mRValues_insert_present value s id s' :
  mRValues_insert value s = Ok (id, s') → ∃ value, bv_mMap (mRValues s') !! value = Some id.
Proof.
  rewrite mRValues_insert_Ok. intros [= <- <-]. exists value.
  apply ByValue_insert_lookup.
Qed.

Lemma slurpValueFromSymbol_present type id accessName localSymbols s v localSymbols' s' :
  slurpValueFromSymbol type id accessName localSymbols s = Ok (v, localSymbols', s') →
  value_present s' localSymbols' v.
Proof.
  unfold slurpValueFromSymbol. intros Hrun.
  apply bind_Ok in Hrun as (globalId & s0 & Hget & Hrun).
  apply gets_Ok in Hget. injection Hget as -> ->.
  destruct (ByKey.get id (mGlobalSymbols s)) as [globalId|] eqn:Hknown.
  - apply ret_Ok in Hrun. injection Hrun as -> -> ->. cbn.
    rewrite ByKey_get_lookup in Hknown.
    destruct (bk_mMap (mGlobalSymbols s) !! id) as [[g symbol]|] eqn:E; [|done].
    cbn in Hknown. injection Hknown as ->. by exists id, symbol.
  - apply bind_Ok in Hrun as (nameId & s1 & Hname & Hrun).
    destruct (isBuiltIn type).
    + apply bind_Ok in Hrun as (globalId & s3 & Hins & Hrun).
      apply ret_Ok in Hrun. injection Hrun as -> -> ->.
      apply mGlobalSymbols_insert_lookup in Hins as (symbol & Hstored & _).
      by exists id, symbol.
    + apply bind_Ok in Hrun as (typeId & s3 & Htype & Hrun).
      destruct (ByKey.insert id (mkSymbol nameId (Some typeId)) localSymbols)
        as [localId localSymbols1] eqn:Hlocal.
      apply ret_Ok in Hrun. injection Hrun as -> -> ->. cbn.
      pose proof (ByKey_insert_lookup localSymbols id (mkSymbol nameId (Some typeId)))
        as Hstored.
      rewrite Hlocal in Hstored. cbn in Hstored.
      destruct (bk_mMap localSymbols1 !! id) as [[l symbol]|] eqn:E; [|done].
      cbn in Hstored. injection Hstored as ->. by exists id, symbol.
Qed.

(** The id that an expression lowers to is held by the table of its kind. *)
Lemma slurpValue_present node localSymbols s v localSymbols' s' :
  slurpValue node localSymbols s = Ok (v, localSymbols', s') →
  value_present s' localSymbols' v.
Proof.
  intros Hrun. destruct node; try (cbn in Hrun; by minv).
  - cbn in Hrun. unfold slurpValueFromSelection in Hrun. minv_cases.
    cbn. eexists. apply ByValue_insert_lookup.
  - cbn in Hrun. unfold slurpValueFromConstantUnion in Hrun. minv.
    destruct getConstArray as [|? [|? ?]]; minv;
      cbn; eexists; apply ByValue_insert_lookup.
  - exact (slurpValueFromSymbol_present _ _ _ _ _ _ _ _ Hrun).
  - cbn in Hrun. unfold slurpValueFromUnary in Hrun. minv.
    cbn. eexists. apply ByValue_insert_lookup.
  - cbn in Hrun. rewrite slurpValueFromBinary_unfold in Hrun. case_decide; [subst getOp|].
    + cbn in Hrun. destruct node2; minv. cbn. eexists. apply ByValue_insert_lookup.
    + minv. cbn. eexists. apply ByValue_insert_lookup.
  - change (slurpValue (TIntermAggregate type getOp getName getSequence) localSymbols s =
              Ok (v, localSymbols', s')) in Hrun.
    rewrite slurpValue_aggregate_unfold in Hrun.
    repeat case_decide; [by minv| |];
      unfold slurpValueFromFunctionCall, slurpValueFromAggregate in Hrun;
      minv; cbn; eexists; apply ByValue_insert_lookup.
Qed.

Lemma slurpType_present type s typeId s' :
  slurpType type s = Ok (typeId, s') → ∃ value, bv_mMap (mTypes s') !! value = Some typeId.
Proof.
  unfold slurpType. intros Hrun.
  apply bind_Ok in Hrun as (typeName & s0 & Hname & Hrun).
  apply bind_Ok in Hrun as (nameId & s1 & Hins & Hrun).
  apply bind_Ok in Hrun as (qualifiersId & s3 & Hq & Hrun).
  apply mTypes_insert_lookup in Hrun. eauto.
Qed.

Lemma slurpStatementBlock_present node localSymbols s id localSymbols' s' :
  slurpStatementBlock node localSymbols s = Ok (id, localSymbols', s') →
  ∃ value, bv_mMap (mStatementBlocks s') !! value = Some id.
Proof.
  unfold slurpStatementBlock, slurpStatementBlockRec. intros Hrun.
  apply bind_Ok in Hrun as ([ls1 statements] & s1 & Hblock & Hrun).
  apply bind_Ok in Hrun as (blockId & s2 & Hins & Hrun).
  apply ret_Ok in Hrun. injection Hrun as -> -> ->.
  rewrite mStatementBlocks_insert_Ok in Hins. injection Hins as <- <-.
  exists statements. apply ByValue_insert_lookup.
Qed.

Lemma slurpGlobalSymbol_present type id accessName s globalSymbolId s' :
  slurpGlobalSymbol type id accessName s = Ok (globalSymbolId, s') →
  ∃ key symbol, bk_mMap (mGlobalSymbols s') !! key = Some (globalSymbolId, symbol).
Proof.
  unfold slurpGlobalSymbol. intros Hrun.
  apply bind_Ok in Hrun as (typeId & s1 & Htype & Hrun).
  apply bind_Ok in Hrun as (nameId & s2 & Hname & Hrun).
  apply mGlobalSymbols_insert_lookup in Hrun as (symbol & Hstored & _).
  by exists id, symbol.
Qed.

(** The function tables and the list of global definitions of a Slurper
    mention ids of its stores only. *)
Record tables_closed (s : Slurper) : Prop := mkTablesClosed {
  closed_definitions :
    ∀ functionId definition,
      mFunctionDefinitions s !! functionId = Some definition →
      (∃ name, bv_mMap (mFunctionNames s) !! name = Some (definition_name definition)) ∧
      (∃ value, bv_mMap (mTypes s) !! value = Some (definition_returnType definition)) ∧
      (∃ value,
         bv_mMap (mStatementBlocks s) !! value = Some (definition_body definition)) ∧
      Forall (λ parameter, is_Some (definition_localSymbols definition !! parameter))
        (definition_parameters definition) ∧
      denseIds (definition_localSymbols definition);
  closed_prototypes :
    ∀ functionId,
      functionId ∈ mFunctionPrototypes s →
      ∃ name, bv_mMap (mFunctionNames s) !! name = Some functionId;
  closed_inOrder :
    ∀ functionId,
      functionId ∈ mFunctionDefinitionsInOrder s ↔
      functionId ∈ dom (mFunctionDefinitions s);
  closed_globals :
    ∀ globalSymbolId value,
      (globalSymbolId, value) ∈ mGlobalSymbolDefinitionsInOrder s →
      (∃ key symbol,
         bk_mMap (mGlobalSymbols s) !! key = Some (globalSymbolId, symbol)) ∧
      (∀ localId, value ≠ ValueLocal localId) ∧
      value_present s ByKey.empty value;
}.

Lemma value_present_preserved s s' localSymbols v :
  preserved s s' → value_present s localSymbols v → value_present s' localSymbols v.
Proof.
  intros Hp. destruct v; cbn; [|done|].
  - intros (key & symbol & Hl). exists key, symbol.
    eapply lookup_weaken; [exact Hl|apply Hp].
  - intros (value & Hl). exists value. eapply lookup_weaken; [exact Hl|apply Hp].
Qed.

(** The stores grew and the four tables are those of [s]: the tables are
    closed as they were. *)
Lemma tables_closed_preserved s s' :
  preserved s s' → tables_unchanged s s' → tables_closed s → tables_closed s'.
Proof.
  intros Hp [Hd Hpr Hg Ho] [Cd Cp Co Cg]. split.
  - rewrite Hd. intros functionId definition Hl.
    destruct (Cd _ _ Hl) as ((name & Hn) & (t & Ht) & (b & Hb) & Hparams & Hdense).
    split_and!; [exists name|exists t|exists b|done|done];
      (eapply lookup_weaken; [eassumption|apply Hp]).
  - rewrite Hpr. intros functionId (name & Hn)%Cp. exists name.
    eapply lookup_weaken; [exact Hn|apply Hp].
  - by rewrite Ho, Hd.
  - rewrite Hg. intros g v ((key & symbol & Hl) & Hlocal & Hv)%Cg. split_and!.
    + exists key, symbol. eapply lookup_weaken; [exact Hl|apply Hp].
    + done.
    + by eapply value_present_preserved.
Qed.

Lemma tables_closed_interned s s' : interned s s' → tables_closed s → tables_closed s'.
Proof.
  intros Hi. apply tables_closed_preserved.
  - by apply interned_preserved.
  - by apply interned_tables_unchanged.
Qed.

Lemma initialSlurper_closed version : tables_closed (initialSlurper version : Slurper).
Proof.
  split; cbn.
  - intros functionId definition Hl. by rewrite lookup_empty in Hl.
  - intros functionId Hin. by apply elem_of_empty in Hin.
  - intros functionId. rewrite dom_empty, elem_of_nil. set_solver.
  - intros g v Hin. by apply elem_of_nil in Hin.
Qed.

Lemma slurpFunctionDefinition_closed (node : TIntermAggregateNode) s u s' :
  slurpFunctionDefinition node s = Ok (u, s') → tables_closed s → tables_closed s'.
Proof.
  unfold slurpFunctionDefinition. intros Hrun Hclosed.
  apply bind_Ok in Hrun as (? & ? & Hop & Hrun). apply assertM_Ok in Hop as [_ ->].
  apply bind_Ok in Hrun as (? & ? & Hlen & Hrun). apply assertM_Ok in Hlen as [_ ->].
  apply bind_Ok in Hrun as (first & ? & Hfirst & Hrun).
  apply deref_Ok in Hfirst as [_ ->].
  destruct (getAsAggregate first) as [parametersNode|]; [|by minv].
  apply bind_Ok in Hrun as (functionId & s1 & Hname & Hrun).
  assert (interned s s1) as Hs1 by (minv; interned_tac).
  assert (bv_mMap (mFunctionNames s1) !! aggregateName node = Some functionId) as Hnamed.
  { rewrite mFunctionNames_insert_Ok in Hname. injection Hname as <- <-.
    apply ByValue_insert_lookup. }
  pose proof (tables_closed_interned _ _ Hs1 Hclosed) as [Cd Cp Co Cg].
  destruct (length (aggregateSequence node) =? 1)%nat.
  - apply modify_Ok in Hrun. injection Hrun as -> ->. split; cbn; [done| |done|done].
    intros fid [->%elem_of_singleton|Hin]%elem_of_union; [by eexists|by apply Cp].
  - apply bind_Ok in Hrun as (returnTypeId & s2 & Htype & Hrun).
    apply bind_Ok in Hrun as ([parameters ls1] & s3 & Hparams & Hrun).
    apply bind_Ok in Hrun as (body & ? & Hbody & Hrun).
    apply deref_Ok in Hbody as [_ ->].
    apply bind_Ok in Hrun as ([bodyId ls2] & s4 & Hblock & Hrun).
    apply bind_Ok in Hrun as (? & ? & Hdef & Hrun).
    apply modify_Ok in Hdef. injection Hdef as -> ->.
    apply modify_Ok in Hrun. injection Hrun as -> ->.
    assert (interned s1 s2) as H12 by (by eapply slurpType_interned).
    assert (interned s2 s3) as H23 by (by eapply slurpParameters_interned).
    assert (interned s3 s4) as H34 by (by eapply slurpStatementBlock_interned).
    assert (interned s1 s4) as H14 by (etrans; [exact H12|by etrans]).
    pose proof (tables_closed_interned _ _ H14 (mkTablesClosed _ Cd Cp Co Cg))
      as [Cd4 Cp4 Co4 Cg4].
    apply slurpType_present in Htype as (t & Ht).
    pose proof (slurpStatementBlock_present _ _ _ _ _ _ Hblock) as (b & Hb).
    apply slurpStatementBlock_locals in Hblock.
    apply slurpParameters_present in Hparams as (Hgrow & Hpresent & _).
    specialize (Hpresent (Forall_nil_2 _)).
    destruct (locals_grow_rep ByKey.empty ls2) as [l Hrep];
      [by etrans|exists []; apply ByKey_empty_rep|].
    split; cbn.
    + intros fid definition Hl.
      destruct (decide (fid = functionId)) as [->|Hne].
      * rewrite lookup_insert_eq in Hl. injection Hl as <-. cbn. split_and!.
        -- exists (aggregateName node).
           by eapply interned_functionNames_lookup; [exact H14|].
        -- exists t. eapply lookup_weaken; [exact Ht|].
           apply interned_preserved. by etrans.
        -- by exists b.
        -- eapply Forall_impl; [exact Hpresent|]. intros p Hp.
           apply (local_present_grow _ ls2) in Hp as (key & symbol & Hl); [|done].
           exists symbol. apply (ByKey_getFinal_lookup l ls2 _ _ Hrep). by exists key.
        -- apply ByKey_getFinal_dense. by exists l.
      * rewrite lookup_insert_ne in Hl by done. by eapply Cd4.
    + done.
    + intros fid. rewrite elem_of_app, list_elem_of_singleton, dom_insert, elem_of_union,
        elem_of_singleton, Co4. tauto.
    + done.
Qed.

Lemma slurpGlobalSymbolDefinition_closed child s localSymbols' s' :
  slurpGlobalSymbolDefinition child ByKey.empty s = Ok (localSymbols', s') →
  tables_closed s → tables_closed s'.
Proof.
  intros Hrun Hclosed.
  apply slurpGlobalSymbolDefinition_Ok in Hrun
    as (type & symbolType & id & name & accessName & right & gid & s1 & value & s2 &
        -> & Hglobal & Hvalue & Hempty & -> & _).
  assert (interned s s1) as H01 by (by eapply slurpGlobalSymbol_interned).
  assert (interned s1 s2) as H12 by (by eapply slurpValue_Ok_interned).
  assert (interned s s2) as H02 by (by etrans).
  pose proof (tables_closed_interned _ _ H02 Hclosed) as [Cd Cp Co Cg].
  apply slurpGlobalSymbol_present in Hglobal as (key & symbol & Hg).
  pose proof (slurpValue_present _ _ _ _ _ _ Hvalue) as Hpresent.
  assert (localSymbols' = ByKey.empty) as ->
    by (eapply locals_grow_empty; [by eapply slurpValue_Ok_locals|done]).
  split; cbn; [done|done|done|].
  intros g v [Hin|[= -> ->]%list_elem_of_singleton]%elem_of_app; [by apply Cg|].
  split_and!.
  - exists key, symbol. eapply lookup_weaken; [exact Hg|].
    by apply interned_preserved.
  - intros localId ->. cbn in Hpresent. destruct Hpresent as (k & sym & Hl).
    cbn in Hl. by rewrite lookup_empty in Hl.
  - done.
Qed.

Lemma forEach_closed {A} (f : A → M unit) (l : list A) :
  (∀ x s u s', f x s = Ok (u, s') → tables_closed s → tables_closed s') →
  ∀ s u s', forEach f l s = Ok (u, s') → tables_closed s → tables_closed s'.
Proof.
  intros Hf. induction l as [|x l IH]; intros s u s' Hrun Hclosed; cbn in Hrun.
  - by minv.
  - apply bind_Ok in Hrun as (? & s1 & Hx & Hrun). eauto.
Qed.

Lemma fromGlsl_closed (intermediate : @TIntermediate double) pack :
  fromGlsl intermediate = Ok pack →
  ∃ s, pack = intoPack s ∧ Slurper_wf s ∧ tables_closed s.
Proof.
  intros Hrun.
  pose proof (fromGlsl_wf _ _ Hrun) as (s & -> & Hwf & _).
  apply fromGlsl_Ok in Hrun
    as (rootNode & root & s1 & s2 & s3 & _ & _ & _ & Hs1 & Hs2 & Hs3 & Heq).
  exists s3. split; [done|].
  assert (tables_closed s3) as Hclosed.
  { eapply (forEach_closed slurpFunctionDefinition); [|exact Hs3|].
    { intros x sa u sb. apply slurpFunctionDefinition_closed. }
    eapply (forEach_closed slurpGlobalSymbolDefinitionInEmptyScope);
      [|apply Hs2|].
    { intros x sa u sb Hx. unfold slurpGlobalSymbolDefinitionInEmptyScope in Hx.
      apply bind_Ok in Hx as (ls & sc & Hx & Hret).
      apply ret_Ok in Hret. injection Hret as -> ->.
      by eapply slurpGlobalSymbolDefinition_closed. }
    eapply tables_closed_interned; [exact Hs1|apply initialSlurper_closed]. }
  split; [|done].
  eapply later_preserved; [|apply initialSlurper_wf].
  apply forEach_slurpFunctionDefinition_Ok in Hs3 as (Hs3 & _).
  etrans; [by apply interned_later|]. etrans; [apply Hs2|exact Hs3].
Qed.

(** X14. A Pack mentions ids of its own tables only. In every Pack that
    [fromGlsl] returns: each function definition has its name among the
    function names, its return type among the types and its body among the
    statement blocks, its parameters are local symbols of the definition,
    and its local symbols are numbered from 1 when their [int] counter
    has not overflowed (they are at most [INT_MAX]); each prototype is
    among the
    function names; the list of definitions in order holds exactly the
    keys of the definitions; and each global definition names a global
    symbol of the Pack and has for value a global symbol or an RValue of
    the Pack, never a local symbol. *)
Theorem pack_mentions_its_own_ids (intermediate : @TIntermediate double) pack :
  fromGlsl intermediate = Ok pack →
  (∀ functionId definition,
     pack_functionDefinitions pack !! functionId = Some definition →
     definitionClosed pack definition) ∧
  (∀ functionId,
     functionId ∈ pack_functionPrototypes pack →
     is_Some (pack_functionNames pack !! functionId)) ∧
  (∀ functionId,
     functionId ∈ pack_functionDefinitionsInOrder pack ↔
     functionId ∈ dom (pack_functionDefinitions pack)) ∧
  (∀ globalSymbolId value,
     (globalSymbolId, value) ∈ pack_globalSymbolDefinitionsInOrder pack →
     is_Some (pack_globalSymbols pack !! globalSymbolId) ∧
     globalValueClosed pack value).
Proof.
  intros (s & -> & (Hs & Ht & [lg Hg] & [lr Hr] & [lf Hf] & [lb Hb]) &
          [Cd Cp Co Cg])%fromGlsl_closed.
  destruct Ht as [lt Ht]. cbn.
  assert (∀ g, (∃ key symbol, bk_mMap (mGlobalSymbols s) !! key = Some (g, symbol)) →
               is_Some (ByKey.getFinal (mGlobalSymbols s) !! g)) as Hglobal.
  { intros g (key & symbol & Hl). exists symbol.
    apply (ByKey_getFinal_lookup lg _ _ _ Hg). by exists key. }
  split_and!.
  - intros functionId definition Hl.
    destruct (Cd _ _ Hl) as ((name & Hn) & (t & Htype) & (b & Hbody) & Hparams & Hdense).
    unfold definitionClosed. cbn. split_and!; [| | |done|by intros _].
    + exists name. by apply (ByValue_getFinal_lookup lf _ _ _ Hf).
    + exists t. by apply (ByValue_getFinal_lookup lt _ _ _ Ht).
    + exists b. by apply (ByValue_getFinal_lookup lb _ _ _ Hb).
  - intros functionId (name & Hn)%Cp. exists name.
    by apply (ByValue_getFinal_lookup lf _ _ _ Hf).
  - done.
  - intros g v (Hgid & Hlocal & Hv)%Cg. split; [by apply Hglobal|].
    destruct v as [g'|l|r]; cbn in *.
    + by apply Hglobal.
    + by destruct (Hlocal l).
    + destruct Hv as (value & Hl). exists value.
      by apply (ByValue_getFinal_lookup lr _ _ _ Hr).
Qed.

(** *** The failures of the pass *)

#[local] Abbreviation raisesOnly allowed m := (@raisesOnly double _ _ _ allowed m).

Lemma raisesOnly_ret allowed {A} (a : A) : raisesOnly allowed (ret a : M A).
Proof. intros s p Hrun. discriminate Hrun. Qed.

Lemma raisesOnly_bind allowed {A B} (m : M A) (k : A → M B) :
  raisesOnly allowed m → (∀ a, raisesOnly allowed (k a)) → raisesOnly allowed (bind m k).
Proof.
  intros Hm Hk s p [Hrun|(a & s1 & _ & Hrun)]%bind_Fatal; [by eapply Hm|by eapply Hk].
Qed.

Lemma raisesOnly_bind_post allowed {A B} (m : M A) (k : A → M B) (Q : A → Prop) :
  raisesOnly allowed m → (∀ s a s', m s = Ok (a, s') → Q a) →
  (∀ a, Q a → raisesOnly allowed (k a)) → raisesOnly allowed (bind m k).
Proof.
  intros Hm HQ Hk s p [Hrun|(a & s1 & Ha & Hrun)]%bind_Fatal; [by eapply Hm|].
  eapply Hk; [by eapply HQ|exact Hrun].
Qed.

Lemma raisesOnly_panic allowed {A} p : p ∈ allowed → raisesOnly allowed (panic p : M A).
Proof. intros Hp s q [= <-]. done. Qed.

Lemma raisesOnly_lift allowed {A} (r : Result A) :
  (∀ p, r = Fatal p → p ∈ allowed) → raisesOnly allowed (lift r : M A).
Proof.
  intros Hr s p Hrun. unfold lift in Hrun. destruct r; [done|]. apply Hr. congruence.
Qed.

Lemma raisesOnly_assertM allowed cond p :
  (cond = false → p ∈ allowed) → raisesOnly allowed (assertM cond p : M unit).
Proof.
  intros Hc. apply raisesOnly_lift. intros q. destruct cond; [done|].
  intros [= <-]. auto.
Qed.

Lemma raisesOnly_deref allowed {A} (pointer : option A) :
  NullDereference ∈ allowed → raisesOnly allowed (deref pointer : M A).
Proof.
  intros Hp. destruct pointer; [apply raisesOnly_ret|by apply raisesOnly_panic].
Qed.

Lemma raisesOnly_total allowed {A} (m : M A) :
  (∀ s, isOk (m s) = true) → raisesOnly allowed m.
Proof. intros Hm s p Hrun. specialize (Hm s). by rewrite Hrun in Hm. Qed.

Lemma raisesOnly_mono allowed allowed' {A} (m : M A) :
  allowed ⊆ allowed' → raisesOnly allowed m → raisesOnly allowed' m.
Proof. intros Hsub Hm s p Hrun. apply Hsub. by eapply Hm. Qed.

Lemma expressionPanics_statementPanics : expressionPanics ⊆ statementPanics.
Proof. intros p Hp. apply elem_of_app. by left. Qed.

Lemma statementPanics_passPanics : statementPanics ⊆ passPanics.
Proof. intros p Hp. apply elem_of_app. by left. Qed.

(** Prove that a panic is one of a list that is given, or that includes a
    list that is given. *)
Ltac panic_listed :=
  apply list_elem_of_In;
  cbv [In expressionPanics statementPanics passPanics app];
  repeat first [left; reflexivity | right].

Ltac panic_in :=
  first
    [ solve [panic_listed]
    | match goal with
      | Hsub : _ ⊆ ?allowed |- _ ∈ ?allowed => apply Hsub; solve [panic_listed]
      end ].

(** One step of the proof that a computation fails with allowed panics
    only, by the shape of the computation. *)
Ltac raises_step :=
  lazymatch goal with
  | |- raisesOnly _ (bind _ _) => apply raisesOnly_bind; [|intros ?]
  | |- raisesOnly _ (ret _) => apply raisesOnly_ret
  | |- raisesOnly _ (panic _) => apply raisesOnly_panic; panic_in
  | |- raisesOnly _ (assertM _ _) => apply raisesOnly_assertM; intros _; panic_in
  | |- raisesOnly _ (deref _) => apply raisesOnly_deref; panic_in
  | |- raisesOnly _ (gets _) => by apply raisesOnly_total
  | |- raisesOnly _ (modify _) => by apply raisesOnly_total
  | |- raisesOnly _ (mGlobalSymbols_get _) => by apply raisesOnly_total
  | |- raisesOnly _ (mStrings_insert _) =>
      apply raisesOnly_total; intros ?; by rewrite mStrings_insert_Ok
  | |- raisesOnly _ (mTypes_insert _) =>
      apply raisesOnly_total; intros ?; by rewrite mTypes_insert_Ok
  | |- raisesOnly _ (mGlobalSymbols_insert _ _) =>
      apply raisesOnly_total; intros ?; by rewrite mGlobalSymbols_insert_Ok
  | |- raisesOnly _ (mRValues_insert _) =>
      apply raisesOnly_total; intros ?; by rewrite mRValues_insert_Ok
  | |- raisesOnly _ (mFunctionNames_insert _) =>
      apply raisesOnly_total; intros ?; by rewrite mFunctionNames_insert_Ok
  | |- raisesOnly _ (mStatementBlocks_insert _) =>
      apply raisesOnly_total; intros ?; by rewrite mStatementBlocks_insert_Ok
  | |- raisesOnly _ (let '(_, _) := ?x in _) => destruct x
  | |- raisesOnly _ (match ?x with (_, _) => _ end) => destruct x
  | |- raisesOnly _ (if ?b then _ else _) => destruct b
  end.

Ltac raises_steps := repeat raises_step.

Section expression_panics.
Variable allowed : list Panic.
Hypothesis Hsub : expressionPanics ⊆ allowed.

Lemma slurpQualifiers_raises qualifier : raisesOnly allowed (slurpQualifiers qualifier).
Proof. unfold slurpQualifiers. raises_steps. Qed.

Lemma expandTypeNameToVector_raises typeNames vectorSize p :
  expandTypeNameToVector typeNames vectorSize = Fatal p → p ∈ allowed.
Proof.
  unfold expandTypeNameToVector, assertPrecondition.
  destruct (_ && _); cbn; intros [= <-]. panic_in.
Qed.

Lemma expandTypeNameToVectorOrMatrix_raises typeNames isMatrix vectorSize cols rows p :
  expandTypeNameToVectorOrMatrix typeNames isMatrix vectorSize cols rows = Fatal p →
  p ∈ allowed.
Proof.
  unfold expandTypeNameToVectorOrMatrix, assertPrecondition.
  destruct isMatrix; [|apply expandTypeNameToVector_raises].
  destruct (_ && _); cbn; [|intros [= <-]; panic_in].
  destruct (_ && _); cbn; intros [= <-]. panic_in.
Qed.

Lemma slurpType_raises type : raisesOnly allowed (slurpType type).
Proof.
  unfold slurpType. apply raisesOnly_bind; [|intros typeName].
  - apply raisesOnly_lift. intros p.
    destruct (getBasicType type); try discriminate;
      first [ apply expandTypeNameToVectorOrMatrix_raises
            | apply expandTypeNameToVector_raises
            | intros [= <-]; panic_in ].
  - raises_steps. apply slurpQualifiers_raises.
Qed.

Lemma glslangOperatorToRValueOperator_raises op version returnType arg1Type p :
  glslangOperatorToRValueOperator op version returnType arg1Type = Fatal p →
  p ∈ allowed.
Proof.
  destruct op; try discriminate;
    cbn; unfold textureFunctionNameForSampler;
    repeat case_match; cbn; try discriminate; intros [= <-]; panic_in.
Qed.

Lemma slurpOperator_raises op returnType arg1Type :
  raisesOnly allowed (slurpOperator op returnType arg1Type).
Proof.
  unfold slurpOperator. raises_step; [raises_step|].
  apply raisesOnly_bind; [|intros [[tag|name] logged]; raises_steps].
  apply raisesOnly_lift. apply glslangOperatorToRValueOperator_raises.
Qed.

Lemma constUnionToLiteralRValue_raises (value : TConstUnion) p :
  constUnionToLiteralRValue value = Fatal p → p ∈ allowed.
Proof. destruct value; try discriminate; intros [= <-]; panic_in. Qed.

Lemma slurpConstArray_raises constArray : raisesOnly allowed (slurpConstArray constArray).
Proof.
  induction constArray as [|value rest IH]; cbn; raises_steps; [|exact IH].
  apply raisesOnly_lift. apply constUnionToLiteralRValue_raises.
Qed.

Lemma slurpValueFromConstantUnion_raises type constArray :
  raisesOnly allowed (slurpValueFromConstantUnion type constArray).
Proof.
  unfold slurpValueFromConstantUnion.
  destruct constArray as [|value [|value2 rest]]; raises_steps;
    try (apply raisesOnly_lift; apply constUnionToLiteralRValue_raises);
    try apply slurpConstArray_raises.
  apply raisesOnly_lift. intros p. repeat case_match; try discriminate;
    intros [= <-]; panic_in.
Qed.

Lemma slurpValueFromSymbol_raises type id accessName localSymbols :
  raisesOnly allowed (slurpValueFromSymbol type id accessName localSymbols).
Proof.
  unfold slurpValueFromSymbol. raises_step; [raises_step|].
  destruct a; raises_steps. apply slurpType_raises.
Qed.

Definition value_raises (node : TIntermNode) : Prop :=
  ∀ localSymbols, raisesOnly allowed (slurpValue node localSymbols).

Lemma slurpArguments_raises notTyped sequence :
  notTyped ∈ allowed → Forall value_raises sequence →
  ∀ localSymbols args,
    raisesOnly allowed (slurpArguments slurpValue notTyped sequence localSymbols args).
Proof.
  intros Hp. induction 1 as [|arg rest Harg _ IH]; intros localSymbols args; cbn.
  - apply raisesOnly_ret.
  - destruct (getAsTyped arg); [|by apply raisesOnly_panic].
    apply raisesOnly_bind; [apply Harg|]. intros [argId ls]. apply IH.
Qed.

Lemma slurpValue_raises node : value_raises node.
Proof.
  induction node as
    [ | | | type cond trueBlock falseBlock IHc IHt IHf | | | type op operand IH
    | type op lhs rhs IHl IHr | type op name sequence IH | ] using TIntermNode_ind;
    intros localSymbols; try (cbn; apply raisesOnly_panic; panic_in).
  - (* selection *)
    cbn. unfold slurpValueFromSelection.
    apply raisesOnly_bind; [apply IHc|]. intros [conditionId ls1].
    destruct trueBlock as [trueNode|], falseBlock as [falseNode|];
      try (apply raisesOnly_panic; panic_in).
    destruct (getAsTyped trueNode), (getAsTyped falseNode);
      try (apply raisesOnly_panic; panic_in).
    apply raisesOnly_bind; [by apply IHt|]. intros [trueId ls2].
    apply raisesOnly_bind; [by apply IHf|]. intros [falseId ls3].
    raises_steps.
  - (* constant *)
    cbn. raises_steps. apply slurpValueFromConstantUnion_raises.
  - (* symbol *)
    apply slurpValueFromSymbol_raises.
  - (* unary *)
    cbn. unfold slurpValueFromUnary.
    apply raisesOnly_bind; [apply IH|]. intros [operandId ls1].
    raises_steps. apply slurpOperator_raises.
  - (* binary *)
    cbn. rewrite slurpValueFromBinary_unfold. case_decide.
    + cbn. destruct rhs; try (apply raisesOnly_panic; panic_in). raises_steps.
    + apply raisesOnly_bind; [apply IHl|]. intros [lhsId ls1].
      apply raisesOnly_bind; [apply IHr|]. intros [rhsId ls2].
      raises_steps. apply slurpOperator_raises.
  - (* aggregate *)
    rewrite slurpValue_aggregate_unfold.
    repeat case_decide; [apply raisesOnly_panic; panic_in| |].
    + unfold slurpValueFromFunctionCall. raises_step; [raises_step|].
      apply raisesOnly_bind; [apply slurpArguments_raises; [panic_in|done]|].
      intros [args ls1]. raises_steps.
    + unfold slurpValueFromAggregate.
      apply raisesOnly_bind; [apply slurpArguments_raises; [panic_in|done]|].
      intros [args ls1]. apply raisesOnly_bind; [|intros firstArgType].
      * destruct sequence; raises_steps.
      * raises_steps. apply slurpOperator_raises.
Qed.
End expression_panics.

Section statement_panics.
Variable allowed : list Panic.
Hypothesis Hsub : statementPanics ⊆ allowed.

Lemma expression_panics_allowed : expressionPanics ⊆ allowed.
Proof. etrans; [apply expressionPanics_statementPanics|exact Hsub]. Qed.

Lemma typedNodeToStatements_raises node localSymbols output :
  raisesOnly allowed (typedNodeToStatements node localSymbols output).
Proof.
  unfold typedNodeToStatements.
  destruct (getAsTyped node); [|apply raisesOnly_panic; panic_in].
  destruct (getAsSymbolNode node) eqn:Hsym; cbn [negb andb]; [apply raisesOnly_ret|].
  destruct (negb (getAsConstantUnion node)); [|apply raisesOnly_ret].
  apply (raisesOnly_bind_post _ _ _ (λ r, ∃ id, r.1 = ValueRValue id)).
  - apply slurpValue_raises, expression_panics_allowed.
  - intros s [v ls'] s' Hrun. by eapply slurpValue_rvalue.
  - intros [v ls'] [id Hv]. cbn in Hv. subst v. apply raisesOnly_ret.
Qed.

Lemma slurpLoopTerminal_raises getTerminal localSymbols :
  raisesOnly allowed (slurpLoopTerminal getTerminal localSymbols).
Proof.
  unfold slurpLoopTerminal. destruct getTerminal as [terminal|]; [|apply raisesOnly_ret].
  destruct (getAsSymbolNode terminal) eqn:Hsym; cbn [negb andb]; [apply raisesOnly_ret|].
  destruct (negb (getAsConstantUnion terminal)); [|apply raisesOnly_ret].
  apply (raisesOnly_bind_post _ _ _ (λ r, ∃ id, r.1 = ValueRValue id)).
  - apply slurpValue_raises, expression_panics_allowed.
  - intros s [v ls'] s' Hrun. by eapply slurpValue_rvalue.
  - intros [v ls'] [id Hv]. cbn in Hv. subst v. apply raisesOnly_ret.
Qed.

Definition statements_raise (node : TIntermNode) : Prop :=
  ∀ localSymbols output, raisesOnly allowed (nodeToStatements node localSymbols output).

Lemma nodesToStatements_raises sequence :
  Forall statements_raise sequence →
  ∀ localSymbols output,
    raisesOnly allowed (nodesToStatements nodeToStatements sequence localSymbols output).
Proof.
  induction 1 as [|child rest Hchild _ IH]; intros localSymbols output; cbn.
  - apply raisesOnly_ret.
  - apply raisesOnly_bind; [apply Hchild|]. intros [ls out]. apply IH.
Qed.

Lemma slurpStatementBlockRec_raises node :
  statements_raise node →
  ∀ localSymbols,
    raisesOnly allowed (slurpStatementBlockRec nodeToStatements node localSymbols).
Proof.
  intros Hnode localSymbols. unfold slurpStatementBlockRec.
  apply raisesOnly_bind; [|intros [ls statements]; raises_steps].
  destruct node; try apply Hnode.
  specialize (Hnode localSymbols []).
  rewrite nodeToStatements_aggregate_unfold in Hnode.
  destruct getOp; try exact Hnode. by rewrite decide_False in Hnode.
Qed.

Lemma nodeToStatements_raises node : statements_raise node.
Proof.
  induction node as
    [ test terminal testFirst body IHtest IHterminal IHbody
    | flowOp expression IH
    | cond body IHc IHb
    | type cond trueBlock falseBlock IHc IHt IHf | | | type op operand IH
    | type op lhs rhs IHl IHr | type op name sequence IH | ] using TIntermNode_ind;
    intros localSymbols output;
    try exact (typedNodeToStatements_raises _ localSymbols output).
  - (* loop *)
    cbn. destruct test as [test|]; [|apply raisesOnly_panic; panic_in].
    apply raisesOnly_bind;
      [apply slurpValue_raises, expression_panics_allowed|intros [c ls1]].
    apply raisesOnly_bind; [apply slurpLoopTerminal_raises|intros [t ls2]].
    destruct body as [body|]; [|apply raisesOnly_panic; panic_in].
    apply raisesOnly_bind; [|intros [b ls3]; apply raisesOnly_ret].
    apply slurpStatementBlockRec_raises. by apply IHbody.
  - (* branch *)
    cbn. apply raisesOnly_bind; [|intros branchOp].
    + apply raisesOnly_lift. intros p.
      destruct flowOp; try discriminate; intros [= <-]; panic_in.
    + apply raisesOnly_bind; [|intros [operandId ls1]; apply raisesOnly_ret].
      destruct expression as [operand|]; [|apply raisesOnly_ret].
      apply raisesOnly_bind; [|intros [v ls1]; apply raisesOnly_ret].
      apply slurpValue_raises, expression_panics_allowed.
  - (* switch *)
    cbn. destruct (getAsTyped cond); [|apply raisesOnly_panic; panic_in].
    apply raisesOnly_bind;
      [apply slurpValue_raises, expression_panics_allowed|intros [c ls1]].
    apply raisesOnly_bind; [|intros [b ls2]; apply raisesOnly_ret].
    by apply slurpStatementBlockRec_raises.
  - (* selection *)
    cbn. apply raisesOnly_bind;
      [apply slurpValue_raises, expression_panics_allowed|intros [c ls1]].
    destruct trueBlock as [trueBlock|]; [|apply raisesOnly_panic; panic_in].
    apply raisesOnly_bind;
      [apply slurpStatementBlockRec_raises; by apply IHt|intros [t ls2]].
    apply raisesOnly_bind; [|intros [f ls3]; apply raisesOnly_ret].
    destruct falseBlock as [falseBlock|]; [|apply raisesOnly_ret].
    apply raisesOnly_bind; [|intros [f ls3]; apply raisesOnly_ret].
    apply slurpStatementBlockRec_raises. by apply IHf.
  - (* aggregate *)
    rewrite nodeToStatements_aggregate_unfold. case_decide.
    + by apply nodesToStatements_raises.
    + apply typedNodeToStatements_raises.
Qed.
End statement_panics.

Section pass_panics.
Variable allowed : list Panic.
Hypothesis Hsub : passPanics ⊆ allowed.

Lemma statement_panics_allowed : statementPanics ⊆ allowed.
Proof. etrans; [apply statementPanics_passPanics|exact Hsub]. Qed.

Lemma expression_panics_allowed_in_pass : expressionPanics ⊆ allowed.
Proof. apply expression_panics_allowed, statement_panics_allowed. Qed.

Lemma slurpGlobalSymbol_raises type id accessName :
  raisesOnly allowed (slurpGlobalSymbol type id accessName).
Proof.
  unfold slurpGlobalSymbol. raises_steps.
  apply slurpType_raises, expression_panics_allowed_in_pass.
Qed.

Lemma forEach_raises {A} (f : A → M unit) (l : list A) :
  Forall (λ x, raisesOnly allowed (f x)) l → raisesOnly allowed (forEach f l).
Proof.
  induction 1 as [|x l Hx _ IH]; cbn; [apply raisesOnly_ret|].
  apply raisesOnly_bind; [exact Hx|intros _; exact IH].
Qed.

Lemma forEachWith_raises {A B} (f : A → B → M B) (l : list A) :
  Forall (λ x, ∀ acc, raisesOnly allowed (f x acc)) l →
  ∀ acc, raisesOnly allowed (forEachWith f l acc).
Proof.
  induction 1 as [|x l Hx _ IH]; intros acc; cbn; [apply raisesOnly_ret|].
  apply raisesOnly_bind; [apply Hx|intros acc'; apply IH].
Qed.

Lemma slurpLinkerObject_raises child : raisesOnly allowed (slurpLinkerObject child).
Proof.
  unfold slurpLinkerObject. destruct child; try (apply raisesOnly_panic; panic_in).
  raises_steps. apply slurpGlobalSymbol_raises.
Qed.

Lemma slurpGlobalSymbolDefinition_raises child emptyLocalSymbols :
  raisesOnly allowed (slurpGlobalSymbolDefinition child emptyLocalSymbols).
Proof.
  destruct child; try (apply raisesOnly_panic; panic_in).
  rewrite slurpGlobalSymbolDefinition_binary_unfold.
  case_decide; [|apply raisesOnly_panic; panic_in].
  cbn. destruct child1; try (apply raisesOnly_panic; panic_in).
  apply raisesOnly_bind; [apply slurpGlobalSymbol_raises|intros globalSymbolId].
  apply raisesOnly_bind;
    [apply slurpValue_raises, expression_panics_allowed_in_pass|intros [v ls]].
  raises_steps.
Qed.

Lemma slurpParameters_raises sequence localSymbols parameters :
  raisesOnly allowed (slurpParameters sequence localSymbols parameters).
Proof.
  revert localSymbols parameters.
  induction sequence as [|parameter rest IH]; intros localSymbols parameters; cbn.
  - apply raisesOnly_ret.
  - destruct parameter; try (apply raisesOnly_panic; panic_in).
    raises_step; [raises_step|].
    apply raisesOnly_bind;
      [apply slurpType_raises, expression_panics_allowed_in_pass|intros typeId].
    destruct (ByKey.insert _ _ _). apply IH.
Qed.

Lemma slurpFunctionDefinition_raises (fn : TIntermAggregateNode) :
  aggregateOp fn = EOpFunction → raisesOnly allowed (slurpFunctionDefinition fn).
Proof.
  intros Hop. unfold slurpFunctionDefinition. rewrite Hop.
  apply raisesOnly_bind; [by apply raisesOnly_assertM|intros _].
  raises_step; [raises_step|]. raises_step; [raises_step|].
  destruct (getAsAggregate a0); [|apply raisesOnly_panic; panic_in].
  raises_step; [raises_step|]. destruct (_ =? _)%nat; [raises_step|].
  apply raisesOnly_bind;
    [apply slurpType_raises, expression_panics_allowed_in_pass|intros returnTypeId].
  apply raisesOnly_bind; [apply slurpParameters_raises|intros [parameters ls1]].
  raises_step; [raises_step|].
  apply raisesOnly_bind; [|intros [bodyId ls2]; raises_steps].
  apply slurpStatementBlockRec_raises.
  apply nodeToStatements_raises, statement_panics_allowed.
Qed.

Lemma childrenWithOp_selected select (children : list TIntermNode) :
  Forall (λ fn : TIntermAggregateNode, select (aggregateOp fn) = true)
    (childrenWithOp select children).
Proof.
  induction children as [|child children IH]; [constructor|].
  unfold childrenWithOp in *. cbn [omap list_omap].
  destruct (getAsAggregate child) as [fn|]; [|exact IH].
  destruct (select (aggregateOp fn)) eqn:Hsel; [|exact IH].
  by constructor.
Qed.

Lemma slurpFromRoot_raises (root : option TIntermAggregateNode) :
  raisesOnly allowed (slurpFromRoot root).
Proof.
  unfold slurpFromRoot. destruct root as [root|]; [|apply raisesOnly_panic; panic_in].
  raises_step; [raises_step|].
  apply (raisesOnly_bind_post _ _ _
           (λ sorted, Forall (λ fn : TIntermAggregateNode, aggregateOp fn = EOpFunction)
                        (functionNodes sorted))).
  - apply raisesOnly_lift. intros p. rewrite sortChildren_spec.
    destruct (forallb _ _); [done|]. intros [= <-]. panic_in.
  - intros s sorted s' [(_ & _ & Hf)%sortChildren_Ok _]%lift_Ok.
    rewrite Hf. cbn.
    eapply Forall_impl; [apply childrenWithOp_selected|].
    intros fn Hfn. cbn in Hfn. by destruct (aggregateOp fn).
  - intros sorted Hfunctions.
    apply raisesOnly_bind; [|intros _].
    { apply forEach_raises, Forall_forall. intros linkerObject _.
      apply forEach_raises, Forall_forall. intros child _.
      apply slurpLinkerObject_raises. }
    apply raisesOnly_bind; [|intros _].
    { apply forEachWith_raises, Forall_forall. intros sq _ acc.
      apply forEachWith_raises, Forall_forall. intros child _ acc'.
      apply slurpGlobalSymbolDefinition_raises. }
    apply forEach_raises. eapply Forall_impl; [exact Hfunctions|].
    intros fn. apply slurpFunctionDefinition_raises.
Qed.
End pass_panics.

(** X15. The failures of the pass. The lowering of an expression fails
    with one of the panics of expressions only, the lowering of a
    statement with one of these or one of the two panics of statements
    only, and [fromGlsl] with one of the panics of a pass only. Three
    checks of the source never fail, whatever the input: that a node
    handed to [slurpFunctionDefinition] is a function, that the terminal
    of a loop lowers to an RValue, and that a statement lowers to an
    RValue. Every panic of the source is of one kind or the other. *)
Theorem failures_of_the_pass :
  (∀ node localSymbols s p,
     slurpValue node localSymbols s = Fatal p → p ∈ expressionPanics) ∧
  (∀ node localSymbols output s p,
     nodeToStatements node localSymbols output s = Fatal p → p ∈ statementPanics) ∧
  (∀ (intermediate : @TIntermediate double) p,
     fromGlsl intermediate = Fatal p → p ∈ passPanics ∧ p ∉ unreachablePanics) ∧
  (∀ p, p ∈ passPanics ∨ p ∈ unreachablePanics).
Proof.
  split_and!.
  - intros node localSymbols s p. by apply (slurpValue_raises expressionPanics).
  - intros node localSymbols output s p. by apply (nodeToStatements_raises statementPanics).
  - intros intermediate p Hrun.
    assert (p ∈ passPanics) as Hp.
    { unfold fromGlsl, newSlurper in Hrun.
      destruct (getTreeRoot intermediate) as [root|]; cbn in Hrun.
      - destruct (slurpFromRoot _ _) as [[u s]|q] eqn:Hroot; [discriminate|].
        cbn in Hrun. injection Hrun as <-.
        by apply (slurpFromRoot_raises passPanics) in Hroot.
      - injection Hrun as <-. panic_listed. }
    split; [done|]. intros Hun.
    apply list_elem_of_In in Hp, Hun. cbv in Hp, Hun.
    intuition (subst; discriminate).
  - intros p. destruct p;
      first [ left; solve [panic_listed]
            | right; apply list_elem_of_In; cbv; tauto ].
Qed.

(** *** The parameters of a function *)

Lemma slurpParameters_insertAll sequence localSymbols parameters s
    parameters' localSymbols' s' :
  slurpParameters sequence localSymbols parameters s =
    Ok (parameters', localSymbols', s') →
  ∃ bindings : list (Z * Symbol),
    bindings.*1 = symbolIds sequence ∧
    length (symbolIds sequence) = length sequence ∧
    parameters' = parameters ++ (ByKey.insertAll bindings localSymbols).1 ∧
    localSymbols' = (ByKey.insertAll bindings localSymbols).2.
Proof.
  revert localSymbols parameters s.
  induction sequence as [|parameter rest IH]; intros localSymbols parameters s Hrun;
    cbn in Hrun.
  - minv. exists []. cbn. by rewrite app_nil_r.
  - destruct parameter; try (by minv).
    apply bind_Ok in Hrun as (nameId & s1 & Hname & Hrun).
    apply bind_Ok in Hrun as (typeId & s2 & Htype & Hrun).
    destruct (ByKey.insert getId (mkSymbol nameId (Some typeId)) localSymbols)
      as [symbolId ls1] eqn:Hinsert.
    apply IH in Hrun as (bindings & Hkeys & Hlength & -> & ->).
    exists ((getId, mkSymbol nameId (Some typeId)) :: bindings).
    cbn. rewrite Hinsert.
    destruct (ByKey.insertAll bindings ls1) as [ids ls2]. cbn.
    split_and!; [by f_equal|by f_equal| |done].
    by rewrite <- app_assoc.
Qed.

Lemma foldl_addBinding_NoDup {Value} (bindings seen : list (Z * Value)) :
  NoDup (seen.*1 ++ bindings.*1) → foldl addBinding seen bindings = seen ++ bindings.
Proof.
  revert seen. induction bindings as [|[k v] bindings IH]; intros seen Hnd; cbn.
  - by rewrite app_nil_r.
  - unfold addBinding at 2. cbn.
    rewrite decide_False.
    + rewrite IH; [by rewrite <- app_assoc|].
      rewrite fmap_app. cbn. by rewrite <- app_assoc.
    + intros Hin. apply NoDup_app in Hnd as (_ & Hdisjoint & _).
      apply (Hdisjoint k Hin). cbn. by left.
Qed.

(** X16. The parameters of a function are its first local symbols.
    [slurpParameters], run from the empty scope of a function definition,
    returns one LocalSymbolId per parameter node, in order; the id of a
    parameter is the id that the scope holds for the id of its symbol
    node, so two parameter nodes of one id share a LocalSymbolId; and when
    the ids of the nodes are distinct and the [int] counter of the scope
    does not overflow (there are at most [INT_MAX] parameters) the
    parameters are [1..n], whatever was lowered before in other
    functions. *)
Theorem parameters_are_the_first_local_symbols sequence s parameters localSymbols s' :
  slurpParameters sequence ByKey.empty [] s = Ok (parameters, localSymbols, s') →
  length parameters = length sequence ∧
  length (symbolIds sequence) = length sequence ∧
  (∀ (i : nat) id, symbolIds sequence !! i = Some id →
     is_Some (parameters !! i) ∧ parameters !! i = ByKey.get id localSymbols) ∧
  (NoDup (symbolIds sequence) → no_overflow (Z.of_nat (length sequence)) →
   parameters = (λ i : nat, of_int (Z.of_nat i + 1)) <$> seq 0 (length sequence)).
Proof.
  intros (bindings & Hkeys & Hlength & -> & ->)%slurpParameters_insertAll.
  cbn [app].
  assert (length bindings = length sequence) as Hbindings
    by (by rewrite <- Hlength, <- Hkeys, length_fmap).
  assert (∀ (i : nat) id, symbolIds sequence !! i = Some id →
            ∃ symbol, bindings !! i = Some (id, symbol)) as Hbinding.
  { intros i id Hi. rewrite <- Hkeys, list_lookup_fmap in Hi.
    destruct (bindings !! i) as [[k symbol]|]; [|done].
    cbn in Hi. injection Hi as ->. by exists symbol. }
  split_and!.
  - by rewrite ByKey_insertAll_length.
  - done.
  - intros i id Hi. destruct (Hbinding i id Hi) as (symbol & Hb). split.
    + apply lookup_lt_is_Some. rewrite ByKey_insertAll_length.
      by eapply lookup_lt_Some.
    + rewrite ByKey_get_lookup. by eapply ByKey_insertAll_ids.
  - intros Hnd _.
    pose proof (ByKey_insertAll_rep bindings [] (ByKey.empty : LocalSymbols)
                  ByKey_empty_rep) as (_ & _ & Hmap).
    rewrite foldl_addBinding_NoDup in Hmap by (by rewrite Hkeys).
    cbn [app] in Hmap.
    apply list_eq. intros i. rewrite list_lookup_fmap.
    destruct (decide (i < length sequence)%nat) as [Hlt|Hge].
    + rewrite lookup_seq_lt by done. cbn.
      destruct (lookup_lt_is_Some_2 bindings i) as [[k symbol] Hb]; [lia|].
      rewrite (ByKey_insertAll_ids bindings ByKey.empty i k symbol Hb).
      assert (bk_mMap (ByKey.insertAll bindings (ByKey.empty : LocalSymbols)).2 !! k =
                Some (of_int (Z.of_nat i + 1), symbol)) as -> by (apply Hmap; eauto).
      done.
    + rewrite lookup_seq_ge by lia. cbn. apply lookup_ge_None.
      rewrite ByKey_insertAll_length. lia.
Qed.

(** *** Lowering an expression again *)

(** [t'] is [t] with lines appended to the error log. *)
Definition only_logged (t t' : Slurper) : Prop :=
  ∃ logged, t' = set_slog (slog t ++ logged) t.

(** In the state [t] the computation [m] returns [a] and changes nothing
    but the log. *)
Definition replays {A} (m : M A) (a : A) (t : Slurper) : Prop :=
  ∃ t', m t = Ok (a, t') ∧ only_logged t t'.

Lemma only_logged_refl t : only_logged t t.
Proof. exists []. destruct t. cbn. by rewrite app_nil_r. Qed.

Lemma only_logged_trans t1 t2 t3 :
  only_logged t1 t2 → only_logged t2 t3 → only_logged t1 t3.
Proof.
  intros [l1 ->] [l2 ->]. exists (l1 ++ l2). destruct t1. cbn. by rewrite app_assoc.
Qed.

Lemma only_logged_interned t t' : only_logged t t' → interned t t'.
Proof. intros [logged ->]. apply rtc_once, intern_log. Qed.

Lemma only_logged_later s t t' : later s t → only_logged t t' → later s t'.
Proof. intros Hl Ho. etrans; [exact Hl|]. by apply interned_later, only_logged_interned. Qed.

Lemma only_logged_globals t t' : only_logged t t' → mGlobalSymbols t' = mGlobalSymbols t.
Proof. by intros [logged ->]. Qed.

Lemma replays_ret {A} (a : A) t : replays (ret a) a t.
Proof. exists t. split; [done|apply only_logged_refl]. Qed.

Lemma replays_same {A} (m : M A) (a : A) t : m t = Ok (a, t) → replays m a t.
Proof. intros Hm. exists t. split; [done|apply only_logged_refl]. Qed.

Lemma replays_bind {A B} (m : M A) (k : A → M B) (a : A) (b : B) t :
  replays m a t → (∀ t1, only_logged t t1 → replays (k a) b t1) →
  replays (bind m k) b t.
Proof.
  intros (t1 & Hm & H1) Hk. destruct (Hk t1 H1) as (t2 & Hk2 & H2).
  exists t2. split; [|by eapply only_logged_trans].
  apply bind_Ok. by exists a, t1.
Qed.

Lemma mRValues_insert_hit value s id :
  bv_mMap (mRValues s) !! value = Some id → mRValues_insert value s = Ok (id, s).
Proof.
  intros Hl. rewrite mRValues_insert_Ok, (ByValue_insert_hit _ _ _ Hl). by destruct s.
Qed.

Lemma mFunctionNames_insert_hit value s id :
  bv_mMap (mFunctionNames s) !! value = Some id → mFunctionNames_insert value s = Ok (id, s).
Proof.
  intros Hl. rewrite mFunctionNames_insert_Ok, (ByValue_insert_hit _ _ _ Hl).
  by destruct s.
Qed.

Lemma mStrings_insert_again value sa id sb t :
  mStrings_insert value sa = Ok (id, sb) → later sb t →
  replays (mStrings_insert value) id t.
Proof.
  intros Hl%mStrings_insert_lookup Hlater. apply replays_same, mStrings_insert_hit.
  eapply lookup_weaken; [exact Hl|]. by apply later_preserved.
Qed.

Lemma mRValues_insert_again value sa id sb t :
  mRValues_insert value sa = Ok (id, sb) → later sb t →
  replays (mRValues_insert value) id t.
Proof.
  rewrite mRValues_insert_Ok. intros [= <- <-] Hlater.
  apply replays_same, mRValues_insert_hit.
  eapply lookup_weaken; [apply ByValue_insert_lookup|].
  apply (later_preserved _ _ Hlater).
Qed.

Lemma mFunctionNames_insert_again value sa id sb t :
  mFunctionNames_insert value sa = Ok (id, sb) → later sb t →
  replays (mFunctionNames_insert value) id t.
Proof.
  rewrite mFunctionNames_insert_Ok. intros [= <- <-] Hlater.
  apply replays_same, mFunctionNames_insert_hit.
  eapply lookup_weaken; [apply ByValue_insert_lookup|].
  apply (later_preserved _ _ Hlater).
Qed.

Lemma slurpOperator_again op returnType arg1Type sa r sb t :
  slurpOperator op returnType arg1Type sa = Ok (r, sb) → later sb t →
  replays (slurpOperator op returnType arg1Type) r t.
Proof.
  intros Hrun Hlater.
  assert (mVersion t = mVersion sa) as Hversion.
  { pose proof (slurpOperator_interned _ _ _ _ _ _ Hrun) as Hi.
    destruct (interned_preserved _ _ Hi), (later_preserved _ _ Hlater). congruence. }
  unfold slurpOperator in *.
  apply bind_Ok in Hrun as (version & s0 & Hget & Hrun).
  apply gets_Ok in Hget. injection Hget as -> ->.
  apply bind_Ok in Hrun as ([opOrFunctionName logged] & s0 & Hmap & Hrun).
  apply lift_Ok in Hmap as [Hmap ->].
  apply bind_Ok in Hrun as (u & s1 & Hlog & Hrun).
  apply modify_Ok in Hlog. injection Hlog as -> ->.
  apply (replays_bind _ _ (mVersion sa)); [apply replays_same; unfold gets; by rewrite Hversion|].
  intros t1 Ht1. cbn beta.
  apply (replays_bind _ _ (opOrFunctionName, logged));
    [apply replays_same; by apply lift_Ok|].
  intros t2 Ht2. cbn beta iota.
  apply (replays_bind _ _ tt); [by exists (set_slog (slog t2 ++ logged) t2); split; [|exists logged]|].
  intros t3 Ht3.
  destruct opOrFunctionName as [tag|name].
  - apply ret_Ok in Hrun. injection Hrun as -> ->. apply replays_ret.
  - apply bind_Ok in Hrun as (id & s2 & Hins & Hrun).
    apply ret_Ok in Hrun. injection Hrun as -> ->.
    apply (replays_bind _ _ id); [|intros; apply replays_ret].
    eapply mFunctionNames_insert_again; [exact Hins|].
    do 3 (eapply only_logged_later; [|eassumption]). exact Hlater.
Qed.

Lemma slurpType_replays type sa typeId sb t :
  slurpType type sa = Ok (typeId, sb) → later sb t → replays (slurpType type) typeId t.
Proof. intros Hrun Hlater. apply replays_same. by eapply slurpType_again. Qed.

Lemma slurpConstArray_again constArray sa args sb t :
  slurpConstArray constArray sa = Ok (args, sb) → later sb t →
  replays (slurpConstArray constArray) args t.
Proof.
  revert sa args t. induction constArray as [|value rest IH]; intros sa args t Hrun Hlater;
    cbn in Hrun |- *.
  - apply ret_Ok in Hrun. injection Hrun as -> ->. apply replays_ret.
  - apply bind_Ok in Hrun as (literal & s0 & Hlit & Hrun).
    apply lift_Ok in Hlit as [Hlit ->].
    apply bind_Ok in Hrun as (id & s1 & Hins & Hrun).
    apply bind_Ok in Hrun as (rest' & s2 & Hrest & Hrun).
    apply ret_Ok in Hrun. injection Hrun as -> ->.
    pose proof (slurpConstArray_interned _ _ _ _ Hrest) as Hi.
    apply (replays_bind _ _ literal); [apply replays_same; by apply lift_Ok|].
    intros t1 Ht1. pose proof (only_logged_later _ _ _ Hlater Ht1) as Hlater1.
    apply (replays_bind _ _ id).
    { eapply mRValues_insert_again; [exact Hins|].
      etrans; [by apply interned_later|exact Hlater1]. }
    intros t2 Ht2. pose proof (only_logged_later _ _ _ Hlater1 Ht2) as Hlater2.
    apply (replays_bind _ _ rest'); [by eapply IH|]. intros; apply replays_ret.
Qed.

Lemma slurpValueFromConstantUnion_again type constArray sa v sb t :
  slurpValueFromConstantUnion type constArray sa = Ok (v, sb) → later sb t →
  replays (slurpValueFromConstantUnion type constArray) v t.
Proof.
  unfold slurpValueFromConstantUnion. intros Hrun Hlater.
  destruct constArray as [|value [|value2 rest]]; [by minv| |].
  - apply bind_Ok in Hrun as (literal & s0 & Hlit & Hrun).
    apply lift_Ok in Hlit as [Hlit ->].
    apply bind_Ok in Hrun as (id & s1 & Hins & Hrun).
    apply ret_Ok in Hrun. injection Hrun as -> ->.
    apply (replays_bind _ _ literal); [apply replays_same; by apply lift_Ok|].
    intros t1 Ht1. pose proof (only_logged_later _ _ _ Hlater Ht1) as Hlater1.
    apply (replays_bind _ _ id); [by eapply mRValues_insert_again|].
    intros; apply replays_ret.
  - apply bind_Ok in Hrun as (u & s0 & Hvec & Hrun).
    apply assertM_Ok in Hvec as [Hvec ->].
    apply bind_Ok in Hrun as (functionName & s0 & Hname & Hrun).
    apply lift_Ok in Hname as [Hname ->].
    apply bind_Ok in Hrun as (functionId & s1 & Hfn & Hrun).
    apply bind_Ok in Hrun as (args & s2 & Hargs & Hrun).
    apply bind_Ok in Hrun as (id & s3 & Hins & Hrun).
    apply ret_Ok in Hrun. injection Hrun as -> ->.
    assert (interned s2 s3) as H23 by (minv; interned_tac).
    pose proof (slurpConstArray_interned _ _ _ _ Hargs) as H12.
    apply (replays_bind _ _ tt); [apply replays_same; by apply assertM_Ok|].
    intros t1 Ht1. pose proof (only_logged_later _ _ _ Hlater Ht1) as Hlater1.
    apply (replays_bind _ _ functionName); [apply replays_same; by apply lift_Ok|].
    intros t2 Ht2. pose proof (only_logged_later _ _ _ Hlater1 Ht2) as Hlater2.
    apply (replays_bind _ _ functionId).
    { eapply mFunctionNames_insert_again; [exact Hfn|].
      etrans; [|exact Hlater2]. apply interned_later. by etrans. }
    intros t3 Ht3. pose proof (only_logged_later _ _ _ Hlater2 Ht3) as Hlater3.
    apply (replays_bind _ _ args).
    { eapply slurpConstArray_again; [exact Hargs|].
      etrans; [|exact Hlater3]. by apply interned_later. }
    intros t4 Ht4. pose proof (only_logged_later _ _ _ Hlater3 Ht4) as Hlater4.
    apply (replays_bind _ _ id); [by eapply mRValues_insert_again|].
    intros; apply replays_ret.
Qed.

Lemma globals_squeeze s sa s' (globals : gmap Z (GlobalSymbolId * Symbol)) :
  interned s sa → interned sa s' →
  bk_mMap (mGlobalSymbols s) = globals → bk_mMap (mGlobalSymbols s') = globals →
  bk_mMap (mGlobalSymbols sa) = globals.
Proof.
  intros [_ _ _ H1 _ _ _ _ _]%interned_preserved [_ _ _ H2 _ _ _ _ _]%interned_preserved
    <- Hs'.
  rewrite Hs' in H2. by apply (anti_symm (⊆)).
Qed.

Lemma slurpValueFromSymbol_again type id accessName localSymbols s v localSymbols' s'
    t scope :
  slurpValueFromSymbol type id accessName localSymbols s = Ok (v, localSymbols', s') →
  bk_mMap (mGlobalSymbols s') = bk_mMap (mGlobalSymbols s) →
  later s' t → bk_mMap (mGlobalSymbols t) = bk_mMap (mGlobalSymbols s) →
  locals_grow localSymbols' scope →
  slurpValueFromSymbol type id accessName scope t = Ok (v, scope, t).
Proof.
  unfold slurpValueFromSymbol. intros Hrun Hsame Hlater Ht Hgrow.
  apply bind_Ok in Hrun as (globalId & s0 & Hget & Hrun).
  apply gets_Ok in Hget. injection Hget as -> ->.
  assert (ByKey.get id (mGlobalSymbols t) = ByKey.get id (mGlobalSymbols s)) as Hgett
    by (by rewrite !ByKey_get_lookup, Ht).
  apply bind_Ok. exists (ByKey.get id (mGlobalSymbols s)), t.
  split; [unfold mGlobalSymbols_get, gets; by rewrite Hgett|].
  destruct (ByKey.get id (mGlobalSymbols s)) as [globalId|] eqn:Hknown.
  - apply ret_Ok in Hrun. by injection Hrun as -> -> ->.
  - apply bind_Ok in Hrun as (nameId & s1 & Hname & Hrun).
    pose proof (mStrings_insert_lookup _ _ _ _ Hname) as Hnamed.
    assert (bk_mMap (mGlobalSymbols s1) = bk_mMap (mGlobalSymbols s)) as Hs1.
    { rewrite mStrings_insert_Ok in Hname. by injection Hname as <- <-. }
    destruct (isBuiltIn type).
    + apply bind_Ok in Hrun as (globalId & s3 & Hins & Hrun).
      apply ret_Ok in Hrun. injection Hrun as -> -> ->.
      apply mGlobalSymbols_insert_lookup in Hins as (symbol & Hstored & _).
      rewrite Hsame in Hstored. rewrite ByKey_get_lookup in Hknown.
      by rewrite Hstored in Hknown.
    + apply bind_Ok in Hrun as (typeId & s3 & Htype & Hrun).
      destruct (ByKey.insert id (mkSymbol nameId (Some typeId)) localSymbols)
        as [localId localSymbols1] eqn:Hlocal.
      apply ret_Ok in Hrun. injection Hrun as -> -> ->.
      pose proof (ByKey_insert_lookup localSymbols id (mkSymbol nameId (Some typeId)))
        as Hstored.
      rewrite Hlocal in Hstored. cbn in Hstored.
      apply bind_Ok. exists nameId, t. split.
      { apply mStrings_insert_hit. eapply lookup_weaken; [exact Hnamed|].
        apply later_preserved. etrans; [|exact Hlater].
        apply interned_later. by eapply slurpType_interned. }
      apply bind_Ok. exists typeId, t. split; [by eapply slurpType_again|].
      destruct (bk_mMap localSymbols1 !! id) as [[l symbol]|] eqn:E; [|done].
      cbn in Hstored. injection Hstored as ->.
      erewrite ByKey_insert_hit; [done|].
      eapply lookup_weaken; [exact E|]. by apply locals_grow_subseteq.
Qed.

(** The property of a node that the induction proves: when the lowering
    of the node left the global symbols as they were, lowering it again
    in a later state with these global symbols and in a larger scope gives
    the same id and changes the log only. *)
Definition value_replays (node : TIntermNode) : Prop :=
  ∀ (globals : gmap Z (GlobalSymbolId * Symbol)) s0 s1 localSymbols s v localSymbols' s'
    t scope,
    slurpValue node localSymbols s = Ok (v, localSymbols', s') →
    interned s0 s → interned s' s1 →
    bk_mMap (mGlobalSymbols s0) = globals → bk_mMap (mGlobalSymbols s1) = globals →
    later s1 t → bk_mMap (mGlobalSymbols t) = globals →
    locals_grow localSymbols' scope →
    replays (slurpValue node scope) (v, scope) t.

Lemma slurpArguments_replays notTyped sequence :
  Forall value_replays sequence →
  ∀ (globals : gmap Z (GlobalSymbolId * Symbol)) s0 s1 localSymbols args s r
    localSymbols' s' t scope,
    slurpArguments slurpValue notTyped sequence localSymbols args s =
      Ok (r, localSymbols', s') →
    interned s0 s → interned s' s1 →
    bk_mMap (mGlobalSymbols s0) = globals → bk_mMap (mGlobalSymbols s1) = globals →
    later s1 t → bk_mMap (mGlobalSymbols t) = globals →
    locals_grow localSymbols' scope →
    replays (slurpArguments slurpValue notTyped sequence scope args) (r, scope) t.
Proof.
  induction 1 as [|arg rest Harg Hrest IH];
    intros globals s0 s1 localSymbols args s r localSymbols' s' t scope
      Hrun Hs0 Hs1 Hg0 Hg1 Hlater Hgt Hgrow; cbn in Hrun |- *.
  - apply ret_Ok in Hrun. injection Hrun as -> -> ->. apply replays_ret.
  - destruct (getAsTyped arg); [|by minv].
    apply bind_Ok in Hrun as ([argId ls1] & sa & Hfirst & Hrun).
    pose proof (slurpValue_Ok_interned _ _ _ _ _ Hfirst) as Hia.
    pose proof (slurpArguments_interned notTyped rest
                  (proj2 (Forall_forall _ _) (λ n _, slurpValue_interned n))
                  _ _ _ _ _ Hrun) as Hib.
    pose proof (slurpArguments_locals notTyped rest
                  (proj2 (Forall_forall _ _) (λ n _, slurpValue_locals n))
                  _ _ _ _ _ _ Hrun) as Hlb.
    apply (replays_bind _ _ (argId, scope)).
    + eapply (Harg globals s0 s1); try eassumption.
      * by etrans.
      * by etrans.
    + intros t1 Ht1. cbn beta iota.
      eapply (IH globals s0 s1); try eassumption.
      * by etrans.
      * by eapply only_logged_later.
      * by rewrite (only_logged_globals _ _ Ht1).
Qed.

Lemma mRValues_insert_interned value s id s' :
  mRValues_insert value s = Ok (id, s') → interned s s'.
Proof. intros Hrun. minv. interned_tac. Qed.

Lemma mFunctionNames_insert_interned value s id s' :
  mFunctionNames_insert value s = Ok (id, s') → interned s s'.
Proof. intros Hrun. minv. interned_tac. Qed.

(** Prove that a state is reached from another by interning, or that a
    scope grew from another, by a chain of the facts at hand. *)
Ltac interned_chain :=
  lazymatch goal with
  | |- interned ?a ?a => reflexivity
  | |- interned ?a ?b =>
      first
        [ assumption
        | match goal with
          | Hstep : interned a ?c |- _ => transitivity c; [exact Hstep|]; interned_chain
          end ]
  end.

Ltac locals_chain :=
  lazymatch goal with
  | |- locals_grow ?a ?a => reflexivity
  | |- locals_grow ?a ?b =>
      first
        [ assumption
        | match goal with
          | Hstep : locals_grow a ?c |- _ => transitivity c; [exact Hstep|]; locals_chain
          end ]
  end.

Ltac later_chain :=
  lazymatch goal with
  | |- later ?a ?t =>
      match goal with
      | Hl : later ?m t |- _ =>
          transitivity m; [apply interned_later; interned_chain|exact Hl]
      end
  end.

(** Lower a child again, by the property of the child. *)
Ltac replay_child IH Hchild :=
  eapply IH;
    [ exact Hchild | interned_chain | interned_chain | eassumption | eassumption
    | eassumption | eassumption | locals_chain ].

(** Move to the state that the step just replayed left. *)
Ltac replay_next :=
  let t1 := fresh "t" in
  let Ht1 := fresh "Ht" in
  intros t1 Ht1; cbn beta iota;
  lazymatch type of Ht1 with
  | only_logged ?t _ =>
      lazymatch goal with
      | Hlater : later _ t, Hgt : bk_mMap (mGlobalSymbols t) = _ |- _ =>
          apply (λ Hl, only_logged_later _ _ _ Hl Ht1) in Hlater;
          rewrite <- (only_logged_globals _ _ Ht1) in Hgt;
          clear Ht1
      end
  end.

Lemma slurpValue_replays node : value_replays node.
Proof.
  induction node as
    [ | | | type cond trueBlock falseBlock IHc IHt IHf | | | type op operand IH
    | type op lhs rhs IHl IHr | type op name sequence IH | ] using TIntermNode_ind;
    intros globals s0 s1 localSymbols s v localSymbols' s' t scope
      Hrun Hs0 Hs1 Hg0 Hg1 Hlater Hgt Hgrow;
    try (cbn in Hrun; by minv).
  - (* selection *)
    cbn in Hrun |- *. unfold slurpValueFromSelection in Hrun |- *.
    apply bind_Ok in Hrun as ([conditionId ls1] & sa & Hc & Hrun).
    destruct trueBlock as [trueNode|]; [|by minv].
    destruct falseBlock as [falseNode|]; [|by minv].
    destruct (getAsTyped trueNode); [|by minv].
    destruct (getAsTyped falseNode); [|by minv].
    apply bind_Ok in Hrun as ([trueId ls2] & sb & Htrue & Hrun).
    apply bind_Ok in Hrun as ([falseId ls3] & sc & Hfalse & Hrun).
    apply bind_Ok in Hrun as (id & sd & Hins & Hrun).
    apply ret_Ok in Hrun. injection Hrun as -> -> ->.
    pose proof (slurpValue_Ok_interned _ _ _ _ _ Hc).
    pose proof (slurpValue_Ok_interned _ _ _ _ _ Htrue).
    pose proof (slurpValue_Ok_interned _ _ _ _ _ Hfalse).
    pose proof (mRValues_insert_interned _ _ _ _ Hins).
    pose proof (slurpValue_Ok_locals _ _ _ _ _ _ Hc).
    pose proof (slurpValue_Ok_locals _ _ _ _ _ _ Htrue).
    pose proof (slurpValue_Ok_locals _ _ _ _ _ _ Hfalse).
    apply (replays_bind _ _ (conditionId, scope));
      [replay_child (IHc globals s0 s1) Hc|replay_next].
    apply (replays_bind _ _ (trueId, scope));
      [replay_child (IHt _ eq_refl globals s0 s1) Htrue|replay_next].
    apply (replays_bind _ _ (falseId, scope));
      [replay_child (IHf _ eq_refl globals s0 s1) Hfalse|replay_next].
    apply (replays_bind _ _ id); [|intros; apply replays_ret].
    eapply mRValues_insert_again; [exact Hins|].
    later_chain.
  - (* constant *)
    cbn in Hrun |- *.
    apply bind_Ok in Hrun as (id & sa & Hconst & Hrun).
    apply ret_Ok in Hrun. injection Hrun as -> -> ->.
    apply (replays_bind _ _ id); [|intros; apply replays_ret].
    eapply slurpValueFromConstantUnion_again; [exact Hconst|].
    etrans; [by apply interned_later|done].
  - (* symbol *)
    cbn in Hrun |- *. apply replays_same.
    pose proof (slurpValueFromSymbol_interned _ _ _ _ _ _ _ Hrun) as Hi.
    assert (bk_mMap (mGlobalSymbols s) = globals) as Hs
      by (eapply (globals_squeeze s0 s s1); [done|by etrans|done|done]).
    assert (bk_mMap (mGlobalSymbols s') = globals) as Hs'
      by (eapply (globals_squeeze s0 s' s1); [by etrans|done|done|done]).
    eapply slurpValueFromSymbol_again; [exact Hrun|congruence| |congruence|done].
    etrans; [by apply interned_later|done].
  - (* unary *)
    cbn in Hrun |- *. unfold slurpValueFromUnary in Hrun |- *.
    apply bind_Ok in Hrun as ([operandId ls1] & sa & Hoperand & Hrun).
    apply bind_Ok in Hrun as (operandType & sb & Htyped & Hrun).
    apply deref_Ok in Htyped as [Htyped ->].
    apply bind_Ok in Hrun as (o & sc & Hop & Hrun).
    apply bind_Ok in Hrun as (id & sd & Hins & Hrun).
    apply ret_Ok in Hrun. injection Hrun as -> -> ->.
    pose proof (slurpValue_Ok_interned _ _ _ _ _ Hoperand).
    pose proof (slurpOperator_interned _ _ _ _ _ _ Hop).
    pose proof (mRValues_insert_interned _ _ _ _ Hins).
    apply (replays_bind _ _ (operandId, scope)); [replay_child (IH globals s0 s1) Hoperand|replay_next].
    apply (replays_bind _ _ operandType);
      [apply replays_same; by apply deref_Ok|replay_next].
    apply (replays_bind _ _ o); [|replay_next].
    { eapply slurpOperator_again; [exact Hop|].
      later_chain. }
    apply (replays_bind _ _ id); [|intros; apply replays_ret].
    eapply mRValues_insert_again; [exact Hins|].
    later_chain.
  - (* binary *)
    cbn in Hrun |- *. rewrite slurpValueFromBinary_unfold in Hrun |- *.
    case_decide; [subst op|].
    + cbn in Hrun |- *. destruct rhs; try (by minv).
      apply bind_Ok in Hrun as (u & sa & Hseq & Hrun).
      apply assertM_Ok in Hseq as [Hseq ->].
      apply bind_Ok in Hrun as (id & sd & Hins & Hrun).
      apply ret_Ok in Hrun. injection Hrun as -> -> ->.
      apply (replays_bind _ _ tt); [apply replays_same; by apply assertM_Ok|replay_next].
      apply (replays_bind _ _ id); [|intros; apply replays_ret].
      eapply mRValues_insert_again; [exact Hins|].
      later_chain.
    + apply bind_Ok in Hrun as ([lhsId ls1] & sa & Hl & Hrun).
      apply bind_Ok in Hrun as ([rhsId ls2] & sb & Hr & Hrun).
      apply bind_Ok in Hrun as (leftType & sb' & Htyped & Hrun).
      apply deref_Ok in Htyped as [Htyped ->].
      apply bind_Ok in Hrun as (o & sc & Hop & Hrun).
      apply bind_Ok in Hrun as (id & sd & Hins & Hrun).
      apply ret_Ok in Hrun. injection Hrun as -> -> ->.
      pose proof (slurpValue_Ok_interned _ _ _ _ _ Hl).
      pose proof (slurpValue_Ok_interned _ _ _ _ _ Hr).
      pose proof (slurpOperator_interned _ _ _ _ _ _ Hop).
      pose proof (mRValues_insert_interned _ _ _ _ Hins).
      pose proof (slurpValue_Ok_locals _ _ _ _ _ _ Hl).
      pose proof (slurpValue_Ok_locals _ _ _ _ _ _ Hr).
      apply (replays_bind _ _ (lhsId, scope)); [replay_child (IHl globals s0 s1) Hl|replay_next].
      apply (replays_bind _ _ (rhsId, scope)); [replay_child (IHr globals s0 s1) Hr|replay_next].
      apply (replays_bind _ _ leftType);
        [apply replays_same; by apply deref_Ok|replay_next].
      apply (replays_bind _ _ o); [|replay_next].
      { eapply slurpOperator_again; [exact Hop|].
        later_chain. }
      apply (replays_bind _ _ id); [|intros; apply replays_ret].
      eapply mRValues_insert_again; [exact Hins|].
      later_chain.
  - (* aggregate *)
    rewrite slurpValue_aggregate_unfold in Hrun |- *.
    repeat case_decide; [by minv| |].
    + unfold slurpValueFromFunctionCall in Hrun |- *.
      apply bind_Ok in Hrun as (functionId & sa & Hfn & Hrun).
      apply bind_Ok in Hrun as ([args ls1] & sb & Hargs & Hrun).
      apply bind_Ok in Hrun as (id & sd & Hins & Hrun).
      apply ret_Ok in Hrun. injection Hrun as -> -> ->.
      pose proof (mFunctionNames_insert_interned _ _ _ _ Hfn).
      pose proof (slurpArguments_interned _ _
                    (proj2 (Forall_forall _ _) (λ n _, slurpValue_interned n))
                    _ _ _ _ _ Hargs).
      pose proof (mRValues_insert_interned _ _ _ _ Hins).
      apply (replays_bind _ _ functionId); [|replay_next].
      { eapply mFunctionNames_insert_again; [exact Hfn|].
        later_chain. }
      apply (replays_bind _ _ (args, scope)); [|replay_next].
      { eapply (slurpArguments_replays _ _ IH globals s0 s1);
          [exact Hargs|interned_chain|interned_chain|done|done|eassumption|eassumption
          |done]. }
      apply (replays_bind _ _ id); [|intros; apply replays_ret].
      eapply mRValues_insert_again; [exact Hins|].
      later_chain.
    + unfold slurpValueFromAggregate in Hrun |- *.
      apply bind_Ok in Hrun as ([args ls1] & sb & Hargs & Hrun).
      apply bind_Ok in Hrun as (firstArgType & sb' & Hfirst & Hrun).
      apply bind_Ok in Hrun as (o & sc & Hop & Hrun).
      apply bind_Ok in Hrun as (id & sd & Hins & Hrun).
      apply ret_Ok in Hrun. injection Hrun as -> -> ->.
      assert (sb' = sb ∧
              ∀ t', (match sequence with
                     | [] => ret None
                     | first :: _ =>
                         bind (deref (getAsTyped first)) (λ t0, ret (Some t0))
                     end : M (option TType)) t' = Ok (firstArgType, t')) as [-> Hfirst'].
      { destruct sequence as [|first ?].
        - apply ret_Ok in Hfirst. by injection Hfirst as -> ->.
        - apply bind_Ok in Hfirst as (t0 & sx & Hd & Hret).
          apply deref_Ok in Hd as [Hd ->].
          apply ret_Ok in Hret. injection Hret as -> ->. split; [done|].
          intros t'. apply bind_Ok. exists t0, t'. split; [by apply deref_Ok|done]. }
      pose proof (slurpArguments_interned _ _
                    (proj2 (Forall_forall _ _) (λ n _, slurpValue_interned n))
                    _ _ _ _ _ Hargs).
      pose proof (slurpOperator_interned _ _ _ _ _ _ Hop).
      pose proof (mRValues_insert_interned _ _ _ _ Hins).
      apply (replays_bind _ _ (args, scope)); [|replay_next].
      { eapply (slurpArguments_replays _ _ IH globals s0 s1);
          [exact Hargs|interned_chain|interned_chain|done|done|eassumption|eassumption
          |done]. }
      apply (replays_bind _ _ firstArgType); [by apply replays_same|replay_next].
      apply (replays_bind _ _ o); [|replay_next].
      { eapply slurpOperator_again; [exact Hop|].
        later_chain. }
      apply (replays_bind _ _ id); [|intros; apply replays_ret].
      eapply mRValues_insert_again; [exact Hins|].
      later_chain.
Qed.

(** X17. Common subexpressions are shared. When the lowering of an
    expression left the global symbols as they were, the expression lowers
    again to the same id in every later state of the pass that has these
    global symbols and in every scope that grew from the scope it left:
    no store and no scope changes, and only the lines that the first
    lowering wrote for unrecognized operators can be written to the log
    again. So two occurrences of one expression in a function share one
    RValueId, whatever the expression does. *)
Theorem common_subexpressions_are_shared node localSymbols s v localSymbols' s' :
  slurpValue node localSymbols s = Ok (v, localSymbols', s') →
  bk_mMap (mGlobalSymbols s') = bk_mMap (mGlobalSymbols s) →
  ∀ t scope,
    later s' t → bk_mMap (mGlobalSymbols t) = bk_mMap (mGlobalSymbols s) →
    locals_grow localSymbols' scope →
    ∃ logged, slurpValue node scope t = Ok (v, scope, set_slog (slog t ++ logged) t).
Proof.
  intros Hrun Hsame t scope Hlater Ht Hgrow.
  destruct (slurpValue_replays node (bk_mMap (mGlobalSymbols s)) s s'
              localSymbols s v localSymbols' s' t scope)
    as (t' & Hagain & logged & ->); try done.
  by exists logged.
Qed.

(** *** Constant vectors and constructor calls *)

Lemma set_slog_nil (t : Slurper) : set_slog (slog t ++ []) t = t.
Proof. destruct t. cbn. by rewrite app_nil_r. Qed.

Lemma slurpArguments_of_constants notTyped elementType constArray sa args sb t
    scope acc :
  slurpConstArray constArray sa = Ok (args, sb) → later sb t →
  slurpArguments slurpValue notTyped (constantNodes elementType constArray) scope acc t =
    Ok (acc ++ args, scope, t).
Proof.
  revert sa args acc. induction constArray as [|value rest IH];
    intros sa args acc Hrun Hlater; cbn in Hrun |- *.
  - apply ret_Ok in Hrun. injection Hrun as -> ->. by rewrite app_nil_r.
  - apply bind_Ok in Hrun as (literal & s0 & Hlit & Hrun).
    apply lift_Ok in Hlit as [Hlit ->].
    apply bind_Ok in Hrun as (id & s1 & Hins & Hrun).
    apply bind_Ok in Hrun as (rest' & s2 & Hrest & Hrun).
    apply ret_Ok in Hrun. injection Hrun as -> ->.
    pose proof (slurpConstArray_interned _ _ _ _ Hrest) as Hi.
    apply bind_Ok. exists (ValueRValue id, scope), t. split.
    + apply bind_Ok. exists (ValueRValue id), t. split; [|done].
      apply bind_Ok. exists literal, t. split; [by apply lift_Ok|].
      apply bind_Ok. exists id, t. split; [|done].
      rewrite mRValues_insert_Ok in Hins. injection Hins as <- <-.
      apply mRValues_insert_hit.
      eapply lookup_weaken; [apply ByValue_insert_lookup|].
      assert (later (set_mRValues
                       (ByValue.insert (RValueLiteral literal) (mRValues sa)).2 sa) t)
        as Hl by (etrans; [by apply interned_later|done]).
      apply (later_preserved _ _ Hl).
    + cbn beta iota. specialize (IH _ _ (acc ++ [ValueRValue id]) Hrest Hlater).
      unfold constantNodes in IH. rewrite IH. by rewrite <- app_assoc.
Qed.

(** X18. A constant vector is the call of its constructor. The
    lowering of a constant node of two to four values leaves an RValue that
    the constructor aggregate of that many components, over constant nodes
    of the single values and with a return type that is no array, lowers to
    as well: in every later state the aggregate gets the id of the constant
    and nothing changes. *)
Theorem constant_vectors_are_constructor_calls
    type constArray localSymbols s v localSymbols' s' :
  (2 ≤ length constArray)%nat →
  slurpValue (TIntermConstantUnion type constArray) localSymbols s =
    Ok (v, localSymbols', s') →
  ∀ returnType elementType name scope t,
    isArray returnType = false → later s' t →
    slurpValue
      (TIntermAggregate returnType (vectorConstructorOperator (length constArray)) name
         (constantNodes elementType constArray)) scope t = Ok (v, scope, t).
Proof.
  intros Hlen Hrun returnType elementType name scope t Harray Hlater.
  cbn in Hrun. apply bind_Ok in Hrun as (id0 & sa & Hrun & Hret).
  apply ret_Ok in Hret. injection Hret as -> -> ->.
  unfold slurpValueFromConstantUnion in Hrun.
  destruct constArray as [|value [|value2 rest]]; [cbn in Hlen; lia..|].
  apply bind_Ok in Hrun as (u & s0 & Hvec & Hrun).
  apply assertM_Ok in Hvec as [Hvec ->].
  apply bind_Ok in Hrun as (functionName & s0 & Hname & Hrun).
  apply lift_Ok in Hname as [Hname ->].
  apply bind_Ok in Hrun as (functionId & s1 & Hfn & Hrun).
  apply bind_Ok in Hrun as (args & s2 & Hargs & Hrun).
  apply bind_Ok in Hrun as (id & s3 & Hins & Hrun).
  apply ret_Ok in Hrun. injection Hrun as -> ->.
  pose proof (slurpConstArray_interned _ _ _ _ Hargs) as H12.
  pose proof (mRValues_insert_interned _ _ _ _ Hins) as H23.
  assert (glslangOperatorToRValueOperator
            (vectorConstructorOperator (length (value :: value2 :: rest)))
            (mVersion t) returnType (Some elementType) = Ok (inr functionName, []))
    as Hoperator.
  { unfold isArray in Harray.
    destruct rest as [|? [|? [|? ?]]]; try discriminate Hname;
      injection Hname as <-; cbn; unfold constructorFunctionNameForType;
      by destruct (getArraySizes returnType). }
  assert (bv_mMap (mFunctionNames t) !! functionName = Some functionId) as Hnamed.
  { assert (later s1 t) as Hl1.
    { etrans; [|exact Hlater]. apply interned_later. etrans; [exact H12|exact H23]. }
    rewrite mFunctionNames_insert_Ok in Hfn. injection Hfn as <- <-.
    eapply lookup_weaken; [apply ByValue_insert_lookup|].
    apply (later_preserved _ _ Hl1). }
  rewrite slurpValue_aggregate_unfold.
  rewrite decide_False.
  2:{ rewrite !elem_of_cons, elem_of_nil.
      destruct rest as [|? [|? [|? ?]]]; try discriminate Hname; cbn;
        by intros [|[|[|[|]]]]. }
  rewrite decide_False
    by (destruct rest as [|? [|? [|? ?]]]; try discriminate Hname; done).
  unfold slurpValueFromAggregate.
  apply bind_Ok. exists (args, scope), t. split.
  { apply (slurpArguments_of_constants _ _ _ _ _ _ _ _ [] Hargs).
    etrans; [by apply interned_later|done]. }
  cbn beta iota. apply bind_Ok. exists (Some elementType), t. split; [done|].
  apply bind_Ok. exists (inr functionId), t. split.
  - unfold slurpOperator.
    apply bind_Ok. exists (mVersion t), t. split; [done|].
    apply bind_Ok. exists (inr functionName, []), t. split; [by apply lift_Ok|].
    cbn beta iota. apply bind_Ok. exists tt, t. split.
    { unfold modify. by rewrite set_slog_nil. }
    apply bind_Ok. exists functionId, t. split; [|done].
    by apply mFunctionNames_insert_hit.
  - apply bind_Ok. exists id, t. split; [|done].
    rewrite mRValues_insert_Ok in Hins. injection Hins as <- <-.
    apply mRValues_insert_hit.
    eapply lookup_weaken; [apply ByValue_insert_lookup|].
    apply (later_preserved _ _ Hlater).
Qed.

(** *** The lists in order *)

(** The whole pass, with the Slurper that [intoPack] reads. *)
Lemma fromGlsl_Ok_slurper (intermediate : TIntermediate) pack :
  fromGlsl intermediate = Ok pack →
  ∃ rootNode root s1 s2 s3,
    getTreeRoot intermediate = Some rootNode ∧
    getAsAggregate rootNode = Some root ∧
    interned (initialSlurper (getVersion intermediate)) s1 ∧
    initializers_run (globalInitializers (aggregateSequence root)) s1 s2 ∧
    forEach slurpFunctionDefinition
      (childrenWithOp isFunction (aggregateSequence root)) s2 = Ok (tt, s3) ∧
    newSlurper intermediate = Ok s3 ∧
    pack = intoPack s3.
Proof.
  unfold fromGlsl, newSlurper. intros Hrun.
  destruct (getTreeRoot intermediate) as [rootNode|]; [|discriminate].
  cbn in Hrun.
  destruct (slurpFromRoot _ _) as [[[] s3]|] eqn:Hroot; [|discriminate].
  cbn in Hrun. injection Hrun as <-.
  unfold slurpFromRoot in Hroot.
  destruct (getAsAggregate rootNode) as [root|] eqn:Hagg; [|by minv]. minv.
  match goal with
  | Hs : sortChildren _ _ = Ok ?sorted |- _ =>
      apply sortChildren_Ok in Hs as (Hl & Hq & Hf); cbn in Hl, Hq, Hf;
      rewrite ?Hl, ?Hq, ?Hf in *
  end.
  match goal with
  | Hq : forEachWith _ _ _ _ = Ok _ |- _ =>
      apply forEachWith_sequences_Ok in Hq as [-> Hinit]
  end.
  match goal with
  | Hl : forEach _ (childrenWithOp isLinkerObjects _) _ = Ok (_, ?sa) |- _ =>
      eapply forEach_interned in Hl;
        [|intros x sx ux sx' Hx; eapply forEach_interned; [|exact Hx];
          apply slurpLinkerObject_interned]
  end.
  match goal with
  | u : unit |- _ => destruct u
  end.
  eexists _, _, _, _, _. split_and!; try done.
Qed.

Lemma forEach_initializers_in_order (children : list TIntermNode) s s' :
  forEach slurpGlobalSymbolDefinitionInEmptyScope children s = Ok (tt, s') →
  ∃ definitions,
    mGlobalSymbolDefinitionsInOrder s' = mGlobalSymbolDefinitionsInOrder s ++ definitions ∧
    Forall2 (λ (child : TIntermNode) definition,
               ∃ type symbolType id name accessName right symbol sa sb,
                 child = TIntermBinary type EOpAssign
                           (TIntermSymbol symbolType id name accessName) right ∧
                 bk_mMap (mGlobalSymbols s') !! id = Some (definition.1, symbol) ∧
                 later s sa ∧
                 slurpValue right ByKey.empty sa =
                   Ok (definition.2, ByKey.empty, sb) ∧
                 later sb s')
      children definitions.
Proof.
  revert s. induction children as [|child children IH]; intros s Hrun; cbn in Hrun.
  - apply ret_Ok in Hrun. injection Hrun as ->. exists []. split; [|constructor].
    by rewrite app_nil_r.
  - apply bind_Ok in Hrun as (u & s1 & Hchild & Hrun).
    unfold slurpGlobalSymbolDefinitionInEmptyScope in Hchild.
    apply bind_Ok in Hchild as (ls & s1' & Hchild & Hret).
    apply ret_Ok in Hret. injection Hret as -> ->.
    apply slurpGlobalSymbolDefinition_Ok in Hchild
      as (type & symbolType & id & name & accessName & right & gid & sa & value & sb &
          -> & Hglobal & Hvalue & Hempty & -> & Happ & _ & _ & _ & Hstep).
    assert (ls = ByKey.empty) as ->
      by (eapply locals_grow_empty; [by eapply slurpValue_Ok_locals|done]).
    destruct (forEach slurpGlobalSymbolDefinitionInEmptyScope children _)
      as [[[] s2]|] eqn:Hrest; [|discriminate].
    injection Hrun as ->.
    assert (later (set_mGlobalSymbolDefinitionsInOrder
                     (mGlobalSymbolDefinitionsInOrder sb ++ [(gid, value)]) sb) s')
      as Hrun_later.
    { assert (initializers_run children
                (set_mGlobalSymbolDefinitionsInOrder
                   (mGlobalSymbolDefinitionsInOrder sb ++ [(gid, value)]) sb) s')
        as [_ _ _ _ _ _ Hl]; [|exact Hl].
      clear -Hrest. revert Hrest.
      generalize (set_mGlobalSymbolDefinitionsInOrder
                    (mGlobalSymbolDefinitionsInOrder sb ++ [(gid, value)]) sb).
      induction children as [|c cs IHc]; intros s0 Hrest; cbn in Hrest.
      - apply ret_Ok in Hrest. injection Hrest as ->. apply initializers_run_nil.
      - apply bind_Ok in Hrest as ([] & s1 & Hc & Hrest).
        unfold slurpGlobalSymbolDefinitionInEmptyScope in Hc.
        apply bind_Ok in Hc as (ls & s1' & Hc & Hret).
        apply ret_Ok in Hret. injection Hret as <-.
        assert (forEachWith slurpGlobalSymbolDefinition [c] ByKey.empty s0 =
                  Ok (ls, s1)) as Hone.
        { cbn. apply bind_Ok. by exists ls, s1. }
        apply forEachWith_slurpGlobalSymbolDefinition_Ok in Hone as [_ Hone].
        eapply (initializers_run_app [c] cs); [exact Hone|]. by apply IHc. }
    assert (later sb s') as Hafter.
    { etrans; [apply rtc_once, pass_globalDefinitionInOrder|exact Hrun_later]. }
    destruct (IH _ Hrest) as (definitions & Hlist & Hall).
    exists ((gid, value) :: definitions). split.
    + rewrite Hlist, Happ. by rewrite <- app_assoc.
    + constructor.
      * pose proof (slurpGlobalSymbol_interned _ _ _ _ _ _ Hglobal) as Hsa.
        unfold slurpGlobalSymbol in Hglobal.
        apply bind_Ok in Hglobal as (typeId & sc & Htype & Hglobal).
        apply bind_Ok in Hglobal as (nameId & sd & Hname & Hglobal).
        apply mGlobalSymbols_insert_lookup in Hglobal as (symbol & Hstored & _).
        exists type, symbolType, id, name, accessName, right, symbol, sa, sb.
        split_and!; [done| |by apply interned_later|done|done].
        cbn. eapply lookup_weaken; [exact Hstored|]. apply later_preserved.
        etrans; [apply interned_later; by eapply slurpValue_Ok_interned|done].
      * eapply Forall2_impl; [exact Hall|]. intros c definition
          (type' & symbolType' & id' & name' & accessName' & right' & symbol' & sa' & sb' &
           -> & Hstored' & Hbefore' & Hvalue' & Hafter').
        exists type', symbolType', id', name', accessName', right', symbol', sa', sb'.
        split_and!; [done|done| |done|done].
        etrans; [exact Hstep|exact Hbefore'].
Qed.

(** X19. The lists in order follow the source. In every Pack that
    [fromGlsl] returns, read from the Slurper [s] of the pass: the list of
    function definitions in order has one entry per function node with a
    body, in the order of these nodes in the root, each the FunctionId of
    the name of its node, so a function that is defined twice is listed
    twice; and the list of global definitions in order has one entry per
    global initializer, in the order of the initializers: the entry of an
    initializer holds the GlobalSymbolId that [s] keeps for the symbol on
    its left side, under which the Pack has the symbol, and the value to
    which its right side was lowered, in the empty scope, in a state of
    the pass. *)
Theorem lists_in_order_follow_the_source (intermediate : @TIntermediate double) pack :
  fromGlsl intermediate = Ok pack →
  ∃ rootNode root s,
    getTreeRoot intermediate = Some rootNode ∧
    getAsAggregate rootNode = Some root ∧
    newSlurper intermediate = Ok s ∧
    pack = intoPack s ∧
    Forall2 (λ (fn : TIntermAggregateNode) functionId,
               pack_functionNames pack !! functionId = Some (aggregateName fn))
      (filter isDefinitionNode (childrenWithOp isFunction (aggregateSequence root)))
      (pack_functionDefinitionsInOrder pack) ∧
    Forall2 (λ (child : TIntermNode) definition,
               ∃ type symbolType id name accessName right symbol s1 s2,
                 child = TIntermBinary type EOpAssign
                           (TIntermSymbol symbolType id name accessName) right ∧
                 bk_mMap (mGlobalSymbols s) !! id = Some (definition.1, symbol) ∧
                 pack_globalSymbols pack !! definition.1 = Some symbol ∧
                 later (initialSlurper (getVersion intermediate)) s1 ∧
                 slurpValue right ByKey.empty s1 =
                   Ok (definition.2, ByKey.empty, s2) ∧
                 later s2 s)
      (globalInitializers (aggregateSequence root))
      (pack_globalSymbolDefinitionsInOrder pack).
Proof.
  intros Hrun.
  apply fromGlsl_Ok_slurper in Hrun
    as (rootNode & root & s1 & s2 & s3 & Hroot & Hagg & Hs1 & Hs2 & Hs3 & Hnew & ->).
  assert (Slurper_wf s3) as (_ & _ & [lg Hg] & _ & [lf Hf] & _).
  { pose proof Hs3 as (Hlater3 & _)%forEach_slurpFunctionDefinition_Ok.
    eapply later_preserved; [|apply initialSlurper_wf].
    etrans; [by apply interned_later|]. etrans; [apply Hs2|exact Hlater3]. }
  exists rootNode, root, s3. split_and!; [done|done|done|done| |].
  - pose proof (interned_tables_unchanged _ _ Hs1) as [_ _ _ Ho1].
    destruct Hs2 as [_ _ _ _ _ Ho2 _].
    apply forEach_slurpFunctionDefinition_Ok in Hs3
      as (_ & _ & _ & _ & _ & _ & functionIds & Horder & Hall).
    cbn. rewrite Horder, Ho2, Ho1. cbn.
    eapply Forall2_impl; [exact Hall|]. intros fn functionId Hl. cbn in Hl.
    by apply (ByValue_getFinal_lookup lf _ _ _ Hf).
  - pose proof (interned_tables_unchanged _ _ Hs1) as [_ _ Hg1 _].
    destruct Hs2 as [Hinit _ _ _ _ _ _].
    apply forEach_initializers_in_order in Hinit as (definitions & Hlist & Hall).
    apply forEach_slurpFunctionDefinition_Ok in Hs3 as (Hlater3 & Hg3 & _).
    cbn. rewrite Hg3, Hlist, Hg1. cbn.
    eapply Forall2_impl; [exact Hall|].
    intros child definition
      (type & symbolType & id & name & accessName & right & symbol & sa & sb &
       -> & Hl & Hbefore & Hvalue & Hafter).
    assert (bk_mMap (mGlobalSymbols s3) !! id = Some (definition.1, symbol)) as Hfinal.
    { eapply lookup_weaken; [exact Hl|]. by apply later_preserved. }
    exists type, symbolType, id, name, accessName, right, symbol, sa, sb.
    split_and!; [done|exact Hfinal| | |exact Hvalue|by etrans].
    + apply (ByKey_getFinal_lookup lg _ _ _ Hg). by exists id.
    + etrans; [apply interned_later; exact Hs1|exact Hbefore].
Qed.
End Properties.

(** ** The properties at concrete inputs *)

Lemma texture_function_names_witness :
  textureSamplingSuffix EOpTextureGrad = Some ("Grad", "ARB") ∧
  glslangOperatorToRValueOperator EOpTextureGrad 300 floatType None =
    Ok (inr "textureGrad", []).
Proof.
  split; [reflexivity|].
  apply (proj1 (texture_function_names EOpTextureGrad "Grad" "ARB" floatType eq_refl)).
  reflexivity.
Defined.

Lemma function_tables_of_a_pass_witness :
  ∃ pack,
    fromGlsl globalAndFunction = Ok pack ∧
    ∀ functionId definition,
      pack_functionDefinitions pack !! functionId = Some definition →
      definition_name definition = functionId.
Proof.
  destruct (fromGlsl globalAndFunction) as [pack|p] eqn:Hrun.
  - exists pack. split; [reflexivity|].
    destruct (function_tables_of_a_pass globalAndFunction pack Hrun)
      as (rootNode & root & _ & _ & _ & _ & Hkeys & _).
    exact Hkeys.
  - vm_compute in Hrun. discriminate Hrun.
Defined.

(** C1 fails as stated: lowering a prototype-only function node and then a
    function node of the same name with a body leaves the function id both in
    the prototype set and among the keys of the definition map. *)
Lemma prototype_and_definition_share_an_id :
  ∃ pack,
    fromGlsl prototypeThenDefinition = Ok pack ∧
    mkFunctionId 1 ∈ pack_functionPrototypes pack ∧
    mkFunctionId 1 ∈ dom (pack_functionDefinitions pack) ∧
    pack_functionNames pack !! mkFunctionId 1 = Some "g(".
Proof.
  destruct (fromGlsl prototypeThenDefinition) as [pack|p] eqn:Hrun.
  - exists pack. split; [reflexivity|].
    vm_compute in Hrun. injection Hrun as <-.
    split_and!; [apply (bool_decide_unpack _)|apply (bool_decide_unpack _)|];
      by vm_compute.
  - vm_compute in Hrun. discriminate Hrun.
Qed.

(** C6 fails as stated: for the single qualifier [highp] the present
    qualifiers joined with spaces give the text [highp], but the text that is
    interned is [highp] followed by a space. *)
Lemma qualifier_text_is_not_space_joined :
  presentQualifiers highpOnly = ["highp"] ∧
  joinWithSpaces (presentQualifiers highpOnly) = "highp" ∧
  qualifierText highpOnly = "highp " ∧
  ¬ slurpQualifiers_yields joinWithSpaces highpOnly (initialSlurper 300 : @Slurper Z _ _).
Proof.
  split_and!; try reflexivity.
  unfold slurpQualifiers_yields. intros Heq.
  apply (f_equal (λ r, match r with
                       | Ok (_, s) => bv_mMap (mStrings s) !! "highp "
                       | Fatal _ => None
                       end)) in Heq.
  vm_compute in Heq. discriminate Heq.
Qed.
(** ** Further properties at concrete inputs *)

(** Witness of C2 on the run of inserts [a], [b], [a]. *)
Lemma IdStoreByValue_interns_densely_witness :
  no_overflow (Z.of_nat (length (remove_dups ["a"; "b"; "a"]))) ∧
  bv_mLastId
    (ByValue.insertAll ["a"; "b"; "a"] (ByValue.empty : IdStoreByValue StringId string)).2 =
    2%Z ∧
  (ByValue.insertAll ["a"; "b"; "a"] (ByValue.empty : IdStoreByValue StringId string)).1 =
    [mkStringId 1; mkStringId 2; mkStringId 1].
Proof.
  assert (no_overflow (Z.of_nat (length (remove_dups ["a"; "b"; "a"])))) as Hbound
    by (by vm_compute).
  split; [exact Hbound|]. split; [|reflexivity].
  exact (proj1 (proj2 (@IdStoreByValue_interns_densely StringId string _ _ _)
                 ["a"; "b"; "a"] Hbound)).
Defined.

(** Witness of C7 on the constant [vec3(1.0, 2.0, 3.0)]: it lowers to the
    call of [vec3] on the literals 1.0, 2.0 and 3.0. *)
Lemma constant_union_lowering_witness :
  ∃ id functionId a1 a2 a3 s',
    slurpValue (TIntermConstantUnion vec3Type [ConstD 1; ConstD 2; ConstD 3])
      ByKey.empty (initialSlurper 300 : @Slurper Z _ _) =
      Ok (ValueRValue id, ByKey.empty, s') ∧
    ByValue.getFinal (mRValues s') !! id =
      Some (RValueEvaluable
              (mkEvaluableRValue (inr functionId)
                 [ValueRValue a1; ValueRValue a2; ValueRValue a3])) ∧
    ByValue.getFinal (mFunctionNames s') !! functionId = Some "vec3" ∧
    ByValue.getFinal (mRValues s') !! a1 = Some (RValueLiteral (LiteralDouble 1)) ∧
    ByValue.getFinal (mRValues s') !! a2 = Some (RValueLiteral (LiteralDouble 2)) ∧
    ByValue.getFinal (mRValues s') !! a3 = Some (RValueLiteral (LiteralDouble 3)).
Proof.
  assert (isOk (slurpValue (TIntermConstantUnion vec3Type [ConstD 1; ConstD 2; ConstD 3])
                  ByKey.empty (initialSlurper 300 : @Slurper Z _ _)) = true)
    as Hok by (vm_compute; reflexivity).
  pose proof (constant_union_lowering vec3Type [ConstD 1; ConstD 2; ConstD 3]
                ByKey.empty (initialSlurper 300 : @Slurper Z _ _)) as Hlowering.
  cbv beta iota zeta in Hlowering.
  destruct Hlowering as (_ & _ & _ & Hsuccess & _).
  destruct (slurpValue (TIntermConstantUnion vec3Type [ConstD 1; ConstD 2; ConstD 3])
              ByKey.empty (initialSlurper 300 : @Slurper Z _ _))
    as [[r s']|p]; [|discriminate Hok].
  destruct (Hsuccess r s' eq_refl)
    as (_ & _ & functionId & literals & args & id & -> & Hliterals & _ & _ & _ & _ &
        Hfinal).
  destruct (Hfinal (initialSlurper_wf 300)) as (Hid & Hname & Harguments).
  apply Forall2_cons_inv_l in Hliterals as (l1 & literals1 & Hl1 & Hliterals & ->).
  apply Forall2_cons_inv_l in Hliterals as (l2 & literals2 & Hl2 & Hliterals & ->).
  apply Forall2_cons_inv_l in Hliterals as (l3 & literals3 & Hl3 & Hliterals & ->).
  apply Forall2_nil_inv_l in Hliterals as ->.
  injection Hl1 as <-. injection Hl2 as <-. injection Hl3 as <-.
  apply Forall2_cons_inv_l in Harguments as (x1 & args1 & (a1 & -> & Ha1) & Harguments & ->).
  apply Forall2_cons_inv_l in Harguments as (x2 & args2 & (a2 & -> & Ha2) & Harguments & ->).
  apply Forall2_cons_inv_l in Harguments as (x3 & args3 & (a3 & -> & Ha3) & Harguments & ->).
  apply Forall2_nil_inv_l in Harguments as ->.
  exists id, functionId, a1, a2, a3, s'.
  split; [reflexivity|]. split; [exact Hid|]. split; [exact Hname|].
  split; [exact Ha1|]. split; [exact Ha2|exact Ha3].
Defined.

(** Witness of X1 on the run of inserts [a], [b], [a]. *)
Lemma IdStoreByValue_getFinal_inverts_witness :
  no_overflow (Z.of_nat (length (remove_dups ["a"; "b"; "a"]))) ∧
  ∀ id : StringId,
    is_Some
      (ByValue.getFinal
         (ByValue.insertAll ["a"; "b"; "a"]
            (ByValue.empty : IdStoreByValue StringId string)).2 !! id) ↔
    (1 ≤ to_int id ≤ 2)%Z.
Proof.
  assert (no_overflow (Z.of_nat (length (remove_dups ["a"; "b"; "a"])))) as Hbound
    by (by vm_compute).
  split; [exact Hbound|].
  exact (proj2 (proj2 (proj2 (@IdStoreByValue_getFinal_inverts StringId string _ _ _
                                ["a"; "b"; "a"])) Hbound)).
Defined.


(** Witness of X6 on the type [float]. *)
Lemma slurpType_finds_a_lowered_type_again_witness :
  ∃ typeId s',
    slurpType floatType (initialSlurper 300 : @Slurper Z _ _) = Ok (typeId, s') ∧
    slurpType floatType s' = Ok (typeId, s').
Proof.
  assert (isOk (slurpType floatType (initialSlurper 300 : @Slurper Z _ _)) = true)
    as Hok by (vm_compute; reflexivity).
  destruct (slurpType floatType (initialSlurper 300 : @Slurper Z _ _))
    as [[typeId s']|p] eqn:Hrun; [|discriminate Hok].
  exists typeId, s'. split; [reflexivity|].
  apply (proj2 (slurpType_finds_a_lowered_type_again floatType _ typeId s' Hrun)).
  apply rtc_refl.
Defined.

(** Witness of X7: [x] is declared as a [float], then met again as an [int]
    under the name [y]. *)
Lemma slurpGlobalSymbol_keeps_the_first_declaration_witness :
  ∃ globalSymbolId s,
    slurpGlobalSymbol floatType 10 "x" (initialSlurper 300 : @Slurper Z _ _) =
      Ok (globalSymbolId, s) ∧
    isOk (slurpGlobalSymbol intType 10 "y" s) = isOk (slurpType intType s).
Proof.
  assert (match slurpGlobalSymbol floatType 10 "x"
                  (initialSlurper 300 : @Slurper Z _ _) with
          | Ok (_, s) => is_Some (bk_mMap (mGlobalSymbols s) !! 10)
          | Fatal _ => False
          end) as Hok by (vm_compute; eexists; reflexivity).
  destruct (slurpGlobalSymbol floatType 10 "x" (initialSlurper 300 : @Slurper Z _ _))
    as [[globalSymbolId s]|p]; [|destruct Hok].
  exists globalSymbolId, s. split; [reflexivity|].
  destruct Hok as [[firstId symbol] Hfirst].
  exact (proj2 (slurpGlobalSymbol_keeps_the_first_declaration
                  intType 10 "y" s firstId symbol Hfirst)).
Defined.

(** Witness of X8 on a local symbol. *)
Lemma symbol_resolution_witness :
  ∃ v localSymbols s,
    slurpValueFromSymbol floatType 11 "y" ByKey.empty
      (initialSlurper 300 : @Slurper Z _ _) = Ok (v, localSymbols, s) ∧
    slurpValueFromSymbol floatType 11 "y" localSymbols s = Ok (v, localSymbols, s).
Proof.
  assert (match slurpValueFromSymbol floatType 11 "y" ByKey.empty
                  (initialSlurper 300 : @Slurper Z _ _) with
          | Ok (_, _, s) => ByKey.get 11 (mGlobalSymbols s) = None
          | Fatal _ => False
          end) as Hok by (vm_compute; reflexivity).
  destruct (slurpValueFromSymbol floatType 11 "y" ByKey.empty
              (initialSlurper 300 : @Slurper Z _ _))
    as [[[v localSymbols] s]|p] eqn:Hrun; [|destruct Hok].
  exists v, localSymbols, s. split; [reflexivity|].
  apply (proj2 (symbol_resolution floatType 11 "y" _ _ v localSymbols s Hrun));
    [apply rtc_refl|apply rtc_refl|].
  intros localId _. exact Hok.
Defined.

(** Witness of X13 on [float x; float f(float y) { return y + x; }]. *)
Lemma pack_tables_are_dense_witness :
  ∃ pack,
    fromGlsl globalAndFunction = Ok pack ∧
    no_overflow (Z.of_nat (size (pack_strings pack))) ∧
    denseIds (pack_strings pack) ∧ withoutDuplicates (pack_strings pack).
Proof.
  assert (match fromGlsl globalAndFunction with
          | Ok pack => no_overflow (Z.of_nat (size (pack_strings pack)))
          | Fatal _ => False
          end) as Hbound by (by vm_compute).
  destruct (fromGlsl globalAndFunction) as [pack|p] eqn:Hrun; [|destruct Hbound].
  exists pack. split; [reflexivity|]. split; [exact Hbound|].
  destruct (proj1 (proj2 (pack_tables_are_dense globalAndFunction pack Hrun)))
    as [Hdense Hdistinct].
  split; [exact (Hdense Hbound)|exact Hdistinct].
Defined.

(** Witness of X14 on [float x = 1.0;]. *)
Lemma pack_mentions_its_own_ids_witness :
  ∃ pack,
    fromGlsl initializedGlobal = Ok pack ∧
    ∀ globalSymbolId value,
      (globalSymbolId, value) ∈ pack_globalSymbolDefinitionsInOrder pack →
      is_Some (pack_globalSymbols pack !! globalSymbolId) ∧
      globalValueClosed pack value.
Proof.
  assert (isOk (fromGlsl initializedGlobal) = true) as Hok by (vm_compute; reflexivity).
  destruct (fromGlsl initializedGlobal) as [pack|p] eqn:Hrun; [|discriminate Hok].
  exists pack. split; [reflexivity|].
  exact (proj2 (proj2 (proj2 (pack_mentions_its_own_ids initializedGlobal pack Hrun)))).
Defined.

(** Witness of X16 on the parameters [(float y, int z)]. *)
Lemma parameters_are_the_first_local_symbols_witness :
  ∃ parameters localSymbols s,
    slurpParameters
      [TIntermSymbol floatType 11 "y" "y"; TIntermSymbol intType 12 "z" "z"]
      ByKey.empty [] (initialSlurper 300 : @Slurper Z _ _) =
      Ok (parameters, localSymbols, s) ∧
    parameters = [mkLocalSymbolId 1; mkLocalSymbolId 2].
Proof.
  assert (isOk (slurpParameters
                  [TIntermSymbol floatType 11 "y" "y"; TIntermSymbol intType 12 "z" "z"]
                  ByKey.empty [] (initialSlurper 300 : @Slurper Z _ _)) = true)
    as Hok by (vm_compute; reflexivity).
  destruct (slurpParameters
              [TIntermSymbol floatType 11 "y" "y"; TIntermSymbol intType 12 "z" "z"]
              ByKey.empty [] (initialSlurper 300 : @Slurper Z _ _))
    as [[[parameters localSymbols] s]|p] eqn:Hrun; [|discriminate Hok].
  exists parameters, localSymbols, s. split; [reflexivity|].
  apply (proj2 (proj2 (proj2
           (parameters_are_the_first_local_symbols _ _ _ _ _ Hrun)))).
  - apply (bool_decide_unpack _). vm_compute. exact I.
  - by vm_compute.
Defined.

(** Witness of X17 on the expression [y + 1.0]. *)
Lemma common_subexpressions_are_shared_witness :
  ∃ v localSymbols s logged,
    slurpValue
      (TIntermBinary floatType EOpAdd
         (TIntermSymbol floatType 11 "y" "y")
         (TIntermConstantUnion floatType [ConstD 1]))
      ByKey.empty (initialSlurper 300 : @Slurper Z _ _) = Ok (v, localSymbols, s) ∧
    slurpValue
      (TIntermBinary floatType EOpAdd
         (TIntermSymbol floatType 11 "y" "y")
         (TIntermConstantUnion floatType [ConstD 1]))
      localSymbols s = Ok (v, localSymbols, set_slog (slog s ++ logged) s).
Proof.
  assert (match slurpValue
                  (TIntermBinary floatType EOpAdd
                     (TIntermSymbol floatType 11 "y" "y")
                     (TIntermConstantUnion floatType [ConstD 1]))
                  ByKey.empty (initialSlurper 300 : @Slurper Z _ _) with
          | Ok (_, _, s) =>
              bk_mMap (mGlobalSymbols s) =
              bk_mMap (mGlobalSymbols (initialSlurper 300 : @Slurper Z _ _))
          | Fatal _ => False
          end) as Hglobals by (vm_compute; reflexivity).
  destruct (slurpValue
              (TIntermBinary floatType EOpAdd
                 (TIntermSymbol floatType 11 "y" "y")
                 (TIntermConstantUnion floatType [ConstD 1]))
              ByKey.empty (initialSlurper 300 : @Slurper Z _ _))
    as [[[v localSymbols] s]|p] eqn:Hrun; [|destruct Hglobals].
  destruct (common_subexpressions_are_shared _ _ _ v localSymbols s Hrun Hglobals
              s localSymbols (rtc_refl _ _) Hglobals (rtc_refl _ _)) as [logged Hagain].
  exists v, localSymbols, s, logged. split; [reflexivity|exact Hagain].
Defined.

(** Witness of X18 on the constant [vec3(1.0, 2.0, 3.0)]. *)
Lemma constant_vectors_are_constructor_calls_witness :
  ∃ v localSymbols s,
    slurpValue (TIntermConstantUnion vec3Type [ConstD 1; ConstD 2; ConstD 3])
      ByKey.empty (initialSlurper 300 : @Slurper Z _ _) = Ok (v, localSymbols, s) ∧
    slurpValue
      (TIntermAggregate vec3Type EOpConstructVec3 ""
         (constantNodes floatType [ConstD 1; ConstD 2; ConstD 3]))
      localSymbols s = Ok (v, localSymbols, s).
Proof.
  assert (isOk (slurpValue (TIntermConstantUnion vec3Type [ConstD 1; ConstD 2; ConstD 3])
                  ByKey.empty (initialSlurper 300 : @Slurper Z _ _)) = true)
    as Hok by (vm_compute; reflexivity).
  destruct (slurpValue (TIntermConstantUnion vec3Type [ConstD 1; ConstD 2; ConstD 3])
              ByKey.empty (initialSlurper 300 : @Slurper Z _ _))
    as [[[v localSymbols] s]|p] eqn:Hrun; [|discriminate Hok].
  exists v, localSymbols, s. split; [reflexivity|].
  apply (constant_vectors_are_constructor_calls
           vec3Type [ConstD 1; ConstD 2; ConstD 3]
           ByKey.empty (initialSlurper 300) v localSymbols s);
    [simpl; lia|exact Hrun|reflexivity|apply rtc_refl].
Defined.

(** Witness of X19 on [float x = 1.0;]. *)
Lemma lists_in_order_follow_the_source_witness :
  ∃ pack s,
    fromGlsl initializedGlobal = Ok pack ∧
    newSlurper initializedGlobal = Ok s ∧
    Forall2 (λ (child : TIntermNode) definition,
               ∃ type symbolType id name accessName right symbol s1 s2,
                 child = TIntermBinary type EOpAssign
                           (TIntermSymbol symbolType id name accessName) right ∧
                 bk_mMap (mGlobalSymbols s) !! id = Some (definition.1, symbol) ∧
                 pack_globalSymbols pack !! definition.1 = Some symbol ∧
                 later (initialSlurper (getVersion initializedGlobal)) s1 ∧
                 slurpValue right ByKey.empty s1 = Ok (definition.2, ByKey.empty, s2) ∧
                 later s2 s)
      [TIntermBinary floatType EOpAssign (TIntermSymbol floatType 10 "x" "x")
         (TIntermConstantUnion floatType [ConstD 1])]
      (pack_globalSymbolDefinitionsInOrder pack).
Proof.
  assert (isOk (fromGlsl initializedGlobal) = true) as Hok by (vm_compute; reflexivity).
  destruct (fromGlsl initializedGlobal) as [pack|p] eqn:Hrun; [|discriminate Hok].
  destruct (lists_in_order_follow_the_source initializedGlobal pack Hrun)
    as (rootNode & root & s & Hroot & Haggregate & Hslurper & _ & _ & Hglobals).
  injection Hroot as <-. injection Haggregate as <-.
  exists pack, s. split; [reflexivity|]. split; [exact Hslurper|exact Hglobals].
Defined.
